(** * Scheduled broadcast engine of yen.js: a shallow embedding

    The development follows the forwarding engine of [src/yen.js]:
    [getRandomOpenTopic], [forwardWithClient], the configuration step and
    the cycle loop of [standardForward], and the cycle loop of
    [batchForward].

    JavaScript numbers that hold operator-entered delays and durations
    ([Number.parseFloat]) are modelled as rationals [Q]: doubling such a
    number is exact, and [NaN] is not a value of the model.  Counters,
    message ids and clock readings are integers.  Every interaction with the
    outside (the Telegram client, [Math.random], [Date.now]) is answered by
    an explicit oracle, so each function below is executable; console output
    is left out. *)

From Stdlib Require Import ZArith QArith Qround List String Ascii Bool Lia Lqa Sorted.
Import ListNotations.

Set Implicit Arguments.

(* ================================================================== *)
(** ** Strings: what the engine does with error messages

    A string is held as the bytes of its UTF-8 encoding. *)

Module JsString.

Local Open Scope string_scope.

(** [s.startsWith(p)], returning what follows the prefix. *)
Fixpoint drop_prefix (p s : string) : option string :=
  match p, s with
  | EmptyString, _ => Some s
  | String a p', String b s' =>
      if Ascii.eqb a b then drop_prefix p' s' else None
  | String _ _, EmptyString => None
  end.

(** [hay.includes(needle)]. *)
Fixpoint includes (needle hay : string) : bool :=
  match drop_prefix needle hay with
  | Some _ => true
  | None =>
      match hay with
      | EmptyString => false
      | String _ hay' => includes needle hay'
      end
  end.

Definition lower_ascii (c : ascii) : ascii :=
  let n := nat_of_ascii c in
  if (65 <=? n)%nat && (n <=? 90)%nat then ascii_of_nat (n + 32) else c.

(** [s.toLowerCase()], as far as a search for ASCII text can tell: the
    letters [A] to [Z] become [a] to [z], and the other characters, whose
    bytes are all above 127, are left as they are. *)
Fixpoint toLowerCase (s : string) : string :=
  match s with
  | EmptyString => EmptyString
  | String c s' => String (lower_ascii c) (toLowerCase s')
  end.

Definition is_digit (c : ascii) : bool :=
  let n := nat_of_ascii c in (48 <=? n)%nat && (n <=? 57)%nat.

(** The longest run of decimal digits at the head: the greedy [\d+]. *)
Fixpoint take_digits (s : string) : string :=
  match s with
  | EmptyString => EmptyString
  | String c s' => if is_digit c then String c (take_digits s') else EmptyString
  end.

Definition digit_value (c : ascii) : Z := Z.of_nat (nat_of_ascii c) - 48.

Fixpoint parse_digits (acc : Z) (s : string) : Z :=
  match s with
  | EmptyString => acc
  | String c s' => parse_digits (10 * acc + digit_value c) s'
  end.

(** The Number value of the integer [z]: the double nearest to it, a tie
    going to the one with an even significand.  Every integer of magnitude
    up to 2^53 is its own Number value; above that, doubles are spaced 2,
    4, 8, .. apart.  The model has no [Infinity]: an integer of magnitude
    2^1024 and more is outside it. *)
Definition to_double (z : Z) : Z :=
  let a := Z.abs z in
  if (a <=? 2 ^ 53)%Z then z
  else
    let e := (Z.log2 a - 52)%Z in
    let q := Z.shiftr a e in
    let r := (a - Z.shiftl q e)%Z in
    let half := Z.shiftl 1 (e - 1) in
    let q' := if (r <? half)%Z then q
              else if (half <? r)%Z then (q + 1)%Z
              else if Z.even q then q else (q + 1)%Z in
    (Z.sgn z * Z.shiftl q' e)%Z.

(** [Number.parseInt] on a string of decimal digits: the Number value of
    the integer that the digits denote. *)
Definition parseInt (digits : string) : Z := to_double (parse_digits 0 digits).

End JsString.

(** [message.match(/FLOOD_WAIT_(\d+)/)]: the first capture group of the
    leftmost match, or [None] when the pattern does not occur. *)
Fixpoint floodWaitMatch (message : string) : option string :=
  match message with
  | EmptyString => None
  | String _ rest =>
      match JsString.drop_prefix "FLOOD_WAIT_" message with
      | Some tail =>
          match JsString.take_digits tail with
          | EmptyString => floodWaitMatch rest
          | digits => Some digits
          end
      | None => floodWaitMatch rest
      end
  end.

(** [shouldSuppressError(error)] for an error that carries a message. *)
Definition shouldSuppressError (message : string) : bool :=
  match message with
  | EmptyString => false
  | _ =>
      let errorMsg := JsString.toLowerCase message in
      JsString.includes "timeout" errorMsg
      || JsString.includes "timed out" errorMsg
      || JsString.includes "etimedout" errorMsg
      || JsString.includes "network error" errorMsg
      || JsString.includes "connection" errorMsg
      || JsString.includes "disconnected" errorMsg
      || JsString.includes "socket" errorMsg
  end.

(* ================================================================== *)
(** ** Data model *)

Record Topic := mkTopic {
  topic_id : Z;
  topic_title : string;
  closed : bool }.

Record Entity := mkEntity {
  entity_id : Z;
  username : option string;
  accessHash : option Z }.

Record GroupInfo := mkGroup {
  entity : Entity;
  hasTopics : bool;
  topics : list Topic;
  canWrite : bool }.

Record MessageSource := mkSource {
  sourceChannelId : string;
  messageId : Z }.

(** [groupInfo.entity.username || groupInfo.entity.id] *)
Inductive GroupLabel :=
| ByUsername (name : string)
| ById (id : Z).

Definition group_label (g : GroupInfo) : GroupLabel :=
  match username (entity g) with
  | Some EmptyString | None => ById (entity_id (entity g))
  | Some name => ByUsername name
  end.

Record InputPeerChannel := mkPeer {
  channelId : Z;
  peer_accessHash : Z }.

(** [new Api.InputPeerChannel({channelId: .., accessHash: .. || 0})] *)
Definition inputPeerOf (g : GroupInfo) : InputPeerChannel :=
  {| channelId := entity_id (entity g);
     peer_accessHash := match accessHash (entity g) with
                        | Some h => h
                        | None => 0%Z
                        end |}.

(** The argument of [Api.messages.ForwardMessages].  [topMsgId] is [None]
    both when the field is left out and when it holds [null]: the message
    then goes to the root stream of the destination. *)
Record ForwardMessages := mkForward {
  fromPeer : string;
  fwd_id : list Z;
  randomId : list Z;
  toPeer : InputPeerChannel;
  topMsgId : option Z;
  withMyScore : bool;
  dropAuthor : bool;
  dropMediaCaptions : bool }.

(** One entry of the [results] array of [forwardWithClient]. *)
Record Result := mkResult {
  success : bool;
  group : GroupLabel;
  error : option string }.

(* ================================================================== *)
(** ** Effects of one lane

    A lane is one account's dispatch pass.  Whatever it asks of the outside
    is answered by an [Oracle] in the order of the calls; what it does to
    the outside is appended to a trace. *)

Record Oracle := mkOracle {
  rnd : nat -> Q;                (* successive values of [Math.random()] *)
  net : nat -> option string;    (* successive [client.invoke] calls:
                                    [None] resolves, [Some m] rejects with
                                    an error whose message is [m] *)
  ent : nat -> option string }.  (* successive [client.getEntity] calls *)

Inductive Event :=
| EvInvoke (req : ForwardMessages)   (* [client.invoke(..ForwardMessages(req))] *)
| EvSleep (ms : Q)                   (* [sleep(ms)] *)
| EvGetEntity (id : string)          (* [client.getEntity(id)] *)
| EvSetDelay (d : Q)                 (* an assignment to the lane's current delay *)
| EvTally (ok : bool).               (* [totalSuccessCount++] / [totalFailCount++] *)

Record Sys := mkSys {
  rk : nat;             (* [Math.random] calls so far *)
  nk : nat;             (* [client.invoke] calls so far *)
  ek : nat;             (* [client.getEntity] calls so far *)
  trace : list Event }.

Definition sys0 : Sys := {| rk := 0; nk := 0; ek := 0; trace := [] |}.

Section LaneMonad.

(** [Mem] is the mutable memory the lane's code works on. *)
Variable Mem : Type.

Definition M (A : Type) : Type := Oracle -> Sys -> Mem -> A * Sys * Mem.

Definition ret {A} (a : A) : M A := fun _ s m => (a, s, m).

Definition bind {A B} (c : M A) (k : A -> M B) : M B :=
  fun o s m => let '(a, s', m') := c o s m in k a o s' m'.

Definition emit (e : Event) : M unit :=
  fun _ s m =>
    (tt, {| rk := rk s; nk := nk s; ek := ek s; trace := trace s ++ [e] |}, m).

Definition getMem : M Mem := fun _ s m => (m, s, m).

Definition putMem (m' : Mem) : M unit := fun _ s _ => (tt, s, m').

(** [Math.random()] *)
Definition Math_random : M Q :=
  fun o s m =>
    (rnd o (rk s),
     {| rk := S (rk s); nk := nk s; ek := ek s; trace := trace s |}, m).

(** [await sleep(ms)] *)
Definition sleep (ms : Q) : M unit := emit (EvSleep ms).

(** [await client.invoke(new Api.messages.ForwardMessages(req))]:
    [None] when the call resolves, the error message when it throws. *)
Definition invoke (req : ForwardMessages) : M (option string) :=
  fun o s m =>
    (net o (nk s),
     {| rk := rk s; nk := S (nk s); ek := ek s;
        trace := trace s ++ [EvInvoke req] |}, m).

(** [await client.getEntity(id)]: [None] when the entity is found. *)
Definition getEntity (id : string) : M (option string) :=
  fun o s m =>
    (ent o (ek s),
     {| rk := rk s; nk := nk s; ek := S (ek s);
        trace := trace s ++ [EvGetEntity id] |}, m).

End LaneMonad.

Arguments ret {Mem A} a.
Arguments bind {Mem A B} c k.
Arguments emit {Mem} e.
Arguments getMem {Mem}.
Arguments putMem {Mem} m'.
Arguments Math_random {Mem}.
Arguments sleep {Mem} ms.
Arguments invoke {Mem} req.
Arguments getEntity {Mem} id.

Declare Scope lane_scope.
Delimit Scope lane_scope with lane.
Notation "x <- c ;; k" := (bind c (fun x => k))
  (at level 61, c at next level, right associativity) : lane_scope.
Notation "c ;; k" := (bind c (fun _ => k))
  (at level 61, right associativity) : lane_scope.

(** [for (const x of xs) body(x)] *)
Fixpoint forOf {Mem A} (xs : list A) (body : A -> M Mem unit) : M Mem unit :=
  match xs with
  | [] => ret tt
  | x :: xs' => bind (body x) (fun _ => forOf xs' body)
  end.

(* ================================================================== *)
(** ** Topic selection *)

Definition openTopicsOf (ts : list Topic) : list Topic :=
  filter (fun t => negb (closed t)) ts.

(** [Math.floor(x)] *)
Definition Math_floor (x : Q) : Z := Qfloor x.

Definition Q_of_nat (n : nat) : Q := inject_Z (Z.of_nat n).

Local Open Scope lane_scope.

(** [getRandomOpenTopic(topics)]; [null] is [None]. *)
Definition getRandomOpenTopic {Mem} (topics : list Topic) : M Mem (option Z) :=
  let openTopics := openTopicsOf topics in
  if (List.length openTopics =? 0)%nat then ret None
  else
    r <- Math_random ;;
    let randomIndex := Math_floor (r * Q_of_nat (List.length openTopics)) in
    ret (option_map topic_id (nth_error openTopics (Z.to_nat randomIndex))).

(* ================================================================== *)
(** ** forwardWithClient *)

(** The per-account configuration that [standardForward] builds. *)
Record Config := mkConfig {
  phoneNumber : string;
  messageSources : list MessageSource;
  initialDelay : Q;
  currentDelay : Q;
  writableGroups : list GroupInfo }.

(** The lane's memory: the [config] object and the local [results] array. *)
Record LaneMem := mkLaneMem {
  config : Config;
  results : list Result }.

Definition L := M LaneMem.

Definition set_currentDelay (d : Q) (c : Config) : Config :=
  {| phoneNumber := phoneNumber c;
     messageSources := messageSources c;
     initialDelay := initialDelay c;
     currentDelay := d;
     writableGroups := writableGroups c |}.

(** [config.currentDelay] *)
Definition get_currentDelay : L Q :=
  m <- getMem ;; ret (currentDelay (config m)).

(** [config.currentDelay = d] *)
Definition assign_currentDelay (d : Q) : L unit :=
  m <- getMem ;;
  putMem {| config := set_currentDelay d (config m); results := results m |} ;;
  emit (EvSetDelay d).

(** [results.push(r)] *)
Definition push (r : Result) : L unit :=
  m <- getMem ;;
  putMem {| config := config m; results := results m ++ [r] |}.

(** [Math.floor(Math.random() * 2147483647)] *)
Definition freshRandomId {Mem} : M Mem Z :=
  r <- Math_random ;; ret (Math_floor (r * inject_Z 2147483647)).

(** The delivery block that the source writes out at each call site:
[[
  if (groupInfo.hasTopics) {
    const topicId = await getRandomOpenTopic(groupInfo.topics)
    await client.invoke(new Api.messages.ForwardMessages({.., topMsgId: topicId, ..}))
  } else {
    await client.invoke(new Api.messages.ForwardMessages({..}))
  }
]]
    The value is [None] when the block completes and the message of the
    error when [client.invoke] throws. *)
Definition deliver {Mem} (sourceChannel : string) (messageId : Z)
    (inputPeer : InputPeerChannel) (groupInfo : GroupInfo)
    : M Mem (option string) :=
  if hasTopics groupInfo then
    topicId <- getRandomOpenTopic (topics groupInfo) ;;
    rid <- freshRandomId ;;
    invoke {| fromPeer := sourceChannel; fwd_id := [messageId];
              randomId := [rid]; toPeer := inputPeer; topMsgId := topicId;
              withMyScore := false; dropAuthor := false;
              dropMediaCaptions := false |}
  else
    rid <- freshRandomId ;;
    invoke {| fromPeer := sourceChannel; fwd_id := [messageId];
              randomId := [rid]; toPeer := inputPeer; topMsgId := None;
              withMyScore := false; dropAuthor := false;
              dropMediaCaptions := false |}.

(** The renaming of known error messages in the non-rate-limit branch. *)
Definition classify (message : string) : string :=
  if shouldSuppressError message then "Connection issue"%string
  else if JsString.includes "CHAT_WRITE_FORBIDDEN" message
       then "Writing is forbidden in this chat"%string
  else if JsString.includes "TOPIC_CLOSED" message
       then "The topic is closed"%string
  else if JsString.includes "CHANNEL_PRIVATE" message
       then "The channel is private or you are not a member"%string
  else message.

Definition ok_result (g : GroupInfo) : Result :=
  {| success := true; group := group_label g; error := None |}.

Definition fail_result (g : GroupInfo) (message : string) : Result :=
  {| success := false; group := group_label g; error := Some message |}.

(** The body of [for (const groupInfo of config.writableGroups)].  The outer
    [try .. catch (groupError)] of the source has nothing to catch here:
    what [client.invoke] throws is caught by the two inner handlers, and the
    rest of the body (building the peer, matching the message, [sleep]) does
    not throw.  Its handler pushes a failure and sleeps for the current
    delay, as the failure branches below do. *)
Definition forwardToGroup (sourceChannel : string) (messageId : Z)
    (groupInfo : GroupInfo) : L unit :=
  let inputPeer := inputPeerOf groupInfo in
  outcome <- deliver sourceChannel messageId inputPeer groupInfo ;;
  match outcome with
  | None => push (ok_result groupInfo)
  | Some message =>                                  (* catch (forwardError) *)
      match floodWaitMatch message with
      | Some digits =>
          let waitSeconds := JsString.parseInt digits in
          sleep (inject_Z waitSeconds * 1000) ;;
          d <- get_currentDelay ;;
          assign_currentDelay (d * 2) ;;
          retry <- deliver sourceChannel messageId inputPeer groupInfo ;;
          match retry with
          | None => push (ok_result groupInfo)
          | Some retryMessage =>                     (* catch (retryError) *)
              push (fail_result groupInfo retryMessage)
          end
      | None => push (fail_result groupInfo (classify message))
      end
  end ;;
  d <- get_currentDelay ;;
  sleep (d * 1000).

(** [forwardWithClient(client, config, sourceChannel, messageId)]: the
    memory it leaves holds the [results] array that the source returns and
    the [config] object, which is shared with the caller. *)
Definition forwardWithClient (sourceChannel : string) (messageId : Z) : L unit :=
  m <- getMem ;;
  forOf (writableGroups (config m)) (forwardToGroup sourceChannel messageId).

(** Running a lane on a configuration, from a fresh [results] array. *)
Definition run_lane (o : Oracle) (c : Config) (sourceChannel : string)
    (messageId : Z) : Sys * LaneMem :=
  let '(_, s, m) :=
    forwardWithClient sourceChannel messageId o sys0
      {| config := c; results := [] |} in
  (s, m).


(* ================================================================== *)
(** ** The configuration step of standardForward *)

(** An element of [accountsWithGroupData], with what the operator enters
    for it: the message sources and the delay between forwards (read with
    [Number.parseFloat]). *)
Record AccountSetup := mkAccountSetup {
  as_phoneNumber : string;
  as_groups : list GroupInfo;          (* [groupData.groups] *)
  as_messageSources : list MessageSource;
  as_forwardDelay : Q }.

(** [for (const { account, groupData } of accountsWithGroupData)]: an
    account without a writable group is skipped, the others get a config
    whose two delays are the delay entered. *)
Fixpoint configure (accounts : list AccountSetup) : list Config :=
  match accounts with
  | [] => []
  | a :: rest =>
      let writableGroups := filter (fun g => canWrite g) (as_groups a) in
      if (List.length writableGroups =? 0)%nat then configure rest
      else
        {| phoneNumber := as_phoneNumber a;
           messageSources := as_messageSources a;
           initialDelay := as_forwardDelay a;
           currentDelay := as_forwardDelay a;
           writableGroups := writableGroups |} :: configure rest
  end.

(* ================================================================== *)
(** ** The cycle loop of standardForward *)

(** JavaScript [a % b] on integers: the sign follows the dividend. *)
Definition js_rem (a b : Z) : Z := Z.rem a b.

(** [(cycleCount - 1) % config.messageSources.length] *)
Definition messageIndex (cycleCount : nat) (sourceCount : nat) : Z :=
  js_rem (Z.of_nat cycleCount - 1) (Z.of_nat sourceCount).

(** [xs[i]] for an integer index; [None] is [undefined].  With an empty
    array the index expression above is [NaN] and the read is [undefined]. *)
Definition js_index {A} (xs : list A) (i : Z) : option A :=
  if (List.length xs =? 0)%nat then None
  else if (i <? 0)%Z then None
  else nth_error xs (Z.to_nat i).

(** [a >= b] and [a < b] on numbers. *)
Definition js_ge (a b : Q) : bool := Qle_bool b a.
Definition js_lt (a b : Q) : bool := negb (Qle_bool b a).

(** What the world answers to the scheduler. *)
Record World := mkWorld {
  clock : nat -> Z;                    (* successive readings of [Date.now()] *)
  connectClient : nat -> nat -> option string;
                                       (* cycle, lane: [None] connects,
                                          [Some m] throws *)
  lane_oracle : nat -> nat -> Oracle;  (* cycle, lane: the lane's client *)
  schedule : nat -> list nat }.        (* cycle: the order in which the event
                                          loop resumes the lanes' tasks *)

(** What a cycle does, in order.  Lanes are numbered by their position in
    [accountConfigs]. *)
Inductive CycleEvent :=
| CeConnect (lane : nat)               (* [connectClient(config.account)] *)
| CeResolve (lane : nat) (id : string) (* [client.getEntity(sourceChannelId)] *)
| CeStart (lane : nat)                 (* the lane's dispatch is started *)
| CeLane (lane : nat) (e : Event)      (* an effect of the lane's dispatch *)
| CeCollect (lane : nat) (rs : list Result)
                                       (* the lane's results are added to the
                                          totals *)
| CeDisconnect (lane : nat)            (* [client.disconnect()] *)
| CeWait (ms : Q).                     (* the sleep that ends the cycle *)

(** The record of one cycle: its number, the clock reading that let it
    start, and what it did. *)
Record CycleLog := mkCycleLog {
  cl_cycle : nat;
  cl_now : Z;
  cl_events : list CycleEvent }.

(** An entry of [connectedClients]; [cc_lane] stands for the reference to
    the lane's [config] object, which lives in [accountConfigs]. *)
Record Connected := mkConnected {
  cc_lane : nat;
  cc_config : Config;
  cc_sourceChannel : string;
  cc_messageSource : MessageSource }.

(** The body of the first [for (const config of accountConfigs)] of a
    cycle: the entry pushed on [connectedClients], if any.  With an empty
    [messageSources] the source read is [undefined], and reading its
    [sourceChannelId] inside the inner [try] throws a TypeError before
    [client.getEntity] is called: [catch (sourceError)] disconnects the
    client. *)
Definition connectOne (w : World) (cycleCount lane : nat) (config : Config)
    : option Connected * list CycleEvent :=
  match connectClient w cycleCount lane with
  | Some _ => (None, [CeConnect lane])                 (* catch (connectError) *)
  | None =>
      let index :=
        messageIndex cycleCount (List.length (messageSources config)) in
      match js_index (messageSources config) index with
      | None =>                                        (* catch (sourceError) *)
          (None, [CeConnect lane; CeDisconnect lane])
      | Some currentMessageSource =>
          let id := sourceChannelId currentMessageSource in
          match ent (lane_oracle w cycleCount lane) 0 with
          | Some _ =>                                  (* catch (sourceError) *)
              (None, [CeConnect lane; CeResolve lane id; CeDisconnect lane])
          | None =>
              (Some {| cc_lane := lane; cc_config := config;
                       cc_sourceChannel := id;
                       cc_messageSource := currentMessageSource |},
               [CeConnect lane; CeResolve lane id])
          end
      end
  end.

(** The whole loop; [lane] is the position of the head of [configs] in
    [accountConfigs]. *)
Fixpoint connectAll (w : World) (cycleCount lane : nat) (configs : list Config)
    : list Connected * list CycleEvent :=
  match configs with
  | [] => ([], [])
  | config :: rest =>
      let '(entry, evs) := connectOne w cycleCount lane config in
      let '(more, evs') := connectAll w cycleCount (S lane) rest in
      (match entry with Some c => c :: more | None => more end, evs ++ evs')
  end.

(** One task of [forwardingPromises], run to completion on its own. *)
Definition lane_task (w : World) (cycleCount : nat) (c : Connected)
    : Sys * LaneMem :=
  run_lane (lane_oracle w cycleCount (cc_lane c)) (cc_config c)
    (cc_sourceChannel c) (messageId (cc_messageSource c)).

Fixpoint replace_nth {A} (n : nat) (x : A) (xs : list A) {struct xs} : list A :=
  match xs, n with
  | [], _ => []
  | _ :: xs', O => x :: xs'
  | y :: xs', S n' => y :: replace_nth n' x xs'
  end.

(** [await Promise.all(tasks)]: the event loop resumes one pending task at
    a time, in the order [order] names them (by position in [tasks]), each
    time for one effect; when [order] is used up every task still pending
    runs to its end.  [queues] holds what each task has left to do. *)
Fixpoint interleave (order : list nat) (queues : list (list CycleEvent))
    : list CycleEvent :=
  match order with
  | [] => List.concat queues
  | k :: order' =>
      match nth_error queues k with
      | Some (e :: q) => e :: interleave order' (replace_nth k q queues)
      | _ => interleave order' queues
      end
  end.

(** The effects of a finished task, as events of its lane. *)
Definition lane_queue (c : Connected) (t : Sys * LaneMem) : list CycleEvent :=
  map (CeLane (cc_lane c)) (trace (fst t)).

(** The configs after the tasks have run: each task worked on the config
    object of its own lane. *)
Fixpoint write_back (done : list (nat * Config)) (configs : list Config)
    : list Config :=
  match done with
  | [] => configs
  | (lane, c) :: done' => write_back done' (replace_nth lane c configs)
  end.

(** [result.filter((r) => r.success).length] *)
Definition count_success (rs : list Result) : Z :=
  Z.of_nat (List.length (filter (fun r => success r) rs)).

(** [result.filter((r) => !r.success).length] *)
Definition count_fail (rs : list Result) : Z :=
  Z.of_nat (List.length (filter (fun r => negb (success r)) rs)).

(** The state of the loop. *)
Record Sched := mkSched {
  cycleCount : nat;
  totalSuccessCount : Z;
  totalFailCount : Z;
  accountConfigs : list Config;
  ticks : nat;                   (* [Date.now()] calls so far *)
  journal : list CycleLog }.     (* the cycles so far, oldest first *)

(** [for (const result of results) { total.. += .. }] *)
Fixpoint tally (rss : list (list Result)) (totals : Z * Z) : Z * Z :=
  match rss with
  | [] => totals
  | result :: rss' =>
      let successCount := count_success result in
      let failCount := count_fail result in
      tally rss' (fst totals + successCount, snd totals + failCount)%Z
  end.

(** Why the loop was left. *)
Inductive Exit :=
| DeadlineAtCycleStart     (* the [while] condition failed *)
| NoClients                (* [connectedClients.length === 0] *)
| DeadlineAfterDispatch.   (* [Date.now() >= endTime] after a cycle *)

(** How many effects a task has before it first gives way to the event
    loop.  The call of [forwardWithClient] inside [connectedClients.map(..)]
    runs up to its first [await]: that of the first request,
    [await client.invoke(..)], when the first destination has no topics (the
    request is then made before the next task is created), and
    [await getRandomOpenTopic(..)], which comes before any request, when it
    has. *)
Definition eager (c : Connected) : nat :=
  match writableGroups (cc_config c) with
  | g :: _ => if hasTopics g then 0 else 1
  | [] => 0
  end.

(** The creation of a task: it is started and runs up to its first
    [await]. *)
Definition task_created (w : World) (n : nat) (c : Connected)
    : list CycleEvent :=
  CeStart (cc_lane c) :: firstn (eager c) (lane_queue c (lane_task w n c)).

(** What a task has left to do once it is created. *)
Definition task_pending (w : World) (n : nat) (c : Connected)
    : list CycleEvent :=
  skipn (eager c) (lane_queue c (lane_task w n c)).

(** What the dispatch of a cycle does once [connectedClients] is known:
    the tasks are created one after the other, awaited together, tallied,
    and the clients disconnected. *)
Definition dispatch_events (w : World) (n : nat) (connectedClients : list Connected)
    : list CycleEvent :=
  List.concat (map (task_created w n) connectedClients)
  ++ interleave (schedule w n) (map (task_pending w n) connectedClients)
  ++ map (fun c => CeCollect (cc_lane c) (results (snd (lane_task w n c))))
       connectedClients
  ++ map (fun c => CeDisconnect (cc_lane c)) connectedClients.

Section StandardForward.

Variable w : World.
Variable endTime : Q.      (* [startTime + durationHours * 60 * 60 * 1000] *)
Variable cycleMins : Q.

(** One turn of [while (Date.now() < endTime) { .. }], the test included. *)
Definition cycle (s : Sched) : Sched * option Exit :=
  let now := clock w (ticks s) in
  if js_lt (inject_Z now) endTime then
    let n := S (cycleCount s) in
    let '(connectedClients, evs) := connectAll w n 0 (accountConfigs s) in
    match connectedClients with
    | [] =>
        ({| cycleCount := n;
            totalSuccessCount := totalSuccessCount s;
            totalFailCount := totalFailCount s;
            accountConfigs := accountConfigs s;
            ticks := S (ticks s);
            journal := journal s ++ [mkCycleLog n now evs] |},
         Some NoClients)
    | _ :: _ =>
        let results :=
          map (fun c => results (snd (lane_task w n c))) connectedClients in
        let '(totalS, totalF) :=
          tally results (totalSuccessCount s, totalFailCount s) in
        let configs' :=
          write_back
            (map (fun c => (cc_lane c, config (snd (lane_task w n c))))
               connectedClients)
            (accountConfigs s) in
        let done := evs ++ dispatch_events w n connectedClients in
        let now' := clock w (S (ticks s)) in
        if js_ge (inject_Z now') endTime then
          ({| cycleCount := n; totalSuccessCount := totalS;
              totalFailCount := totalF; accountConfigs := configs';
              ticks := S (S (ticks s));
              journal := journal s ++ [mkCycleLog n now done] |},
           Some DeadlineAfterDispatch)
        else
          ({| cycleCount := n; totalSuccessCount := totalS;
              totalFailCount := totalF; accountConfigs := configs';
              ticks := S (S (S (ticks s)));
              journal :=
                journal s
                ++ [mkCycleLog n now (done ++ [CeWait (cycleMins * 60 * 1000)])] |},
           None)
    end
  else
    ({| cycleCount := cycleCount s;
        totalSuccessCount := totalSuccessCount s;
        totalFailCount := totalFailCount s;
        accountConfigs := accountConfigs s;
        ticks := S (ticks s);
        journal := journal s |}, Some DeadlineAtCycleStart).

(** The loop, for at most [fuel] turns; [None] means it is still going. *)
Fixpoint loop (fuel : nat) (s : Sched) : Sched * option Exit :=
  match fuel with
  | O => (s, None)
  | S fuel' =>
      match cycle s with
      | (s', Some why) => (s', Some why)
      | (s', None) => loop fuel' s'
      end
  end.

End StandardForward.

(** [standardForward] from [let cycleCount = 0] on: [startTime] is the first
    clock reading. *)
Definition standardForward (w : World) (durationHours cycleMins : Q)
    (configs : list Config) (fuel : nat) : Sched * option Exit :=
  let startTime := clock w 0 in
  let endTime := inject_Z startTime + durationHours * 60 * 60 * 1000 in
  loop w endTime cycleMins fuel
    {| cycleCount := 0; totalSuccessCount := 0; totalFailCount := 0;
       accountConfigs := configs; ticks := 1; journal := [] |}.
(* ================================================================== *)
(** ** The cycle loop of batchForward *)

(** The per-account configuration that [batchForward] builds. *)
Record BatchConfig := mkBatchConfig {
  b_phoneNumber : string;
  messageBatches : list (list MessageSource);
  initialMessageDelay : Q;
  currentMessageDelay : Q;
  initialBatchDelay : Q;
  currentBatchDelay : Q;
  b_writableGroups : list GroupInfo }.

(** What the body of the batch loop works on: the [config] object and the
    two run totals, which this path updates in place. *)
Record BatchMem := mkBatchMem {
  b_config : BatchConfig;
  b_totalSuccessCount : Z;
  b_totalFailCount : Z }.

Definition B := M BatchMem.

Definition set_currentMessageDelay (d : Q) (c : BatchConfig) : BatchConfig :=
  {| b_phoneNumber := b_phoneNumber c;
     messageBatches := messageBatches c;
     initialMessageDelay := initialMessageDelay c;
     currentMessageDelay := d;
     initialBatchDelay := initialBatchDelay c;
     currentBatchDelay := currentBatchDelay c;
     b_writableGroups := b_writableGroups c |}.

Definition get_currentMessageDelay : B Q :=
  m <- getMem ;; ret (currentMessageDelay (b_config m)).

Definition get_currentBatchDelay : B Q :=
  m <- getMem ;; ret (currentBatchDelay (b_config m)).

(** [config.currentMessageDelay = d] *)
Definition assign_currentMessageDelay (d : Q) : B unit :=
  m <- getMem ;;
  putMem {| b_config := set_currentMessageDelay d (b_config m);
            b_totalSuccessCount := b_totalSuccessCount m;
            b_totalFailCount := b_totalFailCount m |} ;;
  emit (EvSetDelay d).

(** [totalSuccessCount++] *)
Definition totalSuccess_incr : B unit :=
  m <- getMem ;;
  putMem {| b_config := b_config m;
            b_totalSuccessCount := b_totalSuccessCount m + 1;
            b_totalFailCount := b_totalFailCount m |} ;;
  emit (EvTally true).

(** [totalFailCount++] *)
Definition totalFail_incr : B unit :=
  m <- getMem ;;
  putMem {| b_config := b_config m;
            b_totalSuccessCount := b_totalSuccessCount m;
            b_totalFailCount := b_totalFailCount m + 1 |} ;;
  emit (EvTally false).

(** [(cycleCount - 1) % config.messageBatches.length] *)
Definition batchIndex (cycleCount : nat) (batchCount : nat) : Z :=
  js_rem (Z.of_nat cycleCount - 1) (Z.of_nat batchCount).

(** The body of [for (let i = 0; i < currentBatch.length; i++)]; [last]
    tells whether [i] is [currentBatch.length - 1]. *)
Definition forwardBatchMessage (inputPeer : InputPeerChannel)
    (groupInfo : GroupInfo) (messageSource : MessageSource) (last : bool)
    : B unit :=
  found <- getEntity (sourceChannelId messageSource) ;;
  match found with
  | Some _ => totalFail_incr                           (* catch (sourceError) *)
  | None =>
      let sourceChannel := sourceChannelId messageSource in
      outcome <-
        deliver sourceChannel (messageId messageSource) inputPeer groupInfo ;;
      match outcome with
      | None => totalSuccess_incr
      | Some message =>                                (* catch (forwardError) *)
          match floodWaitMatch message with
          | Some digits =>
              let waitSeconds := JsString.parseInt digits in
              sleep (inject_Z waitSeconds * 1000) ;;
              d <- get_currentMessageDelay ;;
              assign_currentMessageDelay (d * 2) ;;
              retry <-
                deliver sourceChannel (messageId messageSource) inputPeer
                  groupInfo ;;
              match retry with
              | None => totalSuccess_incr
              | Some _ => totalFail_incr               (* catch (retryError) *)
              end
          | None => totalFail_incr
          end
      end ;;
      if last then ret tt
      else d <- get_currentMessageDelay ;; sleep (d * 1000)
  end.

(** A loop over a list whose body is told when it is at the last element. *)
Fixpoint forOfLast {Mem A} (xs : list A) (body : A -> bool -> M Mem unit)
    : M Mem unit :=
  match xs with
  | [] => ret tt
  | [x] => body x true
  | x :: xs' => bind (body x false) (fun _ => forOfLast xs' body)
  end.

(** The body of [for (const groupInfo of config.writableGroups)] of
    [batchForward]; [last] tells whether [groupInfo] is the last element of
    the array. *)
Definition forwardBatchToGroup (currentBatch : list MessageSource)
    (groupInfo : GroupInfo) (last : bool) : B unit :=
  let inputPeer := inputPeerOf groupInfo in
  forOfLast currentBatch (forwardBatchMessage inputPeer groupInfo) ;;
  if last then ret tt
  else d <- get_currentBatchDelay ;; sleep (d * 1000).

(** What one account does in a batch cycle once its client is connected.
    The batch of the cycle does not depend on the group, so it is looked up
    once; when there is none the first group throws and the account is
    abandoned for the cycle. *)
Definition batchLane (cycleCount : nat) : B unit :=
  m <- getMem ;;
  let config := b_config m in
  let index := batchIndex cycleCount (List.length (messageBatches config)) in
  match js_index (messageBatches config) index with
  | None => ret tt
  | Some currentBatch =>
      forOfLast (b_writableGroups config) (forwardBatchToGroup currentBatch)
  end.

(** The state of the batch loop. *)
Record BatchSched := mkBatchSched {
  bs_cycleCount : nat;
  bs_totalSuccessCount : Z;
  bs_totalFailCount : Z;
  bs_accountConfigs : list BatchConfig;
  bs_ticks : nat;
  bs_journal : list CycleLog }.

Section BatchForward.

Variable w : World.
Variable endTime : Q.
Variable cycleMins : Q.

(** [for (const config of accountConfigs)] of a batch cycle: one account
    after the other. *)
Fixpoint batchAccounts (cycleCount lane : nat) (configs : list BatchConfig)
    (totals : Z * Z) : list BatchConfig * (Z * Z) * list CycleEvent :=
  match configs with
  | [] => ([], totals, [])
  | config :: rest =>
      match connectClient w cycleCount lane with
      | Some _ =>                                    (* catch (batchError) *)
          let '(rest', totals', evs) :=
            batchAccounts cycleCount (S lane) rest totals in
          (config :: rest', totals', CeConnect lane :: evs)
      | None =>
          let '(_, s, m) :=
            batchLane cycleCount (lane_oracle w cycleCount lane) sys0
              {| b_config := config;
                 b_totalSuccessCount := fst totals;
                 b_totalFailCount := snd totals |} in
          let '(rest', totals', evs) :=
            batchAccounts cycleCount (S lane) rest
              (b_totalSuccessCount m, b_totalFailCount m) in
          (b_config m :: rest', totals',
           CeConnect lane :: CeStart lane :: map (CeLane lane) (trace s)
             ++ CeDisconnect lane :: evs)
      end
  end.

(** One turn of the [while] loop of [batchForward], the test included. *)
Definition batchCycle (s : BatchSched) : BatchSched * option Exit :=
  let now := clock w (bs_ticks s) in
  if js_lt (inject_Z now) endTime then
    let n := S (bs_cycleCount s) in
    let '(configs', (totalS, totalF), evs) :=
      batchAccounts n 0 (bs_accountConfigs s)
        (bs_totalSuccessCount s, bs_totalFailCount s) in
    let now' := clock w (S (bs_ticks s)) in
    if js_ge (inject_Z now') endTime then
      ({| bs_cycleCount := n; bs_totalSuccessCount := totalS;
          bs_totalFailCount := totalF; bs_accountConfigs := configs';
          bs_ticks := S (S (bs_ticks s));
          bs_journal := bs_journal s ++ [mkCycleLog n now evs] |},
       Some DeadlineAfterDispatch)
    else
      ({| bs_cycleCount := n; bs_totalSuccessCount := totalS;
          bs_totalFailCount := totalF; bs_accountConfigs := configs';
          bs_ticks := S (S (S (bs_ticks s)));
          bs_journal :=
            bs_journal s
            ++ [mkCycleLog n now (evs ++ [CeWait (cycleMins * 60 * 1000)])] |},
       None)
  else
    ({| bs_cycleCount := bs_cycleCount s;
        bs_totalSuccessCount := bs_totalSuccessCount s;
        bs_totalFailCount := bs_totalFailCount s;
        bs_accountConfigs := bs_accountConfigs s;
        bs_ticks := S (bs_ticks s);
        bs_journal := bs_journal s |}, Some DeadlineAtCycleStart).

Fixpoint batchLoop (fuel : nat) (s : BatchSched) : BatchSched * option Exit :=
  match fuel with
  | O => (s, None)
  | S fuel' =>
      match batchCycle s with
      | (s', Some why) => (s', Some why)
      | (s', None) => batchLoop fuel' s'
      end
  end.

End BatchForward.

(** [batchForward] from [let cycleCount = 0] on. *)
Definition batchForward (w : World) (durationHours cycleMins : Q)
    (configs : list BatchConfig) (fuel : nat) : BatchSched * option Exit :=
  let startTime := clock w 0 in
  let endTime := inject_Z startTime + durationHours * 60 * 60 * 1000 in
  batchLoop w endTime cycleMins fuel
    {| bs_cycleCount := 0; bs_totalSuccessCount := 0; bs_totalFailCount := 0;
       bs_accountConfigs := configs; bs_ticks := 1; bs_journal := [] |}.


(* ================================================================== *)
(** * Vocabulary of the properties *)

(** The requests a trace sends, in order. *)
Fixpoint requests (t : list Event) : list ForwardMessages :=
  match t with
  | [] => []
  | EvInvoke req :: t' => req :: requests t'
  | _ :: t' => requests t'
  end.

(** The sleeps of a trace, in order. *)
Fixpoint sleeps (t : list Event) : list Q :=
  match t with
  | [] => []
  | EvSleep ms :: t' => ms :: sleeps t'
  | _ :: t' => sleeps t'
  end.

(** The values assigned to the current delay, in order. *)
Fixpoint delays (t : list Event) : list Q :=
  match t with
  | [] => []
  | EvSetDelay d :: t' => d :: delays t'
  | _ :: t' => delays t'
  end.

(** The topic [getRandomOpenTopic] answers when it draws [r]. *)
Definition topic_at (ts : list Topic) (r : Q) : option Z :=
  let open := openTopicsOf ts in
  option_map topic_id
    (nth_error open (Z.to_nat (Math_floor (r * Q_of_nat (List.length open))))).


(** The state after [k] more calls of [Math.random]. *)
Definition advance_rk (k : nat) (s : Sys) : Sys :=
  {| rk := k + rk s; nk := nk s; ek := ek s; trace := trace s |}.

(** How many times one delivery block consults [Math.random] for a topic. *)
Definition topic_draws (g : GroupInfo) : nat :=
  if hasTopics g then
    match openTopicsOf (topics g) with [] => 0 | _ :: _ => 1 end
  else 0.

(** The topic a delivery block puts in its request when the random counter
    stands at [k]. *)
Definition topic_of_delivery (g : GroupInfo) (o : Oracle) (k : nat) : option Z :=
  if hasTopics g then
    match openTopicsOf (topics g) with
    | [] => None
    | _ :: _ => topic_at (topics g) (rnd o k)
    end
  else None.

(** The request a delivery block sends when the random counter stands at [k]. *)
Definition request_at (sourceChannel : string) (messageId : Z)
    (inputPeer : InputPeerChannel) (g : GroupInfo) (o : Oracle) (k : nat)
    : ForwardMessages :=
  {| fromPeer := sourceChannel; fwd_id := [messageId];
     randomId := [Math_floor (rnd o (topic_draws g + k) * inject_Z 2147483647)];
     toPeer := inputPeer; topMsgId := topic_of_delivery g o k;
     withMyScore := false; dropAuthor := false; dropMediaCaptions := false |}.

(** The state after a delivery block that drew [draws] times for a topic
    and sent [req]. *)
Definition after_delivery (req : ForwardMessages) (draws : nat) (s : Sys) : Sys :=
  {| rk := S (draws + rk s); nk := S (nk s); ek := ek s;
     trace := trace s ++ [EvInvoke req] |}.

(** The state after the effect [e]. *)
Definition logged (e : Event) (s : Sys) : Sys :=
  {| rk := rk s; nk := nk s; ek := ek s; trace := trace s ++ [e] |}.

(** The memory after [results.push(r)]. *)
Definition pushed (r : Result) (m : LaneMem) : LaneMem :=
  {| config := config m; results := results m ++ [r] |}.

(** The result recorded for a destination after its second request. *)
Definition retry_result (g : GroupInfo) (retry : option string) : Result :=
  match retry with
  | None => ok_result g
  | Some retryMessage => fail_result g retryMessage
  end.

(** Each value of [ds] is the double of the one before it, [d] being the
    value before the first. *)
Fixpoint doubling_from (d : Q) (ds : list Q) : Prop :=
  match ds with
  | [] => True
  | d' :: ds' => d' = (d * 2)%Q /\ doubling_from d' ds'
  end.

(** No value of [ds] is below the one before it. *)
Fixpoint nondecreasing (ds : list Q) : Prop :=
  match ds with
  | [] => True
  | a :: ds' =>
      match ds' with
      | [] => True
      | b :: _ => (a <= b)%Q
      end /\ nondecreasing ds'
  end.

(** Every assignment to the current delay comes right after a sleep. *)
Definition delay_set_after_sleep (t : list Event) : Prop :=
  forall pre d post,
    t = pre ++ EvSetDelay d :: post ->
    exists pre' ms, pre = pre' ++ [EvSleep ms].

(** The destinations a pass sends to, attempt by attempt, when the
    destinations [groups] take [ks] attempts each. *)
Definition attempts_in_order (groups : list GroupInfo) (ks : list nat)
    : list InputPeerChannel :=
  List.concat
    (map (fun gk => repeat (inputPeerOf (fst gk)) (snd gk)) (combine groups ks)).

(** What a pass over [groups] that turns memory [m] into [m'] and adds [t]
    to the trace is known to satisfy. *)
Record pass_facts (groups : list GroupInfo) (m m' : LaneMem) (t : list Event)
    : Prop := mkPassFacts {
  pf_chain : doubling_from (currentDelay (config m)) (delays t);
  pf_delay :
    currentDelay (config m') = last (delays t) (currentDelay (config m));
  pf_waits : delay_set_after_sleep t;
  pf_sleeps :
    List.length (sleeps t) = (List.length groups + List.length (delays t))%nat;
  pf_empty : groups = [] -> t = [] /\ m' = m;
  pf_last :
    groups <> [] ->
    exists t0, t = t0 ++ [EvSleep (currentDelay (config m') * 1000)];
  pf_results :
    exists rs, results m' = results m ++ rs
               /\ map group rs = map group_label groups;
  pf_initial : initialDelay (config m') = initialDelay (config m);
  pf_sources : messageSources (config m') = messageSources (config m);
  pf_groups : writableGroups (config m') = writableGroups (config m);
  pf_order :
    exists ks, List.length ks = List.length groups
               /\ Forall (fun k => k = 1 \/ k = 2)%nat ks
               /\ map toPeer (requests t) = attempts_in_order groups ks }.

(** All the events of a run, cycle after cycle. *)
Definition run_events (j : list CycleLog) : list CycleEvent :=
  List.concat (map cl_events j).

(** Reading a list through a partial view of its elements. *)
Fixpoint pick {A B} (view : A -> option B) (xs : list A) : list B :=
  match xs with
  | [] => []
  | x :: xs' =>
      match view x with
      | Some b => b :: pick view xs'
      | None => pick view xs'
      end
  end.

Definition lane_view (l : nat) (e : CycleEvent) : option Event :=
  match e with
  | CeLane l' ev => if (l' =? l)%nat then Some ev else None
  | _ => None
  end.

(** The effects of the dispatch of lane [l] among [evs], in order. *)
Definition lane_events (l : nat) (evs : list CycleEvent) : list Event :=
  pick (lane_view l) evs.

Definition collect_view (e : CycleEvent) : option (nat * list Result) :=
  match e with
  | CeCollect l rs => Some (l, rs)
  | _ => None
  end.

(** The results added to the totals among [evs], with their lanes. *)
Definition collected (evs : list CycleEvent) : list (nat * list Result) :=
  pick collect_view evs.

Fixpoint sum_success (cs : list (nat * list Result)) : Z :=
  match cs with
  | [] => 0
  | (_, rs) :: cs' => count_success rs + sum_success cs'
  end.

Fixpoint sum_fail (cs : list (nat * list Result)) : Z :=
  match cs with
  | [] => 0
  | (_, rs) :: cs' => count_fail rs + sum_fail cs'
  end.

Definition connect_view (e : CycleEvent) : option nat :=
  match e with
  | CeConnect l => Some l
  | _ => None
  end.

(** The lanes [connectClient] is called for among [evs], in order. *)
Definition connect_attempts (evs : list CycleEvent) : list nat :=
  pick connect_view evs.

Definition start_view (e : CycleEvent) : option nat :=
  match e with
  | CeStart l => Some l
  | _ => None
  end.

(** The lanes whose dispatch is started among [evs], in order. *)
Definition started (evs : list CycleEvent) : list nat :=
  pick start_view evs.

(** The entry of [connectedClients] for lane [l], if there is one. *)
Definition entry_of (cs : list Connected) (l : nat) : option Connected :=
  find (fun c => (cc_lane c =? l)%nat) cs.

(** The start of a lane's dispatch. *)
Definition is_start (e : CycleEvent) : bool :=
  match e with
  | CeStart _ => true
  | _ => false
  end.

(** An event by which results enter the totals: a lane's [results] array
    being added up, or one of the increments of the batch path. *)
Definition counts_result (e : CycleEvent) : bool :=
  match e with
  | CeCollect _ _ => true
  | CeLane _ (EvTally _) => true
  | _ => false
  end.

(** No dispatch is started once a result has entered the totals. *)
Fixpoint started_before_collected (evs : list CycleEvent) : bool :=
  match evs with
  | [] => true
  | e :: evs' =>
      (if counts_result e then forallb (fun e' => negb (is_start e')) evs'
       else true)
      && started_before_collected evs'
  end.

(** The events of a cycle up to the last start of a dispatch. *)
Fixpoint until_last_start (evs : list CycleEvent) : list CycleEvent :=
  match evs with
  | [] => []
  | e :: evs' =>
      match until_last_start evs' with
      | [] => if is_start e then [e] else []
      | pre => e :: pre
      end
  end.

(** The lane of an effect of a lane's task: a request, a wait, a change of
    the delay. *)
Definition effect_lane (e : CycleEvent) : option nat :=
  match e with
  | CeLane l _ => Some l
  | _ => None
  end.

(** The lanes of the effects among [evs], in the order of the effects. *)
Definition effect_lanes (evs : list CycleEvent) : list nat :=
  pick effect_lane evs.

(** The tasks of a cycle are started together: when the last of them is
    started, no result has entered the totals and no lane has got further
    than its first effect. *)
Definition started_together (evs : list CycleEvent) : bool :=
  let pre := until_last_start evs in
  forallb (fun e => negb (counts_result e)) pre
  && forallb (fun l => (List.length (lane_events l pre) <=? 1)%nat)
       (effect_lanes pre).

(** Consecutive repetitions removed. *)
Fixpoint turns (ls : list nat) : list nat :=
  match ls with
  | [] => []
  | a :: ls' =>
      match ls' with
      | b :: _ => if (a =? b)%nat then turns ls' else a :: turns ls'
      | [] => [a]
      end
  end.

Fixpoint no_repeat (ls : list nat) : bool :=
  match ls with
  | [] => true
  | a :: ls' => negb (existsb (Nat.eqb a) ls') && no_repeat ls'
  end.

(** The lanes take one turn each: once another lane has had an effect, a
    lane has no further effect. *)
Definition one_turn_each (ls : list nat) : bool := no_repeat (turns ls).

(** The lane an event belongs to. *)
Definition lane_of_event (e : CycleEvent) : option nat :=
  match e with
  | CeConnect l | CeResolve l _ | CeStart l | CeLane l _
  | CeCollect l _ | CeDisconnect l => Some l
  | CeWait _ => None
  end.

Definition lanes_of (evs : list CycleEvent) : list nat :=
  pick lane_of_event evs.

(** The lanes come one after the other: lane numbers never go down. *)
Fixpoint ascending (ls : list nat) : bool :=
  match ls with
  | [] => true
  | a :: ls' =>
      match ls' with
      | [] => true
      | b :: _ => (a <=? b)%nat
      end && ascending ls'
  end.

(** One turn of the loop of [standardForward], as a step relation: the
    three ways through the body of [cycle]. *)
Section Turn.

Variable w : World.
Variable endTime : Q.
Variable cycleMins : Q.

Inductive Turn (s : Sched) : Sched -> option Exit -> Prop :=
| TurnDeadline :
    js_lt (inject_Z (clock w (ticks s))) endTime = false ->
    Turn s
      {| cycleCount := cycleCount s;
         totalSuccessCount := totalSuccessCount s;
         totalFailCount := totalFailCount s;
         accountConfigs := accountConfigs s;
         ticks := S (ticks s);
         journal := journal s |}
      (Some DeadlineAtCycleStart)
| TurnNoClients :
    js_lt (inject_Z (clock w (ticks s))) endTime = true ->
    fst (connectAll w (S (cycleCount s)) 0 (accountConfigs s)) = [] ->
    Turn s
      {| cycleCount := S (cycleCount s);
         totalSuccessCount := totalSuccessCount s;
         totalFailCount := totalFailCount s;
         accountConfigs := accountConfigs s;
         ticks := S (ticks s);
         journal :=
           journal s
           ++ [mkCycleLog (S (cycleCount s)) (clock w (ticks s))
                 (snd (connectAll w (S (cycleCount s)) 0 (accountConfigs s)))] |}
      (Some NoClients)
| TurnDispatch (late : bool) :
    let n := S (cycleCount s) in
    let cs := fst (connectAll w n 0 (accountConfigs s)) in
    let evs := snd (connectAll w n 0 (accountConfigs s)) in
    let devs := dispatch_events w n cs in
    js_lt (inject_Z (clock w (ticks s))) endTime = true ->
    cs <> [] ->
    js_ge (inject_Z (clock w (S (ticks s)))) endTime = late ->
    Turn s
      {| cycleCount := n;
         totalSuccessCount := totalSuccessCount s + sum_success (collected devs);
         totalFailCount := totalFailCount s + sum_fail (collected devs);
         accountConfigs :=
           write_back
             (map (fun c => (cc_lane c, config (snd (lane_task w n c)))) cs)
             (accountConfigs s);
         ticks := if late then S (S (ticks s)) else S (S (S (ticks s)));
         journal :=
           journal s
           ++ [mkCycleLog n (clock w (ticks s))
                 (evs ++ devs
                  ++ if late then [] else [CeWait (cycleMins * 60 * 1000)])] |}
      (if late then Some DeadlineAfterDispatch else None).

End Turn.

(** The states the loop passes through: those reached by turns that do not
    leave it. *)
Inductive Reach (w : World) (endTime cycleMins : Q) (s : Sched) : Sched -> Prop :=
| Reach_here : Reach w endTime cycleMins s s
| Reach_turn s1 s2 :
    Reach w endTime cycleMins s s1 ->
    Turn w endTime cycleMins s1 s2 None ->
    Reach w endTime cycleMins s s2.

(** The state [standardForward] enters the loop with. *)
Definition start_state (configs : list Config) : Sched :=
  {| cycleCount := 0; totalSuccessCount := 0; totalFailCount := 0;
     accountConfigs := configs; ticks := 1; journal := [] |}.

(** [startTime + durationHours * 60 * 60 * 1000] *)
Definition endTime_of (w : World) (durationHours : Q) : Q :=
  inject_Z (clock w 0) + durationHours * 60 * 60 * 1000.

(** What one turn of the loop can do to the config [c] of a lane, [t]
    being the effects of the lane in that turn: nothing, or one pass over the
    lane's destinations. *)
Definition lane_turn (c c' : Config) (t : list Event) : Prop :=
  (c' = c /\ t = [])
  \/ (exists m', pass_facts (writableGroups c) {| config := c; results := [] |} m' t
                 /\ c' = config m').

(** All the outcomes among what the cycles of a run collected, array after
    array. *)
Definition outcomes (cs : list (nat * list Result)) : list Result :=
  List.concat (map snd cs).

(** How many of the outcomes [rs] carry the success flag [b]. *)
Definition outcomes_with (b : bool) (rs : list Result) : nat :=
  count_occ Bool.bool_dec (map success rs) b.

(** The part of a lane's config that a run leaves alone. *)
Definition same_lane (c0 c : Config) : Prop :=
  initialDelay c = initialDelay c0
  /\ messageSources c = messageSources c0
  /\ writableGroups c = writableGroups c0.

(** A tallied [results] array holds one outcome for each destination of the
    config, in the order of the destinations. *)
Definition one_outcome_each (configs : list Config) (lr : nat * list Result)
    : Prop :=
  exists c, nth_error configs (fst lr) = Some c
            /\ map group (snd lr) = map group_label (writableGroups c).

(** In a cycle, the lanes whose results are tallied are those whose dispatch
    was started, each of them once. *)
Definition tallied_once (cl : CycleLog) : Prop :=
  NoDup (map fst (collected (cl_events cl)))
  /\ started (cl_events cl) = map fst (collected (cl_events cl)).



(** An increment of a run total. *)
Definition is_tally (e : Event) : bool :=
  match e with
  | EvTally _ => true
  | _ => false
  end.

(** The requests of [t] go to the destinations [groups] one destination
    after the other, in the order of [groups]. *)
Definition in_order (groups : list GroupInfo) (t : list Event) : Prop :=
  exists ks, List.length ks = List.length groups
             /\ map toPeer (requests t) = attempts_in_order groups ks.

(** Lane [l], whose destinations are [groups], does nothing among [evs] or
    sends its requests destination after destination. *)
Definition lane_in_order (groups : list GroupInfo) (l : nat)
    (evs : list CycleEvent) : Prop :=
  lane_events l evs = [] \/ in_order groups (lane_events l evs).

(** The part of a batch config that a run leaves alone. *)
Definition same_batch_lane (c0 c : BatchConfig) : Prop :=
  b_writableGroups c = b_writableGroups c0
  /\ messageBatches c = messageBatches c0.

(** A piece of lane code that only adds to the trace, the added part
    satisfying [Q], and leaves the memory related by [R]. *)
Definition extends_trace {Mem A} (Q : list Event -> Prop)
    (R : Mem -> Mem -> Prop) (c : M Mem A) : Prop :=
  forall o s m,
    exists t, trace (snd (fst (c o s m))) = trace s ++ t
              /\ Q t /\ R m (snd (c o s m)).

(** What the batch path leaves alone in the lane's memory. *)
Definition batch_frame (m m' : BatchMem) : Prop :=
  same_batch_lane (b_config m) (b_config m').

(** All the requests of [t] go to [peer]. *)
Definition all_to (peer : InputPeerChannel) (t : list Event) : Prop :=
  exists k, map toPeer (requests t) = repeat peer k.

(** ** Sample data *)

Module Demo.

Definition t_news : Topic :=
  {| topic_id := 11; topic_title := "news"; closed := false |}.
Definition t_archive : Topic :=
  {| topic_id := 12; topic_title := "archive"; closed := true |}.
Definition t_chat : Topic :=
  {| topic_id := 13; topic_title := "chat"; closed := false |}.

(** A forum with two open topics and a closed one. *)
Definition forum : GroupInfo :=
  {| entity := {| entity_id := 100; username := Some "forum"%string;
                  accessHash := Some 5%Z |};
     hasTopics := true; topics := [t_news; t_archive; t_chat];
     canWrite := true |}.

(** A group without topics. *)
Definition plain (id : Z) : GroupInfo :=
  {| entity := {| entity_id := id; username := None; accessHash := None |};
     hasTopics := false; topics := []; canWrite := true |}.

Definition flood_message : string :=
  "A wait of 10 seconds is required (caused by FLOOD_WAIT_10)".

(** Every call succeeds; [Math.random()] keeps answering 0. *)
Definition quiet : Oracle :=
  {| rnd := fun _ => 0%Q; net := fun _ => None; ent := fun _ => None |}.

(** The first request is rate limited, everything after it succeeds; the
    first and the third random draws are 1/4 and 3/4. *)
Definition flood_once : Oracle :=
  {| rnd := fun k => match k with
                     | 0%nat => (1 # 4)%Q
                     | 2%nat => (3 # 4)%Q
                     | _ => 0%Q
                     end;
     net := fun k => match k with
                     | 0%nat => Some flood_message
                     | _ => None
                     end;
     ent := fun _ => None |}.

(** The first request fails for a reason that is no rate limit. *)
Definition forbidden_once : Oracle :=
  {| rnd := fun _ => 0%Q;
     net := fun k => match k with
                     | 0%nat => Some "CHAT_WRITE_FORBIDDEN"%string
                     | _ => None
                     end;
     ent := fun _ => None |}.

Definition source : MessageSource :=
  {| sourceChannelId := "@announcements"; messageId := 42 |}.

(** A lane as [standardForward] builds it from a delay entered as [d]. *)
Definition lane_of (groups : list GroupInfo) (d : Q) : Config :=
  {| phoneNumber := "+10000000001"; messageSources := [source];
     initialDelay := d; currentDelay := d; writableGroups := groups |}.

Definition three_groups : list GroupInfo := [plain 1; plain 2; plain 3].

Definition mem_of (c : Config) : LaneMem := {| config := c; results := [] |}.

End Demo.

Module DemoWorld.

(** A clock that advances by one minute at every reading, from 1000. *)
Definition minute_clock (k : nat) : Z := 1000 + 60000 * Z.of_nat k.

(** Every account connects, every call succeeds. *)
Definition online : World :=
  {| clock := minute_clock;
     connectClient := fun _ _ => None;
     lane_oracle := fun _ _ => Demo.quiet;
     schedule := fun _ => [1; 0; 0; 1]%nat |}.

(** No account connects. *)
Definition offline : World :=
  {| clock := minute_clock;
     connectClient := fun _ _ => Some "Connection issue"%string;
     lane_oracle := fun _ _ => Demo.quiet;
     schedule := fun _ => [] |}.

(** Every account connects; the first request of every lane in every
    cycle is rate limited. *)
Definition throttled : World :=
  {| clock := minute_clock;
     connectClient := fun _ _ => None;
     lane_oracle := fun _ _ => Demo.flood_once;
     schedule := fun _ => [] |}.

(** Every account connects; the first request of every lane in every
    cycle is refused for a reason that is no rate limit. *)
Definition forbidding : World :=
  {| clock := minute_clock;
     connectClient := fun _ _ => None;
     lane_oracle := fun _ _ => Demo.forbidden_once;
     schedule := fun _ => [] |}.

(** As [online], the lanes' tasks taking their turns in another order. *)
Definition online_other_order : World :=
  {| clock := minute_clock;
     connectClient := fun _ _ => None;
     lane_oracle := fun _ _ => Demo.quiet;
     schedule := fun _ => [0; 0; 0]%nat |}.

(** As [online], with a clock that is set back by a millisecond between
    its first two readings. *)
Definition set_back : World :=
  {| clock := fun k => match k with
                       | 0%nat => 1000%Z
                       | 1%nat => 999%Z
                       | _ => minute_clock k
                       end;
     connectClient := fun _ _ => None;
     lane_oracle := fun _ _ => Demo.quiet;
     schedule := fun _ => [] |}.

Definition two_lanes (d : Q) : list Config :=
  [Demo.lane_of [Demo.plain 1; Demo.plain 2] d; Demo.lane_of [Demo.plain 3] d].

(** The two accounts those lanes are configured from. *)
Definition two_accounts (d : Q) : list AccountSetup :=
  [{| as_phoneNumber := "+10000000001";
      as_groups := [Demo.plain 1; Demo.plain 2];
      as_messageSources := [Demo.source]; as_forwardDelay := d |};
   {| as_phoneNumber := "+10000000001";
      as_groups := [Demo.plain 3];
      as_messageSources := [Demo.source]; as_forwardDelay := d |}].

Definition batch_lane_of (groups : list GroupInfo) (d : Q) : BatchConfig :=
  {| b_phoneNumber := "+10000000001"; messageBatches := [[Demo.source]];
     initialMessageDelay := d; currentMessageDelay := d;
     initialBatchDelay := d; currentBatchDelay := d;
     b_writableGroups := groups |}.

Definition two_batch_lanes : list BatchConfig :=
  [batch_lane_of [Demo.plain 1] 1; batch_lane_of [Demo.plain 3] 1].

End DemoWorld.

(* ================================================================== *)
(** * More vocabulary: passes, batches and clocks *)

(** The increments of kind [ok] that a trace makes to the run totals. *)
Fixpoint tallies (ok : bool) (t : list Event) : nat :=
  match t with
  | [] => 0
  | EvTally b :: t' => (if Bool.eqb b ok then 1 else 0) + tallies ok t'
  | _ :: t' => tallies ok t'
  end.

(** A result says it failed exactly when it carries an error. *)
Definition well_formed_result (r : Result) : Prop :=
  success r = true <-> error r = None.

(** What a pass of [forwardWithClient] has done when it has dealt with [k]
    destinations: one result each, one request each and one more for every
    rate-limit hit, at most one hit per destination. *)
Definition pass_account (k : nat) (s : Sys) (m : LaneMem) : Prop :=
  List.length (results m) = k
  /\ List.length (requests (trace s))
     = (k + List.length (delays (trace s)))%nat
  /\ (List.length (delays (trace s)) <= k)%nat
  /\ nk s = List.length (requests (trace s))
  /\ Forall well_formed_result (results m).

(** The request [r] goes to a group of the account [a] in which the
    account may write. *)
Definition to_writable_group_of (a : AccountSetup) (r : ForwardMessages)
    : Prop :=
  exists g, In g (as_groups a) /\ canWrite g = true /\ toPeer r = inputPeerOf g.

(** The clock never runs backwards. *)
Definition monotone_clock (w : World) : Prop :=
  forall i j, (i <= j)%nat -> (clock w i <= clock w j)%Z.

(** A piece of lane code that, with the client [o], only adds to the trace,
    what it adds and what it does to the memory being related by [P]. *)
Definition performs {Mem A} (o : Oracle)
    (P : Mem -> list Event -> Mem -> Prop) (c : M Mem A) : Prop :=
  forall s m,
    exists t, trace (snd (fst (c o s m))) = trace s ++ t
              /\ P m t (snd (c o s m)).

(** The only part of a batch config that a run touches is the message
    delay: everything else is as in [c0]. *)
Definition batch_lane_kept (c0 c : BatchConfig) : Prop :=
  c = set_currentMessageDelay (currentMessageDelay c) c0.

(** The pauses a loop body makes after itself: none after the last element. *)
Definition pauses (last : bool) : nat := if last then 0 else 1.

(** What a stretch of the batch path does when it deals with [k] messages
    and has [slots] places for a pause: every message is counted once, as a
    success or as a failure; the two run totals grow by what was counted; the
    message delay follows a chain of doublings; nothing else of the config
    changes; and the number of sleeps compares, by [rel], to one per pause
    slot and one per rate-limit hit. *)
Record batch_pass (rel : nat -> nat -> Prop) (k slots : nat) (m : BatchMem)
    (t : list Event) (m' : BatchMem) : Prop := mkBatchPass {
  bp_count : (tallies true t + tallies false t = k)%nat;
  bp_success :
    b_totalSuccessCount m'
    = (b_totalSuccessCount m + Z.of_nat (tallies true t))%Z;
  bp_fail :
    b_totalFailCount m' = (b_totalFailCount m + Z.of_nat (tallies false t))%Z;
  bp_chain : doubling_from (currentMessageDelay (b_config m)) (delays t);
  bp_delay :
    currentMessageDelay (b_config m')
    = last (delays t) (currentMessageDelay (b_config m));
  bp_frame : batch_lane_kept (b_config m) (b_config m');
  bp_sleeps :
    rel (List.length (sleeps t)) (slots + List.length (delays t))%nat }.

(** The batch a lane forwards in cycle [n], if it has one. *)
Definition batch_of_cycle (n : nat) (c : BatchConfig)
    : option (list MessageSource) :=
  js_index (messageBatches c) (batchIndex n (List.length (messageBatches c))).

(** How many messages a lane has to deal with in cycle [n]: every message
    of the batch of the cycle, once for every destination. *)
Definition batch_load (n : nat) (c : BatchConfig) : nat :=
  match batch_of_cycle n c with
  | Some currentBatch =>
      (List.length (b_writableGroups c) * List.length currentBatch)%nat
  | None => 0
  end.

(** The places for a pause in cycle [n]: between the messages of the batch,
    for every destination, and between the destinations. *)
Definition batch_slots (n : nat) (c : BatchConfig) : nat :=
  match batch_of_cycle n c with
  | Some currentBatch =>
      (List.length (b_writableGroups c) * Nat.pred (List.length currentBatch)
       + Nat.pred (List.length (b_writableGroups c)))%nat
  | None => 0
  end.

(** What a batch cycle with number [n] can do to the config [c] of a lane,
    [t] being the effects of the lane in that cycle: nothing, when the
    account does not connect, or one pass over the batch of the cycle. *)
Definition batch_lane_turn (n : nat) (c c' : BatchConfig) (t : list Event)
    (was_started : bool) : Prop :=
  if was_started then
    exists m m',
      b_config m = c /\ b_config m' = c'
      /\ batch_pass le (batch_load n c) (batch_slots n c) m t m'
  else c' = c /\ t = [].

(** The run-total increments among the events of a cycle. *)
Definition tally_view (ok : bool) (e : CycleEvent) : option unit :=
  match e with
  | CeLane _ (EvTally b) => if Bool.eqb b ok then Some tt else None
  | _ => None
  end.

Definition tallied (ok : bool) (evs : list CycleEvent) : nat :=
  List.length (pick (tally_view ok) evs).

(** The state after [client.getEntity(id)]. *)
Definition resolved (id : string) (s : Sys) : Sys :=
  {| rk := rk s; nk := nk s; ek := S (ek s);
     trace := trace s ++ [EvGetEntity id] |}.

(** The memory after [totalSuccessCount++] or [totalFailCount++]. *)
Definition counted (ok : bool) (m : BatchMem) : BatchMem :=
  if ok then
    {| b_config := b_config m;
       b_totalSuccessCount := b_totalSuccessCount m + 1;
       b_totalFailCount := b_totalFailCount m |}
  else
    {| b_config := b_config m;
       b_totalSuccessCount := b_totalSuccessCount m;
       b_totalFailCount := b_totalFailCount m + 1 |}.

(** The state after the pause that follows an element of a loop, unless it
    is the last one. *)
Definition paused (last : bool) (d : Q) (s : Sys) : Sys :=
  if last then s else logged (EvSleep (d * 1000)) s.

(** Whether a request was accepted. *)
Definition accepted (answer : option string) : bool :=
  match answer with
  | None => true
  | Some _ => false
  end.

(** Whether the dispatch of lane [l] is started among [evs]. *)
Definition is_started (l : nat) (evs : list CycleEvent) : bool :=
  existsb (Nat.eqb l) (started evs).

(** The state [batchForward] enters the loop with. *)
Definition batch_start_state (configs : list BatchConfig) : BatchSched :=
  {| bs_cycleCount := 0; bs_totalSuccessCount := 0; bs_totalFailCount := 0;
     bs_accountConfigs := configs; bs_ticks := 1; bs_journal := [] |}.

(* ================================================================== *)
(** * Text handling of the account tools

    The tools around the engine read account numbers, links and user names
    from file names, from the operator and from text files.  The functions
    below follow what [src/yen.js] does with these strings.  A string is
    held as the bytes of its UTF-8 encoding, as it is in the files the tools
    read and write. *)

From Stdlib Require Import DecimalString DecimalNat.

Module Js.

Local Open Scope string_scope.

(** The line feed, as a string. *)
Definition LF : string := String "010" EmptyString.

(** [s.startsWith(p)] *)
Definition startsWith (p s : string) : bool :=
  match JsString.drop_prefix p s with
  | Some _ => true
  | None => false
  end.

(** [s.endsWith(p)] *)
Fixpoint endsWith (p s : string) : bool :=
  if String.eqb s p then true
  else
    match s with
    | EmptyString => false
    | String _ s' => endsWith p s'
    end.

(** [s.split(sep)] for a separator of one character. *)
Fixpoint split (sep : ascii) (s : string) : list string :=
  match s with
  | EmptyString => [EmptyString]
  | String c s' =>
      if Ascii.eqb c sep then EmptyString :: split sep s'
      else
        match split sep s' with
        | [] => [String c EmptyString]
        | piece :: pieces => String c piece :: pieces
        end
  end.

(** [xs.join(sep)] *)
Fixpoint join (sep : string) (xs : list string) : string :=
  match xs with
  | [] => EmptyString
  | [x] => x
  | x :: xs' => x ++ sep ++ join sep xs'
  end.

(** The string whose UTF-8 bytes are [bytes]. *)
Definition utf8 (bytes : list nat) : string :=
  fold_right (fun n s => String (ascii_of_nat n) s) EmptyString bytes.

(** The white space characters and line terminators of JavaScript, which
    [trim] and [Number.parseInt] skip: tab, line feed, vertical tab, form
    feed, carriage return, space, U+00A0, U+1680, U+2000 to U+200A,
    U+2028, U+2029, U+202F, U+205F, U+3000 and the byte order mark
    U+FEFF. *)
Definition white_space : list string :=
  map utf8
    [[9]; [10]; [11]; [12]; [13]; [32]; [194; 160]; [225; 154; 128];
     [226; 128; 128]; [226; 128; 129]; [226; 128; 130]; [226; 128; 131];
     [226; 128; 132]; [226; 128; 133]; [226; 128; 134]; [226; 128; 135];
     [226; 128; 136]; [226; 128; 137]; [226; 128; 138];
     [226; 128; 168]; [226; 128; 169]; [226; 128; 175]; [226; 129; 159];
     [227; 128; 128]; [239; 187; 191]]%nat.

Definition is_space (w : string) : bool := existsb (String.eqb w) white_space.

Definition is_space1 (a : ascii) : bool := is_space (String a EmptyString).

Definition is_space2 (a b : ascii) : bool :=
  is_space (String a (String b EmptyString)).

Definition is_space3 (a b c : ascii) : bool :=
  is_space (String a (String b (String c EmptyString))).

(** What follows the white space character at the head of [s], if there
    is one. *)
Definition strip_space (s : string) : option string :=
  match s with
  | String a s1 =>
      if is_space1 a then Some s1
      else
        match s1 with
        | String b s2 =>
            if is_space2 a b then Some s2
            else
              match s2 with
              | String c s3 => if is_space3 a b c then Some s3 else None
              | EmptyString => None
              end
        | EmptyString => None
        end
  | EmptyString => None
  end.

(** [s.trimStart()]: white space characters are removed from the head as
    long as there is one. *)
Fixpoint trimStart (s : string) : string :=
  match s with
  | EmptyString => EmptyString
  | String a s1 =>
      if is_space1 a then trimStart s1
      else
        match s1 with
        | String b s2 =>
            if is_space2 a b then trimStart s2
            else
              match s2 with
              | String c s3 => if is_space3 a b c then trimStart s3 else s
              | EmptyString => s
              end
        | EmptyString => s
        end
  end.

(** [s.trimEnd()]: what is left when the longest end of [s] that is
    white space only is removed. *)
Fixpoint trimEnd (s : string) : string :=
  match s with
  | EmptyString => EmptyString
  | String a s' =>
      match trimStart s with
      | EmptyString => EmptyString
      | _ => String a (trimEnd s')
      end
  end.

(** [s.trim()] *)
Definition trim (s : string) : string := trimEnd (trimStart s).

(** [[...new Set(xs)]]: the elements in the order in which they first
    occur. *)
Fixpoint unique (xs : list string) : list string :=
  match xs with
  | [] => []
  | x :: xs' => x :: filter (fun y => negb (String.eqb x y)) (unique xs')
  end.

(** The template literal [`${n}`] for a non-negative integer. *)
Definition decimal (n : nat) : string :=
  NilEmpty.string_of_uint (Nat.to_uint n).

Definition is_hex_digit (c : ascii) : bool :=
  let n := nat_of_ascii c in
  JsString.is_digit c
  || ((65 <=? n)%nat && (n <=? 70)%nat)
  || ((97 <=? n)%nat && (n <=? 102)%nat).

Definition hex_value (c : ascii) : Z :=
  let n := Z.of_nat (nat_of_ascii c) in
  if JsString.is_digit c then n - 48
  else if (n <=? 70)%Z then n - 55 else n - 87.

Fixpoint take_hex_digits (s : string) : string :=
  match s with
  | EmptyString => EmptyString
  | String c s' =>
      if is_hex_digit c then String c (take_hex_digits s') else EmptyString
  end.

Fixpoint parse_hex (acc : Z) (s : string) : Z :=
  match s with
  | EmptyString => acc
  | String c s' => parse_hex (16 * acc + hex_value c) s'
  end.

(** A run of decimal digits at the head of [s], as a number; [None],
    which is [NaN], when there is none. *)
Definition parse_decimal (s : string) : option Z :=
  match JsString.take_digits s with
  | EmptyString => None
  | digits => Some (JsString.parse_digits 0 digits)
  end.

(** The digits of [Number.parseInt(s)] once white space and sign are
    gone: base 16 after [0x] or [0X], base 10 otherwise, up to the first
    character that is no digit. *)
Definition parse_magnitude (s : string) : option Z :=
  match s with
  | String c (String x rest) =>
      if Ascii.eqb c "0" && (Ascii.eqb x "x" || Ascii.eqb x "X") then
        match take_hex_digits rest with
        | EmptyString => None
        | digits => Some (parse_hex 0 digits)
        end
      else parse_decimal s
  | _ => parse_decimal s
  end.

(** [Number.parseInt(s)] without a radix; [None] is [NaN].  The integer
    is kept as it is written: the tools only compare it with the positions
    of an array, where an integer beyond 2^53 and the double nearest to it
    fare alike. *)
Definition Number_parseInt (s : string) : option Z :=
  match trimStart s with
  | String c rest =>
      if Ascii.eqb c "-" then option_map Z.opp (parse_magnitude rest)
      else if Ascii.eqb c "+" then parse_magnitude rest
      else parse_magnitude (String c rest)
  | EmptyString => None
  end.

(** [s.replace(/^p/, "")] for a literal [p]. *)
Definition strip_prefix (p s : string) : string :=
  match JsString.drop_prefix p s with
  | Some rest => rest
  | None => s
  end.

(** [s.replace(/\/$/, "")] *)
Fixpoint strip_trailing_slash (s : string) : string :=
  match s with
  | EmptyString => EmptyString
  | String c EmptyString => if Ascii.eqb c "/" then EmptyString else s
  | String c s' => String c (strip_trailing_slash s')
  end.

(** What follows the longest run of decimal digits at the head. *)
Fixpoint skip_digits (s : string) : string :=
  match s with
  | EmptyString => EmptyString
  | String c s' => if JsString.is_digit c then skip_digits s' else s
  end.

(** The leftmost match of [/pre(\d+)post/] for literals [pre] and [post],
    as its capture group.  The digits are taken greedily; giving one back
    cannot help, since [post] would then have to start with a digit where
    the literals used here start with none. *)
Fixpoint match_number (pre post : string) (s : string) : option string :=
  let here :=
    match JsString.drop_prefix pre s with
    | Some tail =>
        match JsString.take_digits tail with
        | EmptyString => None
        | digits =>
            match JsString.drop_prefix post (skip_digits tail) with
            | Some _ => Some digits
            | None => None
            end
        end
    | None => None
    end in
  match here with
  | Some digits => Some digits
  | None =>
      match s with
      | EmptyString => None
      | String _ s' => match_number pre post s'
      end
  end.

(** The longest run of characters other than [/] at the head of [s],
    and what follows it. *)
Fixpoint span_not_slash (s : string) : string * string :=
  match s with
  | EmptyString => (EmptyString, EmptyString)
  | String c s' =>
      if Ascii.eqb c "/" then (EmptyString, s)
      else let '(run, rest) := span_not_slash s' in (String c run, rest)
  end.

End Js.

(** The inline link parser of the tools:
[[
  let parsed = link.replace(/^https:\/\//, "")
  parsed = parsed.replace(/^t\.me\//, "")
  parsed = parsed.replace(/\/$/, "")
]] *)
Definition parsed (link : string) : string :=
  Js.strip_trailing_slash
    (Js.strip_prefix "t.me/" (Js.strip_prefix "https://" link)).

(** [filename.match(/account(\d+)\.json/)], as its capture group. *)
Definition accountNumberMatch (filename : string) : option string :=
  Js.match_number "account" ".json" filename.

(** [message.match(/A wait of (\d+) seconds is required/)] *)
Definition waitMatch (message : string) : option string :=
  Js.match_number "A wait of " " seconds is required" message.

(** [messageLink.match(/t\.me\/([^/]+)\/(\d+)/)], as its two capture
    groups.  At a given position the channel name is the whole run up to the
    next [/]: a shorter run is followed by a character that is no [/]. *)
Fixpoint linkParts (messageLink : string) : option (string * string) :=
  let here :=
    match JsString.drop_prefix "t.me/" messageLink with
    | Some tail =>
        match Js.span_not_slash tail with
        | (String c name, String _ rest) =>
            match JsString.take_digits rest with
            | EmptyString => None
            | digits => Some (String c name, digits)
            end
        | _ => None
        end
    | None => None
    end in
  match here with
  | Some parts => Some parts
  | None =>
      match messageLink with
      | EmptyString => None
      | String _ rest => linkParts rest
      end
  end.

(* ------------------------------------------------------------------ *)
(** ** Account files *)

(** The account numbers of [addNewAccount]:
    [accounts.map((a) => match ? Number.parseInt(match[1]) : 0)]. *)
Definition accountNumbers (filenames : list string) : list Z :=
  map (fun filename =>
         match accountNumberMatch filename with
         | Some digits => JsString.parseInt digits
         | None => 0%Z
         end)
    filenames.

(** [Math.max(...xs)] of a list that is not empty. *)
Definition Math_max (xs : list Z) : Z :=
  match xs with
  | [] => 0%Z
  | x :: xs' => fold_left Z.max xs' x
  end.

(** [nextAccountNumber] of [addNewAccount], from the file names of the
    saved accounts: [Math.max(...accountNumbers) + 1], a sum of Numbers. *)
Definition nextAccountNumber (filenames : list string) : Z :=
  if (0 <? List.length filenames)%nat
  then JsString.to_double (Math_max (accountNumbers filenames) + 1)
  else 1%Z.

(** [`account${nextAccountNumber}.json`] *)
Definition accountFilename (nextAccountNumber : Z) : string :=
  ("account" ++ Js.decimal (Z.to_nat nextAccountNumber) ++ ".json")%string.

(** [`account${accountNumber}-groups.json`] *)
Definition groupDataFile (accountNumber : string) : string :=
  ("account" ++ accountNumber ++ "-groups.json")%string.

(** [`account${accountNumber}-private-chats.json`] *)
Definition chatsDataFile (accountNumber : string) : string :=
  ("account" ++ accountNumber ++ "-private-chats.json")%string.

(** The cache files that [deleteAccount] removes with an account:
    [cacheFiles] filtered by [file.startsWith(`account${accountNumber}-`)]. *)
Definition cacheFilesOf (accountNumber : string) (cacheFiles : list string)
    : list string :=
  filter (Js.startsWith ("account" ++ accountNumber ++ "-")%string) cacheFiles.

(* ------------------------------------------------------------------ *)
(** ** Selecting accounts *)

(** [selectedAccountsInput.split(",").map((num) => Number.parseInt(num.trim()) - 1)];
    [None] is [NaN]. *)
Definition selectedIndices (selectedAccountsInput : string) : list (option Z) :=
  map (fun num => option_map (fun n => (n - 1)%Z) (Js.Number_parseInt (Js.trim num)))
    (Js.split "," selectedAccountsInput).

(** [index >= 0 && index < accounts.length] *)
Definition index_in_range (count : nat) (index : option Z) : bool :=
  match index with
  | Some i => (0 <=? i)%Z && (i <? Z.of_nat count)%Z
  | None => false
  end.

(** [selectedIndices.filter(..).map((index) => accounts[index])] *)
Definition selectedAccounts {A} (selectedAccountsInput : string)
    (accounts : list A) : list A :=
  pick (fun index =>
          match index with
          | Some i => js_index accounts i
          | None => None
          end)
    (filter (index_in_range (List.length accounts))
       (selectedIndices selectedAccountsInput)).

(* ------------------------------------------------------------------ *)
(** ** Text files *)

(** What the file system answers for a path. *)
Inductive FileAnswer :=
| NoFile                        (* [fs.existsSync] is false *)
| Unreadable (message : string) (* [fs.readFileSync] throws *)
| Content (text : string).

(** The value of [readLinesFromFile]: [{success: true, lines}] or
    [{success: false, error}]. *)
Inductive LinesResult :=
| Lines (lines : list string)
| NoLines (error : string).

(** [content.split("\n").map((line) => line.trim()).filter((line) => line.length > 0)] *)
Definition linesOf (content : string) : list string :=
  filter (fun line => (0 <? String.length line)%nat)
    (map Js.trim (Js.split "010" content)).

(** [readLinesFromFile(filePath)] *)
Definition readLinesFromFile (fs : string -> FileAnswer) (filePath : string)
    : LinesResult :=
  match fs filePath with
  | NoFile => NoLines ("File not found: " ++ filePath)
  | Unreadable message => NoLines message
  | Content content => Lines (linesOf content)
  end.

(** [listTextFiles()], from what [fs.readdirSync] answers: [None] when it
    throws. *)
Definition listTextFiles (files : option (list string)) : list string :=
  match files with
  | Some files => filter (Js.endsWith ".txt") files
  | None => []
  end.

(** The sender of a comment, as far as [commentSectionDownload] looks at
    it. *)
Record Sender := mkSender {
  sender_username : option string;
  sender_firstName : option string }.

(** The user names that [commentSectionDownload] collects:
[[
  if (comment.sender && comment.sender.username) usernames.push(..)
]]
    An empty user name is falsy. *)
Fixpoint usernamesOf (comments : list (option Sender)) : list string :=
  match comments with
  | [] => []
  | Some {| sender_username := Some (String c name) |} :: rest =>
      String c name :: usernamesOf rest
  | _ :: rest => usernamesOf rest
  end.

(** The text that [commentSectionDownload] writes to [usernames.txt]. *)
Definition usernamesText (comments : list (option Sender)) : string :=
  Js.join Js.LF (Js.unique (usernamesOf comments)).

(* ------------------------------------------------------------------ *)
(** ** Vocabulary for strings *)

(** Every character of [s] is a decimal digit. *)
Fixpoint all_digits (s : string) : bool :=
  match s with
  | EmptyString => true
  | String c s' => JsString.is_digit c && all_digits s'
  end.

Definition starts_with_digit (s : string) : bool :=
  match s with
  | EmptyString => false
  | String c _ => JsString.is_digit c
  end.

(** The number that a run of decimal digits denotes. *)
Fixpoint numeral_value (digits : string) : Z :=
  match digits with
  | EmptyString => 0%Z
  | String c rest =>
      (JsString.digit_value c * 10 ^ Z.of_nat (String.length rest)
       + numeral_value rest)%Z
  end.

(** The message carries the rate-limit hint [digits]: the text
    [FLOOD_WAIT_] followed by the digits [digits] and by no further digit,
    and no [FLOOD_WAIT_] further left in the message is followed by a
    digit. *)
Definition wait_hint (message digits : string) : Prop :=
  exists pre post,
    message = (pre ++ "FLOOD_WAIT_" ++ digits ++ post)%string
    /\ digits <> EmptyString
    /\ all_digits digits = true
    /\ starts_with_digit post = false
    /\ forall pre' c post',
         message = (pre' ++ "FLOOD_WAIT_" ++ String c post')%string ->
         JsString.is_digit c = true ->
         (String.length pre <= String.length pre')%nat.

(** The message carries no rate-limit hint: no [FLOOD_WAIT_] in it is
    followed by a digit. *)
Definition no_wait_hint (message : string) : Prop :=
  forall pre c post,
    message = (pre ++ "FLOOD_WAIT_" ++ String c post)%string ->
    JsString.is_digit c = false.

(** Every assignment to the current delay in the pass [t] of a lane comes
    right after a rate-limit wait: the two effects before it are a request
    that the client answered with an error carrying a rate-limit hint, and
    the wait for the hinted number of seconds.  The pass starts when the
    lane has sent [k0] requests. *)
Definition doubled_after_rate_limit (o : Oracle) (k0 : nat) (t : list Event)
    : Prop :=
  forall pre d post,
    t = pre ++ EvSetDelay d :: post ->
    exists pre' req ms message digits,
      pre = pre' ++ [EvInvoke req; EvSleep ms]
      /\ net o (k0 + List.length (requests pre')) = Some message
      /\ wait_hint message digits
      /\ (0 <= ms)%Q
      /\ ((numeral_value digits <= 2 ^ 53)%Z ->
          ms = (inject_Z (numeral_value digits) * 1000)%Q).

(** The character [c] occurs in [s]. *)
Fixpoint has_char (c : ascii) (s : string) : bool :=
  match s with
  | EmptyString => false
  | String c' s' => Ascii.eqb c' c || has_char c s'
  end.

(** [s] is white space only. *)
Inductive WhiteOnly : string -> Prop :=
| WhiteOnly_nil : WhiteOnly EmptyString
| WhiteOnly_cons w s :
    In w Js.white_space -> WhiteOnly s -> WhiteOnly (w ++ s)%string.

(** [s] starts with a white space character. *)
Definition space_at_head (s : string) : Prop :=
  exists w rest, In w Js.white_space /\ s = (w ++ rest)%string.

(** [s] ends with a white space character. *)
Definition space_at_end (s : string) : Prop :=
  exists w rest, In w Js.white_space /\ s = (rest ++ w)%string.

(** A name as Telegram hands them out: not empty, no white space at either
    end, no line feed inside. *)
Definition plain_name (name : string) : bool :=
  (0 <? String.length name)%nat
  && String.eqb (Js.trim name) name
  && negb (has_char "010" name).

(** A file system that holds [text] at [path] and nothing else. *)
Definition one_file (path text : string) (p : string) : FileAnswer :=
  if String.eqb p path then Content text else NoFile.

(* ================================================================== *)
(** * The account tools

    The tools of [src/yen.js] that prepare and clean up the accounts the
    engine works with: the permission check that produces the group data,
    leaving all groups, the member scraper, joining groups, messaging users
    and adding users to a group.  As for the lanes, whatever a tool asks of the client is answered
    by an oracle in the order of the calls, and what it does is appended to a
    log. *)

(** [entity.className], as far as the tools tell the classes apart. *)
Inductive ClassName :=
| Channel
| Chat
| User
| OtherClass.

(** An entity as [client.getDialogs()] and the participant lists hand them
    out. *)
Record Peer := mkPeerEntity {
  className : ClassName;
  megagroup : bool;            (* [entity.megagroup === true] *)
  bot : bool;                  (* [user.bot] is truthy *)
  peer_entity : Entity }.      (* id, username, accessHash *)

(** [result.participant] of [channels.GetParticipant]; the argument of the
    two middle classes is [participant.bannedRights?.sendMessages], [None]
    when it is [undefined]. *)
Inductive Participant :=
| ChannelParticipantCreator
| ChannelParticipantAdmin (sendMessages : option bool)
| ChannelParticipant (sendMessages : option bool)
| OtherParticipant.

(** The requests of the tools. *)
Inductive ApiCall :=
| GetParticipant (channel : Z)
| GetForumTopics (channel : Z) (offsetId limit : Z)
| LeaveChannel (channel : Z)
| DeleteChatUser (chatId : Z)
| GetParticipants (channel : Z) (offset limit : Z)
| JoinChannel (channel : Z)
| AddChatUser (chatId : Z) (userId : option Z)   (* [None] is ["me"] *)
| AddContact (id : Z)
| InviteToChannel (channel : Z) (user : Z)
| SendMessage (userId accessHash : Z) (message : string)
                                 (* [client.sendMessage(inputPeer, ..)] *)
| ForwardMessage (fromPeer id : Z) (userId accessHash : Z).
                                 (* [messages.ForwardMessages] to a user *)

Inductive ToolEvent :=
| TeInvoke (call : ApiCall)      (* [client.invoke(call)] *)
| TeGetEntity (id : string)      (* [client.getEntity(id)] *)
| TeUseClient (clientIndex : nat)
                                 (* [connectedClients[clientIndex]] is the
                                    client of what follows *)
| TeSleep (ms : Q)               (* [sleep(ms)] *)
| TeSetDelay (d : Q)             (* an assignment to [currentDelay] *)
| TeSaveGroups (accountNumber : string) (groups : list GroupInfo)
                                 (* [saveGroupsDataForAccount(..)] *)
| TeSaveChats (accountNumber : string) (privateChats : list Entity)
                                 (* [savePrivateChatsForAccount(..)] *)
| TeDisconnect.                  (* [client.disconnect()] *)

(** What the client answers to the successive requests, by kind of
    request: [inl m] is an error with message [m]. *)
Record Client := mkClient {
  entity_answer : nat -> string + Peer;
      (* the entity [client.getEntity] resolves to *)
  plain_answer : nat -> option string;
      (* a request whose result is not looked at: [None] resolves *)
  participant_answer : nat -> string + option Participant;
      (* [result.participant], if there is one *)
  topics_answer : nat -> string + option (list Topic);
      (* [result.topics], if there is one *)
  users_answer : nat -> string + option (list Peer) }.
      (* [participants.users], if there is one *)

Record ToolSys := mkToolSys {
  calls : nat;                 (* requests to the client so far *)
  log : list ToolEvent }.

Definition tool0 : ToolSys := {| calls := 0; log := [] |}.

Section ToolMonad.

(** [Mem] holds the local variables the tool's loop works on. *)
Variable Mem : Type.

Definition T (A : Type) : Type := Client -> ToolSys -> Mem -> A * ToolSys * Mem.

Definition tret {A} (a : A) : T A := fun _ s m => (a, s, m).

Definition tbind {A B} (c : T A) (k : A -> T B) : T B :=
  fun cl s m => let '(a, s', m') := c cl s m in k a cl s' m'.

Definition tlog (e : ToolEvent) : T unit :=
  fun _ s m => (tt, {| calls := calls s; log := log s ++ [e] |}, m).

Definition tget : T Mem := fun _ s m => (m, s, m).

Definition tput (m' : Mem) : T unit := fun _ s _ => (tt, s, m').

(** [client.invoke(call)], answered by the field [answer] of the
    client. *)
Definition tinvoke {R} (answer : Client -> nat -> R) (call : ApiCall) : T R :=
  fun cl s m =>
    (answer cl (calls s),
     {| calls := S (calls s); log := log s ++ [TeInvoke call] |}, m).

(** [client.getEntity(id)] *)
Definition tgetEntity (id : string) : T (string + Peer) :=
  fun cl s m =>
    (entity_answer cl (calls s),
     {| calls := S (calls s); log := log s ++ [TeGetEntity id] |}, m).

(** [await sleep(ms)] *)
Definition tsleep (ms : Q) : T unit := tlog (TeSleep ms).

End ToolMonad.

Arguments tret {Mem A} a.
Arguments tbind {Mem A B} c k.
Arguments tlog {Mem} e.
Arguments tget {Mem}.
Arguments tput {Mem} m'.
Arguments tinvoke {Mem R} answer call.
Arguments tgetEntity {Mem} id.
Arguments tsleep {Mem} ms.

Declare Scope tool_scope.
Delimit Scope tool_scope with tool.
Notation "x <- c ;; k" := (tbind c (fun x => k))
  (at level 61, c at next level, right associativity) : tool_scope.
Notation "c ;; k" := (tbind c (fun _ => k))
  (at level 61, right associativity) : tool_scope.

Local Close Scope lane_scope.
Local Open Scope tool_scope.

(** [for (let i = 0; i < xs.length; i++) body(xs[i])], the body being told
    whether [i] is [xs.length - 1]. *)
Fixpoint tforLast {Mem A} (xs : list A) (body : A -> bool -> T Mem unit)
    : T Mem unit :=
  match xs with
  | [] => tret tt
  | [x] => body x true
  | x :: xs' => tbind (body x false) (fun _ => tforLast xs' body)
  end.

(* ------------------------------------------------------------------ *)
(** ** The permission check *)

(** The value of [canWriteInChat]. *)
Record WriteStatus := mkWriteStatus {
  ws_canWrite : bool;
  reason : option string }.

(** [!x] for a value that is a boolean or [undefined]. *)
Definition js_not (x : option bool) : bool :=
  match x with
  | Some true => false
  | _ => true
  end.

(** [canWriteInChat(client, chat)] *)
Definition canWriteInChat {Mem} (chat : Entity) : T Mem WriteStatus :=
  result <- tinvoke participant_answer (GetParticipant (entity_id chat)) ;;
  tret
    match result with
    | inr (Some ChannelParticipantCreator) =>
        {| ws_canWrite := true; reason := None |}
    | inr (Some (ChannelParticipantAdmin sendMessages)) =>
        {| ws_canWrite := js_not sendMessages;
           reason := Some "Admin with restricted rights"%string |}
    | inr (Some (ChannelParticipant sendMessages)) =>
        {| ws_canWrite := js_not sendMessages;
           reason := Some "Restricted user"%string |}
    | inr _ => {| ws_canWrite := true; reason := Some "Unknown"%string |}
    | inl message =>                                   (* catch (apiError) *)
        if JsString.includes "USER_NOT_PARTICIPANT" message
        then {| ws_canWrite := false; reason := Some "Not a participant"%string |}
        else {| ws_canWrite := false; reason := Some message |}
    end.

(** [getTopicsForChat(client, chat)] *)
Definition getTopicsForChat {Mem} (chat : Entity) : T Mem (list Topic) :=
  result <- tinvoke topics_answer (GetForumTopics (entity_id chat) 0 100) ;;
  tret
    match result with
    | inr (Some topics) => topics
    | inr None => []
    | inl _ => []                                      (* catch (apiError) *)
    end.

(** The body of the loop of [checkGroupPermissionsForAccount]; the memory
    is the array [groupsWithInfo].  Its [try .. catch (groupError)] has
    nothing to catch: the two calls above handle their own errors. *)
Definition checkGroup (checkDelay : Q) (dialog : Peer) (last : bool)
    : T (list GroupInfo) unit :=
  let entity := peer_entity dialog in
  writeStatus <- canWriteInChat entity ;;
  topics <- getTopicsForChat entity ;;
  let hasTopics := (0 <? List.length topics)%nat in
  let groupInfo :=
    {| entity := entity; hasTopics := hasTopics;
       topics := map (fun t => {| topic_id := topic_id t;
                                  topic_title := topic_title t;
                                  closed := closed t |}) topics;
       canWrite := ws_canWrite writeStatus |} in
  groupsWithInfo <- tget ;;
  tput (groupsWithInfo ++ [groupInfo]) ;;
  if last then tret tt else tsleep (checkDelay * 1000).

(** [entity.className === "Channel" && entity.megagroup === true] *)
Definition is_supergroup (dialog : Peer) : bool :=
  match className dialog with
  | Channel => megagroup dialog
  | _ => false
  end.

(** [checkGroupPermissionsForAccount(account, checkDelay)] once the client
    is connected: [dialogs] is what [client.getDialogs()] answers, [inl] when
    it throws, and [filename] the file name of the account.  [None] is
    [null]. *)
Definition checkGroupPermissionsForAccount (filename : string)
    (dialogs : string + list Peer) (checkDelay : Q)
    : T (list GroupInfo) (option (list GroupInfo)) :=
  match dialogs with
  | inl _ => tlog TeDisconnect ;; tret None            (* catch (groupCheckError) *)
  | inr dialogs =>
      let publicGroups := filter is_supergroup dialogs in
      if (List.length publicGroups =? 0)%nat then
        tlog TeDisconnect ;; tret None
      else
        tforLast publicGroups (checkGroup checkDelay) ;;
        groupsWithInfo <- tget ;;
        if (List.length groupsWithInfo =? 0)%nat then
          tlog TeDisconnect ;; tret None
        else
          match accountNumberMatch filename with
          | None => tlog TeDisconnect ;; tret None     (* TypeError, outer catch *)
          | Some accountNumber =>
              tlog (TeSaveGroups accountNumber groupsWithInfo) ;;
              tlog TeDisconnect ;;
              tret (Some groupsWithInfo)
          end
  end.

(** The same, run on a client from [const groupsWithInfo = []] on: the
    value returned and the log. *)
Definition checkGroups (cl : Client) (filename : string)
    (dialogs : string + list Peer) (checkDelay : Q)
    : option (list GroupInfo) * ToolSys :=
  let '(r, s, _) :=
    checkGroupPermissionsForAccount filename dialogs checkDelay cl tool0 [] in
  (r, s).

(* ------------------------------------------------------------------ *)
(** ** Leaving all groups *)

(** The local variables of a paced loop. *)
Record Pacer := mkPacer {
  pc_currentDelay : Q;
  pc_successCount : Z;
  pc_failCount : Z }.

Definition Paced := T Pacer.

(** [successCount++] *)
Definition successCount_incr : Paced unit :=
  m <- tget ;;
  tput {| pc_currentDelay := pc_currentDelay m;
          pc_successCount := pc_successCount m + 1;
          pc_failCount := pc_failCount m |}.

(** [failCount++] *)
Definition failCount_incr : Paced unit :=
  m <- tget ;;
  tput {| pc_currentDelay := pc_currentDelay m;
          pc_successCount := pc_successCount m;
          pc_failCount := pc_failCount m + 1 |}.

(** [currentDelay = currentDelay * 2] *)
Definition currentDelay_double : Paced unit :=
  m <- tget ;;
  tput {| pc_currentDelay := pc_currentDelay m * 2;
          pc_successCount := pc_successCount m;
          pc_failCount := pc_failCount m |} ;;
  tlog (TeSetDelay (pc_currentDelay m * 2)).

(** The block that [leaveAllGroups] writes out twice:
[[
  if (entity.className === "Channel") {
    await client.invoke(new Api.channels.LeaveChannel({channel: entity}))
    successCount++
  } else if (entity.className === "Chat") {
    await client.invoke(new Api.messages.DeleteChatUser({chatId: entity.id, ..}))
    successCount++
  }
]]
    The value is [None] when the block completes and the message of the
    error when [client.invoke] throws. *)
Definition leave (entity : Peer) : Paced (option string) :=
  match className entity with
  | Channel =>
      answer <- tinvoke plain_answer (LeaveChannel (entity_id (peer_entity entity))) ;;
      match answer with
      | None => successCount_incr ;; tret None
      | Some message => tret (Some message)
      end
  | Chat =>
      answer <- tinvoke plain_answer (DeleteChatUser (entity_id (peer_entity entity))) ;;
      match answer with
      | None => successCount_incr ;; tret None
      | Some message => tret (Some message)
      end
  | _ => tret None
  end.

(** The body of the loop of [leaveAllGroups]. *)
Definition leaveGroup (group : Peer) (last : bool) : Paced unit :=
  outcome <- leave group ;;
  match outcome with
  | None => tret tt
  | Some message =>                                    (* catch (leaveError) *)
      match floodWaitMatch message with
      | Some digits =>
          let waitSeconds := JsString.parseInt digits in
          tsleep (inject_Z waitSeconds * 1000) ;;
          currentDelay_double ;;
          retry <- leave group ;;
          match retry with
          | None => tret tt
          | Some _ => failCount_incr                   (* catch (retryError) *)
          end
      | None => failCount_incr
      end
  end ;;
  if last then tret tt
  else m <- tget ;; tsleep (pc_currentDelay m * 1000).

(** The groups [leaveAllGroups] leaves: supergroups and chats. *)
Definition is_group (dialog : Peer) : bool :=
  match className dialog with
  | Channel => megagroup dialog
  | Chat => true
  | _ => false
  end.

(** [leaveAllGroups] from the answer [dialogs] of [client.getDialogs()]
    on. *)
Definition leaveGroups (dialogs : list Peer) : Paced unit :=
  let groups := filter is_group dialogs in
  if (List.length groups =? 0)%nat then tlog TeDisconnect
  else tforLast groups leaveGroup ;; tlog TeDisconnect.

(** The same, run on a client from [let currentDelay = leaveDelay] on: the
    log and the three local variables it ends with. *)
Definition leaveAllGroups (cl : Client) (dialogs : list Peer) (leaveDelay : Q)
    : ToolSys * Pacer :=
  let '(_, s, m) :=
    leaveGroups dialogs cl tool0
      {| pc_currentDelay := leaveDelay; pc_successCount := 0;
         pc_failCount := 0 |} in
  (s, m).

(* ------------------------------------------------------------------ *)
(** ** Scraping the members of a group *)

(** The local variables of the paging loop of [scrapeGroupMembers]. *)
Record Scrape := mkScrape {
  members : list Peer;
  offset : Z;
  totalFetched : Z }.

(** How a turn of the paging loop ends. *)
Inductive Paging :=
| NextPage                     (* the loop goes on *)
| LastPage                     (* [hasMore = false; break] *)
| Enough                       (* the [while] condition failed *)
| Failed (message : string).   (* [client.invoke] threw *)

(** [limit === 0 ? batchSize : Math.min(batchSize, limit - totalFetched)]
    with [batchSize = 200] *)
Definition currentLimit (limit totalFetched : Z) : Z :=
  if (limit =? 0)%Z then 200%Z else Z.min 200 (limit - totalFetched).

(** [user.className === "User" && !user.bot] *)
Definition is_member (user : Peer) : bool :=
  match className user with
  | User => negb (bot user)
  | _ => false
  end.

(** One turn of
    [while (hasMore && (limit === 0 || totalFetched < limit)) { .. }],
    the test included. *)
Definition scrapePage (channel limit : Z) : T Scrape Paging :=
  m <- tget ;;
  if (limit =? 0)%Z || (totalFetched m <? limit)%Z then
    participants <-
      tinvoke users_answer
        (GetParticipants channel (offset m) (currentLimit limit (totalFetched m))) ;;
    match participants with
    | inl message => tret (Failed message)
    | inr None => tret LastPage
    | inr (Some []) => tret LastPage
    | inr (Some users) =>
        let fetched := Z.of_nat (List.length users) in
        tput {| members := members m ++ filter is_member users;
                offset := offset m + fetched;
                totalFetched := totalFetched m + fetched |} ;;
        tsleep 2000 ;;
        tret NextPage
    end
  else tret Enough.

(** The loop, for at most [fuel] turns; [None] means it is still going. *)
Fixpoint scrapeLoop (fuel : nat) (channel limit : Z) : T Scrape (option Paging) :=
  match fuel with
  | O => tret None
  | S fuel' =>
      how <- scrapePage channel limit ;;
      match how with
      | NextPage => scrapeLoop fuel' channel limit
      | _ => tret (Some how)
      end
  end.

(** [if (isNaN(limit) || limit < 0) limit = 0], [None] being [NaN]. *)
Definition scrapeLimit (limit : option Z) : Z :=
  match limit with
  | Some n => if (n <? 0)%Z then 0%Z else n
  | None => 0%Z
  end.

(** The paging of [scrapeGroupMembers], run on a client. *)
Definition scrapeMembers (cl : Client) (channel : Z) (limit : option Z)
    (fuel : nat) : option Paging * ToolSys * Scrape :=
  scrapeLoop fuel channel (scrapeLimit limit) cl tool0
    {| members := []; offset := 0; totalFetched := 0 |}.

Local Close Scope tool_scope.
Local Open Scope lane_scope.

(* ------------------------------------------------------------------ *)
(** ** Vocabulary for the tools *)

(** The requests of a log, in order. *)
Fixpoint tool_calls (t : list ToolEvent) : list ApiCall :=
  match t with
  | [] => []
  | TeInvoke call :: t' => call :: tool_calls t'
  | _ :: t' => tool_calls t'
  end.

(** The sleeps of a log, in order. *)
Fixpoint tool_sleeps (t : list ToolEvent) : list Q :=
  match t with
  | [] => []
  | TeSleep ms :: t' => ms :: tool_sleeps t'
  | _ :: t' => tool_sleeps t'
  end.

(** The values assigned to the current delay, in order. *)
Fixpoint tool_delays (t : list ToolEvent) : list Q :=
  match t with
  | [] => []
  | TeSetDelay d :: t' => d :: tool_delays t'
  | _ :: t' => tool_delays t'
  end.

(** The group data saved, in order. *)
Fixpoint saved_groups (t : list ToolEvent) : list (string * list GroupInfo) :=
  match t with
  | [] => []
  | TeSaveGroups accountNumber groups :: t' =>
      (accountNumber, groups) :: saved_groups t'
  | _ :: t' => saved_groups t'
  end.

(** The private chats saved, in order. *)
Fixpoint saved_chats (t : list ToolEvent) : list (string * list Entity) :=
  match t with
  | [] => []
  | TeSaveChats accountNumber privateChats :: t' =>
      (accountNumber, privateChats) :: saved_chats t'
  | _ :: t' => saved_chats t'
  end.

(** The two requests the permission check makes for a group. *)
Definition check_calls (dialog : Peer) : list ApiCall :=
  [GetParticipant (entity_id (peer_entity dialog));
   GetForumTopics (entity_id (peer_entity dialog)) 0 100].

(** The request by which a group is left. *)
Definition leave_call (group : Peer) : ApiCall :=
  match className group with
  | Chat => DeleteChatUser (entity_id (peer_entity group))
  | _ => LeaveChannel (entity_id (peer_entity group))
  end.

(** The entry [g] is what the permission check records for [dialog] when
    the request for the participant is the call number [k] and the request
    for the topics the next one: a query that fails makes the group not
    writable, respectively without topics. *)
Record checked_by (cl : Client) (k : nat) (dialog : Peer) (g : GroupInfo)
    : Prop := mkCheckedBy {
  cb_entity : entity g = peer_entity dialog;
  cb_hasTopics : hasTopics g = true <-> topics g <> [];
  cb_failed :
    forall message, participant_answer cl k = inl message -> canWrite g = false;
  cb_creator :
    participant_answer cl k = inr (Some ChannelParticipantCreator) ->
    canWrite g = true;
  cb_banned :
    forall sendMessages,
      participant_answer cl k = inr (Some (ChannelParticipant sendMessages))
      \/ participant_answer cl k
         = inr (Some (ChannelParticipantAdmin sendMessages)) ->
      canWrite g = js_not sendMessages;
  cb_no_topics :
    (forall ts, topics_answer cl (S k) <> inr (Some ts)) -> topics g = [];
  cb_topics :
    forall ts, topics_answer cl (S k) = inr (Some ts) -> topics g = ts }.

(** The state after [client.invoke(call)]. *)
Definition called (call : ApiCall) (s : ToolSys) : ToolSys :=
  {| calls := S (calls s); log := log s ++ [TeInvoke call] |}.

(** The state after the effect [e]. *)
Definition noted (e : ToolEvent) (s : ToolSys) : ToolSys :=
  {| calls := calls s; log := log s ++ [e] |}.

(** The state after the pause that follows an element of a paced loop,
    unless it is the last one. *)
Definition rested (last : bool) (d : Q) (s : ToolSys) : ToolSys :=
  if last then s else noted (TeSleep (d * 1000)) s.

(** The local variables after a success or a failure was counted. *)
Definition scored (ok : bool) (m : Pacer) : Pacer :=
  if ok then
    {| pc_currentDelay := pc_currentDelay m;
       pc_successCount := pc_successCount m + 1;
       pc_failCount := pc_failCount m |}
  else
    {| pc_currentDelay := pc_currentDelay m;
       pc_successCount := pc_successCount m;
       pc_failCount := pc_failCount m + 1 |}.

(** The local variables after the delay was doubled. *)
Definition slowed (m : Pacer) : Pacer :=
  {| pc_currentDelay := pc_currentDelay m * 2;
     pc_successCount := pc_successCount m;
     pc_failCount := pc_failCount m |}.

(** What a stretch of a paced loop over [k] items does, [t] being what it
    adds to the log: every item is counted once; the requests are [calls],
    one per item and one more per rate-limit hit; there is a sleep for each
    of the [slots] places between items and one per hit; and the delay
    follows a chain of doublings. *)
Record paced_pass (k slots : nat) (items : list ApiCall) (m : Pacer)
    (t : list ToolEvent) (m' : Pacer) : Prop := mkPacedPass {
  pp_counted :
    (pc_successCount m' + pc_failCount m'
     = pc_successCount m + pc_failCount m + Z.of_nat k)%Z;
  pp_success : (pc_successCount m <= pc_successCount m')%Z;
  pp_fail : (pc_failCount m <= pc_failCount m')%Z;
  pp_calls :
    exists ks, List.length ks = List.length items
               /\ Forall (fun n => n = 1 \/ n = 2)%nat ks
               /\ tool_calls t
                  = List.concat (map (fun ck => repeat (fst ck) (snd ck))
                                   (combine items ks))
               /\ List.length (tool_calls t)
                  = (List.length items + List.length (tool_delays t))%nat;
  pp_sleeps :
    List.length (tool_sleeps t) = (slots + List.length (tool_delays t))%nat;
  pp_chain : doubling_from (pc_currentDelay m) (tool_delays t);
  pp_delay : pc_currentDelay m' = last (tool_delays t) (pc_currentDelay m);
  pp_quiet : saved_groups t = [] /\ saved_chats t = [] }.

(** The requests of the paging loop stay within the page size and within
    what is left of the limit, and start where the last page ended. *)
Definition page_request (channel limit : Z) (call : ApiCall) : Prop :=
  exists off lim,
    call = GetParticipants channel off lim
    /\ (0 <= off)%Z /\ (1 <= lim <= 200)%Z
    /\ (limit <> 0%Z -> off + lim <= limit)%Z.

Module DemoTools.

Definition supergroup (id : Z) : Peer :=
  {| className := Channel; megagroup := true; bot := false;
     peer_entity := {| entity_id := id; username := None;
                       accessHash := None |} |}.

Definition broadcast (id : Z) : Peer :=
  {| className := Channel; megagroup := false; bot := false;
     peer_entity := {| entity_id := id; username := None;
                       accessHash := None |} |}.

Definition chat (id : Z) : Peer :=
  {| className := Chat; megagroup := false; bot := false;
     peer_entity := {| entity_id := id; username := None;
                       accessHash := None |} |}.

Definition user (id : Z) (is_bot : bool) : Peer :=
  {| className := User; megagroup := false; bot := is_bot;
     peer_entity := {| entity_id := id; username := None;
                       accessHash := None |} |}.

(** The account is not in the first group it asks about and a plain
    member of the others; no group has topics; every page of members holds
    a user and a bot; every name resolves to a supergroup; every other
    request succeeds. *)
Definition client : Client :=
  {| entity_answer := fun _ => inr (supergroup 1);
     plain_answer := fun _ => None;
     participant_answer :=
       fun k => match k with
                | 0%nat => inl "USER_NOT_PARTICIPANT"%string
                | _ => inr (Some (ChannelParticipant None))
                end;
     topics_answer := fun _ => inl "CHANNEL_FORUM_MISSING"%string;
     users_answer := fun k => inr (Some [user 7 false; user 8 true]) |}.

Definition dialogs : list Peer :=
  [supergroup 1; user 5 false; broadcast 2; supergroup 3; chat 4].

End DemoTools.

(** What holds of the paging loop of [scrapeGroupMembers] whenever it is at
    its test: the offset is the number of users fetched; the members kept
    are users that are no bots, and no more than were fetched; every request
    so far is a [page_request]; each request was followed by a sleep of two
    seconds; and there were no more requests than users fetched, nor, with a
    limit, than the limit. *)
Record scrape_inv (channel limit : Z) (s : ToolSys) (m : Scrape)
    : Prop := mkScrapeInv {
  si_offset : offset m = totalFetched m;
  si_members : Forall (fun user => is_member user = true) (members m);
  si_kept : (Z.of_nat (List.length (members m)) <= totalFetched m)%Z;
  si_requests : Forall (page_request channel limit) (tool_calls (log s));
  si_sleeps : tool_sleeps (log s)
              = repeat 2000 (List.length (tool_calls (log s)));
  si_fetched : (Z.of_nat (List.length (tool_calls (log s)))
                <= totalFetched m)%Z;
  si_bound : (limit <> 0 ->
              Z.of_nat (List.length (tool_calls (log s))) <= limit)%Z }.

(** The pages the paging loop has kept when it has made [n] requests and
    ended by [how]: all but the last one when the answer to it ended the
    loop. *)
Definition pages_kept (how : option Paging) (n : nat) : nat :=
  match how with
  | Some LastPage | Some (Failed _) => Nat.pred n
  | _ => n
  end.

(** What the paging loop has done when it is left with [how], or is still
    going. *)
Record scrape_done (channel limit : Z) (how : option Paging) (s : ToolSys)
    (m : Scrape) : Prop := mkScrapeDone {
  sd_offset : offset m = totalFetched m;
  sd_members :
    Forall (fun user => className user = User /\ bot user = false) (members m);
  sd_kept : (Z.of_nat (List.length (members m)) <= totalFetched m)%Z;
  sd_requests : Forall (page_request channel limit) (tool_calls (log s));
  sd_bound : (limit <> 0 ->
              Z.of_nat (List.length (tool_calls (log s))) <= limit)%Z;
  sd_sleeps :
    tool_sleeps (log s)
    = repeat 2000 (pages_kept how (List.length (tool_calls (log s))));
  sd_enough : how = Some Enough -> (limit <> 0 /\ limit <= totalFetched m)%Z }.

(* ================================================================== *)
(** * Tools that look their targets up

    [joinGroups] and [sendNewPrivateMessages] work through a list of names,
    asking the client for the entity behind each name before they act on
    it. *)

Local Close Scope lane_scope.
Local Open Scope tool_scope.

(* ------------------------------------------------------------------ *)
(** ** Joining groups *)

(** The block that [joinGroups] writes out twice:
[[
  const entity = await client.getEntity(groupLink)
  if (entity.className === "Channel") {
    await client.invoke(new Api.channels.JoinChannel({channel: entity}))
    successCount++
  } else if (entity.className === "Chat") {
    await client.invoke(new Api.messages.AddChatUser({chatId: entity.id, ..}))
    successCount++
  }
]]
    followed by [otherwise] for an entity of another class: the first copy
    has an [else] branch there, the copy of the retry has none.  The value
    is [None] when the block completes and the message of the error when
    the client throws. *)
Definition join (otherwise : Paced unit) (groupLink : string)
    : Paced (option string) :=
  found <- tgetEntity groupLink ;;
  match found with
  | inl message => tret (Some message)
  | inr entity =>
      match className entity with
      | Channel =>
          answer <- tinvoke plain_answer
                      (JoinChannel (entity_id (peer_entity entity))) ;;
          match answer with
          | None => successCount_incr ;; tret None
          | Some message => tret (Some message)
          end
      | Chat =>
          answer <- tinvoke plain_answer
                      (AddChatUser (entity_id (peer_entity entity)) None) ;;
          match answer with
          | None => successCount_incr ;; tret None
          | Some message => tret (Some message)
          end
      | _ => otherwise ;; tret None
      end
  end.

(** [floodWaitMatch ? Number.parseInt(floodWaitMatch[1])
                    : Number.parseInt(waitMatch[1])]
    under [if (floodWaitMatch || waitMatch)]; [None] when neither pattern
    matches. *)
Definition waitSeconds (message : string) : option Z :=
  match floodWaitMatch message with
  | Some digits => Some (JsString.parseInt digits)
  | None =>
      match waitMatch message with
      | Some digits => Some (JsString.parseInt digits)
      | None => None
      end
  end.

(** The body of the loop over the links. *)
Definition joinGroup (groupLink : string) (last : bool) : Paced unit :=
  outcome <- join failCount_incr groupLink ;;   (* else { failCount++ } *)
  match outcome with
  | None => tret tt
  | Some message =>                                    (* catch (joinError) *)
      match waitSeconds message with
      | Some seconds =>
          tsleep (inject_Z seconds * 1000) ;;
          currentDelay_double ;;
          retry <- join (tret tt) groupLink ;;
          match retry with
          | None => tret tt
          | Some _ => failCount_incr                   (* catch (retryError) *)
          end
      | None => failCount_incr
      end
  end ;;
  if last then tret tt
  else m <- tget ;; tsleep (pc_currentDelay m * 1000).

(** What [joinGroups] does for one account, from the lines entered and
    [let currentDelay = joinDelay] on: the log and the three local variables
    it ends with. *)
Definition joinGroups (cl : Client) (lines : list string) (joinDelay : Q)
    : ToolSys * Pacer :=
  let groupLinks := map parsed lines in
  let '(_, s, m) :=
    (tforLast groupLinks joinGroup ;; tlog TeDisconnect) cl tool0
      {| pc_currentDelay := joinDelay; pc_successCount := 0;
         pc_failCount := 0 |} in
  (s, m).

(* ------------------------------------------------------------------ *)
(** ** Messaging new users *)

(** [messageTypeChoiceInner] with what belongs to the choice: the text to
    send, or the channel and the message to forward. *)
Inductive MessageType :=
| TextMessage (messageText : string)
| Forwarded (sourceChannel : Peer) (messageId : Z).

(** The request that delivers the message to [user], whose input peer is
    [{userId: user.id, accessHash: user.accessHash || 0}]. *)
Definition deliverTo (kind : MessageType) (user : Entity) : ApiCall :=
  let userId := entity_id user in
  let hash := match accessHash user with
              | Some h => h
              | None => 0%Z
              end in
  match kind with
  | TextMessage messageText => SendMessage userId hash messageText
  | Forwarded sourceChannel messageId =>
      ForwardMessage (entity_id (peer_entity sourceChannel)) messageId
        userId hash
  end.

(** How a block leaves the body of the loop: by falling through to what
    follows it, or by [continue]. *)
Inductive Flow :=
| Next
| Continue.

(** The block that [sendNewPrivateMessages] writes out twice:
[[
  const user = await client.getEntity(username)
  if (user.className !== "User") { failCount++; continue }
  .. send or forward to user ..
  successCount++
]]
    The value is how the block is left, or the message of the error when the
    client throws. *)
Definition sendTo (kind : MessageType) (username : string)
    : Paced (Flow + string) :=
  found <- tgetEntity username ;;
  match found with
  | inl message => tret (inr message)
  | inr user =>
      match className user with
      | User =>
          answer <- tinvoke plain_answer (deliverTo kind (peer_entity user)) ;;
          match answer with
          | None => successCount_incr ;; tret (inl Next)
          | Some message => tret (inr message)
          end
      | _ => failCount_incr ;; tret (inl Continue)
      end
  end.

(** The [try { .. } catch (dmError) { .. }] statement of the loop. *)
Definition sendOrRetry (kind : MessageType) (username : string) : Paced Flow :=
  outcome <- sendTo kind username ;;
  match outcome with
  | inl flow => tret flow
  | inr message =>
      match floodWaitMatch message with
      | Some digits =>
          tsleep (inject_Z (JsString.parseInt digits) * 1000) ;;
          currentDelay_double ;;
          retry <- sendTo kind username ;;
          match retry with
          | inl flow => tret flow
          | inr _ => failCount_incr ;; tret Next       (* catch (retryError) *)
          end
      | None => failCount_incr ;; tret Next
      end
  end.

(** The body of the loop over the usernames. *)
Definition sendNewPrivateMessage (kind : MessageType) (username : string)
    (last : bool) : Paced unit :=
  flow <- sendOrRetry kind username ;;
  match flow with
  | Continue => tret tt
  | Next =>
      if last then tret tt
      else m <- tget ;; tsleep (pc_currentDelay m * 1000)
  end.

(** What [sendNewPrivateMessages] does for one account, from the lines
    entered and [let currentDelay = messageDelay] on. *)
Definition sendNewPrivateMessages (cl : Client) (kind : MessageType)
    (lines : list string) (messageDelay : Q) : ToolSys * Pacer :=
  let parsedUsernames := map parsed lines in
  let '(_, s, m) :=
    (tforLast parsedUsernames (sendNewPrivateMessage kind) ;;
     tlog TeDisconnect) cl tool0
      {| pc_currentDelay := messageDelay; pc_successCount := 0;
         pc_failCount := 0 |} in
  (s, m).

Local Close Scope tool_scope.
Local Open Scope lane_scope.

(* ------------------------------------------------------------------ *)
(** ** Vocabulary for the tools that look their targets up *)

(** The names looked up in a log, in order. *)
Fixpoint tool_lookups (t : list ToolEvent) : list string :=
  match t with
  | [] => []
  | TeGetEntity id :: t' => id :: tool_lookups t'
  | _ :: t' => tool_lookups t'
  end.

(** The state after [client.getEntity(id)]. *)
Definition looked_up (id : string) (s : ToolSys) : ToolSys :=
  {| calls := S (calls s); log := log s ++ [TeGetEntity id] |}.

(** The request by which [joinGroups] joins [entity], if it makes one. *)
Definition join_call (entity : Peer) : option ApiCall :=
  match className entity with
  | Channel => Some (JoinChannel (entity_id (peer_entity entity)))
  | Chat => Some (AddChatUser (entity_id (peer_entity entity)) None)
  | _ => None
  end.

(** A request to join something the client has resolved a link to. *)
Definition join_request (cl : Client) (call : ApiCall) : Prop :=
  exists k entity,
    entity_answer cl k = inr entity /\ join_call entity = Some call.

(** A request that delivers the message to a user the client has resolved a
    name to. *)
Definition user_request (cl : Client) (kind : MessageType) (call : ApiCall)
    : Prop :=
  exists k user,
    entity_answer cl k = inr user /\ className user = User
    /\ call = deliverTo kind (peer_entity user).

(** Every name resolves to a channel or a chat, or not at all. *)
Definition resolves_to_groups (cl : Client) : Prop :=
  forall k entity,
    entity_answer cl k = inr entity ->
    className entity = Channel \/ className entity = Chat.

(** Every name resolves to a user, or not at all. *)
Definition resolves_to_users (cl : Client) : Prop :=
  forall k entity, entity_answer cl k = inr entity -> className entity = User.

(** What a stretch of a loop over [names] does, [t] being what it adds to
    the log, when the loop looks every name up before it acts on it: the
    names are looked up in order, once and once more per rate-limit hit;
    there are at most [per] requests per lookup, each of them a [request]; the
    successes counted are requests that were made; [missed] of the [k] names
    are counted neither as a success nor as a failure, at most one per hit;
    [skipped] of the [slots] pauses between the names are left out, at most
    one per failure; when [counts] holds nothing is missed, and when [paces]
    holds nothing is skipped; and the delay follows a chain of doublings. *)
Record lookup_pass (counts paces : Prop) (request : ApiCall -> Prop)
    (per k slots : nat) (names : list string) (m : Pacer) (t : list ToolEvent)
    (m' : Pacer) : Prop := mkLookupPass {
  lp_counted :
    exists missed,
      (pc_successCount m' + pc_failCount m' + Z.of_nat missed
       = pc_successCount m + pc_failCount m + Z.of_nat k)%Z
      /\ (missed <= List.length (tool_delays t))%nat
      /\ (counts -> missed = 0%nat);
  lp_success : (pc_successCount m <= pc_successCount m')%Z;
  lp_fail : (pc_failCount m <= pc_failCount m')%Z;
  lp_made :
    (pc_successCount m' - pc_successCount m
     <= Z.of_nat (List.length (tool_calls t)))%Z;
  lp_lookups :
    exists ks, List.length ks = List.length names
               /\ Forall (fun n => n = 1 \/ n = 2)%nat ks
               /\ tool_lookups t
                  = List.concat (map (fun nk => repeat (fst nk) (snd nk))
                                   (combine names ks))
               /\ List.length (tool_lookups t)
                  = (List.length names + List.length (tool_delays t))%nat;
  lp_calls :
    (List.length (tool_calls t) <= per * List.length (tool_lookups t))%nat;
  lp_requests : Forall request (tool_calls t);
  lp_sleeps :
    exists skipped,
      (List.length (tool_sleeps t) + skipped
       = slots + List.length (tool_delays t))%nat
      /\ (Z.of_nat skipped <= pc_failCount m' - pc_failCount m)%Z
      /\ (paces -> skipped = 0%nat);
  lp_chain : doubling_from (pc_currentDelay m) (tool_delays t);
  lp_delay : pc_currentDelay m' = last (tool_delays t) (pc_currentDelay m) }.

Module DemoLookup.

(** The first link resolves only after a wait, and then to a user; the
    other links resolve to a supergroup; every request to join is
    accepted. *)
Definition slow_client : Client :=
  {| entity_answer :=
       fun k => match k with
                | 0%nat => inl "FLOOD_WAIT_3"%string
                | 1%nat => inr (DemoTools.user 5 false)
                | _ => inr (DemoTools.supergroup 1)
                end;
     plain_answer := fun _ => None;
     participant_answer := fun _ => inr None;
     topics_answer := fun _ => inr None;
     users_answer := fun _ => inr None |}.

(** Every name resolves to the same user and every message is
    accepted. *)
Definition user_client : Client :=
  {| entity_answer := fun _ => inr (DemoTools.user 7 false);
     plain_answer := fun _ => None;
     participant_answer := fun _ => inr None;
     topics_answer := fun _ => inr None;
     users_answer := fun _ => inr None |}.

Definition links : list string :=
  ["https://t.me/alpha/"%string; "t.me/beta"%string; "gamma"%string].

End DemoLookup.

(* ================================================================== *)
(** * Messaging all private chats *)

Local Close Scope lane_scope.
Local Open Scope tool_scope.

(** [dialog.entity.className === "User"] *)
Definition is_user (dialog : Peer) : bool :=
  match className dialog with
  | User => true
  | _ => false
  end.

(** [dialogs.filter(..).map(..)]: the users among the dialogs, as the
    records that are cached. *)
Definition privateChatsOf (dialogs : list Peer) : list Entity :=
  map peer_entity (filter is_user dialogs).

(** The two places where [messageAllPrivateChats] fetches the private chats
    afresh and saves them; [dialogs] is the answer of [client.getDialogs()],
    [inl] when it throws. *)
Definition fetchPrivateChats (accountNumber : string)
    (dialogs : string + list Peer) : Paced (string + list Entity) :=
  match dialogs with
  | inl message => tret (inl message)
  | inr ds =>
      let privateChats := privateChatsOf ds in
      tlog (TeSaveChats accountNumber privateChats) ;;
      tret (inr privateChats)
  end.

(** The private chats of the account: the cached ones when there are some
    and the operator wants them, fresh ones otherwise.  [cachedChats] is
    [cachedChats.privateChats], [None] when there is no cache or no such
    field; [useCache] tells whether the answer was [y]. *)
Definition choosePrivateChats (accountNumber : string)
    (cachedChats : option (list Entity)) (useCache : bool)
    (dialogs : string + list Peer) : Paced (string + list Entity) :=
  match cachedChats with
  | Some (chat :: chats) =>
      if useCache then tret (inr (chat :: chats))
      else fetchPrivateChats accountNumber dialogs
  | _ => fetchPrivateChats accountNumber dialogs
  end.

(** What the operator chose to send: a text, or the id of a source channel
    and of a message of it. *)
Definition MessageChoice : Type := (string + string * Z)%type.

(** The body of the loop over the private chats. *)
Definition messageChat (kind : MessageType) (user : Entity) (last : bool)
    : Paced unit :=
  answer <- tinvoke plain_answer (deliverTo kind user) ;;
  match answer with
  | None => successCount_incr
  | Some message =>                                 (* catch (messageError) *)
      match floodWaitMatch message with
      | Some digits =>
          tsleep (inject_Z (JsString.parseInt digits) * 1000) ;;
          currentDelay_double ;;
          retry <- tinvoke plain_answer (deliverTo kind user) ;;
          match retry with
          | None => successCount_incr
          | Some _ => failCount_incr                   (* catch (retryError) *)
          end
      | None => failCount_incr
      end
  end ;;
  if last then tret tt
  else m <- tget ;; tsleep (pc_currentDelay m * 1000).

(** What [messageAllPrivateChats] does for one account once the client is
    connected. *)
Definition messagePrivateChats (accountNumber : string)
    (cachedChats : option (list Entity)) (useCache : bool)
    (dialogs : string + list Peer) (choice : MessageChoice) : Paced unit :=
  chosen <- choosePrivateChats accountNumber cachedChats useCache dialogs ;;
  match chosen with
  | inl _ => tlog TeDisconnect                      (* catch (accountError) *)
  | inr [] => tlog TeDisconnect                     (* no private chats *)
  | inr privateChats =>
      match choice with
      | inl messageText =>
          tforLast privateChats (messageChat (TextMessage messageText)) ;;
          tlog TeDisconnect
      | inr (sourceChannelId, messageId) =>
          found <- tgetEntity sourceChannelId ;;
          match found with
          | inl _ => tlog TeDisconnect              (* catch (entityError) *)
          | inr sourceChannel =>
              tforLast privateChats
                (messageChat (Forwarded sourceChannel messageId)) ;;
              tlog TeDisconnect
          end
      end
  end.

(** The same, run on a client with [currentDelay = messageDelay] and both
    counters at 0. *)
Definition messageAllPrivateChats (cl : Client) (accountNumber : string)
    (cachedChats : option (list Entity)) (useCache : bool)
    (dialogs : string + list Peer) (choice : MessageChoice) (messageDelay : Q)
    : ToolSys * Pacer :=
  let '(_, s, m) :=
    messagePrivateChats accountNumber cachedChats useCache dialogs choice
      cl tool0
      {| pc_currentDelay := messageDelay; pc_successCount := 0;
         pc_failCount := 0 |} in
  (s, m).

Local Close Scope tool_scope.
Local Open Scope lane_scope.

(* ------------------------------------------------------------------ *)
(** ** Vocabulary for the private chats *)

(** The chats the account would message: the cached ones when they are
    used, the users among the dialogs otherwise; [None] when the dialogs
    cannot be fetched. *)
Definition chosen_chats (cachedChats : option (list Entity)) (useCache : bool)
    (dialogs : string + list Peer) : option (list Entity) :=
  let fresh := match dialogs with
               | inl _ => None
               | inr ds => Some (privateChatsOf ds)
               end in
  match cachedChats with
  | Some (chat :: chats) => if useCache then Some (chat :: chats) else fresh
  | _ => fresh
  end.

(** Whether the cache is used. *)
Definition cache_used (cachedChats : option (list Entity)) (useCache : bool)
    : bool :=
  match cachedChats with
  | Some (_ :: _) => useCache
  | _ => false
  end.

(** The message [kind] is what the operator chose. *)
Definition chosen_message (choice : MessageChoice) (kind : MessageType)
    : Prop :=
  match choice with
  | inl messageText => kind = TextMessage messageText
  | inr (_, messageId) =>
      exists sourceChannel, kind = Forwarded sourceChannel messageId
  end.

(* ================================================================== *)
(** * Adding users to a group *)

Local Close Scope lane_scope.
Local Open Scope tool_scope.

(** [for (let i = 0; i < xs.length; i++) body(i, xs[i])], counting from
    [i], the body being told whether it is at the last element. *)
Fixpoint tforIndexed {Mem A} (i : nat) (xs : list A)
    (body : nat -> A -> bool -> T Mem unit) : T Mem unit :=
  match xs with
  | [] => tret tt
  | [x] => body i x true
  | x :: xs' => tbind (body i x false) (fun _ => tforIndexed (S i) xs' body)
  end.

(** The request that puts [user] into the target group, if there is one:
[[
  if (targetGroup.className === "Channel") { invoke(InviteToChannel ..) }
  else if (targetGroup.className === "Chat") { invoke(AddChatUser ..) }
]]
    The value is the message of the error when the client throws. *)
Definition inviteTo (targetGroup user : Peer) : Paced (option string) :=
  match className targetGroup with
  | Channel =>
      tinvoke plain_answer
        (InviteToChannel (entity_id (peer_entity targetGroup))
           (entity_id (peer_entity user)))
  | Chat =>
      tinvoke plain_answer
        (AddChatUser (entity_id (peer_entity targetGroup))
           (Some (entity_id (peer_entity user))))
  | _ => tret None
  end.

(** The block that [groupAdder] writes out twice:
[[
  const user = await client.getEntity(username)
  if (user.className !== "User") { failCount++; continue }
  await client.invoke(new Api.contacts.AddContact({id: user, ..}))
  .. invite user to targetGroup ..
  successCount++
]]
    The value is how the block is left, or the message of the error when the
    client throws. *)
Definition addTo (targetGroup : Peer) (username : string)
    : Paced (Flow + string) :=
  found <- tgetEntity username ;;
  match found with
  | inl message => tret (inr message)
  | inr user =>
      match className user with
      | User =>
          added <- tinvoke plain_answer
                     (AddContact (entity_id (peer_entity user))) ;;
          match added with
          | Some message => tret (inr message)
          | None =>
              invited <- inviteTo targetGroup user ;;
              match invited with
              | Some message => tret (inr message)
              | None => successCount_incr ;; tret (inl Next)
              end
          end
      | _ => failCount_incr ;; tret (inl Continue)
      end
  end.

(** The inner [try { .. } catch (addError) { .. }] statement of the loop.
    The outer [catch (userError)] is reached only from inside this [catch],
    which does not throw when every error carries a message. *)
Definition addOrRetry (targetGroup : Peer) (username : string) : Paced Flow :=
  outcome <- addTo targetGroup username ;;
  match outcome with
  | inl flow => tret flow
  | inr message =>
      match floodWaitMatch message with
      | Some digits =>
          tsleep (inject_Z (JsString.parseInt digits) * 1000) ;;
          currentDelay_double ;;
          retry <- addTo targetGroup username ;;
          match retry with
          | inl flow => tret flow
          | inr _ => failCount_incr ;; tret Next       (* catch (retryError) *)
          end
      | None => failCount_incr ;; tret Next
      end
  end.

(** The body of the loop over the usernames, [connected] being
    [connectedClients.length]. *)
Definition addUser (connected : nat) (targetGroup : Peer) (i : nat)
    (username : string) (last : bool) : Paced unit :=
  tlog (TeUseClient (i mod connected)) ;;     (* clientIndex = i % length *)
  flow <- addOrRetry targetGroup username ;;
  match flow with
  | Continue => tret tt
  | Next =>
      if last then tret tt
      else m <- tget ;; tsleep (pc_currentDelay m * 1000)
  end.

(** [for (const { client } of connectedClients) client.disconnect()] *)
Fixpoint disconnectAll (connected : nat) : Paced unit :=
  match connected with
  | O => tret tt
  | S k => tlog TeDisconnect ;; disconnectAll k
  end.

(** [groupAdder] from the connected clients on: [connected] of the selected
    accounts have connected, [groupLink] and [lines] are as entered. *)
Definition addUsers (connected : nat) (groupLink : string)
    (lines : list string) : Paced unit :=
  let usernames := map parsed lines in
  if (connected =? 0)%nat then tret tt
  else
    tlog (TeUseClient 0) ;;                   (* connectedClients[0].client *)
    found <- tgetEntity (parsed groupLink) ;;
    match found with
    | inl _ => disconnectAll connected              (* catch (entityError) *)
    | inr targetGroup =>
        tforIndexed 0 usernames (addUser connected targetGroup) ;;
        disconnectAll connected
    end.

(** The same, run with [currentDelay = addDelay] and both counters at 0. *)
Definition groupAdder (cl : Client) (connected : nat) (groupLink : string)
    (lines : list string) (addDelay : Q) : ToolSys * Pacer :=
  let '(_, s, m) :=
    addUsers connected groupLink lines cl tool0
      {| pc_currentDelay := addDelay; pc_successCount := 0;
         pc_failCount := 0 |} in
  (s, m).

Local Close Scope tool_scope.
Local Open Scope lane_scope.

(* ------------------------------------------------------------------ *)
(** ** Vocabulary for the adder *)

(** The clients used in a log, in order. *)
Fixpoint tool_clients (t : list ToolEvent) : list nat :=
  match t with
  | [] => []
  | TeUseClient clientIndex :: t' => clientIndex :: tool_clients t'
  | _ :: t' => tool_clients t'
  end.

(** The disconnects of a log. *)
Fixpoint tool_disconnects (t : list ToolEvent) : nat :=
  match t with
  | [] => 0
  | TeDisconnect :: t' => S (tool_disconnects t')
  | _ :: t' => tool_disconnects t'
  end.

(** The request by which [groupAdder] puts [user] into [targetGroup], if it
    makes one. *)
Definition invite_call (targetGroup user : Peer) : option ApiCall :=
  match className targetGroup with
  | Channel =>
      Some (InviteToChannel (entity_id (peer_entity targetGroup))
              (entity_id (peer_entity user)))
  | Chat =>
      Some (AddChatUser (entity_id (peer_entity targetGroup))
              (Some (entity_id (peer_entity user))))
  | _ => None
  end.

(** A request of the adder for a user the client has resolved a name to: it
    adds the user to the contacts or to the target group. *)
Definition add_request (cl : Client) (targetGroup : Peer) (call : ApiCall)
    : Prop :=
  exists k user,
    entity_answer cl k = inr user /\ className user = User
    /\ (call = AddContact (entity_id (peer_entity user))
        \/ invite_call targetGroup user = Some call).

(** The call is an [AddContact]. *)
Definition is_add_contact (call : ApiCall) : bool :=
  match call with
  | AddContact _ => true
  | _ => false
  end.

(** Every username resolves to a user, or not at all; the first lookup is
    that of the target group. *)
Definition names_resolve_to_users (cl : Client) : Prop :=
  forall k entity,
    (1 <= k)%nat -> entity_answer cl k = inr entity -> className entity = User.

(** What a stretch of the loop of [groupAdder] over the usernames number
    [i], [i + 1], .., [i + k - 1] does: a [lookup_pass] with at most two
    requests per lookup, the username number [j] going through the client
    number [j mod connected]; no more successes are counted than users were
    added to the contacts; and no client is disconnected. *)
Record adder_pass (cl : Client) (connected : nat) (targetGroup : Peer)
    (i k slots : nat) (names : list string) (m : Pacer) (t : list ToolEvent)
    (m' : Pacer) : Prop := mkAdderPass {
  ap_pass :
    lookup_pass True (names_resolve_to_users cl) (add_request cl targetGroup)
      2 k slots names m t m';
  ap_clients :
    tool_clients t = map (fun j => j mod connected) (seq i k);
  ap_contacts :
    (pc_successCount m' - pc_successCount m
     <= Z.of_nat (List.length (filter is_add_contact (tool_calls t))))%Z;
  ap_connected : tool_disconnects t = 0%nat }.

Module DemoAdder.

(** The group link resolves to a supergroup; the first username resolves
    only after a wait, the second is a channel, the others are users; every
    request is accepted. *)
Definition client : Client :=
  {| entity_answer :=
       fun k => match k with
                | 0%nat => inr (DemoTools.supergroup 1)
                | 1%nat => inl "FLOOD_WAIT_3"%string
                | 3%nat => inr (DemoTools.broadcast 2)
                | _ => inr (DemoTools.user 7 false)
                end;
     plain_answer := fun _ => None;
     participant_answer := fun _ => inr None;
     topics_answer := fun _ => inr None;
     users_answer := fun _ => inr None |}.

End DemoAdder.

(* ================================================================== *)
(** * Strings *)

Unset Implicit Arguments.

Local Open Scope string_scope.


Lemma drop_prefix_app p s : JsString.drop_prefix p (p ++ s) = Some s.
Proof.
  induction p as [|c p IH]; simpl; [destruct s; reflexivity|].
  rewrite Ascii.eqb_refl. exact IH.
Qed.

Lemma drop_prefix_spec p s t : JsString.drop_prefix p s = Some t -> s = p ++ t.
Proof.
  revert s. induction p as [|c p IH]; intros s H.
  - destruct s; injection H as <-; reflexivity.
  - destruct s as [|d s]; [discriminate|]. simpl in H.
    destruct (Ascii.eqb_spec c d) as [<-|]; [|discriminate].
    simpl. f_equal. apply IH. exact H.
Qed.

Lemma append_assoc (a b c : string) : (a ++ b) ++ c = a ++ b ++ c.
Proof. induction a as [|x a IH]; simpl; [reflexivity | rewrite IH; reflexivity]. Qed.

Lemma append_nil_r (a : string) : a ++ "" = a.
Proof. induction a as [|x a IH]; simpl; [reflexivity | rewrite IH; reflexivity]. Qed.

Lemma take_skip_digits s : s = JsString.take_digits s ++ Js.skip_digits s.
Proof.
  induction s as [|c s IH]; [reflexivity|]. simpl.
  destruct (JsString.is_digit c); [simpl; f_equal; exact IH | reflexivity].
Qed.

Lemma take_digits_all s : all_digits (JsString.take_digits s) = true.
Proof.
  induction s as [|c s IH]; [reflexivity|]. simpl.
  destruct (JsString.is_digit c) eqn:E; [simpl; rewrite E; exact IH | reflexivity].
Qed.

Lemma skip_digits_stops s : starts_with_digit (Js.skip_digits s) = false.
Proof.
  induction s as [|c s IH]; [reflexivity|]. simpl.
  destruct (JsString.is_digit c) eqn:E; [exact IH | simpl; exact E].
Qed.

Lemma take_digits_app d post :
  all_digits d = true -> starts_with_digit post = false ->
  JsString.take_digits (d ++ post) = d /\ Js.skip_digits (d ++ post) = post.
Proof.
  intros Hd Hp. induction d as [|c d IH]; simpl in *.
  - destruct post as [|c post]; [split; reflexivity|]. simpl in *. rewrite Hp.
    split; reflexivity.
  - apply andb_true_iff in Hd. destruct Hd as [Hc Hd]. rewrite Hc.
    destruct (IH Hd) as [-> ->]. split; reflexivity.
Qed.

Lemma digit_value_nonneg c : JsString.is_digit c = true -> (0 <= JsString.digit_value c)%Z.
Proof.
  unfold JsString.is_digit, JsString.digit_value. intros H.
  apply andb_true_iff in H. destruct H as [H _]. apply Nat.leb_le in H.
  revert H. generalize (nat_of_ascii c). intros n H. lia.
Qed.

Lemma parse_digits_nonneg s acc :
  all_digits s = true -> (0 <= acc)%Z -> (0 <= JsString.parse_digits acc s)%Z.
Proof.
  revert acc. induction s as [|c s IH]; intros acc Hs Hacc; [exact Hacc|].
  cbn [all_digits JsString.parse_digits] in *.
  apply andb_true_iff in Hs. destruct Hs as [Hc Hs].
  apply IH; [exact Hs|]. pose proof (digit_value_nonneg c Hc) as Hv.
  revert Hv. generalize (JsString.digit_value c). intros v Hv. lia.
Qed.

(** ** Decimal numerals *)

Lemma string_of_uint_digits d : all_digits (NilEmpty.string_of_uint d) = true.
Proof. induction d; simpl; try exact IHd; reflexivity. Qed.

Lemma parse_digits_uint d acc :
  JsString.parse_digits (Z.of_nat acc) (NilEmpty.string_of_uint d)
  = Z.of_nat (Nat.of_uint_acc d acc).
Proof.
  revert acc. induction d; intros acc;
    cbn [NilEmpty.string_of_uint JsString.parse_digits Nat.of_uint_acc];
    [reflexivity| | | | | | | | | |];
    rewrite <- IHd; f_equal; rewrite Nat.tail_mul_spec;
    match goal with
    | |- context [JsString.digit_value ?c] =>
        let v := eval vm_compute in (JsString.digit_value c) in
        change (JsString.digit_value c) with v
    end; lia.
Qed.

Lemma parse_digits_decimal n : JsString.parse_digits 0 (Js.decimal n) = Z.of_nat n.
Proof.
  unfold Js.decimal.
  change 0%Z with (Z.of_nat 0).
  rewrite (parse_digits_uint (Nat.to_uint n) 0).
  change (Nat.of_uint_acc (Nat.to_uint n) 0) with (Nat.of_uint (Nat.to_uint n)).
  rewrite DecimalNat.Unsigned.of_to. reflexivity.
Qed.

(** ** Numbers *)

Lemma to_double_small z : (Z.abs z <= 2 ^ 53)%Z -> JsString.to_double z = z.
Proof.
  intros H. unfold JsString.to_double.
  destruct (Z.leb_spec (Z.abs z) (2 ^ 53)); [reflexivity | lia].
Qed.

Lemma to_double_nonneg z : (0 <= z)%Z -> (0 <= JsString.to_double z)%Z.
Proof.
  intros H. unfold JsString.to_double.
  destruct (Z.leb_spec (Z.abs z) (2 ^ 53)) as [_|Hbig]; [exact H|].
  cbv zeta.
  assert (Hq : (0 <= Z.shiftr (Z.abs z) (Z.log2 (Z.abs z) - 52))%Z)
    by (apply Z.shiftr_nonneg; lia).
  apply Z.mul_nonneg_nonneg; [lia|].
  apply Z.shiftl_nonneg.
  repeat match goal with
         | |- context [if ?b then _ else _] => destruct b
         end; lia.
Qed.

Lemma parse_digits_acc s acc :
  JsString.parse_digits acc s
  = (acc * 10 ^ Z.of_nat (String.length s) + numeral_value s)%Z.
Proof.
  revert acc. induction s as [|c s IH]; intros acc.
  - cbn. lia.
  - cbn [JsString.parse_digits numeral_value String.length].
    rewrite IH, Nat2Z.inj_succ, Z.pow_succ_r by lia. lia.
Qed.

Lemma parse_digits_value s : JsString.parse_digits 0 s = numeral_value s.
Proof. rewrite parse_digits_acc. lia. Qed.

Lemma numeral_value_decimal n : numeral_value (Js.decimal n) = Z.of_nat n.
Proof. rewrite <- parse_digits_value. apply parse_digits_decimal. Qed.

Lemma numeral_value_nonneg s : all_digits s = true -> (0 <= numeral_value s)%Z.
Proof.
  intros H. rewrite <- parse_digits_value.
  apply parse_digits_nonneg; [exact H | lia].
Qed.

Lemma parseInt_nonneg s : all_digits s = true -> (0 <= JsString.parseInt s)%Z.
Proof.
  intros H. unfold JsString.parseInt. apply to_double_nonneg.
  apply parse_digits_nonneg; [exact H | lia].
Qed.

Lemma parseInt_value s :
  all_digits s = true -> (numeral_value s <= 2 ^ 53)%Z ->
  JsString.parseInt s = numeral_value s.
Proof.
  intros H Hb. unfold JsString.parseInt. rewrite parse_digits_value.
  apply to_double_small. pose proof (numeral_value_nonneg s H). lia.
Qed.

Lemma parseInt_decimal n :
  (Z.of_nat n <= 2 ^ 53)%Z -> JsString.parseInt (Js.decimal n) = Z.of_nat n.
Proof.
  intros H. rewrite parseInt_value; rewrite ?numeral_value_decimal;
    [reflexivity | apply string_of_uint_digits | exact H].
Qed.

Lemma decimal_digits n : all_digits (Js.decimal n) = true.
Proof. apply string_of_uint_digits. Qed.

Lemma decimal_not_empty n : Js.decimal n <> "".
Proof.
  unfold Js.decimal. intros E.
  pose proof (DecimalNat.Unsigned.of_to n) as H.
  destruct (Nat.to_uint n) eqn:En; try discriminate.
  cbn in H. subst n. discriminate.
Qed.

(** ** The rate-limit pattern *)

Lemma take_digits_empty s :
  JsString.take_digits s = "" -> starts_with_digit s = false.
Proof.
  destruct s as [|c s]; [reflexivity|]. simpl.
  destruct (JsString.is_digit c); [discriminate | reflexivity].
Qed.

Lemma floodWaitMatch_step c rest :
  floodWaitMatch (String c rest) =
  match JsString.drop_prefix "FLOOD_WAIT_" (String c rest) with
  | Some tail =>
      match JsString.take_digits tail with
      | "" => floodWaitMatch rest
      | digits => Some digits
      end
  | None => floodWaitMatch rest
  end.
Proof. reflexivity. Qed.

Lemma floodWaitMatch_sound message digits :
  floodWaitMatch message = Some digits ->
  digits <> ""
  /\ all_digits digits = true
  /\ exists pre post,
       message = pre ++ "FLOOD_WAIT_" ++ digits ++ post
       /\ starts_with_digit post = false.
Proof.
  induction message as [|c rest IH]; [discriminate|].
  rewrite floodWaitMatch_step.
  assert (Hrec : floodWaitMatch rest = Some digits ->
                 digits <> "" /\ all_digits digits = true
                 /\ exists pre post,
                      String c rest = pre ++ "FLOOD_WAIT_" ++ digits ++ post
                      /\ starts_with_digit post = false).
  { intros H. destruct (IH H) as (Hne & Hd & pre & post & E & Hp).
    split; [exact Hne|]. split; [exact Hd|].
    exists (String c pre), post. split; [rewrite E; reflexivity | exact Hp]. }
  destruct (JsString.drop_prefix "FLOOD_WAIT_" (String c rest)) as [tail|] eqn:E;
    [|exact Hrec].
  destruct (JsString.take_digits tail) as [|d ds] eqn:Et; [exact Hrec|].
  intros [= <-]. split; [discriminate|].
  split; [rewrite <- Et; apply take_digits_all|].
  exists "", (Js.skip_digits tail). split; [|apply skip_digits_stops].
  apply drop_prefix_spec in E. rewrite E, <- Et.
  rewrite <- take_skip_digits. reflexivity.
Qed.

Lemma floodWaitMatch_at tail :
  JsString.take_digits tail <> "" ->
  floodWaitMatch ("FLOOD_WAIT_" ++ tail) = Some (JsString.take_digits tail).
Proof.
  intros H.
  change ("FLOOD_WAIT_" ++ tail) with (String "F" ("LOOD_WAIT_" ++ tail)).
  rewrite floodWaitMatch_step.
  change (String "F" ("LOOD_WAIT_" ++ tail)) with ("FLOOD_WAIT_" ++ tail).
  rewrite drop_prefix_app.
  destruct (JsString.take_digits tail); [contradiction | reflexivity].
Qed.

Lemma floodWaitMatch_complete pre c post :
  JsString.is_digit c = true ->
  floodWaitMatch (pre ++ "FLOOD_WAIT_" ++ String c post) <> None.
Proof.
  intros Hc. induction pre as [|a pre IH].
  - change ("" ++ "FLOOD_WAIT_" ++ String c post)
      with ("FLOOD_WAIT_" ++ String c post).
    rewrite floodWaitMatch_at; [discriminate|].
    cbn [JsString.take_digits]. rewrite Hc. discriminate.
  - change ((String a pre) ++ "FLOOD_WAIT_" ++ String c post)
      with (String a (pre ++ "FLOOD_WAIT_" ++ String c post)).
    rewrite floodWaitMatch_step.
    destruct (JsString.drop_prefix _ _) as [tail|]; [|exact IH].
    destruct (JsString.take_digits tail); [exact IH | discriminate].
Qed.

(** ** The rate-limit hint of a message *)

Lemma wait_hint_skip a rest digits :
  wait_hint (String a rest) digits ->
  (forall tail, JsString.drop_prefix "FLOOD_WAIT_" (String a rest) = Some tail ->
                JsString.take_digits tail = "") ->
  wait_hint rest digits.
Proof.
  intros (pre & post & E & Hne & Hd & Hp & Hleft) Hhere.
  destruct pre as [|b pre].
  - exfalso. change ("" ++ "FLOOD_WAIT_" ++ digits ++ post)
      with ("FLOOD_WAIT_" ++ digits ++ post) in E.
    specialize (Hhere (digits ++ post)). rewrite E, drop_prefix_app in Hhere.
    specialize (Hhere eq_refl).
    destruct (take_digits_app digits post Hd Hp) as [Ht _].
    rewrite Ht in Hhere. contradiction.
  - change (String b pre ++ "FLOOD_WAIT_" ++ digits ++ post)
      with (String b (pre ++ "FLOOD_WAIT_" ++ digits ++ post)) in E.
    injection E as -> E.
    exists pre, post. split; [exact E|]. split; [exact Hne|].
    split; [exact Hd|]. split; [exact Hp|].
    intros pre' c post' E' Hc.
    specialize (Hleft (String b pre') c post').
    cbn [String.length] in Hleft. apply le_S_n. apply Hleft; [|exact Hc].
    rewrite E'. reflexivity.
Qed.

(** The pattern finds the hint of the message. *)
Lemma floodWaitMatch_hint message digits :
  floodWaitMatch message = Some digits <-> wait_hint message digits.
Proof.
  split.
  - revert digits. induction message as [|a rest IH]; intros digits;
      [discriminate|].
    rewrite floodWaitMatch_step.
    assert (Hrec : (forall tail,
                      JsString.drop_prefix "FLOOD_WAIT_" (String a rest) = Some tail ->
                      JsString.take_digits tail = "") ->
                   floodWaitMatch rest = Some digits ->
                   wait_hint (String a rest) digits).
    { intros Hhere H.
      destruct (IH _ H) as (pre & post & E & Hne & Hd & Hp & Hleft).
      exists (String a pre), post.
      split; [rewrite E; reflexivity|]. split; [exact Hne|].
      split; [exact Hd|]. split; [exact Hp|].
      intros pre' c post' E' Hc. destruct pre' as [|b pre'].
      - exfalso. change ("" ++ "FLOOD_WAIT_" ++ String c post')
          with ("FLOOD_WAIT_" ++ String c post') in E'.
        specialize (Hhere (String c post')).
        rewrite E', drop_prefix_app in Hhere. specialize (Hhere eq_refl).
        cbn [JsString.take_digits] in Hhere. rewrite Hc in Hhere. discriminate.
      - change (String b pre' ++ "FLOOD_WAIT_" ++ String c post')
          with (String b (pre' ++ "FLOOD_WAIT_" ++ String c post')) in E'.
        injection E' as _ E'. cbn [String.length]. apply le_n_S.
        apply (Hleft pre' c post' E' Hc). }
    destruct (JsString.drop_prefix "FLOOD_WAIT_" (String a rest)) as [tail|] eqn:E;
      [|apply Hrec; discriminate].
    destruct (JsString.take_digits tail) as [|d ds] eqn:Et;
      [apply Hrec; intros tail' [= <-]; exact Et|].
    intros [= <-]. exists "", (Js.skip_digits tail).
    split; [|split; [discriminate|split; [rewrite <- Et; apply take_digits_all|
             split; [apply skip_digits_stops|intros; apply Nat.le_0_l]]]].
    apply drop_prefix_spec in E. rewrite E, <- Et.
    rewrite <- take_skip_digits. reflexivity.
  - revert digits. induction message as [|a rest IH]; intros digits H.
    + destruct H as (pre & post & E & _). destruct pre; discriminate.
    + rewrite floodWaitMatch_step.
      destruct (JsString.drop_prefix "FLOOD_WAIT_" (String a rest)) as [tail|] eqn:E.
      * destruct (JsString.take_digits tail) as [|d ds] eqn:Et.
        -- apply IH. apply (wait_hint_skip a rest digits H).
           intros tail' Ht'. rewrite E in Ht'. injection Ht' as <-. exact Et.
        -- destruct H as (pre & post & Em & Hne & Hd & Hp & Hleft).
           apply drop_prefix_spec in E.
           destruct tail as [|c tail']; [discriminate|].
           cbn [JsString.take_digits] in Et.
           destruct (JsString.is_digit c) eqn:Hc; [|discriminate].
           specialize (Hleft "" c tail' E Hc).
           destruct pre; [|cbn in Hleft; lia].
           change ("" ++ "FLOOD_WAIT_" ++ digits ++ post)
             with ("FLOOD_WAIT_" ++ (digits ++ post)) in Em.
           rewrite E in Em.
           assert (Ht : String c tail' = digits ++ post).
           { pose proof (drop_prefix_app "FLOOD_WAIT_" (String c tail')) as D1.
             rewrite Em, drop_prefix_app in D1. congruence. }
           destruct (take_digits_app digits post Hd Hp) as [Htd _].
           rewrite <- Ht in Htd. cbn [JsString.take_digits] in Htd.
           rewrite Hc in Htd. rewrite <- Htd, <- Et. reflexivity.
      * apply IH. apply (wait_hint_skip a rest digits H).
        intros tail' Ht'. rewrite E in Ht'. discriminate.
Qed.

Lemma floodWaitMatch_no_hint message :
  floodWaitMatch message = None <-> no_wait_hint message.
Proof.
  split.
  - intros E pre c post ->. destruct (JsString.is_digit c) eqn:Hc; [|reflexivity].
    exfalso. exact (floodWaitMatch_complete pre c post Hc E).
  - intros H. destruct (floodWaitMatch message) as [digits|] eqn:E; [|reflexivity].
    exfalso. apply floodWaitMatch_hint in E.
    destruct E as (pre & post & -> & Hne & Hd & _).
    destruct digits as [|c ds]; [contradiction|].
    cbn [all_digits] in Hd. apply andb_true_iff in Hd. destruct Hd as [Hc _].
    specialize (H pre c (ds ++ post) eq_refl). congruence.
Qed.

(** A message has at most one hint, and has one or none. *)
Lemma wait_hint_unique message d1 d2 :
  wait_hint message d1 -> wait_hint message d2 -> d1 = d2.
Proof.
  intros H1 H2. apply floodWaitMatch_hint in H1, H2. congruence.
Qed.


Lemma wait_hint_not_none message digits :
  wait_hint message digits -> ~ no_wait_hint message.
Proof.
  intros H1 H2. apply floodWaitMatch_hint in H1. apply floodWaitMatch_no_hint in H2.
  congruence.
Qed.

Local Close Scope string_scope.

Set Implicit Arguments.


(* ================================================================== *)
(** * Properties *)

(** ** Reading a trace *)

Lemma requests_app t1 t2 : requests (t1 ++ t2) = requests t1 ++ requests t2.
Proof.
  induction t1 as [|e t1 IH]; simpl; [reflexivity|].
  destruct e; simpl; rewrite IH; reflexivity.
Qed.

Lemma sleeps_app t1 t2 : sleeps (t1 ++ t2) = sleeps t1 ++ sleeps t2.
Proof.
  induction t1 as [|e t1 IH]; simpl; [reflexivity|].
  destruct e; simpl; rewrite IH; reflexivity.
Qed.

Lemma delays_app t1 t2 : delays (t1 ++ t2) = delays t1 ++ delays t2.
Proof.
  induction t1 as [|e t1 IH]; simpl; [reflexivity|].
  destruct e; simpl; rewrite IH; reflexivity.
Qed.

(** ** Topic selection *)






Lemma getRandomOpenTopic_spec (Mem : Type) ts o s (m : Mem) :
  getRandomOpenTopic ts o s m =
  match openTopicsOf ts with
  | [] => (None, s, m)
  | _ :: _ => (topic_at ts (rnd o (rk s)), advance_rk 1 s, m)
  end.
Proof.
  unfold getRandomOpenTopic, topic_at.
  destruct (openTopicsOf ts) as [|t open]; reflexivity.
Qed.

Lemma deliver_spec (Mem : Type) src mid peer g o s (m : Mem) :
  deliver src mid peer g o s m =
  (net o (nk s),
   after_delivery (request_at src mid peer g o (rk s)) (topic_draws g) s, m).
Proof.
  unfold deliver, request_at, topic_of_delivery, topic_draws, after_delivery.
  destruct (hasTopics g); [|reflexivity].
  unfold bind at 1. rewrite getRandomOpenTopic_spec.
  destruct (openTopicsOf (topics g)) as [|t open]; reflexivity.
Qed.

Lemma openTopicsOf_In ts t :
  In t (openTopicsOf ts) <-> In t ts /\ closed t = false.
Proof.
  unfold openTopicsOf. rewrite filter_In.
  destruct (closed t); simpl; intuition congruence.
Qed.

Lemma topic_at_open ts r id :
  topic_at ts r = Some id ->
  exists t, In t ts /\ closed t = false /\ topic_id t = id.
Proof.
  unfold topic_at. intros H.
  destruct (nth_error (openTopicsOf ts) _) as [t|] eqn:E; [|discriminate].
  simpl in H. injection H as <-.
  apply nth_error_In in E. apply openTopicsOf_In in E.
  exists t. tauto.
Qed.







(** ** One destination of a lane *)

(** [forwardToGroup], case by case on what the client answers. *)
Lemma forwardToGroup_run src mid g o s m :
  forwardToGroup src mid g o s m =
  let d := currentDelay (config m) in
  let peer := inputPeerOf g in
  let s1 := after_delivery (request_at src mid peer g o (rk s)) (topic_draws g) s in
  match net o (nk s) with
  | None => (tt, logged (EvSleep (d * 1000)) s1, pushed (ok_result g) m)
  | Some message =>
      match floodWaitMatch message with
      | Some digits =>
          let wait := (inject_Z (JsString.parseInt digits) * 1000)%Q in
          let s2 := logged (EvSetDelay (d * 2)) (logged (EvSleep wait) s1) in
          let s3 :=
            after_delivery (request_at src mid peer g o (rk s2)) (topic_draws g) s2 in
          (tt, logged (EvSleep (d * 2 * 1000)) s3,
           pushed (retry_result g (net o (nk s2)))
             {| config := set_currentDelay (d * 2) (config m);
                results := results m |})
      | None =>
          (tt, logged (EvSleep (d * 1000)) s1,
           pushed (fail_result g (classify message)) m)
      end
  end.
Proof.
  unfold forwardToGroup. unfold bind at 1. rewrite deliver_spec.
  destruct (net o (nk s)) as [message|] eqn:E1.
  - destruct (floodWaitMatch message) as [digits|] eqn:E2.
    + unfold bind at 1. unfold bind at 1. unfold sleep at 1, emit at 1.
      unfold bind at 1. unfold get_currentDelay at 1, bind at 1, getMem at 1, ret at 1.
      unfold bind at 1. unfold assign_currentDelay at 1.
      unfold bind at 1, getMem at 1. unfold bind at 1, putMem at 1, emit at 1.
      unfold bind at 1. rewrite deliver_spec.
      cbn [nk after_delivery logged rk].
      destruct (net o (S (nk s))) as [retryMessage|]; reflexivity.
    + reflexivity.
  - reflexivity.
Qed.

(** ** The delay ratchet *)

Lemma last_cons {A} (a : A) (l : list A) (d : A) : last (a :: l) d = last l a.
Proof.
  revert a d. induction l as [|b l IH]; intros a d; [reflexivity|].
  change (last (a :: b :: l) d) with (last (b :: l) d).
  rewrite (IH b d), (IH b a). reflexivity.
Qed.

Lemma last_app_last {A} (l1 l2 : list A) (d : A) :
  last (l1 ++ l2) d = last l2 (last l1 d).
Proof.
  revert d. induction l1 as [|a l1 IH]; intros d; [reflexivity|].
  rewrite <- app_comm_cons, !last_cons. apply IH.
Qed.

Lemma doubling_from_app d ds1 ds2 :
  doubling_from d ds1 -> doubling_from (last ds1 d) ds2 ->
  doubling_from d (ds1 ++ ds2).
Proof.
  revert d. induction ds1 as [|a ds1 IH]; intros d H1 H2.
  - exact H2.
  - destruct H1 as [E H1]. rewrite last_cons in H2.
    split; [exact E | apply IH; assumption].
Qed.

(** Along a doubling chain that starts at a non-negative value, nothing
    falls below the start and the values never decrease. *)
Lemma doubling_from_ge d ds :
  (0 <= d)%Q -> doubling_from d ds -> Forall (fun x => (d <= x)%Q) ds.
Proof.
  revert d. induction ds as [|a ds IH]; intros d Hd H; constructor.
  - destruct H as [-> _]. lra.
  - destruct H as [-> H].
    assert (H0 : (0 <= d * 2)%Q) by lra.
    specialize (IH _ H0 H).
    eapply Forall_impl; [|exact IH]. simpl. intros x Hx. lra.
Qed.

Lemma doubling_from_nondecreasing d ds :
  (0 <= d)%Q -> doubling_from d ds -> nondecreasing (d :: ds).
Proof.
  revert d. induction ds as [|a ds IH]; intros d Hd H.
  - simpl. tauto.
  - destruct H as [-> H]. split; [lra|].
    apply IH; [lra | exact H].
Qed.

Lemma doubling_from_last_ge d ds :
  (0 <= d)%Q -> doubling_from d ds -> (d <= last ds d)%Q.
Proof.
  revert d. induction ds as [|a ds IH]; intros d Hd H.
  - simpl. lra.
  - destruct H as [E H]. rewrite last_cons.
    assert (Ha : (0 <= a)%Q) by (rewrite E; lra).
    specialize (IH a Ha H). rewrite E in IH at 1. lra.
Qed.

(** ** A whole pass of a lane *)

Lemma delay_set_after_sleep_nil : delay_set_after_sleep [].
Proof. intros pre d post H. destruct pre; discriminate. Qed.

Lemma delay_set_after_sleep_app t1 t2 :
  delay_set_after_sleep t1 -> delay_set_after_sleep t2 ->
  delay_set_after_sleep (t1 ++ t2).
Proof.
  intros H1 H2 pre d post E.
  apply app_eq_app in E. destruct E as (l & [[E1 E2]|[E1 E2]]).
  - destruct l as [|e l].
    + simpl in E2. symmetry in E2.
      destruct (H2 [] d post E2) as (pre' & ms & Hnil).
      destruct pre'; discriminate.
    + simpl in E2. injection E2 as <- E2.
      apply (H1 pre d l). exact E1.
  - destruct (H2 l d post E2) as (pre' & ms & ->).
    exists (t1 ++ pre'), ms. rewrite E1, app_assoc. reflexivity.
Qed.

Lemma pass_facts_nil m : pass_facts [] m m [].
Proof.
  constructor; simpl; try reflexivity; try tauto.
  - apply delay_set_after_sleep_nil.
  - exists []. rewrite app_nil_r. split; reflexivity.
  - exists []. repeat split. constructor.
Qed.

Lemma pass_facts_cons g gs m m1 m2 t1 t2 :
  pass_facts [g] m m1 t1 -> pass_facts gs m1 m2 t2 ->
  pass_facts (g :: gs) m m2 (t1 ++ t2).
Proof.
  intros F1 F2. constructor.
  - rewrite delays_app. apply doubling_from_app; [apply F1|].
    rewrite <- (pf_delay F1). apply F2.
  - rewrite delays_app, last_app_last, <- (pf_delay F1). apply F2.
  - apply delay_set_after_sleep_app; [apply F1 | apply F2].
  - rewrite sleeps_app, delays_app, !length_app, (pf_sleeps F1), (pf_sleeps F2).
    simpl. lia.
  - discriminate.
  - intros _. destruct gs as [|g' gs].
    + destruct (pf_empty F2 eq_refl) as [-> ->].
      rewrite app_nil_r. apply (pf_last F1). discriminate.
    + destruct (pf_last F2) as (t0 & ->); [discriminate|].
      exists (t1 ++ t0). rewrite app_assoc. reflexivity.
  - destruct (pf_results F1) as (rs1 & E1 & H1).
    destruct (pf_results F2) as (rs2 & E2 & H2).
    exists (rs1 ++ rs2). rewrite E2, E1, <- app_assoc, map_app, H1, H2.
    split; reflexivity.
  - rewrite (pf_initial F2). apply F1.
  - rewrite (pf_sources F2). apply F1.
  - rewrite (pf_groups F2). apply F1.
  - destruct (pf_order F1) as (k1 & L1 & A1 & R1).
    destruct (pf_order F2) as (k2 & L2 & A2 & R2).
    destruct k1 as [|k [|? ?]]; try discriminate.
    exists (k :: k2). split; [simpl; lia|].
    split; [constructor; [inversion A1; assumption | assumption]|].
    rewrite requests_app, map_app, R1, R2. unfold attempts_in_order.
    simpl. rewrite app_nil_r. reflexivity.
Qed.

Lemma after_sleep_plain r ms : delay_set_after_sleep [EvInvoke r; EvSleep ms].
Proof.
  intros pre d post E.
  destruct pre as [|e1 [|e2 [|e3 pre]]]; simpl in E; discriminate.
Qed.

Lemma after_sleep_retry r1 wait dd r2 ms :
  delay_set_after_sleep
    [EvInvoke r1; EvSleep wait; EvSetDelay dd; EvInvoke r2; EvSleep ms].
Proof.
  intros pre d post E.
  destruct pre as [|e1 [|e2 [|e3 [|e4 [|e5 [|e6 pre]]]]]]; simpl in E;
    try discriminate.
  injection E as <- <- _ _. exists [EvInvoke r1], wait. reflexivity.
Qed.

Lemma forwardToGroup_facts src mid g o s m :
  exists t,
    trace (snd (fst (forwardToGroup src mid g o s m))) = trace s ++ t
    /\ pass_facts [g] m (snd (forwardToGroup src mid g o s m)) t.
Proof.
  rewrite forwardToGroup_run. cbv zeta.
  destruct (net o (nk s)) as [message|].
  - destruct (floodWaitMatch message) as [digits|].
    + eexists. split.
      * cbn [fst snd trace logged after_delivery].
        rewrite <- !app_assoc. cbn [app]. reflexivity.
      * constructor; try apply after_sleep_retry;
          cbn; try reflexivity; try tauto; try discriminate.
        -- intros _. eexists [_; _; _; _]. reflexivity.
        -- eexists [_]. split; [reflexivity|].
           destruct (net o (S (nk s))); reflexivity.
        -- exists [2%nat]. repeat split. constructor; [right; reflexivity|constructor].
    + eexists. split.
      * cbn [fst snd trace logged after_delivery].
        rewrite <- !app_assoc. cbn [app]. reflexivity.
      * constructor; try apply after_sleep_plain;
          cbn; try reflexivity; try tauto; try discriminate.
        -- intros _. eexists [_]. reflexivity.
        -- eexists [_]. split; reflexivity.
        -- exists [1%nat]. repeat split. constructor; [left; reflexivity|constructor].
  - eexists. split.
    + cbn [fst snd trace logged after_delivery].
      rewrite <- !app_assoc. cbn [app]. reflexivity.
    + constructor; try apply after_sleep_plain;
        cbn; try reflexivity; try tauto; try discriminate.
      * intros _. eexists [_]. reflexivity.
      * eexists [_]. split; reflexivity.
      * exists [1%nat]. repeat split. constructor; [left; reflexivity|constructor].
Qed.

Lemma forOf_forwardToGroup_facts src mid groups o s m :
  exists t,
    trace (snd (fst (forOf groups (forwardToGroup src mid) o s m))) = trace s ++ t
    /\ pass_facts groups m (snd (forOf groups (forwardToGroup src mid) o s m)) t.
Proof.
  revert s m. induction groups as [|g groups IH]; intros s m.
  - exists []. simpl. rewrite app_nil_r. split; [reflexivity | apply pass_facts_nil].
  - simpl. unfold bind.
    destruct (forwardToGroup_facts src mid g o s m) as (t1 & Ht1 & F1).
    destruct (forwardToGroup src mid g o s m) as [[[] s1] m1].
    simpl in Ht1, F1.
    destruct (IH s1 m1) as (t2 & Ht2 & F2).
    exists (t1 ++ t2). split.
    + rewrite Ht2, Ht1, app_assoc. reflexivity.
    + eapply pass_facts_cons; eassumption.
Qed.

Lemma run_lane_eq o c src mid :
  run_lane o c src mid =
  let r := forOf (writableGroups c) (forwardToGroup src mid) o sys0
             {| config := c; results := [] |} in
  (snd (fst r), snd r).
Proof.
  unfold run_lane, forwardWithClient, bind, getMem. cbn [config].
  destruct (forOf (writableGroups c) (forwardToGroup src mid) o sys0 _)
    as [[[] s'] m'].
  reflexivity.
Qed.

(** What a lane task leaves behind: the trace of its pass and the memory,
    with the facts of a pass over the lane's destinations. *)
Lemma run_lane_facts o c src mid :
  pass_facts (writableGroups c) {| config := c; results := [] |}
    (snd (run_lane o c src mid)) (trace (fst (run_lane o c src mid))).
Proof.
  rewrite run_lane_eq. cbv zeta. cbn [fst snd].
  destruct (forOf_forwardToGroup_facts src mid (writableGroups c) o sys0
              {| config := c; results := [] |}) as (t & Ht & F).
  simpl in Ht. rewrite Ht. exact F.
Qed.

Example floodWaitMatch_demo :
  floodWaitMatch Demo.flood_message = Some "10"%string
  /\ JsString.parseInt "10" = 10%Z
  /\ floodWaitMatch "CHAT_WRITE_FORBIDDEN" = None
  /\ floodWaitMatch "FLOOD_WAIT_ FLOOD_WAIT_7x" = Some "7"%string.
Proof. repeat split; reflexivity. Qed.

(** ** Rate limits *)

Lemma hinted_wait_nonneg digits :
  all_digits digits = true ->
  (0 <= inject_Z (JsString.parseInt digits) * 1000)%Q.
Proof.
  intros H. apply Qmult_le_0_compat; [|lra].
  change 0%Q with (inject_Z 0). rewrite <- Zle_Qle.
  apply parseInt_nonneg. exact H.
Qed.

Lemma wait_hint_digits message digits :
  wait_hint message digits -> all_digits digits = true.
Proof. intros (pre & post & _ & _ & H & _). exact H. Qed.




(** ** Doubling comes after a rate-limit wait only *)

Lemma doubled_after_rate_limit_nil o k : doubled_after_rate_limit o k [].
Proof. intros pre d post H. destruct pre; discriminate. Qed.

Lemma doubled_after_rate_limit_app o k t1 t2 :
  doubled_after_rate_limit o k t1 ->
  doubled_after_rate_limit o (k + List.length (requests t1)) t2 ->
  doubled_after_rate_limit o k (t1 ++ t2).
Proof.
  intros H1 H2 pre d post E.
  apply app_eq_app in E. destruct E as (l & [[E1 E2]|[E1 E2]]).
  - destruct l as [|e l].
    + simpl in E2. symmetry in E2.
      destruct (H2 [] d post E2) as (pre' & req & ms & message & digits & Hnil & _).
      destruct pre' as [|? [|? ?]]; discriminate.
    + simpl in E2. injection E2 as <- E2.
      apply (H1 pre d l). exact E1.
  - destruct (H2 l d post E2)
      as (pre' & req & ms & message & digits & -> & Hnet & Hrest).
    exists (t1 ++ pre'), req, ms, message, digits.
    split; [rewrite E1, app_assoc; reflexivity|].
    split; [|exact Hrest].
    rewrite requests_app, length_app, Nat.add_assoc. exact Hnet.
Qed.

Lemma forwardToGroup_rate_limit src mid g o s m :
  exists t,
    trace (snd (fst (forwardToGroup src mid g o s m))) = trace s ++ t
    /\ nk (snd (fst (forwardToGroup src mid g o s m)))
       = (nk s + List.length (requests t))%nat
    /\ doubled_after_rate_limit o (nk s) t.
Proof.
  rewrite forwardToGroup_run. cbv zeta.
  destruct (net o (nk s)) as [message|] eqn:Hnet.
  - destruct (floodWaitMatch message) as [digits|] eqn:Hm.
    + eexists. split; [|split].
      * cbn [fst snd trace logged after_delivery].
        rewrite <- !app_assoc. cbn [app]. reflexivity.
      * cbn. lia.
      * intros pre d post E.
        destruct pre as [|e1 [|e2 [|e3 [|e4 [|e5 [|e6 pre]]]]]]; simpl in E;
          try discriminate.
        injection E as <- <- _ _.
        apply floodWaitMatch_hint in Hm.
        pose proof (wait_hint_digits Hm) as Hd.
        eexists [], _, _, message, digits.
        split; [reflexivity|]. cbn [requests List.length].
        rewrite Nat.add_0_r. split; [exact Hnet|]. split; [exact Hm|].
        split; [apply hinted_wait_nonneg; exact Hd|].
        intros Hb. rewrite (parseInt_value _ Hd Hb). reflexivity.
    + eexists. split; [|split].
      * cbn [fst snd trace logged after_delivery].
        rewrite <- !app_assoc. cbn [app]. reflexivity.
      * cbn. lia.
      * intros pre d post E.
        destruct pre as [|e1 [|e2 [|e3 pre]]]; simpl in E; discriminate.
  - eexists. split; [|split].
    + cbn [fst snd trace logged after_delivery].
      rewrite <- !app_assoc. cbn [app]. reflexivity.
    + cbn. lia.
    + intros pre d post E.
      destruct pre as [|e1 [|e2 [|e3 pre]]]; simpl in E; discriminate.
Qed.

Lemma forOf_forwardToGroup_rate_limit src mid groups o s m :
  exists t,
    trace (snd (fst (forOf groups (forwardToGroup src mid) o s m))) = trace s ++ t
    /\ doubled_after_rate_limit o (nk s) t.
Proof.
  revert s m. induction groups as [|g groups IH]; intros s m.
  - exists []. simpl. rewrite app_nil_r.
    split; [reflexivity | apply doubled_after_rate_limit_nil].
  - simpl. unfold bind.
    destruct (forwardToGroup_rate_limit src mid g o s m) as (t1 & Ht1 & Hk1 & F1).
    destruct (forwardToGroup src mid g o s m) as [[[] s1] m1].
    simpl in Ht1, Hk1, F1.
    destruct (IH s1 m1) as (t2 & Ht2 & F2).
    exists (t1 ++ t2). split.
    + rewrite Ht2, Ht1, app_assoc. reflexivity.
    + apply doubled_after_rate_limit_app; [exact F1|]. rewrite <- Hk1. exact F2.
Qed.

(** In the pass of a lane task the delay is doubled after a rate-limit wait
    and at no other place. *)
Lemma run_lane_rate_limit o c src mid :
  doubled_after_rate_limit o 0 (trace (fst (run_lane o c src mid))).
Proof.
  rewrite run_lane_eq. cbv zeta. cbn [fst].
  destruct (forOf_forwardToGroup_rate_limit src mid (writableGroups c) o sys0
              {| config := c; results := [] |}) as (t & Ht & F).
  simpl in Ht. rewrite Ht. exact F.
Qed.

Lemma topic_of_delivery_draw (Mem : Type) g o s (m : Mem) k :
  hasTopics g = true -> rk s = k ->
  topic_of_delivery g o k = fst (fst (getRandomOpenTopic (topics g) o s m)).
Proof.
  intros Hg <-. unfold topic_of_delivery. rewrite Hg, getRandomOpenTopic_spec.
  destruct (openTopicsOf (topics g)); reflexivity.
Qed.

(** C10. When a rate-limited delivery to a destination with topics is sent
    again, the topic of the second request is what [getRandomOpenTopic]
    answers on a draw of its own, taken after the draws of the first
    request; it is an open topic whenever it is a topic at all, and it need
    not be the topic of the first request: on the sample forum the first
    request goes to topic 11 and the second to topic 13. *)
Theorem C10_retry_redraws_topic :
  (forall src mid g o s (m : LaneMem) message digits,
      net o (nk s) = Some message ->
      floodWaitMatch message = Some digits ->
      hasTopics g = true ->
      exists req1 req2,
        requests (trace (snd (fst (forwardToGroup src mid g o s m))))
          = requests (trace s) ++ [req1; req2]
        /\ topMsgId req1 = fst (fst (getRandomOpenTopic (topics g) o s m))
        /\ topMsgId req2 =
             fst (fst (getRandomOpenTopic (topics g) o
                         (advance_rk (S (topic_draws g)) s) m))
        /\ (forall id, topMsgId req2 = Some id ->
              exists t, In t (topics g) /\ closed t = false /\ topic_id t = id))
  /\ (exists req1 req2,
        requests (trace (snd (fst (forwardToGroup "@announcements" 42 Demo.forum
                                     Demo.flood_once sys0
                                     (Demo.mem_of (Demo.lane_of [Demo.forum] 1))))))
          = [req1; req2]
        /\ topMsgId req1 = Some 11%Z /\ topMsgId req2 = Some 13%Z).
Proof.
  split.
  - intros src mid g o s m message digits Hnet Hflood Hg.
    rewrite forwardToGroup_run. cbv zeta. rewrite Hnet, Hflood.
    cbn [fst snd trace logged after_delivery rk].
    do 2 eexists. split.
    + rewrite !requests_app. cbn [requests]. rewrite !app_nil_r, <- app_assoc.
      reflexivity.
    + cbn [topMsgId request_at]. split; [|split].
      * apply topic_of_delivery_draw; [exact Hg | reflexivity].
      * apply topic_of_delivery_draw; [exact Hg | reflexivity].
      * intros id H. unfold topic_of_delivery in H. rewrite Hg in H.
        destruct (openTopicsOf (topics g)); [discriminate|].
        eapply topic_at_open; exact H.
  - do 2 eexists. split; [vm_compute; reflexivity|].
    split; reflexivity.
Qed.

Lemma C10_witness_forum :
  exists req1 req2,
    requests (trace (snd (fst (forwardToGroup "@announcements" 42 Demo.forum
                                 Demo.flood_once sys0
                                 (Demo.mem_of (Demo.lane_of [Demo.forum] 1))))))
      = requests (trace sys0) ++ [req1; req2]
    /\ topMsgId req2 =
         fst (fst (getRandomOpenTopic (topics Demo.forum) Demo.flood_once
                     (advance_rk (S (topic_draws Demo.forum)) sys0)
                     (Demo.mem_of (Demo.lane_of [Demo.forum] 1)))).
Proof.
  destruct (proj1 C10_retry_redraws_topic "@announcements"%string 42%Z
              Demo.forum Demo.flood_once sys0
              (Demo.mem_of (Demo.lane_of [Demo.forum] 1))
              Demo.flood_message "10"%string eq_refl eq_refl eq_refl)
    as (req1 & req2 & H1 & _ & H2 & _).
  exists req1, req2. split; [exact H1 | exact H2].
Defined.



(** ** Sleeps of a pass *)

(** A pass sleeps once after every destination, the last one included, and
    once more for every rate-limit wait. *)
Lemma forwardWithClient_sleeps o c src mid :
  List.length (sleeps (trace (fst (run_lane o c src mid))))
  = (List.length (writableGroups c)
     + List.length (delays (trace (fst (run_lane o c src mid)))))%nat
  /\ (writableGroups c <> [] ->
      exists t0,
        trace (fst (run_lane o c src mid))
        = t0 ++ [EvSleep (currentDelay (config (snd (run_lane o c src mid))) * 1000)]).
Proof.
  pose proof (run_lane_facts o c src mid) as F.
  split; [apply (pf_sleeps F) | apply (pf_last F)].
Qed.

(** C3. The pass of [forwardWithClient] over three destinations that all
    accept the message, with a delay of one second: three successes, no
    failure, and three sleeps of the current delay, the third one after the
    last destination, where the specification has two. *)
Theorem C3_three_destinations_three_sleeps :
  let r := run_lane Demo.quiet (Demo.lane_of Demo.three_groups 1)
             "@announcements" 42 in
  count_success (results (snd r)) = 3%Z
  /\ count_fail (results (snd r)) = 0%Z
  /\ sleeps (trace (fst r)) = [1 * 1000; 1 * 1000; 1 * 1000]%Q
  /\ List.length (sleeps (trace (fst r))) = 3%nat
  /\ last (trace (fst r)) (EvSleep 0) = EvSleep (1 * 1000)%Q.
Proof. vm_compute. repeat split; reflexivity. Qed.

(** A destination that is rate limited for 10 seconds and accepts the
    message on the second request, with a delay of one second: the delay
    doubles once, the result is a success, and the lane sleeps for the 10
    seconds and then for the new delay. *)
Example rate_limited_then_accepted :
  let r := run_lane Demo.flood_once (Demo.lane_of [Demo.plain 1] 1)
             "@announcements" 42 in
  map success (results (snd r)) = [true]
  /\ currentDelay (config (snd r)) = (1 * 2)%Q
  /\ delays (trace (fst r)) = [(1 * 2)%Q]
  /\ sleeps (trace (fst r)) = [inject_Z 10 * 1000; 1 * 2 * 1000]%Q
  /\ List.length (requests (trace (fst r))) = 2%nat.
Proof. vm_compute. repeat split; reflexivity. Qed.

(** The batch path, for comparison, sleeps between destinations only: over
    the same three destinations, one message each, it sleeps twice. *)
Example batch_pass_skips_the_last_sleep :
  let m0 := {| b_config :=
                 {| b_phoneNumber := "+10000000001";
                    messageBatches := [[Demo.source]];
                    initialMessageDelay := 1; currentMessageDelay := 1;
                    initialBatchDelay := 1; currentBatchDelay := 1;
                    b_writableGroups := Demo.three_groups |};
               b_totalSuccessCount := 0; b_totalFailCount := 0 |} in
  let r := batchLane 1 Demo.quiet sys0 m0 in
  b_totalSuccessCount (snd r) = 3%Z
  /\ sleeps (trace (snd (fst r))) = [1 * 1000; 1 * 1000]%Q.
Proof. vm_compute. repeat split; reflexivity. Qed.

(* ================================================================== *)
(** * The cycle loop *)

(** ** Lists *)

Unset Implicit Arguments.

Section Pick.

Context {A B : Type} (view : A -> option B).

Lemma pick_app xs ys : pick view (xs ++ ys) = pick view xs ++ pick view ys.
Proof.
  induction xs as [|x xs IH]; simpl; [reflexivity|].
  destruct (view x); simpl; rewrite IH; reflexivity.
Qed.

Lemma pick_concat xss : pick view (List.concat xss) = List.concat (map (pick view) xss).
Proof.
  induction xss as [|xs xss IH]; simpl; [reflexivity|].
  rewrite pick_app, IH. reflexivity.
Qed.

Lemma pick_none xs : (forall x, In x xs -> view x = None) -> pick view xs = [].
Proof.
  induction xs as [|x xs IH]; intros H; simpl; [reflexivity|].
  rewrite (H x (or_introl eq_refl)). apply IH.
  intros y Hy. apply H. right. exact Hy.
Qed.

Lemma pick_map_none {C} (f : C -> A) cs :
  (forall c, view (f c) = None) -> pick view (map f cs) = [].
Proof.
  intros H. apply pick_none. intros x Hx.
  apply in_map_iff in Hx. destruct Hx as (c & <- & _). apply H.
Qed.

Lemma pick_map_some {C} (f : C -> A) (g : C -> B) cs :
  (forall c, view (f c) = Some (g c)) -> pick view (map f cs) = map g cs.
Proof.
  intros H. induction cs as [|c cs IH]; simpl; [reflexivity|].
  rewrite H, IH. reflexivity.
Qed.

End Pick.

Lemma nth_error_replace_nth {A} (k j : nat) (x : A) (xs : list A) :
  nth_error (replace_nth k x xs) j =
  if (k =? j)%nat then
    match nth_error xs j with Some _ => Some x | None => None end
  else nth_error xs j.
Proof.
  revert k j. induction xs as [|y xs IH]; intros k j.
  - simpl. destruct (k =? j)%nat; destruct j; reflexivity.
  - destruct k, j; simpl; try reflexivity. apply IH.
Qed.

Lemma length_replace_nth {A} (k : nat) (x : A) (xs : list A) :
  List.length (replace_nth k x xs) = List.length xs.
Proof.
  revert k. induction xs as [|y xs IH]; intros [|k]; simpl; auto.
Qed.

(** ** Promise.all

    Whatever the order in which the event loop resumes the tasks, a view
    that sees the events of one task only reads that task's events, in the
    task's own order. *)

Lemma pick_concat_single {B} (view : CycleEvent -> option B) queues j :
  (forall k q, nth_error queues k = Some q -> k <> j -> pick view q = []) ->
  pick view (List.concat queues) = pick view (nth j queues []).
Proof.
  revert j. induction queues as [|q queues IH]; intros j H.
  - destruct j; reflexivity.
  - simpl. rewrite pick_app. destruct j as [|j].
    + rewrite (IH (List.length queues)).
      * rewrite nth_overflow by lia. simpl. apply app_nil_r.
      * intros k q' Hk _. apply (H (S k) q' Hk). discriminate.
    + rewrite (H 0%nat q eq_refl) by discriminate. simpl.
      apply IH. intros k q' Hk Hne. apply (H (S k) q' Hk). lia.
Qed.

Lemma pick_interleave {B} (view : CycleEvent -> option B) order queues j :
  (forall k q, nth_error queues k = Some q -> k <> j -> pick view q = []) ->
  pick view (interleave order queues) = pick view (nth j queues []).
Proof.
  revert queues. induction order as [|k order IH]; intros queues H.
  - apply pick_concat_single. exact H.
  - simpl. destruct (nth_error queues k) as [[|e q]|] eqn:Ek;
      [apply IH; exact H | | apply IH; exact H].
    assert (H' : forall k' q', nth_error (replace_nth k q queues) k' = Some q' ->
                               k' <> j -> pick view q' = []).
    { intros k' q' Hk' Hne. rewrite nth_error_replace_nth in Hk'.
      destruct (Nat.eqb_spec k k') as [<-|Hkk'].
      - rewrite Ek in Hk'. injection Hk' as <-.
        pose proof (H k (e :: q) Ek Hne) as Hq. simpl in Hq.
        destruct (view e); [discriminate | exact Hq].
      - apply (H k' q' Hk' Hne). }
    simpl. rewrite (IH _ H').
    destruct (Nat.eq_dec k j) as [->|Hkj].
    + rewrite (nth_error_nth _ _ [] Ek).
      assert (Eq : nth_error (replace_nth j q queues) j = Some q).
      { rewrite nth_error_replace_nth, Nat.eqb_refl, Ek. reflexivity. }
      rewrite (nth_error_nth _ _ [] Eq). reflexivity.
    + pose proof (H k (e :: q) Ek Hkj) as Hq. simpl in Hq.
      destruct (view e); [discriminate|].
      assert (En : nth_error (replace_nth k q queues) j = nth_error queues j).
      { rewrite nth_error_replace_nth.
        destruct (Nat.eqb_spec k j); [contradiction | reflexivity]. }
      rewrite <- (nth_default_eq j (replace_nth k q queues) []).
      rewrite <- (nth_default_eq j queues []).
      unfold nth_default. rewrite En. reflexivity.
Qed.

(** A view that sees no task's events sees nothing of their interleaving. *)
Lemma pick_interleave_none {B} (view : CycleEvent -> option B) order queues :
  (forall q, In q queues -> pick view q = []) ->
  pick view (interleave order queues) = [].
Proof.
  intros H. rewrite (pick_interleave view order queues (List.length queues)).
  - rewrite nth_overflow by lia. reflexivity.
  - intros k q Hk _. apply H. eapply nth_error_In. exact Hk.
Qed.

Lemma pick_interleave_concat {B} (view : CycleEvent -> option B) order queues j :
  (forall k q, nth_error queues k = Some q -> k <> j -> pick view q = []) ->
  pick view (interleave order queues) = pick view (List.concat queues).
Proof.
  intros H. rewrite (pick_interleave view order queues j H).
  symmetry. apply pick_concat_single. exact H.
Qed.

(** ** The connection phase *)

Lemma connectOne_entry w n l config c evs :
  connectOne w n l config = (Some c, evs) ->
  cc_lane c = l /\ cc_config c = config
  /\ connectClient w n l = None
  /\ js_index (messageSources config)
       (messageIndex n (List.length (messageSources config)))
     = Some (cc_messageSource c)
  /\ cc_sourceChannel c = sourceChannelId (cc_messageSource c)
  /\ ent (lane_oracle w n l) 0 = None.
Proof.
  unfold connectOne.
  destruct (connectClient w n l); [discriminate|].
  destruct (js_index _ _) as [src|]; [|discriminate].
  destruct (ent _ 0); [discriminate|].
  intros H. injection H as <- _. cbn. repeat split; reflexivity.
Qed.

Lemma connectOne_events w n l config :
  connect_attempts (snd (connectOne w n l config)) = [l]
  /\ (forall l', lane_events l' (snd (connectOne w n l config)) = [])
  /\ collected (snd (connectOne w n l config)) = []
  /\ started (snd (connectOne w n l config)) = []
  /\ Forall (fun e => lane_of_event e = Some l) (snd (connectOne w n l config)).
Proof.
  unfold connectOne.
  destruct (connectClient w n l); [cbn; repeat split; repeat constructor|].
  destruct (js_index _ _) as [src|]; [|cbn; repeat split; repeat constructor].
  destruct (ent _ 0); cbn; repeat split; repeat constructor.
Qed.

Lemma connectAll_unfold w n l0 config rest :
  connectAll w n l0 (config :: rest) =
  (match fst (connectOne w n l0 config) with
   | Some c => c :: fst (connectAll w n (S l0) rest)
   | None => fst (connectAll w n (S l0) rest)
   end,
   snd (connectOne w n l0 config) ++ snd (connectAll w n (S l0) rest)).
Proof.
  simpl. destruct (connectOne w n l0 config) as [entry evs].
  destruct (connectAll w n (S l0) rest) as [more evs']. reflexivity.
Qed.

(** Every entry of [connectedClients] stands for a lane of the cycle, with
    the config found at its position. *)
Lemma connectAll_entries w n l0 configs :
  Forall (fun c =>
            (l0 <= cc_lane c < l0 + List.length configs)%nat
            /\ nth_error configs (cc_lane c - l0) = Some (cc_config c)
            /\ fst (connectOne w n (cc_lane c) (cc_config c)) = Some c)
    (fst (connectAll w n l0 configs)).
Proof.
  revert l0. induction configs as [|config rest IH]; intros l0.
  - constructor.
  - rewrite connectAll_unfold. cbn [fst].
    assert (Hrest :
      Forall (fun c =>
                (l0 <= cc_lane c < l0 + List.length (config :: rest))%nat
                /\ nth_error (config :: rest) (cc_lane c - l0) = Some (cc_config c)
                /\ fst (connectOne w n (cc_lane c) (cc_config c)) = Some c)
        (fst (connectAll w n (S l0) rest))).
    { eapply Forall_impl; [|apply (IH (S l0))].
      intros c (Hr & Hn & Hc). simpl List.length. split; [lia|]. split; [|exact Hc].
      replace (cc_lane c - l0)%nat with (S (cc_lane c - S l0)) by lia.
      exact Hn. }
    destruct (connectOne w n l0 config) as [[c|] evs] eqn:E; [|exact Hrest].
    constructor; [|exact Hrest].
    destruct (connectOne_entry _ _ _ _ _ _ E) as (Hl & Hc & _).
    subst. simpl List.length. split; [lia|].
    rewrite Nat.sub_diag. split; [reflexivity|]. rewrite E. reflexivity.
Qed.

Lemma connectAll_NoDup w n l0 configs :
  NoDup (map cc_lane (fst (connectAll w n l0 configs))).
Proof.
  revert l0. induction configs as [|config rest IH]; intros l0.
  - constructor.
  - rewrite connectAll_unfold. cbn [fst].
    destruct (connectOne w n l0 config) as [[c|] evs] eqn:E; [|apply IH].
    cbn [fst map]. constructor; [|apply IH].
    destruct (connectOne_entry _ _ _ _ _ _ E) as (Hl & _).
    intros Hin. apply in_map_iff in Hin. destruct Hin as (c' & Hc' & Hin).
    pose proof (connectAll_entries w n (S l0) rest) as F.
    rewrite Forall_forall in F. destruct (F c' Hin) as (Hr & _). lia.
Qed.

(** A lane that connects and resolves its source is on the list. *)
Lemma connectAll_complete w n l0 configs l config c :
  (l0 <= l)%nat -> nth_error configs (l - l0) = Some config ->
  fst (connectOne w n l config) = Some c ->
  In c (fst (connectAll w n l0 configs)).
Proof.
  revert l0. induction configs as [|config0 rest IH]; intros l0 Hl Hn Hc.
  - destruct (l - l0)%nat; discriminate.
  - rewrite connectAll_unfold. cbn [fst].
    destruct (Nat.eq_dec l l0) as [->|Hne].
    + rewrite Nat.sub_diag in Hn. injection Hn as ->.
      rewrite Hc. left. reflexivity.
    + assert (Hin : In c (fst (connectAll w n (S l0) rest))).
      { apply IH; [lia | | exact Hc].
        replace (l - l0)%nat with (S (l - S l0)) in Hn by lia. exact Hn. }
      destruct (fst (connectOne w n l0 config0)); [right|]; exact Hin.
Qed.

(** The connection phase calls [connectClient] once for every lane, in
    order, and does nothing else that the views below can see. *)
Lemma connectAll_events w n l0 configs :
  connect_attempts (snd (connectAll w n l0 configs))
    = seq l0 (List.length configs)
  /\ (forall l, lane_events l (snd (connectAll w n l0 configs)) = [])
  /\ collected (snd (connectAll w n l0 configs)) = []
  /\ started (snd (connectAll w n l0 configs)) = [].
Proof.
  revert l0. induction configs as [|config rest IH]; intros l0.
  - cbn. repeat split; reflexivity.
  - rewrite connectAll_unfold. cbn [snd].
    destruct (connectOne_events w n l0 config) as (H1 & H2 & H3 & H4 & _).
    destruct (IH (S l0)) as (I1 & I2 & I3 & I4).
    unfold connect_attempts, lane_events, collected, started in *.
    repeat split; intros; rewrite pick_app.
    + rewrite H1, I1. reflexivity.
    + rewrite H2, I2. reflexivity.
    + rewrite H3, I3. reflexivity.
    + rewrite H4, I4. reflexivity.
Qed.

(** ** The dispatch phase *)

Lemma lane_queue_view l c t :
  pick (lane_view l) (lane_queue c t) =
  if (cc_lane c =? l)%nat then trace (fst t) else [].
Proof.
  unfold lane_queue. induction (trace (fst t)) as [|e tr IH]; simpl.
  - destruct (cc_lane c =? l)%nat; reflexivity.
  - destruct (cc_lane c =? l)%nat; [rewrite IH|]; auto.
Qed.

Lemma lane_queue_other {B} (view : CycleEvent -> option B) c t :
  (forall l e, view (CeLane l e) = None) -> pick view (lane_queue c t) = [].
Proof.
  intros H. unfold lane_queue. apply pick_map_none. intros e. apply H.
Qed.

Lemma entry_of_none cs l : ~ In l (map cc_lane cs) -> entry_of cs l = None.
Proof.
  unfold entry_of. induction cs as [|c cs IH]; intros H; simpl; [reflexivity|].
  destruct (Nat.eqb_spec (cc_lane c) l) as [E|_].
  - exfalso. apply H. left. exact E.
  - apply IH. intros Hin. apply H. right. exact Hin.
Qed.

Lemma entry_of_some cs l c : entry_of cs l = Some c -> In c cs /\ cc_lane c = l.
Proof.
  unfold entry_of. intros H. apply find_some in H.
  destruct H as [Hin E]. apply Nat.eqb_eq in E. tauto.
Qed.

Lemma entry_of_in cs c :
  NoDup (map cc_lane cs) -> In c cs -> entry_of cs (cc_lane c) = Some c.
Proof.
  unfold entry_of. induction cs as [|c0 cs IH]; intros Hnd Hin; [contradiction|].
  simpl in *. inversion Hnd as [|? ? Hnot Hnd']; subst.
  destruct Hin as [->|Hin].
  - rewrite Nat.eqb_refl. reflexivity.
  - destruct (Nat.eqb_spec (cc_lane c0) (cc_lane c)) as [E|_].
    + exfalso. apply Hnot. rewrite E. apply in_map. exact Hin.
    + apply IH; assumption.
Qed.

(** The effects of one lane, seen from a lane. *)
Lemma lane_view_map l l' (tr : list Event) :
  pick (lane_view l) (map (CeLane l') tr) = if (l' =? l)%nat then tr else [].
Proof.
  induction tr as [|e tr IH]; simpl.
  - destruct (l' =? l)%nat; reflexivity.
  - destruct (l' =? l)%nat; [rewrite IH|]; auto.
Qed.

(** At most one task works for a given lane. *)
Lemma one_queue_per_lane (f : Connected -> list Event) cs l :
  NoDup (map cc_lane cs) ->
  exists j, forall k q,
    nth_error (map (fun c => map (CeLane (cc_lane c)) (f c)) cs) k = Some q ->
    k <> j -> pick (lane_view l) q = [].
Proof.
  induction cs as [|c cs IH]; intros Hnd.
  - exists 0%nat. intros [|k] q H; discriminate.
  - inversion Hnd as [|? ? Hnot Hnd']; subst.
    destruct (Nat.eq_dec (cc_lane c) l) as [E|Hne].
    + exists 0%nat. intros [|k] q Hk Hk0; [contradiction|].
      simpl in Hk. apply nth_error_In in Hk. apply in_map_iff in Hk.
      destruct Hk as (c' & <- & Hin). rewrite lane_view_map.
      destruct (Nat.eqb_spec (cc_lane c') l) as [E'|_]; [|reflexivity].
      exfalso. apply Hnot. rewrite E, <- E'. apply in_map. exact Hin.
    + destruct (IH Hnd') as (j & Hj). exists (S j).
      intros [|k] q Hk Hkj.
      * simpl in Hk. injection Hk as <-. rewrite lane_view_map.
        destruct (Nat.eqb_spec (cc_lane c) l); [contradiction | reflexivity].
      * apply (Hj k q Hk). lia.
Qed.

Lemma lane_events_queues (f : Connected -> list Event) cs l :
  NoDup (map cc_lane cs) ->
  pick (lane_view l)
    (List.concat (map (fun c => map (CeLane (cc_lane c)) (f c)) cs)) =
  match entry_of cs l with
  | Some c => f c
  | None => []
  end.
Proof.
  induction cs as [|c cs IH]; intros Hnd; [reflexivity|].
  inversion Hnd as [|? ? Hnot Hnd']; subst.
  simpl. rewrite pick_app, lane_view_map, (IH Hnd').
  unfold entry_of. simpl.
  destruct (Nat.eqb_spec (cc_lane c) l) as [E|_].
  - fold (entry_of cs l). rewrite entry_of_none by (rewrite <- E; exact Hnot).
    apply app_nil_r.
  - reflexivity.
Qed.

(** What a task does while it is created, and what it has left to do, are
    effects of its own lane. *)
Lemma task_pending_eq w n c :
  task_pending w n c =
  map (CeLane (cc_lane c)) (skipn (eager c) (trace (fst (lane_task w n c)))).
Proof. unfold task_pending, lane_queue. apply skipn_map. Qed.

Lemma task_created_eq w n c :
  task_created w n c =
  CeStart (cc_lane c)
  :: map (CeLane (cc_lane c)) (firstn (eager c) (trace (fst (lane_task w n c)))).
Proof. unfold task_created, lane_queue. rewrite firstn_map. reflexivity. Qed.

Lemma task_created_view {B} (view : CycleEvent -> option B) w n cs :
  (forall l e, view (CeLane l e) = None) ->
  pick view (List.concat (map (task_created w n) cs))
  = pick view (map (fun c => CeStart (cc_lane c)) cs).
Proof.
  intros H. induction cs as [|c cs IH]; [reflexivity|].
  cbn [map List.concat]. rewrite pick_app, IH, task_created_eq.
  cbn [pick map]. rewrite (pick_map_none view) by (intros e; apply H).
  destruct (view (CeStart (cc_lane c))); reflexivity.
Qed.

Lemma task_pending_view {B} (view : CycleEvent -> option B) w n cs order :
  (forall l e, view (CeLane l e) = None) ->
  pick view (interleave order (map (task_pending w n) cs)) = [].
Proof.
  intros H. apply pick_interleave_none.
  intros q Hq. apply in_map_iff in Hq. destruct Hq as (c & <- & _).
  rewrite task_pending_eq. apply pick_map_none. intros e. apply H.
Qed.

Lemma task_created_lane w n cs l :
  NoDup (map cc_lane cs) ->
  pick (lane_view l) (List.concat (map (task_created w n) cs)) =
  match entry_of cs l with
  | Some c => firstn (eager c) (trace (fst (lane_task w n c)))
  | None => []
  end.
Proof.
  intros Hnd.
  rewrite <- (lane_events_queues
                (fun c => firstn (eager c) (trace (fst (lane_task w n c)))) cs l Hnd).
  clear Hnd. induction cs as [|c cs IH]; [reflexivity|].
  cbn [map List.concat]. rewrite !pick_app, IH, task_created_eq. reflexivity.
Qed.

Lemma task_pending_lane w n cs l order :
  NoDup (map cc_lane cs) ->
  pick (lane_view l) (interleave order (map (task_pending w n) cs)) =
  match entry_of cs l with
  | Some c => skipn (eager c) (trace (fst (lane_task w n c)))
  | None => []
  end.
Proof.
  intros Hnd.
  assert (E : map (task_pending w n) cs
              = map (fun c => map (CeLane (cc_lane c))
                                (skipn (eager c) (trace (fst (lane_task w n c))))) cs).
  { apply map_ext. intros c. apply task_pending_eq. }
  rewrite E.
  destruct (one_queue_per_lane
              (fun c => skipn (eager c) (trace (fst (lane_task w n c)))) cs l Hnd)
    as (j & Hj).
  rewrite (pick_interleave_concat (lane_view l) order _ j Hj).
  apply lane_events_queues. exact Hnd.
Qed.

(** Seen from one lane, the dispatch phase is the lane's own pass, whatever
    the interleaving with the other lanes. *)
Lemma lane_events_dispatch w n cs l :
  NoDup (map cc_lane cs) ->
  lane_events l (dispatch_events w n cs) =
  match entry_of cs l with
  | Some c => trace (fst (lane_task w n c))
  | None => []
  end.
Proof.
  intros Hnd. unfold lane_events, dispatch_events.
  rewrite !pick_app.
  rewrite (pick_map_none (lane_view l) (fun c => CeCollect _ _)) by reflexivity.
  rewrite (pick_map_none (lane_view l) (fun c => CeDisconnect (cc_lane c)))
    by reflexivity.
  rewrite !app_nil_r.
  rewrite task_created_lane, task_pending_lane by exact Hnd.
  destruct (entry_of cs l); [apply firstn_skipn | reflexivity].
Qed.

Lemma collected_dispatch w n cs :
  collected (dispatch_events w n cs) =
  map (fun c => (cc_lane c, results (snd (lane_task w n c)))) cs.
Proof.
  unfold collected, dispatch_events. rewrite !pick_app.
  rewrite task_created_view, task_pending_view by reflexivity.
  rewrite (pick_map_none collect_view (fun c => CeStart (cc_lane c)))
    by reflexivity.
  rewrite (pick_map_none collect_view (fun c => CeDisconnect (cc_lane c)))
    by reflexivity.
  rewrite app_nil_r. simpl. apply pick_map_some. reflexivity.
Qed.

Lemma started_dispatch w n cs :
  started (dispatch_events w n cs) = map cc_lane cs.
Proof.
  unfold started, dispatch_events. rewrite !pick_app.
  rewrite task_created_view, task_pending_view by reflexivity.
  rewrite (pick_map_none start_view (fun c => CeCollect _ _)) by reflexivity.
  rewrite (pick_map_none start_view (fun c => CeDisconnect (cc_lane c)))
    by reflexivity.
  rewrite !app_nil_r. apply pick_map_some. reflexivity.
Qed.

Lemma tally_collected (f : Connected -> list Result) cs a b :
  tally (map f cs) (a, b) =
  ((a + sum_success (map (fun c => (cc_lane c, f c)) cs))%Z,
   (b + sum_fail (map (fun c => (cc_lane c, f c)) cs))%Z).
Proof.
  revert a b. induction cs as [|c cs IH]; intros a b; simpl.
  - rewrite !Z.add_0_r. reflexivity.
  - rewrite IH. f_equal; lia.
Qed.

(** [cycle] takes one of the three turns. *)
Lemma cycle_Turn w endTime cycleMins s :
  Turn w endTime cycleMins s (fst (cycle w endTime cycleMins s))
    (snd (cycle w endTime cycleMins s)).
Proof.
  unfold cycle.
  destruct (js_lt (inject_Z (clock w (ticks s))) endTime) eqn:Hlt;
    [|apply TurnDeadline; exact Hlt].
  pose proof (@TurnNoClients w endTime cycleMins s Hlt) as HN.
  pose proof (@TurnDispatch w endTime cycleMins s) as HD.
  cbv zeta in HD.
  destruct (connectAll w (S (cycleCount s)) 0 (accountConfigs s))
    as [cs evs] eqn:E.
  cbn [fst snd] in HN, HD.
  destruct cs as [|c cs]; [apply HN; reflexivity|].
  rewrite tally_collected, <- collected_dispatch.
  specialize (HD (js_ge (inject_Z (clock w (S (ticks s)))) endTime) Hlt).
  destruct (js_ge (inject_Z (clock w (S (ticks s)))) endTime).
  - cbn [fst snd]. rewrite app_nil_r in HD. apply HD; [discriminate | reflexivity].
  - cbn [fst snd]. rewrite <- app_assoc. apply HD; [discriminate | reflexivity].
Qed.

(** ** Configs are shared with the tasks *)

Lemma length_write_back done configs :
  List.length (write_back done configs) = List.length configs.
Proof.
  revert configs. induction done as [|[l c] done IH]; intros configs; simpl.
  - reflexivity.
  - rewrite IH. apply length_replace_nth.
Qed.

(** After the tasks have run, the config of a lane is the one its task
    leaves, and the config it had if no task ran for it. *)
Lemma nth_error_write_back (f : Connected -> Config) cs configs l :
  NoDup (map cc_lane cs) ->
  (forall c, In c cs -> (cc_lane c < List.length configs)%nat) ->
  nth_error (write_back (map (fun c => (cc_lane c, f c)) cs) configs) l =
  match entry_of cs l with
  | Some c => Some (f c)
  | None => nth_error configs l
  end.
Proof.
  revert configs. induction cs as [|c cs IH]; intros configs Hnd Hlt.
  - reflexivity.
  - inversion Hnd as [|? ? Hnot Hnd']; subst. simpl.
    rewrite IH; [|exact Hnd'|].
    + unfold entry_of at 2. simpl. fold (entry_of cs l).
      destruct (Nat.eqb_spec (cc_lane c) l) as [E|Hne].
      * rewrite entry_of_none by (rewrite <- E; exact Hnot).
        rewrite nth_error_replace_nth, E, Nat.eqb_refl.
        destruct (nth_error configs l) eqn:En; [reflexivity|].
        apply nth_error_None in En.
        specialize (Hlt c (or_introl eq_refl)). lia.
      * destruct (entry_of cs l); [reflexivity|].
        rewrite nth_error_replace_nth.
        destruct (Nat.eqb_spec (cc_lane c) l); [contradiction | reflexivity].
    + intros c' Hc'. rewrite length_replace_nth. apply Hlt. right. exact Hc'.
Qed.

Lemma lane_turn_summary c c' t :
  lane_turn c c' t ->
  initialDelay c' = initialDelay c
  /\ messageSources c' = messageSources c
  /\ writableGroups c' = writableGroups c
  /\ doubling_from (currentDelay c) (delays t)
  /\ currentDelay c' = last (delays t) (currentDelay c)
  /\ delay_set_after_sleep t.
Proof.
  intros [[-> ->]|(m' & F & ->)].
  - simpl. repeat split; try reflexivity. apply delay_set_after_sleep_nil.
  - split; [apply (pf_initial F)|]. split; [apply (pf_sources F)|].
    split; [apply (pf_groups F)|]. split; [apply (pf_chain F)|].
    split; [apply (pf_delay F) | apply (pf_waits F)].
Qed.

Section Turns.

Variable w : World.
Variable endTime : Q.
Variable cycleMins : Q.

(** What a turn appends to the journal. *)
Lemma Turn_journal s s' e :
  Turn w endTime cycleMins s s' e ->
  exists logs,
    journal s' = journal s ++ logs
    /\ (List.length logs <= 1)%nat
    /\ cycleCount s' = (cycleCount s + List.length logs)%nat
    /\ Forall (fun cl => cl_cycle cl = S (cycleCount s)
                         /\ cl_now cl = clock w (ticks s)
                         /\ js_lt (inject_Z (cl_now cl)) endTime = true) logs
    /\ (ticks s < ticks s')%nat.
Proof.
  intros T. destruct T.
  - exists []. cbn. rewrite app_nil_r.
    repeat split; try lia. constructor.
  - eexists [_]. cbn. repeat split; try lia.
    constructor; [|constructor]. cbn. tauto.
  - eexists [_]. cbn. repeat split; try lia.
    + constructor; [|constructor]. cbn. tauto.
    + destruct late; lia.
Qed.

(** What a turn does to one lane. *)
Lemma Turn_lane s s' e l c :
  Turn w endTime cycleMins s s' e ->
  nth_error (accountConfigs s) l = Some c ->
  exists logs c',
    journal s' = journal s ++ logs
    /\ nth_error (accountConfigs s') l = Some c'
    /\ lane_turn c c' (lane_events l (run_events logs)).
Proof.
  intros T Hc. destruct T.
  - exists [], c. cbn. rewrite app_nil_r.
    split; [reflexivity|]. split; [exact Hc|]. left. tauto.
  - eexists [_], c. cbn. split; [reflexivity|]. split; [exact Hc|].
    left. split; [reflexivity|]. unfold run_events. cbn. rewrite app_nil_r.
    apply (connectAll_events w (S (cycleCount s)) 0 (accountConfigs s)).
  - pose proof (connectAll_NoDup w n 0 (accountConfigs s)) as Hnd.
    pose proof (connectAll_entries w n 0 (accountConfigs s)) as Hent.
    rewrite Forall_forall in Hent. fold cs in Hnd, Hent.
    assert (Hev : lane_events l (run_events
                    [mkCycleLog n (clock w (ticks s))
                       (evs ++ devs
                        ++ (if late then [] else [CeWait (cycleMins * 60 * 1000)]))])
                  = lane_events l devs).
    { unfold run_events. cbn. rewrite app_nil_r. unfold lane_events.
      rewrite !pick_app.
      destruct (connectAll_events w n 0 (accountConfigs s)) as (_ & Hpre & _).
      unfold lane_events in Hpre. fold evs in Hpre. rewrite Hpre.
      destruct late; cbn; rewrite app_nil_r; reflexivity. }
    eexists [_]. cbn [journal accountConfigs].
    rewrite nth_error_write_back;
      [|exact Hnd | intros c0 Hc0; destruct (Hent c0 Hc0) as (Hr & _); lia].
    rewrite Hev. subst devs. rewrite lane_events_dispatch by exact Hnd.
    destruct (entry_of cs l) as [cc|] eqn:Ecc.
    + apply entry_of_some in Ecc. destruct Ecc as [Hin Hl].
      destruct (Hent cc Hin) as (_ & Hn & _).
      rewrite Hl, Nat.sub_0_r, Hc in Hn. injection Hn as Hcfg.
      eexists. split; [reflexivity|]. split; [reflexivity|].
      right. exists (snd (lane_task w n cc)). split; [|reflexivity].
      unfold lane_task. rewrite <- Hcfg. apply run_lane_facts.
    + exists c. split; [reflexivity|]. split; [exact Hc|]. left. tauto.
Qed.

End Turns.

(** ** The loop *)

Lemma js_lt_spec a b : js_lt a b = true <-> (a < b)%Q.
Proof.
  unfold js_lt. rewrite negb_true_iff.
  split.
  - intros H. apply Qnot_le_lt. intros Hle.
    apply Qle_bool_iff in Hle. congruence.
  - intros H. destruct (Qle_bool b a) eqn:E; [|reflexivity].
    apply Qle_bool_iff in E. exfalso. apply (Qlt_not_le _ _ H E).
Qed.

Lemma js_lt_false a b : js_lt a b = false <-> (b <= a)%Q.
Proof.
  unfold js_lt. rewrite negb_false_iff. apply Qle_bool_iff.
Qed.

Lemma js_ge_spec a b : js_ge a b = true <-> (b <= a)%Q.
Proof. unfold js_ge. apply Qle_bool_iff. Qed.

Section Loop.

Variable w : World.
Variable endTime : Q.
Variable cycleMins : Q.

Lemma Reach_trans s s1 s2 :
  Reach w endTime cycleMins s s1 -> Reach w endTime cycleMins s1 s2 ->
  Reach w endTime cycleMins s s2.
Proof.
  intros H1 H2. induction H2 as [|s2 s3 _ IH T]; [exact H1|].
  eapply Reach_turn; eassumption.
Qed.

(** However long the loop is run, it stops in a state it reaches by
    turns, or leaves through one last turn from such a state. *)
Lemma loop_Reach fuel s :
  exists s1,
    Reach w endTime cycleMins s s1
    /\ (loop w endTime cycleMins fuel s = (s1, None)
        \/ exists s2 why,
             Turn w endTime cycleMins s1 s2 (Some why)
             /\ loop w endTime cycleMins fuel s = (s2, Some why)).
Proof.
  revert s. induction fuel as [|fuel IH]; intros s.
  - exists s. split; [constructor | left; reflexivity].
  - simpl. pose proof (cycle_Turn w endTime cycleMins s) as T.
    destruct (cycle w endTime cycleMins s) as [s' [why|]]; cbn [fst snd] in T.
    + exists s. split; [constructor|]. right. exists s', why. tauto.
    + destruct (IH s') as (s1 & R & H).
      exists s1. split; [|exact H].
      eapply Reach_trans; [|exact R].
      eapply Reach_turn; [constructor | exact T].
Qed.

(** What every turn preserves holds of every state of the loop. *)
Lemma Reach_inv (P : Sched -> Prop) :
  (forall s s' e, Turn w endTime cycleMins s s' e -> P s -> P s') ->
  forall s s1, Reach w endTime cycleMins s s1 -> P s -> P s1.
Proof.
  intros Hstep s s1 R. induction R as [|s1 s2 _ IH T]; intros H0; [exact H0|].
  eapply Hstep; [exact T | apply IH; exact H0].
Qed.

Lemma loop_inv (P : Sched -> Prop) :
  (forall s s' e, Turn w endTime cycleMins s s' e -> P s -> P s') ->
  forall fuel s, P s -> P (fst (loop w endTime cycleMins fuel s)).
Proof.
  intros Hstep fuel s H0.
  destruct (loop_Reach fuel s) as (s1 & R & [E|(s2 & why & T & E)]);
    rewrite E; cbn [fst].
  - eapply Reach_inv; eassumption.
  - eapply Hstep; [exact T|]. eapply Reach_inv; eassumption.
Qed.

(** Running longer continues the same run. *)
Lemma loop_add a b s :
  loop w endTime cycleMins (a + b) s =
  match loop w endTime cycleMins a s with
  | (s', Some why) => (s', Some why)
  | (s', None) => loop w endTime cycleMins b s'
  end.
Proof.
  revert s. induction a as [|a IH]; intros s; [reflexivity|].
  simpl. destruct (cycle w endTime cycleMins s) as [s' [why|]]; [reflexivity|].
  apply IH.
Qed.

Lemma loop_rel (R : Sched -> Sched -> Prop) :
  (forall s, R s s) ->
  (forall a b c, R a b -> R b c -> R a c) ->
  (forall s s' e, Turn w endTime cycleMins s s' e -> R s s') ->
  forall fuel s, R s (fst (loop w endTime cycleMins fuel s)).
Proof.
  intros Hrefl Htrans Hstep fuel s.
  apply (loop_inv (R s)); [|apply Hrefl].
  intros s1 s2 e T H. eapply Htrans; [exact H | eapply Hstep; exact T].
Qed.

End Loop.

Lemma standardForward_eq w durationHours cycleMins configs fuel :
  standardForward w durationHours cycleMins configs fuel =
  loop w (endTime_of w durationHours) cycleMins fuel (start_state configs).
Proof. reflexivity. Qed.

(** ** The deadline *)

(** C7, as the code has it.  No cycle begins at or after the deadline: the
    clock reading that lets a cycle start is below [endTime], and there are
    as many recorded cycles as the cycle counter says.  When the reading
    taken at the head of the loop has reached [endTime], the loop is left at
    once with counters, configs and journal untouched.  With a duration of
    0, no cycle is executed and both totals are 0, provided the clock does
    not run backwards between the reading that fixes [startTime] and the
    first test of the loop. *)
Theorem C7_no_cycle_after_deadline
    (w : World) (durationHours cycleMins : Q) (configs : list Config)
    (fuel : nat) :
  let endTime := endTime_of w durationHours in
  let r := standardForward w durationHours cycleMins configs fuel in
  Forall (fun cl => (inject_Z (cl_now cl) < endTime)%Q) (journal (fst r))
  /\ List.length (journal (fst r)) = cycleCount (fst r)
  /\ (forall s : Sched,
        (endTime <= inject_Z (clock w (ticks s)))%Q ->
        cycle w endTime cycleMins s =
        ({| cycleCount := cycleCount s;
            totalSuccessCount := totalSuccessCount s;
            totalFailCount := totalFailCount s;
            accountConfigs := accountConfigs s;
            ticks := S (ticks s);
            journal := journal s |}, Some DeadlineAtCycleStart))
  /\ ((durationHours == 0)%Q -> (clock w 0 <= clock w 1)%Z -> (0 < fuel)%nat ->
      snd r = Some DeadlineAtCycleStart
      /\ cycleCount (fst r) = 0%nat
      /\ journal (fst r) = []
      /\ totalSuccessCount (fst r) = 0%Z
      /\ totalFailCount (fst r) = 0%Z
      /\ accountConfigs (fst r) = configs).
Proof.
  intros endTime r. subst r. rewrite standardForward_eq. fold endTime.
  assert (Hcycle : forall s : Sched,
            (endTime <= inject_Z (clock w (ticks s)))%Q ->
            cycle w endTime cycleMins s =
            ({| cycleCount := cycleCount s;
                totalSuccessCount := totalSuccessCount s;
                totalFailCount := totalFailCount s;
                accountConfigs := accountConfigs s;
                ticks := S (ticks s);
                journal := journal s |}, Some DeadlineAtCycleStart)).
  { intros s H. unfold cycle. apply js_lt_false in H. rewrite H. reflexivity. }
  split; [|split; [|split; [exact Hcycle|]]].
  - apply (loop_inv w endTime cycleMins
             (fun s => Forall (fun cl => (inject_Z (cl_now cl) < endTime)%Q)
                         (journal s))); [|constructor].
    intros s s' e T H.
    destruct (Turn_journal w endTime cycleMins s s' e T) as (logs & -> & _ & _ & F & _).
    apply Forall_app. split; [exact H|].
    eapply Forall_impl; [|exact F]. intros cl (_ & _ & Hlt).
    apply js_lt_spec. exact Hlt.
  - apply (loop_inv w endTime cycleMins
             (fun s => List.length (journal s) = cycleCount s)); [|reflexivity].
    intros s s' e T H.
    destruct (Turn_journal w endTime cycleMins s s' e T) as (logs & -> & _ & -> & _).
    rewrite length_app. lia.
  - intros Hd Hclock Hfuel. destruct fuel as [|fuel]; [lia|].
    simpl loop. rewrite Hcycle.
    + cbn. repeat split; reflexivity.
    + subst endTime. unfold endTime_of. cbn [start_state ticks].
      rewrite Hd. rewrite Zle_Qle in Hclock. lra.
Qed.

Lemma C7_witness_zero_duration :
  (snd (standardForward DemoWorld.online 0 30 (DemoWorld.two_lanes 1) 3)
     = Some DeadlineAtCycleStart
   /\ cycleCount (fst (standardForward DemoWorld.online 0 30
                         (DemoWorld.two_lanes 1) 3)) = 0%nat
   /\ journal (fst (standardForward DemoWorld.online 0 30
                      (DemoWorld.two_lanes 1) 3)) = [])
  /\ snd (cycle DemoWorld.online (endTime_of DemoWorld.online 0) 30
            (start_state (DemoWorld.two_lanes 1))) = Some DeadlineAtCycleStart.
Proof.
  split.
  - destruct (proj2 (proj2 (proj2 (@C7_no_cycle_after_deadline DemoWorld.online
                                     0 30 (DemoWorld.two_lanes 1) 3)))
                (Qeq_refl 0) ltac:(apply Z.leb_le; reflexivity) ltac:(lia))
      as (H1 & H2 & H3 & _).
    split; [exact H1|]. split; [exact H2 | exact H3].
  - rewrite (proj1 (proj2 (proj2 (@C7_no_cycle_after_deadline DemoWorld.online
                                    0 30 (DemoWorld.two_lanes 1) 3)))
               (start_state (DemoWorld.two_lanes 1))
               ltac:(apply Qle_bool_iff; reflexivity)).
    reflexivity.
Defined.

(** C7 does not hold as the specification states it: [Date.now()] is the
    wall clock, which can be set back.  With a duration of 0 and a clock
    that reads 1000 when [startTime] is taken and 999 at the first test of
    the loop, a whole cycle is executed and three messages are forwarded. *)
Lemma C7_counterexample_clock_set_back :
  let r := standardForward DemoWorld.set_back 0 30 (DemoWorld.two_lanes 1) 3 in
  clock DemoWorld.set_back 0 = 1000%Z
  /\ clock DemoWorld.set_back 1 = 999%Z
  /\ endTime_of DemoWorld.set_back 0 == 1000
  /\ cycleCount (fst r) = 1%nat
  /\ map cl_now (journal (fst r)) = [999%Z]
  /\ totalSuccessCount (fst r) = 3%Z
  /\ snd r = Some DeadlineAfterDispatch.
Proof. cbv zeta. repeat split; vm_compute; reflexivity. Qed.

(** ** The totals *)

Lemma run_events_app j1 j2 : run_events (j1 ++ j2) = run_events j1 ++ run_events j2.
Proof. unfold run_events. rewrite map_app, concat_app. reflexivity. Qed.

Lemma run_events_one n now evs : run_events [mkCycleLog n now evs] = evs.
Proof. unfold run_events. cbn. apply app_nil_r. Qed.

Lemma sum_success_app a b : sum_success (a ++ b) = (sum_success a + sum_success b)%Z.
Proof. induction a as [|[l rs] a IH]; simpl; [reflexivity | rewrite IH; lia]. Qed.

Lemma sum_fail_app a b : sum_fail (a ++ b) = (sum_fail a + sum_fail b)%Z.
Proof. induction a as [|[l rs] a IH]; simpl; [reflexivity | rewrite IH; lia]. Qed.

Lemma sum_success_nonneg a : (0 <= sum_success a)%Z.
Proof.
  induction a as [|[l rs] a IH]; simpl; [lia|]. unfold count_success. lia.
Qed.

Lemma sum_fail_nonneg a : (0 <= sum_fail a)%Z.
Proof.
  induction a as [|[l rs] a IH]; simpl; [lia|]. unfold count_fail. lia.
Qed.

(** What a turn adds to the totals is what its cycle collected. *)
Lemma Turn_collects w endTime cycleMins s s' e :
  Turn w endTime cycleMins s s' e ->
  exists logs,
    journal s' = journal s ++ logs
    /\ totalSuccessCount s'
       = (totalSuccessCount s + sum_success (collected (run_events logs)))%Z
    /\ totalFailCount s'
       = (totalFailCount s + sum_fail (collected (run_events logs)))%Z
    /\ Forall tallied_once logs
    /\ Forall (one_outcome_each (accountConfigs s)) (collected (run_events logs)).
Proof.
  intros T. destruct T.
  - exists []. cbn. rewrite app_nil_r, !Z.add_0_r.
    repeat split; constructor.
  - destruct (connectAll_events w (S (cycleCount s)) 0 (accountConfigs s))
      as (_ & _ & Hc & Hs).
    eexists [_]. cbn [journal totalSuccessCount totalFailCount].
    split; [reflexivity|]. rewrite run_events_one, Hc. cbn.
    rewrite !Z.add_0_r.
    split; [reflexivity|]. split; [reflexivity|]. split; [|constructor].
    constructor; [|constructor]. unfold tallied_once. cbn [cl_events].
    rewrite Hc, Hs. split; [constructor | reflexivity].
  - destruct (connectAll_events w n 0 (accountConfigs s)) as (_ & _ & Hc & Hs).
    fold evs in Hc, Hs.
    assert (Ecol : collected (evs ++ devs
                     ++ (if late then [] else [CeWait (cycleMins * 60 * 1000)]))
                   = collected devs).
    { unfold collected in *. rewrite !pick_app, Hc.
      destruct late; cbn; apply app_nil_r. }
    assert (Est : started (evs ++ devs
                     ++ (if late then [] else [CeWait (cycleMins * 60 * 1000)]))
                  = started devs).
    { unfold started in *. rewrite !pick_app, Hs.
      destruct late; cbn; apply app_nil_r. }
    eexists [_]. cbn [journal totalSuccessCount totalFailCount].
    split; [reflexivity|]. rewrite run_events_one, Ecol.
    split; [reflexivity|]. split; [reflexivity|].
    pose proof (connectAll_NoDup w n 0 (accountConfigs s)) as Hnd. fold cs in Hnd.
    split.
    + constructor; [|constructor]. unfold tallied_once. cbn [cl_events].
      rewrite Ecol, Est. subst devs.
      rewrite collected_dispatch, started_dispatch, map_map. cbn [fst].
      split; [exact Hnd | reflexivity].
    + subst devs. rewrite collected_dispatch. apply Forall_forall.
      intros lr Hin. apply in_map_iff in Hin. destruct Hin as (cc & <- & Hin).
      pose proof (connectAll_entries w n 0 (accountConfigs s)) as Hent.
      rewrite Forall_forall in Hent. destruct (Hent cc Hin) as (_ & Hn & _).
      rewrite Nat.sub_0_r in Hn.
      exists (cc_config cc). cbn [fst snd]. split; [exact Hn|].
      destruct (pf_results (run_lane_facts (lane_oracle w n (cc_lane cc))
                              (cc_config cc) (cc_sourceChannel cc)
                              (messageId (cc_messageSource cc))))
        as (rs & Hrs & Hmap).
      unfold lane_task. rewrite Hrs. exact Hmap.
Qed.

Lemma Forall2_lookup {A B} (R : A -> B -> Prop) l1 l2 :
  Forall2 R l1 l2 <->
  List.length l1 = List.length l2
  /\ forall i a b, nth_error l1 i = Some a -> nth_error l2 i = Some b -> R a b.
Proof.
  split.
  - intros F. induction F as [|a b l1 l2 Hab F [IHl IH]].
    + split; [reflexivity|]. intros [|i] a b H; discriminate.
    + split; [simpl; congruence|]. intros [|i] a' b' Ha Hb; simpl in *.
      * injection Ha as <-. injection Hb as <-. exact Hab.
      * eapply IH; eassumption.
  - revert l2. induction l1 as [|a l1 IH]; intros [|b l2] [Hlen H];
      try discriminate; constructor.
    + apply (H 0%nat); reflexivity.
    + apply IH. split; [simpl in Hlen; congruence|].
      intros i a' b' Ha Hb. apply (H (S i)); assumption.
Qed.

(** Every lane keeps its initial delay, its sources and its destinations. *)
Lemma Turn_frame w endTime cycleMins configs s s' e :
  Turn w endTime cycleMins s s' e ->
  Forall2 same_lane configs (accountConfigs s) ->
  Forall2 same_lane configs (accountConfigs s').
Proof.
  intros T F.
  assert (Hlen : List.length (accountConfigs s') = List.length (accountConfigs s)).
  { destruct T; cbn; try reflexivity. apply length_write_back. }
  pose proof (Forall2_length F) as Hl0.
  apply Forall2_lookup. split; [congruence|].
  intros l c0 c' H0 H'.
  assert (Hc : exists c, nth_error (accountConfigs s) l = Some c).
  { destruct (nth_error (accountConfigs s) l) eqn:E; [eauto|].
    apply nth_error_None in E. rewrite <- Hl0 in E.
    apply nth_error_None in E. congruence. }
  destruct Hc as (c & Hc).
  destruct (Turn_lane w endTime cycleMins s s' e l c T Hc) as (logs & c1 & _ & H1 & LT).
  rewrite H' in H1. injection H1 as <-.
  destruct (lane_turn_summary c c' _ LT) as (Hi & Hs & Hg & _).
  rewrite Forall2_lookup in F. destruct F as [_ F].
  destruct (F l c0 c H0 Hc) as (Fi & Fs & Fg).
  unfold same_lane. rewrite Hi, Hs, Hg. tauto.
Qed.

Lemma one_outcome_each_frame configs0 configs lr :
  Forall2 same_lane configs0 configs ->
  one_outcome_each configs lr -> one_outcome_each configs0 lr.
Proof.
  intros F (c & Hc & Hmap). apply Forall2_lookup in F. destruct F as [Hlen F].
  destruct (nth_error configs0 (fst lr)) as [c0|] eqn:E0.
  - exists c0. split; [exact E0|].
    destruct (F _ _ _ E0 Hc) as (_ & _ & Hg). rewrite <- Hg. exact Hmap.
  - apply nth_error_None in E0. rewrite Hlen in E0.
    apply nth_error_None in E0. congruence.
Qed.

Lemma collected_app a b : collected (a ++ b) = collected a ++ collected b.
Proof. apply pick_app. Qed.

(** The totals never go down, and the journal only grows. *)
Lemma Turn_monotone w endTime cycleMins s s' e :
  Turn w endTime cycleMins s s' e ->
  (totalSuccessCount s <= totalSuccessCount s')%Z
  /\ (totalFailCount s <= totalFailCount s')%Z
  /\ exists later, journal s' = journal s ++ later.
Proof.
  intros T. destruct (Turn_collects _ _ _ _ _ _ T) as (logs & Hj & Hs & Hf & _).
  rewrite Hs, Hf.
  pose proof (sum_success_nonneg (collected (run_events logs))).
  pose proof (sum_fail_nonneg (collected (run_events logs))).
  split; [lia|]. split; [lia|]. exists logs. exact Hj.
Qed.

(** What a run has collected, at any point. *)
Lemma loop_collects w endTime cycleMins configs fuel :
  let s := fst (loop w endTime cycleMins fuel (start_state configs)) in
  Forall2 same_lane configs (accountConfigs s)
  /\ totalSuccessCount s = sum_success (collected (run_events (journal s)))
  /\ totalFailCount s = sum_fail (collected (run_events (journal s)))
  /\ Forall tallied_once (journal s)
  /\ Forall (one_outcome_each configs) (collected (run_events (journal s))).
Proof.
  cbv zeta.
  apply (loop_inv w endTime cycleMins
           (fun s =>
              Forall2 same_lane configs (accountConfigs s)
              /\ totalSuccessCount s = sum_success (collected (run_events (journal s)))
              /\ totalFailCount s = sum_fail (collected (run_events (journal s)))
              /\ Forall tallied_once (journal s)
              /\ Forall (one_outcome_each configs)
                   (collected (run_events (journal s))))).
  - intros s s' e T (Fr & Hs & Hf & Ht & Ho).
    destruct (Turn_collects _ _ _ _ _ _ T) as (logs & Hj & Hs' & Hf' & Ht' & Ho').
    split; [eapply Turn_frame; eassumption|].
    rewrite Hj, run_events_app, collected_app, sum_success_app, sum_fail_app.
    split; [lia|]. split; [lia|].
    split; [apply Forall_app; split; assumption|].
    apply Forall_app. split; [exact Ho|].
    eapply Forall_impl; [|exact Ho'].
    intros lr. apply one_outcome_each_frame. exact Fr.
  - cbn. repeat split; try constructor.
    apply Forall2_lookup. split; [reflexivity|].
    intros i a b Ha Hb. rewrite Ha in Hb. injection Hb as <-.
    unfold same_lane. tauto.
Qed.

Lemma count_success_flags rs :
  count_success rs = Z.of_nat (outcomes_with true rs)
  /\ count_fail rs = Z.of_nat (outcomes_with false rs).
Proof.
  unfold count_success, count_fail, outcomes_with.
  induction rs as [|r rs [IH1 IH2]]; [split; reflexivity|].
  cbn [filter map count_occ]. destruct (success r); cbn [negb].
  - destruct (Bool.bool_dec true true) as [_|N]; [|contradiction].
    destruct (Bool.bool_dec true false) as [N|_]; [discriminate|].
    cbn [List.length]. rewrite !Nat2Z.inj_succ. split; [f_equal; lia | exact IH2].
  - destruct (Bool.bool_dec false true) as [N|_]; [discriminate|].
    destruct (Bool.bool_dec false false) as [_|N]; [|contradiction].
    cbn [List.length]. rewrite !Nat2Z.inj_succ. split; [exact IH1 | f_equal; lia].
Qed.

Lemma outcomes_with_app b rs1 rs2 :
  outcomes_with b (rs1 ++ rs2) = (outcomes_with b rs1 + outcomes_with b rs2)%nat.
Proof. unfold outcomes_with. rewrite map_app. apply count_occ_app. Qed.

Lemma outcomes_with_length rs :
  (outcomes_with true rs + outcomes_with false rs)%nat = List.length rs.
Proof.
  unfold outcomes_with. induction rs as [|r rs IH]; [reflexivity|].
  cbn [map count_occ List.length]. destruct (success r).
  - destruct (Bool.bool_dec true true) as [_|N]; [|contradiction].
    destruct (Bool.bool_dec true false) as [N|_]; [discriminate|]. lia.
  - destruct (Bool.bool_dec false true) as [N|_]; [discriminate|].
    destruct (Bool.bool_dec false false) as [_|N]; [|contradiction]. lia.
Qed.

Lemma sum_outcomes cs :
  sum_success cs = Z.of_nat (outcomes_with true (outcomes cs))
  /\ sum_fail cs = Z.of_nat (outcomes_with false (outcomes cs)).
Proof.
  unfold outcomes. induction cs as [|[l rs] cs [IH1 IH2]]; [split; reflexivity|].
  cbn [sum_success sum_fail map snd List.concat].
  rewrite !outcomes_with_app, !Nat2Z.inj_add, IH1, IH2.
  destruct (count_success_flags rs) as [-> ->]. split; reflexivity.
Qed.

(** C5. Over a run of [standardForward], the success total is the number
    of outcomes flagged as a success among all the outcomes that the
    executed cycles collected, the fail total is the number of those that
    are not, and the two totals add up to the number of outcomes: none is
    lost, none is counted twice.  Each total is also the sum of the
    per-lane, per-cycle counts.  In every cycle the lanes whose results are
    tallied are exactly the lanes whose dispatch was started, each once, and
    every tallied array holds one outcome per destination of its lane, in
    order.  Running the loop for more turns only extends the journal and
    never lowers a total; both totals are non-negative. *)
Theorem C5_totals_accumulate
    (w : World) (durationHours cycleMins : Q) (configs : list Config)
    (fuel : nat) :
  let s := fst (standardForward w durationHours cycleMins configs fuel) in
  let cs := collected (run_events (journal s)) in
  totalSuccessCount s = sum_success cs
  /\ totalFailCount s = sum_fail cs
  /\ totalSuccessCount s = Z.of_nat (outcomes_with true (outcomes cs))
  /\ totalFailCount s = Z.of_nat (outcomes_with false (outcomes cs))
  /\ (totalSuccessCount s + totalFailCount s)%Z
     = Z.of_nat (List.length (outcomes cs))
  /\ Forall tallied_once (journal s)
  /\ Forall (one_outcome_each configs) cs
  /\ (0 <= totalSuccessCount s)%Z /\ (0 <= totalFailCount s)%Z
  /\ forall more : nat,
       let s' := fst (standardForward w durationHours cycleMins configs
                        (fuel + more)) in
       (totalSuccessCount s <= totalSuccessCount s')%Z
       /\ (totalFailCount s <= totalFailCount s')%Z
       /\ exists later, journal s' = journal s ++ later.
Proof.
  intros s cs. subst s cs. rewrite standardForward_eq.
  set (endTime := endTime_of w durationHours).
  pose proof (loop_collects w endTime cycleMins configs fuel) as HP.
  cbv zeta in HP.
  destruct HP as (_ & Hs & Hf & Ht & Ho).
  destruct (sum_outcomes
              (collected (run_events
                 (journal (fst (loop w endTime cycleMins fuel
                                  (start_state configs)))))))
    as [Es Ef].
  split; [exact Hs|]. split; [exact Hf|].
  split; [rewrite Hs; exact Es|]. split; [rewrite Hf; exact Ef|].
  split; [rewrite Hs, Hf, Es, Ef, <- Nat2Z.inj_add, outcomes_with_length;
          reflexivity|].
  split; [exact Ht|]. split; [exact Ho|].
  split; [rewrite Hs; apply sum_success_nonneg|].
  split; [rewrite Hf; apply sum_fail_nonneg|].
  intros more s'. subst s'. rewrite standardForward_eq. fold endTime.
  rewrite loop_add.
  destruct (loop w endTime cycleMins fuel (start_state configs)) as [s1 [why|]].
  - cbn [fst]. split; [lia|]. split; [lia|]. exists []. symmetry. apply app_nil_r.
  - cbn [fst].
    apply (loop_rel w endTime cycleMins
             (fun a b => (totalSuccessCount a <= totalSuccessCount b)%Z
                         /\ (totalFailCount a <= totalFailCount b)%Z
                         /\ exists later, journal b = journal a ++ later)).
    + intros a. split; [lia|]. split; [lia|]. exists []. symmetry. apply app_nil_r.
    + intros a b c (H1 & H2 & l1 & H3) (H4 & H5 & l2 & H6).
      split; [lia|]. split; [lia|]. exists (l1 ++ l2).
      rewrite H6, H3, app_assoc. reflexivity.
    + intros a b e T. eapply Turn_monotone. exact T.
Qed.

(** On the sample world where the first request of every lane is refused,
    two lanes with two and one destinations end a run of two cycles with 2
    successes and 4 failures, out of 6 outcomes. *)
Lemma C5_witness_refused_requests :
  let s := fst (standardForward DemoWorld.forbidding (1 # 6) 1
                  (DemoWorld.two_lanes 1) 2) in
  let cs := collected (run_events (journal s)) in
  map (fun lr => (fst lr, map success (snd lr))) cs
  = [(0, [false; true]); (1, [false]); (0, [false; true]); (1, [false])]%nat
  /\ totalSuccessCount s = 2%Z
  /\ totalFailCount s = 4%Z
  /\ totalSuccessCount s = Z.of_nat (outcomes_with true (outcomes cs))
  /\ totalFailCount s = Z.of_nat (outcomes_with false (outcomes cs))
  /\ (totalSuccessCount s + totalFailCount s)%Z
     = Z.of_nat (List.length (outcomes cs)).
Proof.
  cbv zeta. split; [vm_compute; reflexivity|].
  split; [vm_compute; reflexivity|]. split; [vm_compute; reflexivity|].
  destruct (C5_totals_accumulate DemoWorld.forbidding (1 # 6) 1
              (DemoWorld.two_lanes 1) 2) as (_ & _ & H1 & H2 & H3 & _).
  split; [exact H1|]. split; [exact H2 | exact H3].
Defined.


(** ** The delay of a lane over a run *)

Lemma lane_events_app l a b : lane_events l (a ++ b) = lane_events l a ++ lane_events l b.
Proof. apply pick_app. Qed.

(** What a lane does in the cycle a turn records: the pass of its task if
    it is among the connected clients, nothing otherwise. *)
Lemma Turn_lane_events w endTime cycleMins s s' e l :
  Turn w endTime cycleMins s s' e ->
  let n := S (cycleCount s) in
  exists logs,
    journal s' = journal s ++ logs
    /\ Forall (fun cl =>
                 cl_cycle cl = n
                 /\ lane_events l (cl_events cl) =
                    match entry_of (fst (connectAll w n 0 (accountConfigs s))) l with
                    | Some cc => trace (fst (lane_task w n cc))
                    | None => []
                    end) logs.
Proof.
  intros T. cbv zeta. destruct T.
  - exists []. cbn. rewrite app_nil_r. split; [reflexivity | constructor].
  - eexists [_]. cbn [journal]. split; [reflexivity|].
    constructor; [|constructor]. cbn [cl_cycle cl_events]. split; [reflexivity|].
    rewrite H0. cbn.
    apply (connectAll_events w (S (cycleCount s)) 0 (accountConfigs s)).
  - eexists [_]. cbn [journal]. split; [reflexivity|].
    constructor; [|constructor]. cbn [cl_cycle cl_events]. split; [reflexivity|].
    pose proof (connectAll_NoDup w n 0 (accountConfigs s)) as Hnd. fold cs in Hnd.
    destruct (connectAll_events w n 0 (accountConfigs s)) as (_ & Hpre & _).
    fold evs in Hpre.
    rewrite !lane_events_app, Hpre. subst devs.
    rewrite lane_events_dispatch by exact Hnd.
    destruct late; cbn; rewrite app_nil_r; reflexivity.
Qed.

(** In every cycle, a lane doubles its delay after a rate-limit wait and at
    no other place. *)
Lemma Turn_rate_limits w endTime cycleMins s s' e l :
  Turn w endTime cycleMins s s' e ->
  exists logs,
    journal s' = journal s ++ logs
    /\ Forall (fun cl =>
                 doubled_after_rate_limit (lane_oracle w (cl_cycle cl) l) 0
                   (lane_events l (cl_events cl))) logs.
Proof.
  intros T.
  destruct (Turn_lane_events w endTime cycleMins s s' e l T) as (logs & Hj & F).
  exists logs. split; [exact Hj|].
  eapply Forall_impl; [|exact F]. cbv beta. intros cl (Hn & Hev).
  rewrite Hev, Hn.
  destruct (entry_of _ l) as [cc|] eqn:Ecc;
    [|apply doubled_after_rate_limit_nil].
  apply entry_of_some in Ecc. destruct Ecc as [_ <-].
  unfold lane_task. apply run_lane_rate_limit.
Qed.

Lemma loop_rate_limits w endTime cycleMins configs fuel l :
  Forall (fun cl =>
            doubled_after_rate_limit (lane_oracle w (cl_cycle cl) l) 0
              (lane_events l (cl_events cl)))
    (journal (fst (loop w endTime cycleMins fuel (start_state configs)))).
Proof.
  apply (loop_inv w endTime cycleMins
           (fun s => Forall (fun cl =>
                               doubled_after_rate_limit
                                 (lane_oracle w (cl_cycle cl) l) 0
                                 (lane_events l (cl_events cl))) (journal s)));
    [|constructor].
  intros s s' e T F.
  destruct (Turn_rate_limits w endTime cycleMins s s' e l T) as (logs & -> & F').
  apply Forall_app. split; assumption.
Qed.

(** The assignments a lane makes to its delay over a run, and the delay it
    ends with. *)
Lemma loop_ratchet w endTime cycleMins configs fuel l c0 :
  nth_error configs l = Some c0 ->
  let s := fst (loop w endTime cycleMins fuel (start_state configs)) in
  let t := lane_events l (run_events (journal s)) in
  exists c,
    nth_error (accountConfigs s) l = Some c
    /\ initialDelay c = initialDelay c0
    /\ doubling_from (currentDelay c0) (delays t)
    /\ currentDelay c = last (delays t) (currentDelay c0)
    /\ delay_set_after_sleep t.
Proof.
  intros H0 s t. subst s t.
  apply (loop_inv w endTime cycleMins
           (fun s => exists c,
              nth_error (accountConfigs s) l = Some c
              /\ initialDelay c = initialDelay c0
              /\ doubling_from (currentDelay c0)
                   (delays (lane_events l (run_events (journal s))))
              /\ currentDelay c
                 = last (delays (lane_events l (run_events (journal s))))
                     (currentDelay c0)
              /\ delay_set_after_sleep (lane_events l (run_events (journal s))))).
  - intros s s' e T (c & Hc & Hi & Hch & Hcur & Haw).
    destruct (Turn_lane w endTime cycleMins s s' e l c T Hc)
      as (logs & c' & Hj & Hc' & LT).
    destruct (lane_turn_summary c c' _ LT) as (Hi' & _ & _ & Hch' & Hcur' & Haw').
    exists c'. split; [exact Hc'|]. split; [congruence|].
    rewrite Hj, run_events_app, lane_events_app, delays_app.
    split; [|split].
    + apply doubling_from_app; [exact Hch|]. rewrite <- Hcur. exact Hch'.
    + rewrite last_app_last, <- Hcur. exact Hcur'.
    + apply delay_set_after_sleep_app; assumption.
  - exists c0. cbn. split; [exact H0|]. split; [reflexivity|].
    split; [exact I|]. split; [reflexivity|]. apply delay_set_after_sleep_nil.
Qed.

(** Every configured lane starts with its current delay equal to the delay
    entered, and with writable destinations only. *)
Lemma configure_lanes accounts :
  Forall (fun c => currentDelay c = initialDelay c
                   /\ writableGroups c <> []
                   /\ Forall (fun g => canWrite g = true) (writableGroups c))
    (configure accounts).
Proof.
  induction accounts as [|a rest IH]; [constructor|].
  simpl. destruct (filter (fun g => canWrite g) (as_groups a)) as [|g gs] eqn:E.
  - exact IH.
  - cbn [List.length Nat.eqb]. constructor; [|exact IH]. cbn.
    split; [reflexivity|]. split; [discriminate|].
    rewrite <- E. apply Forall_forall. intros x Hx.
    apply filter_In in Hx. tauto.
Qed.

(** C1, as the code has it.  Take any lane that the configuration step of
    [standardForward] sets up.  Its current delay starts equal to its initial
    delay, the delay the operator entered.  However long the run lasts, the
    initial delay of the lane is never changed; the values assigned to its
    current delay, taken over all cycles of the run in order, are each the
    double of the value before, the first being the double of the initial
    delay; in every cycle, every such assignment comes right after a
    rate-limit wait of the lane, that is after a request of the lane that the
    client answered with an error carrying a rate-limit hint and the sleep
    for the hinted number of seconds; and the current delay the lane ends
    with is the last value assigned, or the initial delay if there was none:
    nothing resets it between cycles.  If the initial delay is not negative,
    the successive values never decrease and none is below the initial
    delay.  (The delays of the model are numbers: a delay that
    [Number.parseFloat] could not read is outside it.) *)
Theorem C1_delay_ratchet
    (w : World) (durationHours cycleMins : Q) (accounts : list AccountSetup)
    (fuel : nat) (l : nat) (c0 : Config) :
  nth_error (configure accounts) l = Some c0 ->
  let s := fst (standardForward w durationHours cycleMins (configure accounts)
                  fuel) in
  let t := lane_events l (run_events (journal s)) in
  currentDelay c0 = initialDelay c0
  /\ exists c,
       nth_error (accountConfigs s) l = Some c
       /\ initialDelay c = initialDelay c0
       /\ doubling_from (initialDelay c0) (delays t)
       /\ delay_set_after_sleep t
       /\ Forall (fun cl =>
                    doubled_after_rate_limit (lane_oracle w (cl_cycle cl) l) 0
                      (lane_events l (cl_events cl))) (journal s)
       /\ currentDelay c = last (delays t) (initialDelay c0)
       /\ ((0 <= initialDelay c0)%Q ->
           nondecreasing (initialDelay c0 :: delays t)
           /\ Forall (fun d => (initialDelay c0 <= d)%Q) (delays t)
           /\ (initialDelay c0 <= currentDelay c)%Q).
Proof.
  intros H0 s t. subst s t. rewrite standardForward_eq.
  assert (Hstart : currentDelay c0 = initialDelay c0).
  { pose proof (configure_lanes accounts) as F. rewrite Forall_forall in F.
    apply (F c0). eapply nth_error_In. exact H0. }
  split; [exact Hstart|].
  destruct (loop_ratchet w (endTime_of w durationHours) cycleMins
              (configure accounts) fuel l c0 H0)
    as (c & Hc & Hi & Hch & Hcur & Haw).
  rewrite Hstart in Hch, Hcur.
  exists c. split; [exact Hc|]. split; [exact Hi|]. split; [exact Hch|].
  split; [exact Haw|]. split; [apply loop_rate_limits|]. split; [exact Hcur|].
  intros Hpos. split; [apply doubling_from_nondecreasing; assumption|].
  split; [apply doubling_from_ge; assumption|].
  rewrite Hcur. apply doubling_from_last_ge; assumption.
Qed.

(** C1 does not hold as the specification states it: a lane configured with a delay of -1 second and
    rate limited once per cycle has a current delay of -2 after one cycle and
    of -4 after two, below its initial delay and going down. *)
Lemma C1_counterexample_negative_delay :
  let run := fun fuel =>
    fst (standardForward DemoWorld.throttled (1 # 6) 1
           (configure (DemoWorld.two_accounts (-1))) fuel) in
  map initialDelay (accountConfigs (run 1%nat)) = [(-1)%Q; (-1)%Q]
  /\ map currentDelay (accountConfigs (run 1%nat)) = [(-1 * 2)%Q; (-1 * 2)%Q]
  /\ map currentDelay (accountConfigs (run 2%nat))
     = [(-1 * 2 * 2)%Q; (-1 * 2 * 2)%Q]
  /\ ~ (-1 <= -1 * 2)%Q
  /\ ~ (-1 * 2 <= -1 * 2 * 2)%Q.
Proof.
  cbv zeta. split; [vm_compute; reflexivity|].
  split; [vm_compute; reflexivity|]. split; [vm_compute; reflexivity|].
  split; intros H; vm_compute in H; apply H; reflexivity.
Qed.

Lemma C1_witness_throttled :
  let s := fst (standardForward DemoWorld.throttled (1 # 6) 1
                  (configure (DemoWorld.two_accounts 1)) 2) in
  let t := lane_events 0 (run_events (journal s)) in
  delays t = [(1 * 2)%Q; (1 * 2 * 2)%Q]
  /\ map cl_cycle (journal s) = [1; 2]%nat
  /\ exists c,
       nth_error (accountConfigs s) 0 = Some c
       /\ initialDelay c = 1%Q
       /\ doubling_from 1 (delays t)
       /\ Forall (fun cl =>
                    doubled_after_rate_limit
                      (lane_oracle DemoWorld.throttled (cl_cycle cl) 0) 0
                      (lane_events 0 (cl_events cl))) (journal s)
       /\ currentDelay c = last (delays t) 1
       /\ (1 <= currentDelay c)%Q.
Proof.
  cbv zeta. split; [vm_compute; reflexivity|]. split; [vm_compute; reflexivity|].
  destruct (@C1_delay_ratchet DemoWorld.throttled (1 # 6) 1
              (DemoWorld.two_accounts 1) 2 0
              (Demo.lane_of [Demo.plain 1; Demo.plain 2] 1) eq_refl)
    as (_ & c & Hc & Hi & Hch & _ & Hrl & Hcur & Hpos).
  exists c. split; [exact Hc|]. split; [exact Hi|]. split; [exact Hch|].
  split; [exact Hrl|]. split; [exact Hcur|].
  apply Hpos. discriminate.
Defined.

(** ** Round robin over the message sources *)


Lemma js_index_nat {A} (xs : list A) (k : nat) :
  xs <> [] -> js_index xs (Z.of_nat k) = nth_error xs k.
Proof.
  intros H. unfold js_index.
  destruct xs as [|x xs]; [congruence|]. cbn [List.length Nat.eqb].
  destruct (Z.ltb_spec (Z.of_nat k) 0); [lia|].
  rewrite Nat2Z.id. reflexivity.
Qed.









(** ** Errors and the end of a run *)

Lemma connect_attempts_dispatch w n cs : connect_attempts (dispatch_events w n cs) = [].
Proof.
  unfold connect_attempts, dispatch_events. rewrite !pick_app.
  rewrite task_created_view, task_pending_view by reflexivity.
  rewrite (pick_map_none connect_view (fun c => CeStart (cc_lane c))) by reflexivity.
  rewrite (pick_map_none connect_view (fun c => CeCollect _ _)) by reflexivity.
  rewrite (pick_map_none connect_view (fun c => CeDisconnect (cc_lane c)))
    by reflexivity.
  reflexivity.
Qed.

(** Every turn that runs a cycle calls [connectClient] for every lane. *)
Lemma Turn_connects w endTime cycleMins s s' e :
  Turn w endTime cycleMins s s' e ->
  List.length (accountConfigs s') = List.length (accountConfigs s)
  /\ exists logs,
       journal s' = journal s ++ logs
       /\ Forall (fun cl => connect_attempts (cl_events cl)
                            = seq 0 (List.length (accountConfigs s))) logs.
Proof.
  intros T. destruct T.
  - split; [reflexivity|]. exists []. cbn. rewrite app_nil_r.
    split; [reflexivity | constructor].
  - split; [reflexivity|]. eexists [_]. cbn [journal]. split; [reflexivity|].
    constructor; [|constructor]. cbn [cl_events].
    apply (connectAll_events w (S (cycleCount s)) 0 (accountConfigs s)).
  - split; [apply length_write_back|]. eexists [_]. cbn [journal].
    split; [reflexivity|]. constructor; [|constructor]. cbn [cl_events].
    destruct (connectAll_events w n 0 (accountConfigs s)) as (Hca & _).
    fold evs in Hca. unfold connect_attempts in *. rewrite !pick_app, Hca.
    subst devs. fold (connect_attempts (dispatch_events w n cs)).
    rewrite connect_attempts_dispatch.
    destruct late; cbn; rewrite app_nil_r; reflexivity.
Qed.

(** When no lane is on the list, every lane failed to connect or to
    resolve its source. *)
Lemma connectAll_nil w n configs :
  fst (connectAll w n 0 configs) = [] ->
  forall l c, nth_error configs l = Some c -> fst (connectOne w n l c) = None.
Proof.
  intros Hnil l c Hc.
  destruct (fst (connectOne w n l c)) as [cc|] eqn:E; [|reflexivity].
  exfalso.
  assert (Hin : In cc (fst (connectAll w n 0 configs))).
  { apply (connectAll_complete w n 0 configs l c cc); [lia | | exact E].
    rewrite Nat.sub_0_r. exact Hc. }
  rewrite Hnil in Hin. exact Hin.
Qed.

(** The lanes whose dispatch a cycle starts are the lanes that connect and
    resolve their source. *)
Lemma started_iff_connected w n configs l c :
  nth_error configs l = Some c ->
  In l (map cc_lane (fst (connectAll w n 0 configs)))
  <-> exists cc, fst (connectOne w n l c) = Some cc.
Proof.
  intros Hc. split.
  - intros Hin. apply in_map_iff in Hin. destruct Hin as (cc & Hl & Hin).
    pose proof (connectAll_entries w n 0 configs) as Hent.
    rewrite Forall_forall in Hent. destruct (Hent cc Hin) as (_ & Hn & Hone).
    rewrite Hl, Nat.sub_0_r, Hc in Hn. injection Hn as Hcfg.
    exists cc. rewrite Hl, <- Hcfg in Hone. exact Hone.
  - intros (cc & Hone).
    assert (Hin : In cc (fst (connectAll w n 0 configs))).
    { apply (connectAll_complete w n 0 configs l c cc); [lia | | exact Hone].
      rewrite Nat.sub_0_r. exact Hc. }
    apply in_map_iff. exists cc. split; [|exact Hin].
    destruct (connectOne w n l c) as [entry evs] eqn:E. cbn in Hone. subst entry.
    apply (connectOne_entry _ _ _ _ _ _ E).
Qed.

(** C4 does not hold as the specification states it: with every account offline the loop is left after
    the first cycle, for want of a connected client, although the deadline is
    24 hours away and even the next clock reading is before it. *)
Lemma C4_counterexample_all_lanes_offline :
  let r := standardForward DemoWorld.offline 24 30 (DemoWorld.two_lanes 1) 5 in
  snd r = Some NoClients
  /\ cycleCount (fst r) = 1%nat
  /\ (inject_Z (clock DemoWorld.offline (ticks (fst r)))
      < endTime_of DemoWorld.offline 24)%Q.
Proof. cbv zeta. split; [|split]; vm_compute; reflexivity. Qed.

(** C4, as the code has it.  The loop of [standardForward] is left in three
    ways only: the clock has reached the deadline at the head of the loop,
    or after a dispatch, or no lane at all could be connected and given its
    source in a cycle.  In a cycle where some lane does connect and resolve
    its source, the loop goes on to the next cycle unless the clock has
    reached the deadline after the dispatch, whatever the deliveries answer;
    the lanes whose dispatch is started in it are exactly those that connect
    and resolve their source, so a lane that fails to connect is left out of
    that cycle alone.  In every cycle of a run [connectClient] is called
    again for every lane. *)
Theorem C4_run_ends_on_deadline_or_without_clients
    (w : World) (durationHours cycleMins : Q) (configs : list Config)
    (fuel : nat) :
  let endTime := endTime_of w durationHours in
  let r := standardForward w durationHours cycleMins configs fuel in
  (forall why, snd r = Some why ->
     match why with
     | DeadlineAtCycleStart | DeadlineAfterDispatch =>
         (endTime <= inject_Z (clock w (ticks (fst r) - 1)))%Q
     | NoClients =>
         exists older cl,
           journal (fst r) = older ++ [cl]
           /\ started (cl_events cl) = []
           /\ forall l c, nth_error (accountConfigs (fst r)) l = Some c ->
                          fst (connectOne w (cl_cycle cl) l c) = None
     end)
  /\ (forall (s : Sched) l c cc,
        js_lt (inject_Z (clock w (ticks s))) endTime = true ->
        nth_error (accountConfigs s) l = Some c ->
        fst (connectOne w (S (cycleCount s)) l c) = Some cc ->
        let out := cycle w endTime cycleMins s in
        (snd out = None
         /\ (inject_Z (clock w (S (ticks s))) < endTime)%Q
         \/ snd out = Some DeadlineAfterDispatch
            /\ (endTime <= inject_Z (clock w (S (ticks s))))%Q)
        /\ exists older cl,
             journal (fst out) = older ++ [cl]
             /\ cl_cycle cl = S (cycleCount s)
             /\ connect_attempts (cl_events cl)
                = seq 0 (List.length (accountConfigs s))
             /\ forall l' c', nth_error (accountConfigs s) l' = Some c' ->
                  (In l' (started (cl_events cl))
                   <-> exists cc', fst (connectOne w (S (cycleCount s)) l' c')
                                   = Some cc'))
  /\ Forall (fun cl => connect_attempts (cl_events cl)
                       = seq 0 (List.length configs)) (journal (fst r)).
Proof.
  intros endTime r. subst r. rewrite standardForward_eq. fold endTime.
  split; [|split].
  - intros why Hwhy.
    destruct (loop_Reach w endTime cycleMins fuel (start_state configs))
      as (s1 & _ & [E|(s2 & why' & T & E)]); rewrite E in Hwhy |- *;
      cbn [fst snd] in *; [discriminate|].
    injection Hwhy as ->.
    inversion T as [Hlt | Hlt Hnil | late n cs evs devs Hlt Hne Hlate]; subst.
    + cbn [ticks]. rewrite Nat.sub_succ, Nat.sub_0_r.
      apply js_lt_false. exact Hlt.
    + eexists _, _. cbn [journal accountConfigs]. split; [reflexivity|].
      cbn [cl_events cl_cycle]. split.
      * apply (connectAll_events w (S (cycleCount s1)) 0 (accountConfigs s1)).
      * apply connectAll_nil. exact Hnil.
    + destruct (js_ge (inject_Z (clock w (S (ticks s1)))) endTime) eqn:Hge;
        [|discriminate].
      match goal with H : Some _ = Some why |- _ => injection H as <- end.
      cbn [ticks]. rewrite Nat.sub_succ, Nat.sub_0_r.
      apply js_ge_spec. exact Hge.
  - intros s l c cc Hlt Hc Hone out. subst out.
    assert (Hin : In cc (fst (connectAll w (S (cycleCount s)) 0 (accountConfigs s)))).
    { apply (connectAll_complete w _ 0 _ l c cc); [lia | | exact Hone].
      rewrite Nat.sub_0_r. exact Hc. }
    pose proof (cycle_Turn w endTime cycleMins s) as T.
    inversion T as [Hlt' | Hlt' Hnil | late n cs evs devs Hlt' Hne Hlate Hst Hwhy];
      [congruence | rewrite Hnil in Hin; contradiction |].
    split.
    + destruct late.
      * right. split; [reflexivity|]. apply js_ge_spec. exact Hlate.
      * left. split; [reflexivity|].
        apply Qnot_le_lt. intros Hle. apply js_ge_spec in Hle. congruence.
    + eexists _, _. cbn [journal]. split; [reflexivity|].
      cbn [cl_cycle cl_events]. split; [reflexivity|].
      destruct (connectAll_events w n 0 (accountConfigs s)) as (Hca & _ & _ & Hs0).
      fold evs in Hca, Hs0. split.
      * unfold connect_attempts in *. rewrite !pick_app, Hca. subst devs.
        fold (connect_attempts (dispatch_events w n cs)).
        rewrite connect_attempts_dispatch.
        destruct late; cbn; rewrite app_nil_r; reflexivity.
      * intros l' c' Hc'.
        assert (Est : started (evs ++ devs
                        ++ (if late then [] else [CeWait (cycleMins * 60 * 1000)]))
                      = map cc_lane cs).
        { unfold started in *. rewrite !pick_app, Hs0. subst devs.
          fold (started (dispatch_events w n cs)). rewrite started_dispatch.
          destruct late; cbn; rewrite app_nil_r; reflexivity. }
        rewrite Est. apply started_iff_connected. exact Hc'.
  - pose (P := fun s : Sched =>
        List.length (accountConfigs s) = List.length configs
        /\ Forall (fun cl => connect_attempts (cl_events cl)
                             = seq 0 (List.length configs)) (journal s)).
    assert (HP : P (fst (loop w endTime cycleMins fuel (start_state configs)))).
    { apply loop_inv.
      - intros s s' e T (Hlen & F). unfold P.
        destruct (Turn_connects w endTime cycleMins s s' e T) as (Hlen' & logs & -> & F').
        split; [congruence|]. apply Forall_app. split; [exact F|].
        rewrite Hlen in F'. exact F'.
      - split; [reflexivity | constructor]. }
    apply HP.
Qed.

Lemma C4_witness_online_cycle :
  (snd (cycle DemoWorld.online (endTime_of DemoWorld.online 24) 30
          (start_state (DemoWorld.two_lanes 1))) = None
   \/ snd (cycle DemoWorld.online (endTime_of DemoWorld.online 24) 30
             (start_state (DemoWorld.two_lanes 1))) = Some DeadlineAfterDispatch)
  /\ exists older cl,
       journal (fst (standardForward DemoWorld.offline 24 30
                       (DemoWorld.two_lanes 1) 5)) = older ++ [cl]
       /\ started (cl_events cl) = [].
Proof.
  split.
  - destruct (proj1 (proj2 (@C4_run_ends_on_deadline_or_without_clients
                DemoWorld.online 24 30 (DemoWorld.two_lanes 1) 1))
                (start_state (DemoWorld.two_lanes 1)) 0%nat
                (Demo.lane_of [Demo.plain 1; Demo.plain 2] 1)
                {| cc_lane := 0;
                   cc_config := Demo.lane_of [Demo.plain 1; Demo.plain 2] 1;
                   cc_sourceChannel := "@announcements";
                   cc_messageSource := Demo.source |}
                eq_refl eq_refl eq_refl) as [[[H _]|[H _]] _].
    + left. exact H.
    + right. exact H.
  - destruct (proj1 (@C4_run_ends_on_deadline_or_without_clients
                DemoWorld.offline 24 30 (DemoWorld.two_lanes 1) 5)
                NoClients eq_refl) as (older & cl & Hj & Hs & _).
    exists older, cl. split; [exact Hj | exact Hs].
Defined.

(** ** Lanes of a cycle *)

Lemma In_replace_nth {A} (k : nat) (x y : A) (xs : list A) :
  In y (replace_nth k x xs) -> y = x \/ In y xs.
Proof.
  revert k. induction xs as [|a xs IH]; intros k H; [contradiction|].
  destruct k as [|k]; simpl in H.
  - destruct H as [<-|H]; [left; reflexivity | right; right; exact H].
  - destruct H as [<-|H]; [right; left; reflexivity|].
    destruct (IH k H) as [->|Hin]; [left; reflexivity | right; right; exact Hin].
Qed.

(** Every event of the interleaving is an event of one of the tasks. *)
Lemma interleave_In order queues e :
  In e (interleave order queues) -> exists q, In q queues /\ In e q.
Proof.
  revert queues. induction order as [|k order IH]; intros queues H.
  - simpl in H. apply in_concat in H. exact H.
  - simpl in H. destruct (nth_error queues k) as [[|e0 q]|] eqn:Ek;
      [apply IH; exact H | | apply IH; exact H].
    apply nth_error_In in Ek. destruct H as [<-|H].
    + exists (e0 :: q). split; [exact Ek | left; reflexivity].
    + destruct (IH _ H) as (q' & Hq' & He).
      apply In_replace_nth in Hq'. destruct Hq' as [->|Hq'].
      * exists (e0 :: q). split; [exact Ek | right; exact He].
      * exists q'. split; assumption.
Qed.

(** The pass of [forwardWithClient] touches no total. *)
Lemma forwardToGroup_no_tally src mid g o s m :
  forallb (fun e => negb (is_tally e)) (trace s) = true ->
  forallb (fun e => negb (is_tally e))
    (trace (snd (fst (forwardToGroup src mid g o s m)))) = true.
Proof.
  intros H. rewrite forwardToGroup_run. cbv zeta.
  destruct (net o (nk s)) as [message|];
    [destruct (floodWaitMatch message) as [digits|]|];
    cbn [fst snd trace logged after_delivery];
    rewrite !forallb_app, H; reflexivity.
Qed.

Lemma run_lane_no_tally o c src mid :
  forallb (fun e => negb (is_tally e)) (trace (fst (run_lane o c src mid))) = true.
Proof.
  rewrite run_lane_eq. cbv zeta. cbn [fst].
  assert (G : forall groups s m,
             forallb (fun e => negb (is_tally e)) (trace s) = true ->
             forallb (fun e => negb (is_tally e))
               (trace (snd (fst (forOf groups (forwardToGroup src mid) o s m))))
             = true).
  { induction groups as [|g groups IH]; intros s m H; [exact H|].
    simpl. unfold bind.
    pose proof (forwardToGroup_no_tally src mid g o s m H) as H1.
    destruct (forwardToGroup src mid g o s m) as [[[] s1] m1].
    apply IH. exact H1. }
  apply G. reflexivity.
Qed.

Lemma started_before_collected_quiet quiet rest :
  (forall e, In e quiet -> counts_result e = false) ->
  (forall e, In e rest -> is_start e = false) ->
  started_before_collected (quiet ++ rest) = true.
Proof.
  intros Hq Hr. induction quiet as [|e quiet IH]; simpl.
  - induction rest as [|e rest IH]; [reflexivity|]. simpl.
    rewrite IH by (intros e' He'; apply Hr; right; exact He').
    rewrite andb_true_r. destruct (counts_result e); [|reflexivity].
    apply forallb_forall. intros e' He'. rewrite Hr by (right; exact He').
    reflexivity.
  - rewrite (Hq e) by (left; reflexivity). simpl.
    apply IH. intros e' He'. apply Hq. right. exact He'.
Qed.

Lemma connectAll_quiet w n l0 configs e :
  In e (snd (connectAll w n l0 configs)) ->
  counts_result e = false /\ is_start e = false.
Proof.
  revert l0. induction configs as [|config rest IH]; intros l0 H.
  - contradiction.
  - rewrite connectAll_unfold in H. cbn [snd] in H.
    apply in_app_or in H. destruct H as [H|H]; [|apply (IH (S l0)); exact H].
    unfold connectOne in H.
    destruct (connectClient w n l0);
      [|destruct (js_index _ _); [destruct (ent _ 0)|]];
      simpl in H; repeat (destruct H as [<-|H]; [split; reflexivity|]);
      contradiction.
Qed.

Lemma In_firstn {A} (k : nat) (xs : list A) x : In x (firstn k xs) -> In x xs.
Proof.
  intros H. rewrite <- (firstn_skipn k xs). apply in_or_app. left. exact H.
Qed.

Lemma In_skipn {A} (k : nat) (xs : list A) x : In x (skipn k xs) -> In x xs.
Proof.
  intros H. rewrite <- (firstn_skipn k xs). apply in_or_app. right. exact H.
Qed.

(** The effects of a task are requests, waits and changes of the delay. *)
Lemma lane_queue_quiet w n c e :
  In e (lane_queue c (lane_task w n c)) ->
  counts_result e = false /\ is_start e = false.
Proof.
  intros He. unfold lane_queue in He. apply in_map_iff in He.
  destruct He as (ev & <- & Hev). cbn.
  pose proof (run_lane_no_tally (lane_oracle w n (cc_lane c)) (cc_config c)
                (cc_sourceChannel c) (messageId (cc_messageSource c))) as Hnt.
  rewrite forallb_forall in Hnt. specialize (Hnt ev Hev).
  destruct ev; try (split; reflexivity). discriminate.
Qed.

(** In a cycle of [standardForward] every dispatch is started before any
    result is added to the totals. *)
Lemma dispatch_started_first w n cs pre tail :
  (forall e, In e pre -> counts_result e = false /\ is_start e = false) ->
  (forall e, In e tail -> is_start e = false) ->
  started_before_collected (pre ++ dispatch_events w n cs ++ tail) = true.
Proof.
  intros Hpre Htail. unfold dispatch_events.
  rewrite <- !app_assoc.
  rewrite (app_assoc pre), (app_assoc (pre ++ _)).
  apply started_before_collected_quiet.
  - intros e He. apply in_app_or in He. destruct He as [He|He];
      [apply in_app_or in He; destruct He as [He|He]|].
    + apply Hpre. exact He.
    + apply in_concat in He. destruct He as (q & Hq & He).
      apply in_map_iff in Hq. destruct Hq as (c & <- & _).
      destruct He as [<-|He]; [reflexivity|].
      apply In_firstn in He. apply (lane_queue_quiet _ _ _ _ He).
    + apply interleave_In in He. destruct He as (q & Hq & He).
      apply in_map_iff in Hq. destruct Hq as (c & <- & _).
      apply In_skipn in He. apply (lane_queue_quiet _ _ _ _ He).
  - intros e He. apply in_app_or in He. destruct He as [He|He];
      [|apply in_app_or in He; destruct He as [He|He]].
    + apply in_map_iff in He. destruct He as (c & <- & _). reflexivity.
    + apply in_map_iff in He. destruct He as (c & <- & _). reflexivity.
    + apply Htail. exact He.
Qed.

Lemma Turn_started_first w endTime cycleMins s s' e :
  Turn w endTime cycleMins s s' e ->
  exists logs,
    journal s' = journal s ++ logs
    /\ Forall (fun cl => started_before_collected (cl_events cl) = true) logs.
Proof.
  intros T. destruct T.
  - exists []. cbn. rewrite app_nil_r. split; [reflexivity | constructor].
  - eexists [_]. cbn [journal]. split; [reflexivity|].
    constructor; [|constructor]. cbn [cl_events].
    rewrite <- (app_nil_r (snd _)).
    apply started_before_collected_quiet; [|contradiction].
    intros e He. apply (connectAll_quiet _ _ _ _ _ He).
  - eexists [_]. cbn [journal]. split; [reflexivity|].
    constructor; [|constructor]. cbn [cl_events].
    apply dispatch_started_first.
    + intros e He. apply (connectAll_quiet _ _ _ _ _ He).
    + intros e He. destruct late; [contradiction|].
      destruct He as [<-|[]]. reflexivity.
Qed.

(** ** Tasks that are started together *)

Lemma until_last_start_quiet evs :
  (forall e, In e evs -> is_start e = false) -> until_last_start evs = [].
Proof.
  induction evs as [|e evs IH]; intros H; [reflexivity|].
  cbn [until_last_start]. rewrite IH by (intros e' He'; apply H; right; exact He').
  rewrite (H e) by (left; reflexivity). reflexivity.
Qed.

Lemma until_last_start_app_quiet evs rest :
  (forall e, In e rest -> is_start e = false) ->
  until_last_start (evs ++ rest) = until_last_start evs.
Proof.
  intros H. induction evs as [|e evs IH]; cbn [app until_last_start].
  - apply until_last_start_quiet. exact H.
  - rewrite IH. reflexivity.
Qed.

Lemma until_last_start_prefix evs :
  exists rest, evs = until_last_start evs ++ rest.
Proof.
  induction evs as [|e evs (rest & IH)]; [exists []; reflexivity|].
  cbn [until_last_start]. destruct (until_last_start evs) as [|e' pre].
  - destruct (is_start e); [exists evs | exists (e :: evs)]; reflexivity.
  - exists rest. cbn [app] in *. rewrite <- IH. reflexivity.
Qed.

Lemma started_together_intro evs rest :
  (forall e, In e evs -> counts_result e = false) ->
  (forall l, (List.length (lane_events l evs) <= 1)%nat) ->
  (forall e, In e rest -> is_start e = false) ->
  started_together (evs ++ rest) = true.
Proof.
  intros Hq Hl Hr. unfold started_together. cbv zeta.
  rewrite (until_last_start_app_quiet evs rest Hr).
  destruct (until_last_start_prefix evs) as (post & E).
  apply andb_true_iff. split; apply forallb_forall.
  - intros e He. rewrite Hq; [reflexivity|].
    rewrite E. apply in_or_app. left. exact He.
  - intros l _. apply Nat.leb_le. specialize (Hl l).
    rewrite E, lane_events_app, length_app in Hl. lia.
Qed.

Lemma eager_le c : (eager c <= 1)%nat.
Proof.
  unfold eager. destruct (writableGroups (cc_config c)) as [|g gs]; [lia|].
  destruct (hasTopics g); lia.
Qed.

(** In a cycle of [standardForward] the tasks of all lanes exist before
    any of them has got further than its first request. *)
Lemma dispatch_started_together w n cs pre tail :
  NoDup (map cc_lane cs) ->
  (forall e, In e pre -> counts_result e = false /\ is_start e = false) ->
  (forall l, lane_events l pre = []) ->
  (forall e, In e tail -> is_start e = false) ->
  started_together (pre ++ dispatch_events w n cs ++ tail) = true.
Proof.
  intros Hnd Hpre Hlane Htail. unfold dispatch_events.
  rewrite <- !app_assoc. rewrite (app_assoc pre).
  apply started_together_intro.
  - intros e He. apply in_app_or in He. destruct He as [He|He].
    + apply Hpre. exact He.
    + apply in_concat in He. destruct He as (q & Hq & He).
      apply in_map_iff in Hq. destruct Hq as (c & <- & _).
      destruct He as [<-|He]; [reflexivity|].
      apply In_firstn in He. apply (lane_queue_quiet _ _ _ _ He).
  - intros l. rewrite lane_events_app, Hlane. cbn [app].
    unfold lane_events. rewrite task_created_lane by exact Hnd.
    destruct (entry_of cs l) as [c|]; [|cbn; lia].
    rewrite length_firstn. pose proof (eager_le c). lia.
  - intros e He. apply in_app_or in He. destruct He as [He|He];
      [|apply in_app_or in He; destruct He as [He|He];
        [|apply in_app_or in He; destruct He as [He|He]]].
    + apply interleave_In in He. destruct He as (q & Hq & He).
      apply in_map_iff in Hq. destruct Hq as (c & <- & _).
      apply In_skipn in He. apply (lane_queue_quiet _ _ _ _ He).
    + apply in_map_iff in He. destruct He as (c & <- & _). reflexivity.
    + apply in_map_iff in He. destruct He as (c & <- & _). reflexivity.
    + apply Htail. exact He.
Qed.

Lemma Turn_started_together w endTime cycleMins s s' e :
  Turn w endTime cycleMins s s' e ->
  exists logs,
    journal s' = journal s ++ logs
    /\ Forall (fun cl => started_together (cl_events cl) = true) logs.
Proof.
  intros T. destruct T.
  - exists []. cbn. rewrite app_nil_r. split; [reflexivity | constructor].
  - eexists [_]. cbn [journal]. split; [reflexivity|].
    constructor; [|constructor]. cbn [cl_events].
    rewrite <- (app_nil_l (snd _)).
    apply started_together_intro; [contradiction | intros l; cbn; lia|].
    intros e He. apply (connectAll_quiet _ _ _ _ _ He).
  - eexists [_]. cbn [journal]. split; [reflexivity|].
    constructor; [|constructor]. cbn [cl_events].
    apply dispatch_started_together.
    + apply connectAll_NoDup.
    + intros e He. apply (connectAll_quiet _ _ _ _ _ He).
    + apply (connectAll_events w n 0 (accountConfigs s)).
    + intros e He. destruct late; [contradiction|].
      destruct He as [<-|[]]. reflexivity.
Qed.

(** ** Lanes that take their turns one after the other *)

Lemma ascending_sorted ls : ascending ls = true -> StronglySorted le ls.
Proof.
  intros H. apply Sorted_StronglySorted; [intros x y z; apply Nat.le_trans|].
  induction ls as [|a ls IH]; [constructor|].
  cbn [ascending] in H. apply andb_true_iff in H. destruct H as [Ha H].
  constructor; [apply IH; exact H|].
  destruct ls as [|b ls]; constructor. apply Nat.leb_le. exact Ha.
Qed.

Lemma effect_lanes_In l evs : In l (effect_lanes evs) -> In l (lanes_of evs).
Proof.
  unfold effect_lanes, lanes_of. induction evs as [|e evs IH]; [auto|].
  destruct e; cbn [pick effect_lane lane_of_event]; intros H;
    try (right; apply IH; exact H); try (apply IH; exact H).
  destruct H as [<-|H]; [left; reflexivity | right; apply IH; exact H].
Qed.

Lemma effect_lanes_sorted evs :
  StronglySorted le (lanes_of evs) -> StronglySorted le (effect_lanes evs).
Proof.
  unfold effect_lanes, lanes_of. induction evs as [|e evs IH]; [auto|].
  destruct e; cbn [pick effect_lane lane_of_event]; intros H;
    try (apply StronglySorted_inv in H; destruct H as [H _]; apply IH; exact H);
    try (apply IH; exact H).
  apply StronglySorted_inv in H. destruct H as [H F].
  constructor; [apply IH; exact H|].
  apply Forall_forall. intros x Hx. rewrite Forall_forall in F.
  apply F. apply effect_lanes_In. exact Hx.
Qed.

Lemma turns_In l ls : In l (turns ls) -> In l ls.
Proof.
  induction ls as [|a ls IH]; [auto|]. cbn [turns].
  destruct ls as [|b ls]; [auto|].
  destruct (a =? b)%nat; intros H.
  - right. apply IH. exact H.
  - destruct H as [<-|H]; [left; reflexivity | right; apply IH; exact H].
Qed.

Lemma turns_sorted ls : StronglySorted le ls -> StronglySorted lt (turns ls).
Proof.
  induction ls as [|a ls IH]; intros H; [constructor|].
  apply StronglySorted_inv in H. destruct H as [H F]. cbn [turns].
  destruct ls as [|b ls]; [repeat constructor|].
  destruct (Nat.eqb_spec a b) as [_|Hne]; [apply IH; exact H|].
  constructor; [apply IH; exact H|].
  apply Forall_forall. intros x Hx. apply turns_In in Hx.
  apply StronglySorted_inv in H. destruct H as [_ Fb].
  rewrite Forall_forall in F, Fb.
  pose proof (F b (or_introl eq_refl)) as Hab.
  destruct Hx as [<-|Hx]; [lia|]. specialize (Fb x Hx). lia.
Qed.

Lemma sorted_no_repeat ls : StronglySorted lt ls -> no_repeat ls = true.
Proof.
  induction 1 as [|a ls _ IH F]; [reflexivity|]. cbn [no_repeat].
  rewrite IH, andb_true_r. apply negb_true_iff.
  destruct (existsb (Nat.eqb a) ls) eqn:E; [|reflexivity].
  apply existsb_exists in E. destruct E as (x & Hx & Ex).
  apply Nat.eqb_eq in Ex. subst x. rewrite Forall_forall in F.
  specialize (F a Hx). lia.
Qed.

(** Lanes that are worked through in ascending order take one turn each. *)
Lemma ascending_one_turn_each evs :
  ascending (lanes_of evs) = true -> one_turn_each (effect_lanes evs) = true.
Proof.
  intros H. unfold one_turn_each.
  apply sorted_no_repeat, turns_sorted, effect_lanes_sorted, ascending_sorted.
  exact H.
Qed.

(** Within a cycle of [standardForward] a lane sends its requests
    destination after destination, whatever the interleaving. *)
Lemma Turn_lane_in_order w endTime cycleMins s s' e l c :
  Turn w endTime cycleMins s s' e ->
  nth_error (accountConfigs s) l = Some c ->
  exists logs,
    journal s' = journal s ++ logs
    /\ Forall (fun cl => lane_in_order (writableGroups c) l (cl_events cl)) logs.
Proof.
  intros T Hc.
  destruct (Turn_lane_events w endTime cycleMins s s' e l T) as (logs & Hj & F).
  exists logs. split; [exact Hj|].
  eapply Forall_impl; [|exact F]. cbv beta. intros cl (_ & Hev).
  unfold lane_in_order. rewrite Hev.
  destruct (entry_of _ l) as [cc|] eqn:Ecc; [|left; reflexivity].
  right. apply entry_of_some in Ecc. destruct Ecc as [Hin Hl].
  pose proof (connectAll_entries w (S (cycleCount s)) 0 (accountConfigs s)) as Hent.
  rewrite Forall_forall in Hent. destruct (Hent cc Hin) as (_ & Hnth & _).
  rewrite Hl, Nat.sub_0_r, Hc in Hnth. injection Hnth as Hcfg.
  destruct (pf_order (run_lane_facts (lane_oracle w (S (cycleCount s)) (cc_lane cc))
                        (cc_config cc) (cc_sourceChannel cc)
                        (messageId (cc_messageSource cc))))
    as (ks & Hlen & _ & Hreq).
  exists ks. rewrite Hcfg. split; [exact Hlen | exact Hreq].
Qed.

(** ** The batch path *)

Section ExtendsTrace.

Context {Mem : Type}.
Variable Q : list Event -> Prop.
Variable R : Mem -> Mem -> Prop.
Hypothesis Q_nil : Q [].
Hypothesis Q_app : forall t1 t2, Q t1 -> Q t2 -> Q (t1 ++ t2).
Hypothesis R_refl : forall m, R m m.
Hypothesis R_trans : forall a b c, R a b -> R b c -> R a c.

Lemma extends_trace_ret {A} (a : A) : extends_trace Q R (ret a).
Proof.
  intros o s m. exists []. cbn. rewrite app_nil_r. auto.
Qed.

Lemma extends_trace_bind {A C} (c : M Mem A) (k : A -> M Mem C) :
  extends_trace Q R c -> (forall a, extends_trace Q R (k a)) ->
  extends_trace Q R (bind c k).
Proof.
  intros H1 H2 o s m. unfold bind.
  destruct (H1 o s m) as (t1 & E1 & Q1t & R1).
  destruct (c o s m) as [[a s1] m1]. cbn [fst snd] in *.
  destruct (H2 a o s1 m1) as (t2 & E2 & Q2t & R2).
  exists (t1 ++ t2). rewrite E2, E1, app_assoc.
  split; [reflexivity|]. split; [apply Q_app; assumption | eapply R_trans; eassumption].
Qed.

Lemma extends_trace_emit e : Q [e] -> extends_trace Q R (emit e).
Proof. intros H o s m. exists [e]. cbn. auto. Qed.

Lemma extends_trace_getMem : extends_trace Q R getMem.
Proof. intros o s m. exists []. cbn. rewrite app_nil_r. auto. Qed.

Lemma extends_trace_getEntity id :
  Q [EvGetEntity id] -> extends_trace Q R (getEntity id).
Proof. intros H o s m. exists [EvGetEntity id]. cbn. auto. Qed.

Lemma extends_trace_deliver src mid peer g :
  (forall r, toPeer r = peer -> Q [EvInvoke r]) ->
  extends_trace Q R (deliver src mid peer g).
Proof.
  intros H o s m. rewrite deliver_spec. cbn [fst snd trace after_delivery].
  eexists. split; [reflexivity|]. split; [apply H; reflexivity | apply R_refl].
Qed.

(** A loop whose body extends the trace within [Q] does so too. *)
Lemma extends_trace_forOfLast {A} (body : A -> bool -> M Mem unit) xs :
  (forall x last, extends_trace Q R (body x last)) ->
  extends_trace Q R (forOfLast xs body).
Proof.
  intros Hbody. induction xs as [|x xs IH].
  - apply extends_trace_ret.
  - destruct xs as [|y xs]; [apply Hbody|].
    change (forOfLast (x :: y :: xs) body)
      with (bind (body x false) (fun _ => forOfLast (y :: xs) body)).
    apply extends_trace_bind; [apply Hbody | intros _; exact IH].
Qed.

End ExtendsTrace.

Lemma all_to_nil peer : all_to peer [].
Proof. exists 0%nat. reflexivity. Qed.

Lemma all_to_app peer t1 t2 :
  all_to peer t1 -> all_to peer t2 -> all_to peer (t1 ++ t2).
Proof.
  intros (k1 & H1) (k2 & H2). exists (k1 + k2)%nat.
  rewrite requests_app, map_app, H1, H2, repeat_app. reflexivity.
Qed.

Lemma all_to_request peer r : toPeer r = peer -> all_to peer [EvInvoke r].
Proof. intros <-. exists 1%nat. reflexivity. Qed.

Lemma same_batch_lane_refl c : same_batch_lane c c.
Proof. split; reflexivity. Qed.

Lemma same_batch_lane_trans a b c :
  same_batch_lane a b -> same_batch_lane b c -> same_batch_lane a c.
Proof. intros [H1 H2] [H3 H4]. split; congruence. Qed.

Lemma batch_frame_refl m : batch_frame m m.
Proof. apply same_batch_lane_refl. Qed.

Lemma batch_frame_trans a b c : batch_frame a b -> batch_frame b c -> batch_frame a c.
Proof. intros H1 H2. eapply same_batch_lane_trans; eassumption. Qed.

(** The steps of the batch path that send nothing. *)
Ltac batch_step peer :=
  first
    [ apply (extends_trace_bind (all_to peer) batch_frame
               (all_to_app peer) batch_frame_trans)
    | apply (extends_trace_ret (all_to peer) batch_frame
               (all_to_nil peer) batch_frame_refl)
    | apply (extends_trace_getMem (all_to peer) batch_frame
               (all_to_nil peer) batch_frame_refl)
    | apply (extends_trace_emit (all_to peer) batch_frame batch_frame_refl);
      exists 0%nat; reflexivity
    | apply (extends_trace_getEntity (all_to peer) batch_frame batch_frame_refl);
      exists 0%nat; reflexivity
    | apply (extends_trace_deliver (all_to peer) batch_frame batch_frame_refl);
      apply all_to_request ].

Lemma extends_putMem peer (f : BatchMem -> BatchMem) :
  (forall m, batch_frame m (f m)) ->
  extends_trace (all_to peer) batch_frame (bind getMem (fun m => putMem (f m))).
Proof.
  intros H o s m. exists []. cbn. rewrite app_nil_r.
  split; [reflexivity|]. split; [apply all_to_nil | apply H].
Qed.

Lemma totalSuccess_incr_all_to peer :
  extends_trace (all_to peer) batch_frame totalSuccess_incr.
Proof.
  intros o s m. eexists [_]. cbn. split; [reflexivity|].
  split; [exists 0%nat; reflexivity | apply same_batch_lane_refl].
Qed.

Lemma totalFail_incr_all_to peer :
  extends_trace (all_to peer) batch_frame totalFail_incr.
Proof.
  intros o s m. eexists [_]. cbn. split; [reflexivity|].
  split; [exists 0%nat; reflexivity | apply same_batch_lane_refl].
Qed.

Lemma assign_currentMessageDelay_all_to peer d :
  extends_trace (all_to peer) batch_frame (assign_currentMessageDelay d).
Proof.
  intros o s m. eexists [_]. cbn. split; [reflexivity|].
  split; [exists 0%nat; reflexivity | split; reflexivity].
Qed.

Lemma get_currentMessageDelay_all_to peer :
  extends_trace (all_to peer) batch_frame get_currentMessageDelay.
Proof.
  intros o s m. exists []. cbn. rewrite app_nil_r. split; [reflexivity|].
  split; [apply all_to_nil | apply same_batch_lane_refl].
Qed.

Lemma get_currentBatchDelay_all_to peer :
  extends_trace (all_to peer) batch_frame get_currentBatchDelay.
Proof.
  intros o s m. exists []. cbn. rewrite app_nil_r. split; [reflexivity|].
  split; [apply all_to_nil | apply same_batch_lane_refl].
Qed.

Lemma sleep_all_to peer ms : extends_trace (all_to peer) batch_frame (sleep ms).
Proof.
  intros o s m. eexists [_]. cbn. split; [reflexivity|].
  split; [exists 0%nat; reflexivity | apply same_batch_lane_refl].
Qed.

(** Whatever happens to one message of a batch, its requests go to the
    group the batch is being forwarded to. *)
Lemma forwardBatchMessage_all_to g messageSource last :
  extends_trace (all_to (inputPeerOf g)) batch_frame
    (forwardBatchMessage (inputPeerOf g) g messageSource last).
Proof.
  unfold forwardBatchMessage.
  batch_step (inputPeerOf g); [batch_step (inputPeerOf g)|].
  intros [err|]; [apply totalFail_incr_all_to|].
  batch_step (inputPeerOf g); [batch_step (inputPeerOf g)|].
  intros outcome. batch_step (inputPeerOf g).
  - destruct outcome as [message|]; [|apply totalSuccess_incr_all_to].
    destruct (floodWaitMatch message) as [digits|]; [|apply totalFail_incr_all_to].
    batch_step (inputPeerOf g); [apply sleep_all_to|]. intros _.
    batch_step (inputPeerOf g); [apply get_currentMessageDelay_all_to|]. intros d.
    batch_step (inputPeerOf g); [apply assign_currentMessageDelay_all_to|]. intros _.
    batch_step (inputPeerOf g); [batch_step (inputPeerOf g)|].
    intros [retryMessage|];
      [apply totalFail_incr_all_to | apply totalSuccess_incr_all_to].
  - intros _. destruct last; [batch_step (inputPeerOf g)|].
    batch_step (inputPeerOf g); [apply get_currentMessageDelay_all_to|].
    intros d. apply sleep_all_to.
Qed.

Lemma forwardBatchToGroup_all_to currentBatch g last :
  extends_trace (all_to (inputPeerOf g)) batch_frame
    (forwardBatchToGroup currentBatch g last).
Proof.
  unfold forwardBatchToGroup.
  batch_step (inputPeerOf g).
  - apply (extends_trace_forOfLast (all_to (inputPeerOf g)) batch_frame
             (all_to_nil _) (all_to_app _) batch_frame_refl batch_frame_trans).
    intros messageSource last'. apply forwardBatchMessage_all_to.
  - intros _. destruct last; [batch_step (inputPeerOf g)|].
    batch_step (inputPeerOf g); [apply get_currentBatchDelay_all_to|].
    intros d. apply sleep_all_to.
Qed.

Lemma forOfLast_in_order (body : GroupInfo -> bool -> B unit) groups :
  (forall g last, extends_trace (all_to (inputPeerOf g)) batch_frame (body g last)) ->
  extends_trace (in_order groups) batch_frame (forOfLast groups body).
Proof.
  intros Hbody. induction groups as [|g groups IH].
  - intros o s m. exists []. cbn. rewrite app_nil_r. split; [reflexivity|].
    split; [exists []; split; reflexivity | apply batch_frame_refl].
  - destruct groups as [|g' groups].
    + intros o s m. destruct (Hbody g true o s m) as (t & Et & (k & Hk) & Fr).
      exists t. split; [exact Et|]. split; [|exact Fr].
      exists [k]. split; [reflexivity|].
      unfold attempts_in_order. cbn. rewrite app_nil_r. exact Hk.
    + change (forOfLast (g :: g' :: groups) body)
        with (bind (body g false) (fun _ => forOfLast (g' :: groups) body)).
      intros o s m. unfold bind.
      destruct (Hbody g false o s m) as (t1 & E1 & (k & Hk) & R1).
      destruct (body g false o s m) as [[[] s1] m1]. cbn [fst snd] in *.
      destruct (IH o s1 m1) as (t2 & E2 & (ks & Hlen & Hks) & R2).
      exists (t1 ++ t2). rewrite E2, E1, app_assoc. split; [reflexivity|].
      split; [|eapply batch_frame_trans; eassumption].
      exists (k :: ks). split; [simpl in *; lia|].
      rewrite requests_app, map_app, Hk, Hks. reflexivity.
Qed.

(** What the pass of one account does in a batch cycle. *)
Lemma batchLane_in_order n o s m :
  exists t,
    trace (snd (fst (batchLane n o s m))) = trace s ++ t
    /\ (t = [] \/ in_order (b_writableGroups (b_config m)) t)
    /\ batch_frame m (snd (batchLane n o s m)).
Proof.
  unfold batchLane, bind, getMem.
  destruct (js_index _ _) as [currentBatch|].
  - destruct (forOfLast_in_order (forwardBatchToGroup currentBatch)
                (b_writableGroups (b_config m))
                (forwardBatchToGroup_all_to currentBatch) o s m)
      as (t & Et & Ht & Fr).
    exists t. split; [exact Et|]. split; [right; exact Ht | exact Fr].
  - exists []. cbn. rewrite app_nil_r. split; [reflexivity|].
    split; [left; reflexivity | apply batch_frame_refl].
Qed.

Lemma pick_In {A C} (view : A -> option C) xs x b :
  In x xs -> view x = Some b -> In b (pick view xs).
Proof.
  induction xs as [|y xs IH]; intros Hin Hv; [contradiction|].
  simpl. destruct Hin as [->|Hin].
  - rewrite Hv. left. reflexivity.
  - destruct (view y); [right|]; apply IH; assumption.
Qed.

Lemma lane_view_lane l e ev : lane_view l e = Some ev -> lane_of_event e = Some l.
Proof.
  destruct e; try discriminate. simpl.
  destruct (Nat.eqb_spec lane l); [congruence | discriminate].
Qed.

(** A lane that no event belongs to has no effect among the events. *)
Lemma lane_events_absent l evs : ~ In l (lanes_of evs) -> lane_events l evs = [].
Proof.
  intros H. apply pick_none. intros e He.
  destruct (lane_view l e) as [ev|] eqn:E; [|reflexivity].
  exfalso. apply H. eapply pick_In; [exact He|].
  eapply lane_view_lane. exact E.
Qed.

Lemma ascending_cons a ls :
  Forall (fun b => a <= b)%nat ls -> ascending ls = true -> ascending (a :: ls) = true.
Proof.
  intros F H. simpl. rewrite H, andb_true_r.
  destruct ls as [|b ls]; [reflexivity|].
  inversion F; subst. apply Nat.leb_le. assumption.
Qed.

Lemma lanes_of_app a b : lanes_of (a ++ b) = lanes_of a ++ lanes_of b.
Proof. apply pick_app. Qed.

Lemma lanes_of_lane l t : lanes_of (map (CeLane l) t) = repeat l (List.length t).
Proof.
  induction t as [|e t IH]; [reflexivity|].
  cbn [map List.length repeat]. rewrite <- IH. reflexivity.
Qed.

Lemma ascending_repeat l k ls :
  Forall (fun b => l <= b)%nat ls -> ascending ls = true ->
  ascending (repeat l k ++ ls) = true.
Proof.
  intros F H. induction k as [|k IH]; [exact H|].
  simpl repeat. rewrite <- app_comm_cons. apply ascending_cons; [|exact IH].
  apply Forall_app. split; [|exact F].
  apply Forall_forall. intros x Hx. apply repeat_spec in Hx. lia.
Qed.

Lemma batchAccounts_unfold w n l0 config rest totals :
  batchAccounts w n l0 (config :: rest) totals =
  match connectClient w n l0 with
  | Some _ =>
      let r := batchAccounts w n (S l0) rest totals in
      (config :: fst (fst r), snd (fst r), CeConnect l0 :: snd r)
  | None =>
      let lane :=
        batchLane n (lane_oracle w n l0) sys0
          {| b_config := config; b_totalSuccessCount := fst totals;
             b_totalFailCount := snd totals |} in
      let r :=
        batchAccounts w n (S l0) rest
          (b_totalSuccessCount (snd lane), b_totalFailCount (snd lane)) in
      (b_config (snd lane) :: fst (fst r), snd (fst r),
       CeConnect l0 :: CeStart l0 :: map (CeLane l0) (trace (snd (fst lane)))
         ++ CeDisconnect l0 :: snd r)
  end.
Proof.
  simpl. destruct (connectClient w n l0).
  - destruct (batchAccounts w n (S l0) rest totals) as [[rest' totals'] evs].
    reflexivity.
  - destruct (batchLane n (lane_oracle w n l0) sys0 _) as [[[] s] m].
    cbn [fst snd].
    destruct (batchAccounts w n (S l0) rest _) as [[rest' totals'] evs].
    reflexivity.
Qed.

(** In a batch cycle the accounts come one after the other, and each sends
    its requests destination after destination. *)
Lemma batchAccounts_facts w n l0 configs totals :
  let r := batchAccounts w n l0 configs totals in
  Forall2 same_batch_lane configs (fst (fst r))
  /\ Forall (fun l => l0 <= l)%nat (lanes_of (snd r))
  /\ ascending (lanes_of (snd r)) = true
  /\ forall l c, (l0 <= l)%nat -> nth_error configs (l - l0) = Some c ->
                 lane_in_order (b_writableGroups c) l (snd r).
Proof.
  cbv zeta. revert l0 totals.
  induction configs as [|config rest IH]; intros l0 totals.
  - cbn. split; [constructor|]. split; [constructor|]. split; [reflexivity|].
    intros l c _ H. destruct (l - l0)%nat; discriminate.
  - rewrite batchAccounts_unfold.
    destruct (connectClient w n l0) as [err|].
    + cbv zeta. cbn [fst snd].
      destruct (IH (S l0) totals) as (F1 & F2 & F3 & F4).
      assert (F2' : Forall (fun l => l0 <= l)%nat
                      (lanes_of (snd (batchAccounts w n (S l0) rest totals)))).
      { eapply Forall_impl; [|exact F2]. cbv beta. intros; lia. }
      split; [constructor; [apply same_batch_lane_refl | exact F1]|].
      split; [constructor; [lia | exact F2']|].
      split; [apply ascending_cons; assumption|].
      intros l c Hl Hc. unfold lane_in_order, lane_events. cbn [pick lane_view].
      destruct (Nat.eq_dec l l0) as [->|Hne].
      * left. apply lane_events_absent. intros Hin.
        rewrite Forall_forall in F2. specialize (F2 _ Hin). lia.
      * apply (F4 l c); [lia|].
        replace (l - l0)%nat with (S (l - S l0)) in Hc by lia. exact Hc.
    + cbv zeta. cbn [fst snd].
      set (m0 := {| b_config := config; b_totalSuccessCount := fst totals;
                    b_totalFailCount := snd totals |}).
      destruct (batchLane_in_order n (lane_oracle w n l0) sys0 m0)
        as (t & Et & Ht & Fr).
      cbn [trace sys0 app] in Et.
      set (lane := batchLane n (lane_oracle w n l0) sys0 m0) in *.
      destruct (IH (S l0) (b_totalSuccessCount (snd lane),
                           b_totalFailCount (snd lane))) as (F1 & F2 & F3 & F4).
      set (r := batchAccounts w n (S l0) rest _) in *.
      assert (F2' : Forall (fun l => l0 <= l)%nat (lanes_of (snd r))).
      { eapply Forall_impl; [|exact F2]. cbv beta. intros; lia. }
      assert (El : lanes_of (CeConnect l0 :: CeStart l0
                               :: map (CeLane l0) (trace (snd (fst lane)))
                               ++ CeDisconnect l0 :: snd r)
                   = l0 :: l0 :: repeat l0 (List.length (trace (snd (fst lane))))
                        ++ l0 :: lanes_of (snd r)).
      { change (lanes_of (?a :: ?b :: ?c))
          with (l0 :: l0 :: lanes_of c).
        rewrite lanes_of_app, lanes_of_lane. reflexivity. }
      split; [constructor; [exact Fr | exact F1]|].
      rewrite El.
      assert (Ftail : Forall (fun l => l0 <= l)%nat (l0 :: lanes_of (snd r)))
        by (constructor; [lia | exact F2']).
      assert (Atail : ascending (l0 :: lanes_of (snd r)) = true)
        by (apply ascending_cons; assumption).
      assert (Fmid : Forall (fun l => l0 <= l)%nat
                       (repeat l0 (List.length (trace (snd (fst lane))))
                        ++ l0 :: lanes_of (snd r))).
      { apply Forall_app. split; [|exact Ftail].
        apply Forall_forall. intros x Hx. apply repeat_spec in Hx. lia. }
      assert (Amid : ascending (repeat l0 (List.length (trace (snd (fst lane))))
                                ++ l0 :: lanes_of (snd r)) = true)
        by (apply ascending_repeat; assumption).
      split; [constructor; [lia|]; constructor; [lia | exact Fmid]|].
      split.
      { apply ascending_cons; [constructor; [lia | exact Fmid]|].
        apply ascending_cons; assumption. }
      intros l c Hl Hc.
      assert (Ev : lane_events l (CeConnect l0 :: CeStart l0
                                    :: map (CeLane l0) (trace (snd (fst lane)))
                                    ++ CeDisconnect l0 :: snd r)
                   = (if (l0 =? l)%nat then trace (snd (fst lane)) else [])
                     ++ lane_events l (snd r)).
      { unfold lane_events. cbn [pick lane_view]. rewrite pick_app.
        cbn [pick lane_view]. f_equal.
        clear. induction (trace (snd (fst lane))) as [|e tr IHt]; simpl.
        - destruct (l0 =? l)%nat; reflexivity.
        - destruct (l0 =? l)%nat; [rewrite IHt|]; auto. }
      unfold lane_in_order. rewrite Ev.
      destruct (Nat.eqb_spec l0 l) as [<-|Hne].
      * rewrite Nat.sub_diag in Hc. injection Hc as <-.
        rewrite (lane_events_absent l0 (snd r)), app_nil_r.
        -- rewrite Et. destruct Ht as [->|Ht]; [left; reflexivity | right; exact Ht].
        -- intros Hin. rewrite Forall_forall in F2. specialize (F2 _ Hin). lia.
      * cbn [app]. apply (F4 l c); [lia|].
        replace (l - l0)%nat with (S (l - S l0)) in Hc by lia. exact Hc.
Qed.

Lemma batchCycle_facts w endTime cycleMins s :
  let s' := fst (batchCycle w endTime cycleMins s) in
  Forall2 same_batch_lane (bs_accountConfigs s) (bs_accountConfigs s')
  /\ exists logs,
       bs_journal s' = bs_journal s ++ logs
       /\ Forall (fun cl =>
                    ascending (lanes_of (cl_events cl)) = true
                    /\ forall l c, nth_error (bs_accountConfigs s) l = Some c ->
                         lane_in_order (b_writableGroups c) l (cl_events cl))
            logs.
Proof.
  cbv zeta. unfold batchCycle.
  assert (Hrefl : Forall2 same_batch_lane (bs_accountConfigs s) (bs_accountConfigs s)).
  { apply Forall2_lookup. split; [reflexivity|].
    intros i a b Ha Hb. rewrite Ha in Hb. injection Hb as <-.
    apply same_batch_lane_refl. }
  destruct (js_lt (inject_Z (clock w (bs_ticks s))) endTime).
  - pose proof (batchAccounts_facts w (S (bs_cycleCount s)) 0 (bs_accountConfigs s)
                  (bs_totalSuccessCount s, bs_totalFailCount s)) as F.
    cbv zeta in F.
    destruct (batchAccounts w (S (bs_cycleCount s)) 0 (bs_accountConfigs s) _)
      as [[configs' [totalS totalF]] evs].
    cbn [fst snd] in F. destruct F as (F1 & _ & F3 & F4).
    assert (F4' : forall l c, nth_error (bs_accountConfigs s) l = Some c ->
                              lane_in_order (b_writableGroups c) l evs).
    { intros l c Hc. apply F4; [lia|]. rewrite Nat.sub_0_r. exact Hc. }
    destruct (js_ge (inject_Z (clock w (S (bs_ticks s)))) endTime); cbn [fst snd].
    + split; [exact F1|]. eexists [_]. cbn [bs_journal]. split; [reflexivity|].
      constructor; [|constructor]. cbn [cl_events]. split; assumption.
    + split; [exact F1|]. eexists [_]. cbn [bs_journal]. split; [reflexivity|].
      constructor; [|constructor]. cbn [cl_events].
      rewrite lanes_of_app. cbn. rewrite app_nil_r. split; [exact F3|].
      intros l c Hc. specialize (F4' l c Hc).
      unfold lane_in_order in *. rewrite lane_events_app. cbn.
      rewrite app_nil_r. exact F4'.
  - cbn [fst snd]. split; [exact Hrefl|]. exists []. cbn.
    rewrite app_nil_r. split; [reflexivity | constructor].
Qed.

Lemma batchLoop_inv w endTime cycleMins (P : BatchSched -> Prop) :
  (forall s, P s -> P (fst (batchCycle w endTime cycleMins s))) ->
  forall fuel s, P s -> P (fst (batchLoop w endTime cycleMins fuel s)).
Proof.
  intros Hstep. induction fuel as [|fuel IH]; intros s H; [exact H|].
  simpl. specialize (Hstep s H).
  destruct (batchCycle w endTime cycleMins s) as [s' [why|]]; cbn [fst] in *.
  - exact Hstep.
  - apply IH. exact Hstep.
Qed.

Lemma same_batch_lane_lookup configs0 configs l c0 :
  Forall2 same_batch_lane configs0 configs ->
  nth_error configs0 l = Some c0 ->
  exists c, nth_error configs l = Some c
            /\ b_writableGroups c = b_writableGroups c0.
Proof.
  intros F H0. apply Forall2_lookup in F. destruct F as [Hlen F].
  destruct (nth_error configs l) as [c|] eqn:E.
  - exists c. split; [reflexivity|]. apply (F l c0 c H0 E).
  - apply nth_error_None in E. rewrite <- Hlen in E.
    apply nth_error_None in E. congruence.
Qed.

Lemma Forall2_same_batch_lane_trans a b c :
  Forall2 same_batch_lane a b -> Forall2 same_batch_lane b c ->
  Forall2 same_batch_lane a c.
Proof.
  intros H1. revert c. induction H1 as [|x y a b Hxy _ IH]; intros c H2.
  - inversion H2. constructor.
  - inversion H2 as [|? z ? c' Hyz H2']; subst.
    constructor; [eapply same_batch_lane_trans; eassumption | apply IH; exact H2'].
Qed.

(** C9 does not hold as the specification states it: in a batch cycle
    with two accounts the first account has sent its message, has been
    counted and has been disconnected before the dispatch of the second
    account is started; the effects of the two accounts do not interleave. *)
Lemma C9_counterexample_batch_lanes_in_turn :
  let s := fst (batchForward DemoWorld.online (1 # 6) 1
                  DemoWorld.two_batch_lanes 1) in
  map (fun cl => started_before_collected (cl_events cl)) (bs_journal s) = [false]
  /\ map (fun cl => started_together (cl_events cl)) (bs_journal s) = [false]
  /\ map (fun cl => effect_lanes (cl_events cl)) (bs_journal s)
     = [[0; 0; 0; 1; 1; 1]%nat]
  /\ map (fun cl => lanes_of (cl_events cl)) (bs_journal s)
     = [[0; 0; 0; 0; 0; 0; 1; 1; 1; 1; 1; 1]%nat]
  /\ map (fun cl => started (cl_events cl)) (bs_journal s) = [[0; 1]%nat]
  /\ bs_totalSuccessCount s = 2%Z.
Proof. cbv zeta. repeat split; vm_compute; reflexivity. Qed.

(** C9, as the code has it.  In every cycle of [standardForward] the
    tasks of all connected lanes are started together: one task per lane,
    all of them started before any lane's results are added to the totals
    and before any lane has got further than its first request.  Whatever
    the order in which the effects of the tasks then interleave, each lane
    sends its requests destination after destination, in the order of its
    destinations.  The order of the interleaving is not the program's
    choice: on the sample world the two lanes alternate, lane 0 sending its
    second request after lane 1 has sent its only one, and with the same
    answers arriving in another order the effects interleave differently
    while every lane does the same.  In every cycle of [batchForward] the
    accounts are worked through one after the other: lane numbers never go
    down along the cycle, no lane has a further effect once another lane
    has had one, and each account sends its requests destination after
    destination in the order of its destinations. *)
Theorem C9_lanes_concurrent_in_standard_mode_only :
  (forall w durationHours cycleMins configs fuel,
      let s := fst (standardForward w durationHours cycleMins configs fuel) in
      Forall (fun cl => started_before_collected (cl_events cl) = true
                        /\ started_together (cl_events cl) = true
                        /\ tallied_once cl) (journal s)
      /\ forall l c0, nth_error configs l = Some c0 ->
           Forall (fun cl => lane_in_order (writableGroups c0) l (cl_events cl))
             (journal s))
  /\ (let run w := journal (fst (standardForward w (1 # 6) 1
                                   (DemoWorld.two_lanes 1) 1)) in
      map (fun cl => effect_lanes (cl_events cl)) (run DemoWorld.online)
      = [[0; 1; 1; 0; 0; 0]%nat]
      /\ map (fun cl => one_turn_each (effect_lanes (cl_events cl)))
           (run DemoWorld.online) = [false]
      /\ map (fun cl => effect_lanes (cl_events cl))
           (run DemoWorld.online_other_order)
         = [[0; 1; 0; 0; 0; 1]%nat]
      /\ forall l,
           map (fun cl => lane_events l (cl_events cl)) (run DemoWorld.online)
           = map (fun cl => lane_events l (cl_events cl))
               (run DemoWorld.online_other_order))
  /\ (forall w durationHours cycleMins configs fuel,
        let s := fst (batchForward w durationHours cycleMins configs fuel) in
        Forall (fun cl => ascending (lanes_of (cl_events cl)) = true
                          /\ one_turn_each (effect_lanes (cl_events cl)) = true)
          (bs_journal s)
        /\ forall l c0, nth_error configs l = Some c0 ->
             Forall (fun cl => lane_in_order (b_writableGroups c0) l (cl_events cl))
               (bs_journal s)).
Proof.
  split; [|split].
  - intros w durationHours cycleMins configs fuel s. subst s.
    rewrite standardForward_eq. set (endTime := endTime_of w durationHours).
    split.
    + pose proof (loop_collects w endTime cycleMins configs fuel) as HP.
      cbv zeta in HP. destruct HP as (_ & _ & _ & Ht & _).
      assert (Hs : Forall (fun cl => started_before_collected (cl_events cl) = true
                                     /\ started_together (cl_events cl) = true)
                     (journal (fst (loop w endTime cycleMins fuel
                                      (start_state configs))))).
      { apply (loop_inv w endTime cycleMins
                 (fun s => Forall (fun cl => started_before_collected (cl_events cl)
                                             = true
                                             /\ started_together (cl_events cl)
                                                = true) (journal s)));
          [|constructor].
        intros s s' e T F.
        destruct (Turn_started_first w endTime cycleMins s s' e T) as (logs & E & F1).
        destruct (Turn_started_together w endTime cycleMins s s' e T)
          as (logs' & E' & F2).
        rewrite E in E'. apply app_inv_head in E'. subst logs'. rewrite E.
        apply Forall_app. split; [exact F|].
        rewrite Forall_forall in F1, F2. apply Forall_forall.
        intros cl Hcl. split; [apply F1 | apply F2]; exact Hcl. }
      rewrite Forall_forall in Hs, Ht. apply Forall_forall.
      intros cl Hcl. destruct (Hs cl Hcl) as [H1 H2].
      split; [exact H1|]. split; [exact H2 | apply Ht; exact Hcl].
    + intros l c0 H0.
      assert (HP :
        (fun s => (exists c, nth_error (accountConfigs s) l = Some c
                             /\ writableGroups c = writableGroups c0)
                  /\ Forall (fun cl => lane_in_order (writableGroups c0) l
                                         (cl_events cl)) (journal s))
          (fst (loop w endTime cycleMins fuel (start_state configs)))).
      { apply loop_inv.
        - intros s s' e T ((c & Hcfg & Hg) & F).
          destruct (Turn_lane _ _ _ s s' e l c T Hcfg) as (logs1 & c' & _ & Hc' & LT).
          destruct (lane_turn_summary c c' _ LT) as (_ & _ & Hg' & _).
          destruct (Turn_lane_in_order _ _ _ s s' e l c T Hcfg) as (logs & -> & F').
          split; [exists c'; split; [exact Hc' | congruence]|].
          apply Forall_app. split; [exact F|]. rewrite <- Hg. exact F'.
        - split; [exists c0; split; [exact H0 | reflexivity] | constructor]. }
      apply HP.
  - cbv zeta. split; [vm_compute; reflexivity|].
    split; [vm_compute; reflexivity|]. split; [vm_compute; reflexivity|].
    intros [|[|l]]; vm_compute; reflexivity.
  - intros w durationHours cycleMins configs fuel s. subst s.
    unfold batchForward. cbv zeta.
    set (endTime := (inject_Z (clock w 0) + durationHours * 60 * 60 * 1000)%Q).
    set (s0 := {| bs_cycleCount := 0; bs_totalSuccessCount := 0;
                  bs_totalFailCount := 0; bs_accountConfigs := configs;
                  bs_ticks := 1; bs_journal := [] |}).
    assert (HP :
      (fun s => Forall2 same_batch_lane configs (bs_accountConfigs s)
                /\ Forall (fun cl =>
                             ascending (lanes_of (cl_events cl)) = true
                             /\ forall l c0, nth_error configs l = Some c0 ->
                                  lane_in_order (b_writableGroups c0) l
                                    (cl_events cl)) (bs_journal s))
        (fst (batchLoop w endTime cycleMins fuel s0))).
    { apply batchLoop_inv.
      - intros s (Fr & F).
        destruct (batchCycle_facts w endTime cycleMins s) as (Fr' & logs & -> & F').
        split; [eapply Forall2_same_batch_lane_trans; eassumption|].
        apply Forall_app. split; [exact F|].
        eapply Forall_impl; [|exact F']. cbv beta. intros cl (Ha & Hl).
        split; [exact Ha|]. intros l c0 H0.
        destruct (same_batch_lane_lookup _ _ l c0 Fr H0) as (c & Hc & Hg).
        rewrite <- Hg. apply Hl. exact Hc.
      - split; [|constructor]. apply Forall2_lookup. split; [reflexivity|].
        intros i a b Ha Hb. cbn in Hb. rewrite Ha in Hb. injection Hb as <-.
        apply same_batch_lane_refl. }
    destruct HP as (_ & F). split.
    + eapply Forall_impl; [|exact F]. cbv beta. intros cl (Ha & _).
      split; [exact Ha | apply ascending_one_turn_each; exact Ha].
    + intros l c0 H0. eapply Forall_impl; [|exact F]. cbv beta.
      intros cl (_ & Hl). apply Hl. exact H0.
Qed.

Lemma C9_witness_two_lanes :
  Forall (fun cl => lane_in_order
                      (writableGroups (Demo.lane_of [Demo.plain 1; Demo.plain 2] 1))
                      0 (cl_events cl))
    (journal (fst (standardForward DemoWorld.online (1 # 6) 1
                     (DemoWorld.two_lanes 1) 2)))
  /\ Forall (fun cl => lane_in_order
                         (b_writableGroups (DemoWorld.batch_lane_of [Demo.plain 3] 1))
                         1 (cl_events cl))
       (bs_journal (fst (batchForward DemoWorld.online (1 # 6) 1
                           DemoWorld.two_batch_lanes 2))).
Proof.
  split.
  - apply (proj2 (proj1 C9_lanes_concurrent_in_standard_mode_only
                    DemoWorld.online (1 # 6) 1 (DemoWorld.two_lanes 1) 2%nat)
             0%nat (Demo.lane_of [Demo.plain 1; Demo.plain 2] 1) eq_refl).
  - apply (proj2 (proj2 (proj2 C9_lanes_concurrent_in_standard_mode_only)
                    DemoWorld.online (1 # 6) 1 DemoWorld.two_batch_lanes 2%nat)
             1%nat (DemoWorld.batch_lane_of [Demo.plain 3] 1) eq_refl).
Defined.

(* ================================================================== *)
(** * More about the forwarding engine *)

(** ** The accounts of a pass *)

Lemma filter_partition_length {A} (f : A -> bool) (xs : list A) :
  (List.length (filter f xs) + List.length (filter (fun x => negb (f x)) xs)
   = List.length xs)%nat.
Proof.
  induction xs as [|x xs IH]; [reflexivity|].
  simpl. destruct (f x); simpl; lia.
Qed.

Lemma count_success_fail rs :
  (count_success rs + count_fail rs = Z.of_nat (List.length rs))%Z.
Proof.
  unfold count_success, count_fail.
  rewrite <- (filter_partition_length (fun r => success r) rs). lia.
Qed.

Lemma well_formed_ok g : well_formed_result (ok_result g).
Proof. unfold well_formed_result. cbn. tauto. Qed.

Lemma well_formed_fail g message : well_formed_result (fail_result g message).
Proof. unfold well_formed_result. cbn. split; discriminate. Qed.

Lemma well_formed_retry g retry : well_formed_result (retry_result g retry).
Proof.
  destruct retry; [apply well_formed_fail | apply well_formed_ok].
Qed.

(** One destination more keeps the accounts of the pass. *)
Lemma forwardToGroup_account src mid g o s m k :
  pass_account k s m ->
  pass_account (S k) (snd (fst (forwardToGroup src mid g o s m)))
    (snd (forwardToGroup src mid g o s m)).
Proof.
  intros (Hres & Hreq & Hhit & Hnk & Hwf).
  rewrite forwardToGroup_run. cbv zeta.
  destruct (net o (nk s)) as [message|];
    [destruct (floodWaitMatch message) as [digits|]|];
    unfold pass_account;
    cbn [fst snd trace nk logged after_delivery pushed results config];
    rewrite !requests_app, !delays_app, !length_app;
    cbn [requests delays List.length app];
    rewrite ?requests_app, ?delays_app, ?length_app;
    cbn [requests delays List.length app];
    (split; [lia|]); (split; [lia|]); (split; [lia|]); (split; [lia|]);
    (apply Forall_app; split; [exact Hwf|]); constructor;
    auto using well_formed_ok, well_formed_fail, well_formed_retry.
Qed.

Lemma forOf_account src mid groups o s m k :
  pass_account k s m ->
  pass_account (k + List.length groups)
    (snd (fst (forOf groups (forwardToGroup src mid) o s m)))
    (snd (forOf groups (forwardToGroup src mid) o s m)).
Proof.
  revert s m k. induction groups as [|g groups IH]; intros s m k H.
  - simpl. rewrite Nat.add_0_r. exact H.
  - simpl. unfold bind.
    pose proof (forwardToGroup_account src mid g o s m k H) as H1.
    destruct (forwardToGroup src mid g o s m) as [[[] s1] m1].
    cbn [fst snd] in H1.
    replace (k + S (List.length groups))%nat with (S k + List.length groups)%nat
      by lia.
    apply IH. exact H1.
Qed.

(** X1. A pass of [forwardWithClient] accounts for every destination once:
    the [results] array it returns has one entry per destination, so the
    successes and the failures that [standardForward] counts from it add up
    to the number of destinations; the pass sends one request per
    destination and one more for every rate-limit hit, and no destination is
    hit more than once; and an entry is a failure exactly when it carries an
    error. *)
Theorem forwardWithClient_accounts_for_every_destination
    (o : Oracle) (c : Config) (sourceChannel : string) (messageId : Z) :
  let r := run_lane o c sourceChannel messageId in
  let n := List.length (writableGroups c) in
  let hits := List.length (delays (trace (fst r))) in
  List.length (results (snd r)) = n
  /\ (count_success (results (snd r)) + count_fail (results (snd r))
      = Z.of_nat n)%Z
  /\ List.length (requests (trace (fst r))) = (n + hits)%nat
  /\ (hits <= n)%nat
  /\ Forall well_formed_result (results (snd r)).
Proof.
  cbv zeta. rewrite run_lane_eq. cbv zeta. cbn [fst snd].
  assert (H0 : pass_account 0 sys0 {| config := c; results := [] |}).
  { unfold pass_account. cbn. repeat split; try lia. constructor. }
  pose proof (forOf_account sourceChannel messageId (writableGroups c) o sys0
                {| config := c; results := [] |} 0%nat H0) as H.
  cbn [Nat.add] in H. destruct H as (Hres & Hreq & Hhit & _ & Hwf).
  split; [exact Hres|]. split; [rewrite count_success_fail, Hres; reflexivity|].
  split; [exact Hreq|]. split; [exact Hhit | exact Hwf].
Qed.

(** ** Only writable groups are forwarded to *)

Lemma configure_lookup accounts l c :
  nth_error (configure accounts) l = Some c ->
  exists a,
    In a accounts
    /\ phoneNumber c = as_phoneNumber a
    /\ messageSources c = as_messageSources a
    /\ writableGroups c = filter (fun g => canWrite g) (as_groups a).
Proof.
  revert l. induction accounts as [|a rest IH]; intros l H.
  - destruct l; discriminate.
  - simpl in H.
    destruct (List.length (filter (fun g => canWrite g) (as_groups a)) =? 0)%nat.
    + destruct (IH l H) as (a' & Hin & Hrest). exists a'. split; [right; exact Hin | exact Hrest].
    + destruct l as [|l].
      * injection H as <-. exists a. cbn. split; [left; reflexivity|]. tauto.
      * destruct (IH l H) as (a' & Hin & Hrest).
        exists a'. split; [right; exact Hin | exact Hrest].
Qed.

Lemma attempts_in_order_In groups ks p :
  In p (attempts_in_order groups ks) ->
  exists g, In g groups /\ p = inputPeerOf g.
Proof.
  unfold attempts_in_order. intros H.
  apply in_concat in H. destruct H as (xs & Hxs & Hp).
  apply in_map_iff in Hxs. destruct Hxs as ([g k] & <- & Hgk).
  apply repeat_spec in Hp. exists g. split; [|exact Hp].
  apply in_combine_l in Hgk. exact Hgk.
Qed.

Lemma in_order_destinations groups t :
  in_order groups t ->
  Forall (fun r => exists g, In g groups /\ toPeer r = inputPeerOf g) (requests t).
Proof.
  intros (ks & _ & Hmap). apply Forall_forall. intros r Hr.
  apply (attempts_in_order_In groups ks). rewrite <- Hmap.
  apply in_map. exact Hr.
Qed.

Lemma lane_in_order_destinations groups l evs :
  lane_in_order groups l evs ->
  Forall (fun r => exists g, In g groups /\ toPeer r = inputPeerOf g)
    (requests (lane_events l evs)).
Proof.
  intros [->|H]; [constructor | apply in_order_destinations; exact H].
Qed.

(** Over a run, a lane keeps its destinations and sends its requests to
    them. *)
Lemma loop_destinations w endTime cycleMins configs fuel l c0 :
  nth_error configs l = Some c0 ->
  Forall (fun cl => lane_in_order (writableGroups c0) l (cl_events cl))
    (journal (fst (loop w endTime cycleMins fuel (start_state configs)))).
Proof.
  intros H0.
  apply (loop_inv w endTime cycleMins
           (fun s =>
              (exists c, nth_error (accountConfigs s) l = Some c
                         /\ writableGroups c = writableGroups c0)
              /\ Forall (fun cl => lane_in_order (writableGroups c0) l (cl_events cl))
                   (journal s))).
  - intros s s' e T ((c & Hc & Hg) & HF).
    destruct (Turn_lane w endTime cycleMins s s' e l c T Hc)
      as (logs & c' & Hj & Hc' & LT).
    destruct (lane_turn_summary c c' _ LT) as (_ & _ & Hg' & _).
    destruct (Turn_lane_in_order w endTime cycleMins s s' e l c T Hc)
      as (logs' & Hj' & HF').
    split; [exists c'; split; [exact Hc' | congruence]|].
    rewrite Hj'. apply Forall_app. split; [exact HF|].
    rewrite <- Hg. exact HF'.
  - cbn. split; [exists c0; split; [exact H0 | reflexivity] | constructor].
Qed.

(** X2. Whatever happens during a run of [standardForward] on the lanes
    set up by its configuration step, every request a lane sends goes to a
    group of the lane's account in which the account may write: a group that
    the permission check marked as not writable is never forwarded to. *)
Theorem standardForward_only_writable_destinations
    (w : World) (durationHours cycleMins : Q) (accounts : list AccountSetup)
    (fuel : nat) (l : nat) (c : Config) :
  nth_error (configure accounts) l = Some c ->
  exists a,
    In a accounts
    /\ phoneNumber c = as_phoneNumber a
    /\ Forall (fun cl =>
                 Forall (to_writable_group_of a)
                   (requests (lane_events l (cl_events cl))))
         (journal (fst (standardForward w durationHours cycleMins
                          (configure accounts) fuel))).
Proof.
  intros Hc. destruct (configure_lookup accounts l c Hc) as (a & Hin & Hp & _ & Hg).
  exists a. split; [exact Hin|]. split; [exact Hp|].
  rewrite standardForward_eq.
  pose proof (loop_destinations w (endTime_of w durationHours) cycleMins
                (configure accounts) fuel l c Hc) as HF.
  eapply Forall_impl; [|exact HF]. cbv beta. intros cl Hcl.
  apply lane_in_order_destinations in Hcl.
  eapply Forall_impl; [|exact Hcl]. cbv beta.
  intros r (g & Hgin & Hr). rewrite Hg in Hgin. apply filter_In in Hgin.
  exists g. tauto.
Qed.

Lemma standardForward_only_writable_destinations_witness :
  exists a,
    In a (DemoWorld.two_accounts 1)
    /\ phoneNumber (Demo.lane_of [Demo.plain 3] 1) = as_phoneNumber a
    /\ Forall (fun cl =>
                 Forall (to_writable_group_of a)
                   (requests (lane_events 1 (cl_events cl))))
         (journal (fst (standardForward DemoWorld.online (1 # 6) 1
                          (configure (DemoWorld.two_accounts 1)) 2))).
Proof.
  apply (standardForward_only_writable_destinations DemoWorld.online (1 # 6) 1
           (DemoWorld.two_accounts 1) 2 1 (Demo.lane_of [Demo.plain 3] 1)).
  reflexivity.
Defined.

(** ** The run ends *)

Section Stops.

Variable w : World.
Variable endTime : Q.
Variable cycleMins : Q.
Variable K : nat.
Hypothesis clock_monotone : monotone_clock w.
Hypothesis deadline_reached : (endTime <= inject_Z (clock w K))%Q.

(** A reading below the deadline was taken before the [K]-th. *)
Lemma early_reading i :
  js_lt (inject_Z (clock w i)) endTime = true -> (i < K)%nat.
Proof.
  intros H. apply js_lt_spec in H.
  destruct (Nat.lt_ge_cases i K) as [Hlt|Hge]; [exact Hlt|].
  exfalso. specialize (clock_monotone K i Hge).
  rewrite Zle_Qle in clock_monotone.
  apply (Qlt_irrefl endTime).
  eapply Qle_lt_trans; [exact deadline_reached|].
  eapply Qle_lt_trans; [exact clock_monotone | exact H].
Qed.

Lemma Turn_continues s s' :
  Turn w endTime cycleMins s s' None ->
  js_lt (inject_Z (clock w (ticks s))) endTime = true.
Proof.
  intros T. remember (@None Exit) as e eqn:He.
  destruct T; [discriminate | discriminate | assumption].
Qed.

Lemma loop_stops f s :
  (K <= ticks s + f)%nat ->
  snd (loop w endTime cycleMins (S f) s) <> None.
Proof.
  revert s. induction f as [|f IH]; intros s Hk.
  - simpl. pose proof (cycle_Turn w endTime cycleMins s) as T.
    destruct (cycle w endTime cycleMins s) as [s' [why|]];
      cbn [fst snd] in *; [discriminate|].
    exfalso. apply Turn_continues, early_reading in T. lia.
  - change (loop w endTime cycleMins (S (S f)) s)
      with (match cycle w endTime cycleMins s with
            | (s', Some why) => (s', Some why)
            | (s', None) => loop w endTime cycleMins (S f) s'
            end).
    pose proof (cycle_Turn w endTime cycleMins s) as T.
    destruct (cycle w endTime cycleMins s) as [s' [why|]];
      cbn [fst snd] in *; [discriminate|].
    apply IH.
    destruct (Turn_journal w endTime cycleMins s s' None T) as (_ & _ & _ & _ & _ & Ht).
    lia.
Qed.

Lemma loop_cycles_bounded fuel s :
  (cycleCount s < ticks s)%nat -> (cycleCount s <= Nat.pred K)%nat ->
  (cycleCount (fst (loop w endTime cycleMins fuel s)) <= Nat.pred K)%nat.
Proof.
  intros H1 H2.
  apply (loop_inv w endTime cycleMins
           (fun s => (cycleCount s < ticks s)%nat
                     /\ (cycleCount s <= Nat.pred K)%nat));
    [|split; assumption].
  clear H1 H2. intros s1 s' e T (H1 & H2).
  rename s1 into s0.
  destruct (Turn_journal w endTime cycleMins s0 s' e T)
    as (logs & _ & Hlen & Hc & HF & Ht).
  destruct logs as [|cl logs].
  - cbn in Hc. split; lia.
  - inversion HF as [|? ? (_ & Hnow & Hlt) _]; subst.
    rewrite Hnow in Hlt. apply early_reading in Hlt.
    cbn in Hlen, Hc. split; lia.
Qed.

End Stops.

(** X3. A run of [standardForward] ends.  If the clock never runs
    backwards and its [K]-th reading has reached the deadline, the loop is
    left within [K] turns, through one of its three exits, and it has begun
    fewer than [K] cycles (none when [K] is 0). *)
Theorem standardForward_stops
    (w : World) (durationHours cycleMins : Q) (configs : list Config)
    (K fuel : nat) :
  monotone_clock w ->
  (endTime_of w durationHours <= inject_Z (clock w K))%Q ->
  (K <= fuel)%nat -> (1 <= fuel)%nat ->
  let r := standardForward w durationHours cycleMins configs fuel in
  snd r <> None /\ (cycleCount (fst r) <= Nat.pred K)%nat.
Proof.
  intros Hmono Hend Hfuel Hpos. cbv zeta. rewrite standardForward_eq. split.
  - destruct fuel as [|f]; [lia|].
    apply (loop_stops w (endTime_of w durationHours) cycleMins K Hmono Hend).
    cbn. lia.
  - apply (loop_cycles_bounded w (endTime_of w durationHours) cycleMins K Hmono Hend);
      cbn; lia.
Qed.

Lemma standardForward_stops_witness :
  let r := standardForward DemoWorld.online (1 # 20) 1
             (DemoWorld.two_lanes 1) 3 in
  snd r <> None /\ (cycleCount (fst r) <= Nat.pred 3)%nat.
Proof.
  apply (standardForward_stops DemoWorld.online (1 # 20) 1
           (DemoWorld.two_lanes 1) 3 3).
  - intros i j Hij. change (clock DemoWorld.online) with DemoWorld.minute_clock.
    unfold DemoWorld.minute_clock. lia.
  - vm_compute. discriminate.
  - lia.
  - lia.
Defined.

(* ================================================================== *)
(** * More about the batch path *)

(** ** One message of a batch *)

(** [forwardBatchMessage], case by case on what the client answers. *)
Lemma forwardBatchMessage_run peer g src last o s m :
  forwardBatchMessage peer g src last o s m =
  let d := currentMessageDelay (b_config m) in
  let id := sourceChannelId src in
  let s0 := resolved id s in
  match ent o (ek s) with
  | Some _ => (tt, logged (EvTally false) s0, counted false m)
  | None =>
      let s1 :=
        after_delivery (request_at id (messageId src) peer g o (rk s))
          (topic_draws g) s0 in
      match net o (nk s) with
      | None => (tt, paused last d (logged (EvTally true) s1), counted true m)
      | Some message =>
          match floodWaitMatch message with
          | Some digits =>
              let wait := (inject_Z (JsString.parseInt digits) * 1000)%Q in
              let s2 := logged (EvSetDelay (d * 2)) (logged (EvSleep wait) s1) in
              let s3 :=
                after_delivery (request_at id (messageId src) peer g o (rk s2))
                  (topic_draws g) s2 in
              let ok := accepted (net o (nk s2)) in
              (tt, paused last (d * 2) (logged (EvTally ok) s3),
               counted ok
                 {| b_config := set_currentMessageDelay (d * 2) (b_config m);
                    b_totalSuccessCount := b_totalSuccessCount m;
                    b_totalFailCount := b_totalFailCount m |})
          | None =>
              (tt, paused last d (logged (EvTally false) s1), counted false m)
          end
      end
  end.
Proof.
  unfold forwardBatchMessage. unfold bind at 1. unfold getEntity at 1.
  destruct (ent o (ek s)) as [err|] eqn:E; [reflexivity|].
  unfold bind at 1. rewrite deliver_spec. cbn [nk rk].
  destruct (net o (nk s)) as [message|] eqn:E1.
  - destruct (floodWaitMatch message) as [digits|] eqn:E2.
    + unfold bind at 1. unfold bind at 1. unfold bind at 1. unfold sleep at 1, emit at 1.
      unfold bind at 1. unfold get_currentMessageDelay at 1, bind at 1, getMem at 1, ret at 1.
      unfold bind at 1. unfold assign_currentMessageDelay at 1.
      unfold bind at 1, getMem at 1. unfold bind at 1, putMem at 1, emit at 1.
      unfold bind at 1. rewrite deliver_spec.
      cbv zeta. cbn [nk after_delivery logged resolved rk trace ek].
      destruct (net o (S (nk s))) as [retryMessage|]; destruct last; reflexivity.
    + destruct last; reflexivity.
  - destruct last; reflexivity.
Qed.

Lemma tallies_app ok t1 t2 :
  tallies ok (t1 ++ t2) = (tallies ok t1 + tallies ok t2)%nat.
Proof.
  induction t1 as [|[] t1 IH]; simpl; try exact IH; [reflexivity|].
  rewrite IH. lia.
Qed.

Lemma batch_lane_kept_refl c : batch_lane_kept c c.
Proof. destruct c; reflexivity. Qed.

Lemma batch_lane_kept_trans a b c :
  batch_lane_kept a b -> batch_lane_kept b c -> batch_lane_kept a c.
Proof.
  unfold batch_lane_kept. intros H1 H2.
  destruct a, b, c. unfold set_currentMessageDelay in *. cbn in *.
  injection H1; injection H2; intros; subst; reflexivity.
Qed.

Lemma batch_lane_kept_set d c : batch_lane_kept c (set_currentMessageDelay d c).
Proof. destruct c; reflexivity. Qed.

Section Performs.

Context {Mem : Type}.
Variable o : Oracle.

Lemma performs_ret {A} (P : Mem -> list Event -> Mem -> Prop) (a : A) :
  (forall m, P m [] m) -> performs o P (ret a).
Proof. intros H s m. exists []. cbn. rewrite app_nil_r. auto. Qed.

Lemma performs_bind {A C} (P1 P2 P3 : Mem -> list Event -> Mem -> Prop)
    (c : M Mem A) (k : A -> M Mem C) :
  performs o P1 c -> (forall a, performs o P2 (k a)) ->
  (forall m t1 m1 t2 m2, P1 m t1 m1 -> P2 m1 t2 m2 -> P3 m (t1 ++ t2) m2) ->
  performs o P3 (bind c k).
Proof.
  intros H1 H2 H3 s m. unfold bind.
  destruct (H1 s m) as (t1 & E1 & P1t).
  destruct (c o s m) as [[a s1] m1]. cbn [fst snd] in *.
  destruct (H2 a s1 m1) as (t2 & E2 & P2t).
  exists (t1 ++ t2). rewrite E2, E1, app_assoc.
  split; [reflexivity | eapply H3; eassumption].
Qed.

Lemma performs_weaken {A} (P P' : Mem -> list Event -> Mem -> Prop)
    (c : M Mem A) :
  (forall m t m', P m t m' -> P' m t m') -> performs o P c -> performs o P' c.
Proof.
  intros H Hc s m. destruct (Hc s m) as (t & E & Pt). exists t. auto.
Qed.

End Performs.

Section BatchPass.

Variable o : Oracle.
Variable rel : nat -> nat -> Prop.
Hypothesis rel_refl : forall a, rel a a.
Hypothesis rel_add : forall a b c d, rel a b -> rel c d -> rel (a + c) (b + d).
Hypothesis rel_skip : forall k e, ent o k = Some e -> rel 0 1.

Lemma batch_pass_nil m : batch_pass rel 0 0 m [] m.
Proof.
  constructor; cbn; try lia; try reflexivity; try exact I.
  - apply batch_lane_kept_refl.
  - apply rel_refl.
Qed.

Lemma batch_pass_app k1 k2 p1 p2 m m1 m2 t1 t2 :
  batch_pass rel k1 p1 m t1 m1 -> batch_pass rel k2 p2 m1 t2 m2 ->
  batch_pass rel (k1 + k2) (p1 + p2) m (t1 ++ t2) m2.
Proof.
  intros H1 H2. constructor.
  - rewrite !tallies_app. pose proof (bp_count H1). pose proof (bp_count H2). lia.
  - rewrite tallies_app, (bp_success H2), (bp_success H1). lia.
  - rewrite tallies_app, (bp_fail H2), (bp_fail H1). lia.
  - rewrite delays_app. apply doubling_from_app; [apply (bp_chain H1)|].
    rewrite <- (bp_delay H1). apply (bp_chain H2).
  - rewrite delays_app, last_app_last, <- (bp_delay H1). apply (bp_delay H2).
  - eapply batch_lane_kept_trans; [apply (bp_frame H1) | apply (bp_frame H2)].
  - rewrite sleeps_app, delays_app, !length_app.
    replace (p1 + p2 + (List.length (delays t1) + List.length (delays t2)))%nat
      with ((p1 + List.length (delays t1)) + (p2 + List.length (delays t2)))%nat
      by lia.
    apply rel_add; [apply (bp_sleeps H1) | apply (bp_sleeps H2)].
Qed.

Lemma batch_pass_eq k k' p p' m t m' :
  k = k' -> p = p' -> batch_pass rel k p m t m' -> batch_pass rel k' p' m t m'.
Proof. intros -> ->. auto. Qed.

Lemma batch_pass_sleep ms m : batch_pass rel 0 1 m [EvSleep ms] m.
Proof.
  constructor; cbn; try lia; try reflexivity; try exact I.
  - apply batch_lane_kept_refl.
  - apply rel_refl.
Qed.

(** One message: counted once, with at most one pause after it. *)
Lemma forwardBatchMessage_pass g src last :
  performs o (batch_pass rel 1 (pauses last))
    (forwardBatchMessage (inputPeerOf g) g src last).
Proof.
  intros s m. rewrite forwardBatchMessage_run. cbv zeta.
  destruct (ent o (ek s)) as [err|] eqn:E.
  - cbn [fst snd trace logged resolved].
    eexists. split; [rewrite <- app_assoc; reflexivity|].
    constructor; cbn; try lia; try reflexivity; try exact I.
    + apply batch_lane_kept_refl.
    + destruct last; cbn; [apply rel_refl | eapply rel_skip; exact E].
  - destruct (net o (nk s)) as [message|];
      [destruct (floodWaitMatch message) as [digits|]|].
    + destruct (accepted _); destruct last;
        cbn [fst snd trace logged resolved after_delivery paused];
        (eexists; split; [rewrite <- !app_assoc; reflexivity|]);
        constructor; cbn; try lia; try reflexivity; try tauto;
        try apply batch_lane_kept_set; try apply rel_refl.
    + destruct last;
        cbn [fst snd trace logged resolved after_delivery paused];
        (eexists; split; [rewrite <- !app_assoc; reflexivity|]);
        constructor; cbn; try lia; try reflexivity; try tauto;
        try apply batch_lane_kept_refl; try apply rel_refl.
    + destruct last;
        cbn [fst snd trace logged resolved after_delivery paused];
        (eexists; split; [rewrite <- !app_assoc; reflexivity|]);
        constructor; cbn; try lia; try reflexivity; try tauto;
        try apply batch_lane_kept_refl; try apply rel_refl.
Qed.

(** A loop whose body deals with [w] messages and makes [q] pauses of its
    own, and one more unless it is at the last element. *)
Lemma forOfLast_pass {A} (body : A -> bool -> B unit) (w q : nat) xs :
  (forall x last, performs o (batch_pass rel w (q + pauses last)) (body x last)) ->
  performs o
    (batch_pass rel (List.length xs * w)
       (List.length xs * q + Nat.pred (List.length xs)))
    (forOfLast xs body).
Proof.
  intros Hbody. induction xs as [|x xs IH].
  - apply performs_ret. intros m. apply batch_pass_nil.
  - destruct xs as [|y xs].
    + eapply performs_weaken; [|apply (Hbody x true)].
      intros m t m'. apply batch_pass_eq; cbn; lia.
    + change (forOfLast (x :: y :: xs) body)
        with (bind (body x false) (fun _ => forOfLast (y :: xs) body)).
      eapply performs_bind; [apply (Hbody x false) | intros _; exact IH|].
      intros m t1 m1 t2 m2 H1 H2.
      eapply batch_pass_eq; [| |eapply batch_pass_app; [exact H1 | exact H2]];
        cbn; lia.
Qed.

Lemma forwardBatchToGroup_pass currentBatch g last :
  performs o
    (batch_pass rel (List.length currentBatch)
       (Nat.pred (List.length currentBatch) + pauses last))
    (forwardBatchToGroup currentBatch g last).
Proof.
  unfold forwardBatchToGroup.
  eapply performs_bind.
  - apply (forOfLast_pass (forwardBatchMessage (inputPeerOf g) g) 1 0).
    intros x last'. apply forwardBatchMessage_pass.
  - intros _. instantiate (1 := batch_pass rel 0 (pauses last)).
    destruct last.
    + apply performs_ret. intros m. apply batch_pass_nil.
    + intros s m. eexists [_]. split; [reflexivity|]. apply batch_pass_sleep.
  - intros m t1 m1 t2 m2 H1 H2.
    eapply batch_pass_eq; [| |eapply batch_pass_app; [exact H1 | exact H2]]; lia.
Qed.

Lemma batchLane_pass n s m :
  exists t,
    trace (snd (fst (batchLane n o s m))) = trace s ++ t
    /\ batch_pass rel (batch_load n (b_config m)) (batch_slots n (b_config m))
         m t (snd (batchLane n o s m)).
Proof.
  unfold batchLane, bind, getMem, batch_load, batch_slots, batch_of_cycle.
  destruct (js_index _ _) as [currentBatch|].
  - apply (forOfLast_pass (forwardBatchToGroup currentBatch)
             (List.length currentBatch) (Nat.pred (List.length currentBatch))).
    intros g last. apply forwardBatchToGroup_pass.
  - exists []. cbn. rewrite app_nil_r. split; [reflexivity | apply batch_pass_nil].
Qed.

End BatchPass.

(** ** The accounts of a batch cycle *)

Lemma started_lanes l evs : In l (started evs) -> In l (lanes_of evs).
Proof.
  unfold started, lanes_of. induction evs as [|e evs IH]; [auto|].
  destruct e; cbn; intros H; auto. destruct H as [<-|H]; auto.
Qed.

Lemma is_started_absent l evs : ~ In l (lanes_of evs) -> is_started l evs = false.
Proof.
  intros H. unfold is_started.
  destruct (existsb (Nat.eqb l) (started evs)) eqn:E; [|reflexivity].
  apply existsb_exists in E. destruct E as (x & Hx & Heq).
  apply Nat.eqb_eq in Heq. subst x. apply started_lanes in Hx. contradiction.
Qed.

Lemma tallied_lane ok l t : tallied ok (map (CeLane l) t) = tallies ok t.
Proof.
  unfold tallied. induction t as [|e t IH]; [reflexivity|].
  destruct e; cbn; try exact IH.
  destruct (Bool.eqb ok0 ok); cbn; rewrite IH; reflexivity.
Qed.

Lemma tallied_app ok a b : tallied ok (a ++ b) = (tallied ok a + tallied ok b)%nat.
Proof. unfold tallied. rewrite pick_app, length_app. reflexivity. Qed.

Lemma lane_events_lane l l0 t :
  lane_events l (map (CeLane l0) t) = if (l0 =? l)%nat then t else [].
Proof.
  unfold lane_events. induction t as [|e t IH]; simpl.
  - destruct (l0 =? l)%nat; reflexivity.
  - destruct (l0 =? l)%nat; [rewrite IH|]; auto.
Qed.

Lemma started_lane l t : started (map (CeLane l) t) = [].
Proof. unfold started. apply pick_map_none. reflexivity. Qed.

(** What the accounts loop of a batch cycle does to the totals and to the
    config of each lane. *)
Lemma batchAccounts_pass w n l0 configs totals :
  let r := batchAccounts w n l0 configs totals in
  fst (snd (fst r)) = (fst totals + Z.of_nat (tallied true (snd r)))%Z
  /\ snd (snd (fst r)) = (snd totals + Z.of_nat (tallied false (snd r)))%Z
  /\ List.length (fst (fst r)) = List.length configs
  /\ forall l c, (l0 <= l)%nat -> nth_error configs (l - l0) = Some c ->
       exists c',
         nth_error (fst (fst r)) (l - l0) = Some c'
         /\ batch_lane_turn n c c' (lane_events l (snd r)) (is_started l (snd r)).
Proof.
  cbv zeta. revert l0 totals.
  induction configs as [|config rest IH]; intros l0 totals.
  - cbn. repeat split; try lia. intros l c _ H. destruct (l - l0)%nat; discriminate.
  - rewrite batchAccounts_unfold.
    pose proof (batchAccounts_facts w n (S l0) rest) as Hfacts.
    destruct (connectClient w n l0) as [err|].
    + cbv zeta. cbn [fst snd].
      destruct (IH (S l0) totals) as (F1 & F2 & F3 & F4).
      destruct (Hfacts totals) as (_ & Hl & _).
      split; [exact F1|]. split; [exact F2|]. split; [cbn; congruence|].
      intros l c Hl0 Hc.
      destruct (Nat.eq_dec l l0) as [->|Hne].
      * rewrite Nat.sub_diag in *. injection Hc as <-.
        exists config. split; [reflexivity|].
        assert (Habs : ~ In l0 (lanes_of (snd (batchAccounts w n (S l0) rest totals)))).
        { intros Hin. rewrite Forall_forall in Hl. specialize (Hl _ Hin). lia. }
        unfold is_started, lane_events. cbn [started pick start_view lane_view].
        fold (lane_events l0 (snd (batchAccounts w n (S l0) rest totals))).
        fold (started (snd (batchAccounts w n (S l0) rest totals))).
        fold (is_started l0 (snd (batchAccounts w n (S l0) rest totals))).
        rewrite is_started_absent by exact Habs.
        rewrite lane_events_absent by exact Habs.
        split; reflexivity.
      * replace (l - l0)%nat with (S (l - S l0)) in * by lia.
        destruct (F4 l c ltac:(lia) Hc) as (c' & Hc' & Ht).
        exists c'. split; [exact Hc'|]. exact Ht.
    + cbv zeta. cbn [fst snd].
      set (m0 := {| b_config := config; b_totalSuccessCount := fst totals;
                    b_totalFailCount := snd totals |}).
      destruct (batchLane_pass (lane_oracle w n l0) le Nat.le_refl
                  ltac:(intros; lia) ltac:(intros; lia) n sys0 m0)
        as (t & Et & Hp).
      cbn [trace sys0 app] in Et.
      set (lane := batchLane n (lane_oracle w n l0) sys0 m0) in *.
      destruct (IH (S l0) (b_totalSuccessCount (snd lane),
                           b_totalFailCount (snd lane))) as (F1 & F2 & F3 & F4).
      destruct (Hfacts (b_totalSuccessCount (snd lane),
                        b_totalFailCount (snd lane))) as (_ & Hl & _).
      set (r := batchAccounts w n (S l0) rest _) in *.
      cbn [fst snd] in F1, F2.
      assert (Habs : ~ In l0 (lanes_of (snd r))).
      { intros Hin. rewrite Forall_forall in Hl. specialize (Hl _ Hin). lia. }
      assert (Etal : forall ok,
                 tallied ok (CeConnect l0 :: CeStart l0
                               :: map (CeLane l0) (trace (snd (fst lane)))
                               ++ CeDisconnect l0 :: snd r)
                 = (tallies ok t + tallied ok (snd r))%nat).
      { intros ok. change (tallied ok (?a :: ?b :: ?c)) with (tallied ok c).
        rewrite tallied_app, tallied_lane, Et. reflexivity. }
      split; [rewrite F1, Etal, (bp_success Hp); cbn; lia|].
      split; [rewrite F2, Etal, (bp_fail Hp); cbn; lia|].
      split; [cbn; congruence|].
      intros l c Hl0 Hc.
      assert (Ev : lane_events l (CeConnect l0 :: CeStart l0
                                    :: map (CeLane l0) (trace (snd (fst lane)))
                                    ++ CeDisconnect l0 :: snd r)
                   = (if (l0 =? l)%nat then t else [])
                     ++ lane_events l (snd r)).
      { change (lane_events l (?a :: ?b :: ?c)) with (lane_events l c).
        rewrite lane_events_app, lane_events_lane, Et. reflexivity. }
      assert (Es : is_started l (CeConnect l0 :: CeStart l0
                                   :: map (CeLane l0) (trace (snd (fst lane)))
                                   ++ CeDisconnect l0 :: snd r)
                   = (l =? l0)%nat || is_started l (snd r)).
      { unfold is_started.
        change (started (?a :: ?b :: ?c)) with (l0 :: started c).
        unfold started at 1. rewrite pick_app. fold (started (map (CeLane l0) (trace (snd (fst lane))))).
        rewrite started_lane. reflexivity. }
      rewrite Ev, Es.
      destruct (Nat.eq_dec l l0) as [->|Hne].
      * rewrite Nat.sub_diag in *. injection Hc as <-.
        rewrite Nat.eqb_refl. cbn [orb nth_error].
        rewrite lane_events_absent by exact Habs. rewrite app_nil_r.
        exists (b_config (snd lane)). split; [reflexivity|].
        exists m0, (snd lane). split; [reflexivity|]. split; [reflexivity|].
        exact Hp.
      * replace (l - l0)%nat with (S (l - S l0)) in * by lia.
        destruct (F4 l c ltac:(lia) Hc) as (c' & Hc' & Ht).
        exists c'. split; [exact Hc'|].
        destruct (Nat.eqb_spec l0 l) as [E|_]; [congruence|].
        destruct (Nat.eqb_spec l l0) as [E|_]; [congruence|].
        exact Ht.
Qed.

(** ** The batch loop *)

(** What one turn of the loop of [batchForward] does. *)
Lemma batchCycle_step w endTime cycleMins s :
  let r := batchCycle w endTime cycleMins s in
  let s' := fst r in
  snd r <> Some NoClients
  /\ (snd r = None -> js_lt (inject_Z (clock w (bs_ticks s))) endTime = true)
  /\ (bs_ticks s < bs_ticks s')%nat
  /\ List.length (bs_accountConfigs s') = List.length (bs_accountConfigs s)
  /\ exists logs,
       bs_journal s' = bs_journal s ++ logs
       /\ (List.length logs <= 1)%nat
       /\ bs_cycleCount s' = (bs_cycleCount s + List.length logs)%nat
       /\ Forall (fun cl => cl_cycle cl = S (bs_cycleCount s)
                            /\ cl_now cl = clock w (bs_ticks s)
                            /\ js_lt (inject_Z (cl_now cl)) endTime = true) logs
       /\ bs_totalSuccessCount s'
          = (bs_totalSuccessCount s
             + Z.of_nat (tallied true (run_events logs)))%Z
       /\ bs_totalFailCount s'
          = (bs_totalFailCount s
             + Z.of_nat (tallied false (run_events logs)))%Z
       /\ forall l c, nth_error (bs_accountConfigs s) l = Some c ->
            exists c',
              nth_error (bs_accountConfigs s') l = Some c'
              /\ (logs = [] -> c' = c)
              /\ Forall (fun cl =>
                           batch_lane_turn (cl_cycle cl) c c'
                             (lane_events l (cl_events cl))
                             (is_started l (cl_events cl))) logs.
Proof.
  cbv zeta. unfold batchCycle.
  destruct (js_lt (inject_Z (clock w (bs_ticks s))) endTime) eqn:Hlt.
  - pose proof (batchAccounts_pass w (S (bs_cycleCount s)) 0 (bs_accountConfigs s)
                  (bs_totalSuccessCount s, bs_totalFailCount s)) as F.
    cbv zeta in F.
    destruct (batchAccounts w (S (bs_cycleCount s)) 0 (bs_accountConfigs s) _)
      as [[configs' [totalS totalF]] evs].
    cbn [fst snd] in F. destruct F as (F1 & F2 & F3 & F4).
    assert (F4' : forall l c, nth_error (bs_accountConfigs s) l = Some c ->
                    exists c', nth_error configs' l = Some c'
                      /\ batch_lane_turn (S (bs_cycleCount s)) c c'
                           (lane_events l evs) (is_started l evs)).
    { intros l c Hc. specialize (F4 l c ltac:(lia)).
      rewrite Nat.sub_0_r in F4. apply F4. exact Hc. }
    destruct (js_ge (inject_Z (clock w (S (bs_ticks s)))) endTime); cbn [fst snd].
    + split; [discriminate|]. split; [reflexivity|].
      cbn [bs_ticks bs_accountConfigs bs_journal bs_cycleCount
           bs_totalSuccessCount bs_totalFailCount].
      split; [lia|]. split; [exact F3|].
      eexists [_]. split; [reflexivity|]. cbn [List.length].
      split; [lia|]. split; [lia|].
      split; [constructor; [cbn; tauto | constructor]|].
      rewrite run_events_one. split; [exact F1|]. split; [exact F2|].
      intros l c Hc. destruct (F4' l c Hc) as (c' & Hc' & Ht).
      exists c'. split; [exact Hc'|]. split; [discriminate|].
      constructor; [exact Ht | constructor].
    + split; [discriminate|]. split; [reflexivity|].
      cbn [bs_ticks bs_accountConfigs bs_journal bs_cycleCount
           bs_totalSuccessCount bs_totalFailCount].
      split; [lia|]. split; [exact F3|].
      eexists [_]. split; [reflexivity|]. cbn [List.length].
      split; [lia|]. split; [lia|].
      split; [constructor; [cbn; tauto | constructor]|].
      rewrite run_events_one, !tallied_app.
      change (tallied _ [CeWait _]) with 0%nat. rewrite !Nat.add_0_r.
      split; [exact F1|]. split; [exact F2|].
      intros l c Hc. destruct (F4' l c Hc) as (c' & Hc' & Ht).
      exists c'. split; [exact Hc'|]. split; [discriminate|].
      constructor; [|constructor]. cbn [cl_cycle cl_events].
      rewrite lane_events_app. cbn [lane_events pick lane_view]. rewrite app_nil_r.
      unfold is_started, started. rewrite pick_app. cbn [pick start_view].
      rewrite app_nil_r. exact Ht.
  - cbn [fst snd bs_ticks bs_accountConfigs bs_journal bs_cycleCount
         bs_totalSuccessCount bs_totalFailCount].
    split; [discriminate|]. split; [discriminate|]. split; [lia|].
    split; [reflexivity|].
    exists []. rewrite app_nil_r. cbn.
    split; [reflexivity|]. split; [lia|]. split; [lia|]. split; [constructor|].
    split; [lia|]. split; [lia|].
    intros l c Hc. exists c. split; [exact Hc|]. split; [reflexivity | constructor].
Qed.

(** The loop leaves through an exit that some turn takes. *)
Lemma batchLoop_exit w endTime cycleMins fuel s why :
  snd (batchLoop w endTime cycleMins fuel s) = Some why ->
  exists s1, snd (batchCycle w endTime cycleMins s1) = Some why.
Proof.
  revert s. induction fuel as [|fuel IH]; intros s; [discriminate|].
  simpl. destruct (batchCycle w endTime cycleMins s) as [s' [why'|]] eqn:E.
  - cbn. intros [= <-]. exists s. rewrite E. reflexivity.
  - apply IH.
Qed.

Lemma batchForward_eq w durationHours cycleMins configs fuel :
  batchForward w durationHours cycleMins configs fuel =
  batchLoop w (endTime_of w durationHours) cycleMins fuel
    (batch_start_state configs).
Proof. reflexivity. Qed.

Lemma run_events_single cl : run_events [cl] = cl_events cl.
Proof. unfold run_events. cbn. apply app_nil_r. Qed.

Lemma batch_load_kept n c0 c : batch_lane_kept c0 c -> batch_load n c = batch_load n c0.
Proof. intros ->. reflexivity. Qed.

Lemma batch_slots_kept n c0 c : batch_lane_kept c0 c -> batch_slots n c = batch_slots n c0.
Proof. intros ->. reflexivity. Qed.

Lemma batch_lane_turn_kept n c c' t b :
  batch_lane_turn n c c' t b -> batch_lane_kept c c'.
Proof.
  destruct b; cbn.
  - intros (m & m' & <- & <- & Hp). apply (bp_frame Hp).
  - intros [-> _]. apply batch_lane_kept_refl.
Qed.

(** What a lane's config and the journal look like at any point of a run of
    the batch loop. *)
Lemma batchLoop_lane w endTime cycleMins configs fuel l c0 :
  nth_error configs l = Some c0 ->
  let s := fst (batchLoop w endTime cycleMins fuel (batch_start_state configs)) in
  let t := lane_events l (run_events (bs_journal s)) in
  (exists c,
      nth_error (bs_accountConfigs s) l = Some c
      /\ batch_lane_kept c0 c
      /\ doubling_from (currentMessageDelay c0) (delays t)
      /\ currentMessageDelay c = last (delays t) (currentMessageDelay c0))
  /\ Forall (fun cl =>
               let t := lane_events l (cl_events cl) in
               if is_started l (cl_events cl)
               then (tallies true t + tallies false t
                     = batch_load (cl_cycle cl) c0)%nat
                    /\ (List.length (sleeps t)
                        <= batch_slots (cl_cycle cl) c0 + List.length (delays t))%nat
               else t = [])
       (bs_journal s).
Proof.
  intros H0. cbv zeta.
  apply (batchLoop_inv w endTime cycleMins
           (fun s =>
              (exists c,
                  nth_error (bs_accountConfigs s) l = Some c
                  /\ batch_lane_kept c0 c
                  /\ doubling_from (currentMessageDelay c0)
                       (delays (lane_events l (run_events (bs_journal s))))
                  /\ currentMessageDelay c
                     = last (delays (lane_events l (run_events (bs_journal s))))
                         (currentMessageDelay c0))
              /\ Forall (fun cl =>
                           let t := lane_events l (cl_events cl) in
                           if is_started l (cl_events cl)
                           then (tallies true t + tallies false t
                                 = batch_load (cl_cycle cl) c0)%nat
                                /\ (List.length (sleeps t)
                                    <= batch_slots (cl_cycle cl) c0
                                       + List.length (delays t))%nat
                           else t = [])
                   (bs_journal s))).
  - intros s ((c & Hc & Hk & Hch & Hcur) & HF).
    destruct (batchCycle_step w endTime cycleMins s)
      as (_ & _ & _ & _ & logs & Hj & Hlen & _ & _ & _ & _ & Hlane).
    destruct (Hlane l c Hc) as (c' & Hc' & Hnil & Hturn).
    rewrite Hj, run_events_app, lane_events_app, delays_app.
    destruct logs as [|cl [|cl' logs]]; [| |cbn in Hlen; lia].
    + rewrite (Hnil eq_refl) in Hc'. cbn. rewrite !app_nil_r.
      split; [exists c; tauto | exact HF].
    + inversion Hturn as [|? ? Ht _]; subst.
      rewrite run_events_single.
      pose proof (batch_lane_turn_kept _ _ _ _ _ Ht) as Hk'.
      split.
      * exists c'. split; [exact Hc'|].
        split; [eapply batch_lane_kept_trans; eassumption|].
        destruct (is_started l (cl_events cl)); cbn in Ht.
        -- destruct Ht as (m & m' & Em & Em' & Hp).
           pose proof (bp_chain Hp) as Hch'. pose proof (bp_delay Hp) as Hd'.
           rewrite Em in Hch', Hd'. rewrite Em' in Hd'.
           split; [apply doubling_from_app; [exact Hch|]; rewrite <- Hcur; exact Hch'|].
           rewrite last_app_last, <- Hcur. exact Hd'.
        -- destruct Ht as [-> ->]. cbn. rewrite app_nil_r. tauto.
      * apply Forall_app. split; [exact HF|]. constructor; [|constructor].
        cbv zeta. destruct (is_started l (cl_events cl)); cbn in Ht.
        -- destruct Ht as (m & m' & Em & Em' & Hp).
           rewrite <- (batch_load_kept (cl_cycle cl) c0 c Hk).
           rewrite <- (batch_slots_kept (cl_cycle cl) c0 c Hk).
           split; [apply (bp_count Hp) | apply (bp_sleeps Hp)].
        -- tauto.
  - cbn. split; [|constructor].
    exists c0. split; [exact H0|]. split; [apply batch_lane_kept_refl|]. tauto.
Qed.

(** The totals, the numbering of the cycles and the deadline, at any point
    of a run of the batch loop. *)
Lemma batchLoop_totals w endTime cycleMins configs fuel :
  let s := fst (batchLoop w endTime cycleMins fuel (batch_start_state configs)) in
  bs_totalSuccessCount s = Z.of_nat (tallied true (run_events (bs_journal s)))
  /\ bs_totalFailCount s = Z.of_nat (tallied false (run_events (bs_journal s)))
  /\ map cl_cycle (bs_journal s) = seq 1 (bs_cycleCount s)
  /\ Forall (fun cl => js_lt (inject_Z (cl_now cl)) endTime = true) (bs_journal s)
  /\ (bs_cycleCount s < bs_ticks s)%nat.
Proof.
  cbv zeta.
  apply (batchLoop_inv w endTime cycleMins
           (fun s =>
              bs_totalSuccessCount s
              = Z.of_nat (tallied true (run_events (bs_journal s)))
              /\ bs_totalFailCount s
                 = Z.of_nat (tallied false (run_events (bs_journal s)))
              /\ map cl_cycle (bs_journal s) = seq 1 (bs_cycleCount s)
              /\ Forall (fun cl => js_lt (inject_Z (cl_now cl)) endTime = true)
                   (bs_journal s)
              /\ (bs_cycleCount s < bs_ticks s)%nat)).
  - intros s (Hs & Hf & Hn & Hd & Ht).
    destruct (batchCycle_step w endTime cycleMins s)
      as (_ & _ & Hticks & _ & logs & Hj & Hlen & Hc & HF & Hs' & Hf' & _).
    rewrite Hj, run_events_app, !tallied_app, Hs', Hf', Hc, map_app, seq_app, Hn.
    split; [lia|]. split; [lia|].
    split; [|split].
    + f_equal. destruct logs as [|cl [|cl' logs]]; [reflexivity| |cbn in Hlen; lia].
      inversion HF as [|? ? (Hcl & _) _]; subst. cbn. rewrite Hcl. reflexivity.
    + apply Forall_app. split; [exact Hd|].
      eapply Forall_impl; [|exact HF]. cbv beta. tauto.
    + lia.
  - cbn. repeat split; try lia. constructor.
Qed.

(** X4. In a run of [batchForward] every message is counted once.  The two
    run totals are the numbers of [totalSuccessCount++] and
    [totalFailCount++] steps of the executed cycles.  In every cycle, a lane
    whose account connects counts, as a success or as a failure, each message
    of the batch of the cycle once for each of its destinations; a lane whose
    account does not connect does nothing. *)
Theorem batchForward_counts_every_message
    (w : World) (durationHours cycleMins : Q) (configs : list BatchConfig)
    (fuel : nat) :
  let s := fst (batchForward w durationHours cycleMins configs fuel) in
  bs_totalSuccessCount s = Z.of_nat (tallied true (run_events (bs_journal s)))
  /\ bs_totalFailCount s = Z.of_nat (tallied false (run_events (bs_journal s)))
  /\ Forall (fun cl =>
               forall l c, nth_error configs l = Some c ->
                 let t := lane_events l (cl_events cl) in
                 if is_started l (cl_events cl)
                 then (tallies true t + tallies false t
                       = batch_load (cl_cycle cl) c)%nat
                 else t = [])
       (bs_journal s).
Proof.
  cbv zeta. rewrite batchForward_eq.
  destruct (batchLoop_totals w (endTime_of w durationHours) cycleMins configs fuel)
    as (Hs & Hf & _).
  split; [exact Hs|]. split; [exact Hf|].
  apply Forall_forall. intros cl Hcl l c Hc.
  destruct (batchLoop_lane w (endTime_of w durationHours) cycleMins configs fuel
              l c Hc) as (_ & HF).
  rewrite Forall_forall in HF. specialize (HF cl Hcl). cbv zeta in HF.
  destruct (is_started l (cl_events cl)); tauto.
Qed.

Lemma batch_lane_kept_fields c0 c :
  batch_lane_kept c0 c ->
  currentBatchDelay c = currentBatchDelay c0
  /\ initialBatchDelay c = initialBatchDelay c0
  /\ initialMessageDelay c = initialMessageDelay c0
  /\ messageBatches c = messageBatches c0
  /\ b_writableGroups c = b_writableGroups c0.
Proof. intros ->. cbn. tauto. Qed.

(** X5. Over a run of [batchForward] the only part of a lane's config that
    changes is the message delay: the delay between batches, the two initial
    delays, the batches and the destinations stay as configured.  The values
    assigned to the message delay, over all cycles in order, are each the
    double of the value before, the first being the double of the delay
    entered, and the lane ends with the last value assigned: nothing resets
    it between cycles. *)
Theorem batchForward_only_message_delay_changes
    (w : World) (durationHours cycleMins : Q) (configs : list BatchConfig)
    (fuel : nat) (l : nat) (c0 : BatchConfig) :
  nth_error configs l = Some c0 ->
  let s := fst (batchForward w durationHours cycleMins configs fuel) in
  let t := lane_events l (run_events (bs_journal s)) in
  exists c,
    nth_error (bs_accountConfigs s) l = Some c
    /\ currentBatchDelay c = currentBatchDelay c0
    /\ initialBatchDelay c = initialBatchDelay c0
    /\ initialMessageDelay c = initialMessageDelay c0
    /\ messageBatches c = messageBatches c0
    /\ b_writableGroups c = b_writableGroups c0
    /\ doubling_from (currentMessageDelay c0) (delays t)
    /\ currentMessageDelay c = last (delays t) (currentMessageDelay c0).
Proof.
  intros H0. cbv zeta. rewrite batchForward_eq.
  destruct (batchLoop_lane w (endTime_of w durationHours) cycleMins configs fuel
              l c0 H0) as ((c & Hc & Hk & Hch & Hcur) & _).
  exists c. split; [exact Hc|].
  pose proof (batch_lane_kept_fields c0 c Hk). tauto.
Qed.

Lemma batchForward_only_message_delay_changes_witness :
  let s := fst (batchForward DemoWorld.throttled (1 # 6) 1
                  DemoWorld.two_batch_lanes 2) in
  let t := lane_events 0 (run_events (bs_journal s)) in
  exists c,
    nth_error (bs_accountConfigs s) 0 = Some c
    /\ currentBatchDelay c = currentBatchDelay (DemoWorld.batch_lane_of [Demo.plain 1] 1)
    /\ initialBatchDelay c = initialBatchDelay (DemoWorld.batch_lane_of [Demo.plain 1] 1)
    /\ initialMessageDelay c
       = initialMessageDelay (DemoWorld.batch_lane_of [Demo.plain 1] 1)
    /\ messageBatches c = messageBatches (DemoWorld.batch_lane_of [Demo.plain 1] 1)
    /\ b_writableGroups c
       = b_writableGroups (DemoWorld.batch_lane_of [Demo.plain 1] 1)
    /\ doubling_from (currentMessageDelay (DemoWorld.batch_lane_of [Demo.plain 1] 1))
         (delays t)
    /\ currentMessageDelay c
       = last (delays t)
           (currentMessageDelay (DemoWorld.batch_lane_of [Demo.plain 1] 1)).
Proof.
  apply (batchForward_only_message_delay_changes DemoWorld.throttled (1 # 6) 1
           DemoWorld.two_batch_lanes 2 0 (DemoWorld.batch_lane_of [Demo.plain 1] 1)).
  reflexivity.
Defined.

(** X6. The batch path pauses between messages and between destinations
    only.  In the pass of one account over a batch of [b] messages and [g]
    destinations there are [g * (b - 1) + (g - 1)] places for a pause: none
    after the last message of a batch, none after the last destination.  The
    pass never sleeps more often than once per such place and once per
    rate-limit hit, and it sleeps exactly that often when every source
    channel resolves. *)
Theorem batchLane_pauses_between_only
    (n : nat) (o : Oracle) (m : BatchMem) :
  let t := trace (snd (fst (batchLane n o sys0 m))) in
  (List.length (sleeps t)
   <= batch_slots n (b_config m) + List.length (delays t))%nat
  /\ ((forall k, ent o k = None) ->
      List.length (sleeps t)
      = (batch_slots n (b_config m) + List.length (delays t))%nat).
Proof.
  cbv zeta. split.
  - destruct (batchLane_pass o le Nat.le_refl ltac:(intros; lia) ltac:(intros; lia)
                n sys0 m) as (t & Et & Hp).
    cbn [trace sys0 app] in Et. rewrite Et. apply (bp_sleeps Hp).
  - intros Hent.
    assert (Hskip : forall k e, ent o k = Some e -> 0%nat = 1%nat).
    { intros k e E. rewrite Hent in E. discriminate. }
    destruct (batchLane_pass o eq (@eq_refl nat) ltac:(intros; lia) Hskip
                n sys0 m) as (t & Et & Hp).
    cbn [trace sys0 app] in Et. rewrite Et. apply (bp_sleeps Hp).
Qed.

Lemma batchLane_pauses_between_only_witness :
  let m := {| b_config := DemoWorld.batch_lane_of Demo.three_groups 1;
              b_totalSuccessCount := 0; b_totalFailCount := 0 |} in
  let t := trace (snd (fst (batchLane 1 Demo.quiet sys0 m))) in
  List.length (sleeps t)
  = (batch_slots 1 (b_config m) + List.length (delays t))%nat.
Proof.
  exact (proj2 (batchLane_pauses_between_only 1 Demo.quiet
                  {| b_config := DemoWorld.batch_lane_of Demo.three_groups 1;
                     b_totalSuccessCount := 0; b_totalFailCount := 0 |})
           (fun _ => eq_refl)).
Defined.

(** X7. [batchForward] leaves its loop on the deadline only: a cycle in
    which no account connects does not end the run, as it does in
    [standardForward].  No cycle begins at or after the deadline, and the
    cycles are numbered 1, 2, .. without gaps. *)
Theorem batchForward_leaves_on_deadline_only
    (w : World) (durationHours cycleMins : Q) (configs : list BatchConfig)
    (fuel : nat) :
  let r := batchForward w durationHours cycleMins configs fuel in
  snd r <> Some NoClients
  /\ Forall (fun cl =>
               js_lt (inject_Z (cl_now cl)) (endTime_of w durationHours) = true)
       (bs_journal (fst r))
  /\ map cl_cycle (bs_journal (fst r)) = seq 1 (bs_cycleCount (fst r)).
Proof.
  cbv zeta. rewrite batchForward_eq.
  destruct (batchLoop_totals w (endTime_of w durationHours) cycleMins configs fuel)
    as (_ & _ & Hn & Hd & _).
  split; [|split; assumption].
  intros E. apply batchLoop_exit in E. destruct E as (s1 & E).
  destruct (batchCycle_step w (endTime_of w durationHours) cycleMins s1) as (H & _).
  contradiction.
Qed.

Section BatchStops.

Variable w : World.
Variable endTime : Q.
Variable cycleMins : Q.
Variable K : nat.
Hypothesis clock_monotone : monotone_clock w.
Hypothesis deadline_reached : (endTime <= inject_Z (clock w K))%Q.

Lemma batchLoop_stops f s :
  (K <= bs_ticks s + f)%nat ->
  snd (batchLoop w endTime cycleMins (S f) s) <> None.
Proof.
  revert s. induction f as [|f IH]; intros s Hk.
  - simpl.
    destruct (batchCycle_step w endTime cycleMins s) as (_ & Hgo & _).
    destruct (batchCycle w endTime cycleMins s) as [s' [why|]];
      cbn [fst snd] in *; [discriminate|].
    exfalso. specialize (Hgo eq_refl).
    apply (early_reading w endTime K clock_monotone deadline_reached) in Hgo.
    lia.
  - change (batchLoop w endTime cycleMins (S (S f)) s)
      with (match batchCycle w endTime cycleMins s with
            | (s', Some why) => (s', Some why)
            | (s', None) => batchLoop w endTime cycleMins (S f) s'
            end).
    destruct (batchCycle_step w endTime cycleMins s) as (_ & _ & Ht & _).
    destruct (batchCycle w endTime cycleMins s) as [s' [why|]];
      cbn [fst snd] in *; [discriminate|].
    apply IH. lia.
Qed.

Lemma batchLoop_cycles_bounded fuel s :
  (bs_cycleCount s < bs_ticks s)%nat -> (bs_cycleCount s <= Nat.pred K)%nat ->
  (bs_cycleCount (fst (batchLoop w endTime cycleMins fuel s)) <= Nat.pred K)%nat.
Proof.
  intros H1 H2.
  apply (batchLoop_inv w endTime cycleMins
           (fun s => (bs_cycleCount s < bs_ticks s)%nat
                     /\ (bs_cycleCount s <= Nat.pred K)%nat));
    [|split; assumption].
  clear H1 H2 s. intros s (H1 & H2).
  destruct (batchCycle_step w endTime cycleMins s)
    as (_ & _ & Ht & _ & logs & _ & Hlen & Hc & HF & _).
  destruct logs as [|cl logs].
  - cbn in Hc. split; lia.
  - inversion HF as [|? ? (_ & Hnow & Hlt) _]; subst.
    rewrite Hnow in Hlt.
    apply (early_reading w endTime K clock_monotone deadline_reached) in Hlt.
    cbn in Hlen, Hc. split; lia.
Qed.

End BatchStops.

(** X8. A run of [batchForward] ends.  If the clock never runs backwards
    and its [K]-th reading has reached the deadline, the loop is left within
    [K] turns, on the deadline, having begun fewer than [K] cycles. *)
Theorem batchForward_stops
    (w : World) (durationHours cycleMins : Q) (configs : list BatchConfig)
    (K fuel : nat) :
  monotone_clock w ->
  (endTime_of w durationHours <= inject_Z (clock w K))%Q ->
  (K <= fuel)%nat -> (1 <= fuel)%nat ->
  let r := batchForward w durationHours cycleMins configs fuel in
  (snd r = Some DeadlineAtCycleStart \/ snd r = Some DeadlineAfterDispatch)
  /\ (bs_cycleCount (fst r) <= Nat.pred K)%nat.
Proof.
  intros Hmono Hend Hfuel Hpos. cbv zeta.
  pose proof (batchForward_eq w durationHours cycleMins configs fuel) as E.
  split.
  - assert (Hsome : snd (batchForward w durationHours cycleMins configs fuel) <> None).
    { rewrite E. destruct fuel as [|f]; [lia|].
      apply (batchLoop_stops w (endTime_of w durationHours) cycleMins K Hmono Hend).
      cbn. lia. }
    destruct (snd (batchForward w durationHours cycleMins configs fuel))
      as [[| |]|] eqn:Ex; [left; reflexivity | | right; reflexivity | congruence].
    exfalso. rewrite E in Ex. apply batchLoop_exit in Ex. destruct Ex as (s1 & Ex).
    destruct (batchCycle_step w (endTime_of w durationHours) cycleMins s1) as (H & _).
    contradiction.
  - rewrite E.
    apply (batchLoop_cycles_bounded w (endTime_of w durationHours) cycleMins K
             Hmono Hend); cbn; lia.
Qed.

Lemma batchForward_stops_witness :
  let r := batchForward DemoWorld.online (1 # 20) 1 DemoWorld.two_batch_lanes 3 in
  (snd r = Some DeadlineAtCycleStart \/ snd r = Some DeadlineAfterDispatch)
  /\ (bs_cycleCount (fst r) <= Nat.pred 3)%nat.
Proof.
  apply (batchForward_stops DemoWorld.online (1 # 20) 1
           DemoWorld.two_batch_lanes 3 3).
  - intros i j Hij. change (clock DemoWorld.online) with DemoWorld.minute_clock.
    unfold DemoWorld.minute_clock. lia.
  - vm_compute. discriminate.
  - lia.
  - lia.
Defined.
Local Open Scope string_scope.

(** X9. What [message.match(/FLOOD_WAIT_(\d+)/)] finds, and what
    [Number.parseInt] makes of it.  The pattern matches with the capture
    [digits] exactly when the message contains [FLOOD_WAIT_] followed by the
    digits [digits] and by no further digit, at the leftmost place where a
    [FLOOD_WAIT_] is followed by a digit; it does not match exactly when no
    [FLOOD_WAIT_] of the message is followed by a digit.  The number read
    from a capture is not negative, and it is the number that the digits
    denote when that is at most 2^53; above, it is the nearest double, so
    [FLOOD_WAIT_9007199254740993] is read as 9007199254740992 seconds. *)
Theorem floodWaitMatch_finds_the_wait (message : string) :
  (forall digits,
     floodWaitMatch message = Some digits <-> wait_hint message digits)
  /\ (floodWaitMatch message = None <-> no_wait_hint message)
  /\ (forall digits,
        floodWaitMatch message = Some digits ->
        (0 <= JsString.parseInt digits)%Z
        /\ ((numeral_value digits <= 2 ^ 53)%Z ->
            JsString.parseInt digits = numeral_value digits))
  /\ (forall n : nat, numeral_value (Js.decimal n) = Z.of_nat n)
  /\ floodWaitMatch "FLOOD_WAIT_9007199254740993" = Some "9007199254740993"
  /\ JsString.parseInt "9007199254740993" = 9007199254740992%Z.
Proof.
  split; [intros digits; apply floodWaitMatch_hint|].
  split; [apply floodWaitMatch_no_hint|].
  split; [|split; [apply numeral_value_decimal | split; vm_compute; reflexivity]].
  intros digits E. apply floodWaitMatch_hint in E.
  destruct E as (_ & _ & _ & _ & Hd & _).
  split; [apply parseInt_nonneg; exact Hd | apply parseInt_value; exact Hd].
Qed.

(** ** Account files *)

Lemma match_number_step pre post s :
  Js.match_number pre post s =
  match
    match JsString.drop_prefix pre s with
    | Some tail =>
        match JsString.take_digits tail with
        | "" => None
        | digits =>
            match JsString.drop_prefix post (Js.skip_digits tail) with
            | Some _ => Some digits
            | None => None
            end
        end
    | None => None
    end
  with
  | Some digits => Some digits
  | None =>
      match s with
      | "" => None
      | String _ s' => Js.match_number pre post s'
      end
  end.
Proof. destruct s; reflexivity. Qed.

Lemma drop_prefix_refl p : JsString.drop_prefix p p = Some "".
Proof.
  induction p as [|c p IH]; [reflexivity|]. cbn. rewrite Ascii.eqb_refl. exact IH.
Qed.

Lemma match_number_here pre post digits :
  digits <> "" -> all_digits digits = true -> starts_with_digit post = false ->
  Js.match_number pre post (pre ++ digits ++ post) = Some digits.
Proof.
  intros Hne Hd Hp. rewrite match_number_step, drop_prefix_app.
  destruct (take_digits_app digits post Hd Hp) as [-> ->].
  rewrite drop_prefix_refl.
  destruct digits; [contradiction | reflexivity].
Qed.

Lemma accountNumberMatch_accountFilename n :
  accountNumberMatch (accountFilename (Z.of_nat n)) = Some (Js.decimal n).
Proof.
  unfold accountNumberMatch, accountFilename. rewrite Nat2Z.id.
  apply match_number_here;
    [apply decimal_not_empty | apply decimal_digits | reflexivity].
Qed.

Lemma fold_max_ge xs x : (x <= fold_left Z.max xs x)%Z.
Proof.
  revert x. induction xs as [|y xs IH]; intros x; simpl; [lia|].
  specialize (IH (Z.max x y)). lia.
Qed.

Lemma fold_max_In xs x y : In y xs -> (y <= fold_left Z.max xs x)%Z.
Proof.
  revert x. induction xs as [|z xs IH]; intros x H; [contradiction|].
  simpl. destruct H as [->|H].
  - pose proof (fold_max_ge xs (Z.max x y)). lia.
  - apply IH. exact H.
Qed.

Lemma Math_max_ge xs y : In y xs -> (y <= Math_max xs)%Z.
Proof.
  destruct xs as [|x xs]; [contradiction|]. simpl.
  intros [->|H]; [apply fold_max_ge | apply fold_max_In; exact H].
Qed.

Lemma match_number_digits pre post s digits :
  Js.match_number pre post s = Some digits -> all_digits digits = true.
Proof.
  induction s as [|c s IH]; rewrite match_number_step.
  - destruct (JsString.drop_prefix pre "") as [tail|]; [|discriminate].
    destruct (JsString.take_digits tail) eqn:Et; [discriminate|].
    destruct (JsString.drop_prefix post _); [|discriminate].
    intros [= <-]. rewrite <- Et. apply take_digits_all.
  - destruct (JsString.drop_prefix pre (String c s)) as [tail|]; [|exact IH].
    destruct (JsString.take_digits tail) eqn:Et; [exact IH|].
    destruct (JsString.drop_prefix post _); [|exact IH].
    intros [= <-]. rewrite <- Et. apply take_digits_all.
Qed.

Lemma accountNumbers_nonneg filenames :
  Forall (fun n => 0 <= n)%Z (accountNumbers filenames).
Proof.
  unfold accountNumbers. apply Forall_forall. intros n Hn.
  apply in_map_iff in Hn. destruct Hn as (f & <- & _).
  destruct (accountNumberMatch f) as [digits|] eqn:E; [|lia].
  apply parseInt_nonneg.
  eapply match_number_digits. exact E.
Qed.

(** X14. [addNewAccount] never reuses the file of a saved account, as long
    as the saved account numbers stay below 2^53, where Numbers count
    exactly.  The number it picks is then at least 1 and above the number of
    every saved account; the file name made from it is the name of no saved
    account; and the number can be read back from that name, as the other
    tools do. *)
Theorem nextAccountNumber_is_fresh (filenames : list string) :
  Forall (fun k => k < 2 ^ 53)%Z (accountNumbers filenames) ->
  let n := nextAccountNumber filenames in
  (1 <= n)%Z
  /\ Forall (fun k => k < n)%Z (accountNumbers filenames)
  /\ ~ In (accountFilename n) filenames
  /\ option_map JsString.parseInt (accountNumberMatch (accountFilename n))
     = Some n.
Proof.
  intros Hsmall. cbv zeta.
  pose proof (accountNumbers_nonneg filenames) as Hnn.
  assert (Hnext : filenames <> [] ->
                  nextAccountNumber filenames
                  = (Math_max (accountNumbers filenames) + 1)%Z
                  /\ (0 <= Math_max (accountNumbers filenames) < 2 ^ 53)%Z).
  { intros Hne. destruct filenames as [|f fs]; [contradiction|].
    assert (Hin : In (Math_max (accountNumbers (f :: fs))) (accountNumbers (f :: fs))).
    { unfold Math_max. cbn [accountNumbers map].
      generalize (match accountNumberMatch f with
                  | Some digits => JsString.parseInt digits
                  | None => 0%Z
                  end).
      generalize (map (fun filename =>
                         match accountNumberMatch filename with
                         | Some digits => JsString.parseInt digits
                         | None => 0%Z
                         end) fs).
      intros xs. induction xs as [|y xs IH]; intros x; [left; reflexivity|].
      cbn [fold_left]. destruct (IH (Z.max x y)) as [E|Hin].
      - rewrite <- E.
        destruct (Z.max_spec x y) as [[_ ->]|[_ ->]];
          [right; left | left]; reflexivity.
      - right. right. exact Hin. }
    rewrite Forall_forall in Hsmall, Hnn.
    pose proof (Hsmall _ Hin) as H1. pose proof (Hnn _ Hin) as H2.
    cbv beta in H1, H2.
    split; [|lia]. unfold nextAccountNumber. cbn [List.length Nat.ltb Nat.leb].
    apply to_double_small. lia. }
  assert (Hbound : Forall (fun k => k < nextAccountNumber filenames)%Z
                     (accountNumbers filenames)).
  { apply Forall_forall. intros k Hk.
    destruct filenames as [|f fs]; [contradiction|].
    destruct (Hnext ltac:(discriminate)) as [-> _].
    pose proof (Math_max_ge _ k Hk). lia. }
  assert (Hpos : (1 <= nextAccountNumber filenames <= 2 ^ 53)%Z).
  { destruct filenames as [|f fs]; [cbn; lia|].
    destruct (Hnext ltac:(discriminate)) as [-> ?]. lia. }
  assert (Hread : accountNumberMatch (accountFilename (nextAccountNumber filenames))
                  = Some (Js.decimal (Z.to_nat (nextAccountNumber filenames)))).
  { rewrite <- (Z2Nat.id (nextAccountNumber filenames)) at 1 by lia.
    apply accountNumberMatch_accountFilename. }
  split; [lia|]. split; [exact Hbound|]. split.
  - intros Hin.
    assert (Hk : In (nextAccountNumber filenames) (accountNumbers filenames)).
    { unfold accountNumbers. apply in_map_iff.
      exists (accountFilename (nextAccountNumber filenames)).
      split; [|exact Hin]. rewrite Hread, parseInt_decimal; lia. }
    rewrite Forall_forall in Hbound. specialize (Hbound _ Hk). lia.
  - rewrite Hread. cbn [option_map]. rewrite parseInt_decimal; [f_equal|]; lia.
Qed.

Lemma nextAccountNumber_is_fresh_witness :
  let filenames := ["account1.json"; "notes.txt"; "account7.json"] in
  Forall (fun k => k < 2 ^ 53)%Z (accountNumbers filenames)
  /\ nextAccountNumber filenames = 8%Z
  /\ (1 <= nextAccountNumber filenames)%Z
  /\ Forall (fun k => k < nextAccountNumber filenames)%Z (accountNumbers filenames)
  /\ ~ In (accountFilename (nextAccountNumber filenames)) filenames
  /\ option_map JsString.parseInt
       (accountNumberMatch (accountFilename (nextAccountNumber filenames)))
     = Some (nextAccountNumber filenames).
Proof.
  cbv zeta.
  assert (H : Forall (fun k => k < 2 ^ 53)%Z
                (accountNumbers ["account1.json"; "notes.txt"; "account7.json"]))
    by (unfold accountNumbers; cbn [map];
        repeat (apply Forall_cons; [reflexivity|]); apply Forall_nil).
  split; [exact H|]. split; [vm_compute; reflexivity|].
  exact (nextAccountNumber_is_fresh
           ["account1.json"; "notes.txt"; "account7.json"] H).
Defined.

(** Beyond 2^53 the next number is the number of the last account again. *)
Lemma nextAccountNumber_beyond_doubles :
  accountNumbers ["account9007199254740992.json"] = [9007199254740992%Z]
  /\ nextAccountNumber ["account9007199254740992.json"] = 9007199254740992%Z.
Proof. vm_compute. split; reflexivity. Qed.

(** ** Cache files *)

Lemma drop_prefix_append p q s :
  JsString.drop_prefix (p ++ q) (p ++ s) = JsString.drop_prefix q s.
Proof.
  induction p as [|c p IH]; [reflexivity|]. cbn [append JsString.drop_prefix].
  rewrite Ascii.eqb_refl. exact IH.
Qed.

Lemma digits_then_dash a b rest :
  all_digits a = true -> all_digits b = true ->
  JsString.drop_prefix (a ++ "-") (b ++ "-" ++ rest) <> None -> a = b.
Proof.
  revert b. induction a as [|c a IH]; intros b Ha Hb H.
  - destruct b as [|d b]; [reflexivity|]. exfalso. apply H.
    cbn [all_digits] in Hb. apply andb_true_iff in Hb. destruct Hb as [Hd _].
    cbn [append JsString.drop_prefix].
    destruct (Ascii.eqb_spec "-" d) as [<-|]; [discriminate Hd | reflexivity].
  - cbn [all_digits] in Ha. apply andb_true_iff in Ha. destruct Ha as [Hc Ha].
    destruct b as [|d b].
    + exfalso. apply H. cbn [append JsString.drop_prefix].
      destruct (Ascii.eqb_spec c "-") as [->|]; [discriminate Hc | reflexivity].
    + cbn [all_digits] in Hb. apply andb_true_iff in Hb. destruct Hb as [_ Hb].
      cbn [append JsString.drop_prefix] in H.
      destruct (Ascii.eqb_spec c d) as [<-|]; [|contradiction].
      f_equal. apply (IH b Ha Hb H).
Qed.

(** X15. [deleteAccount] leaves the cache of the other accounts alone.
    The cache files it removes with the account numbered [a] all start with
    [account<a>-]; a cache file of an account with another number, such as
    its private-chats file, is never among them, even when one number is the
    beginning of the other; and the private-chats file of the account itself
    is removed when it is there. *)
Theorem deleteAccount_spares_other_accounts
    (a b rest : string) (cacheFiles : list string) :
  all_digits a = true -> all_digits b = true -> a <> b ->
  ~ In ("account" ++ b ++ "-" ++ rest) (cacheFilesOf a cacheFiles)
  /\ ~ In (chatsDataFile b) (cacheFilesOf a cacheFiles)
  /\ (In (chatsDataFile a) cacheFiles ->
      In (chatsDataFile a) (cacheFilesOf a cacheFiles)).
Proof.
  intros Ha Hb Hab.
  assert (Hno : forall rest',
             ~ In ("account" ++ b ++ "-" ++ rest') (cacheFilesOf a cacheFiles)).
  { intros rest' Hin. unfold cacheFilesOf in Hin. apply filter_In in Hin.
    destruct Hin as [_ Hs]. unfold Js.startsWith in Hs.
    rewrite drop_prefix_append in Hs.
    apply Hab. apply (digits_then_dash a b rest' Ha Hb).
    destruct (JsString.drop_prefix _ _); [discriminate | discriminate Hs]. }
  split; [apply Hno|]. split; [apply (Hno "private-chats.json")|].
  intros Hin. unfold cacheFilesOf. apply filter_In. split; [exact Hin|].
  unfold Js.startsWith, chatsDataFile. rewrite drop_prefix_append.
  change (a ++ "-private-chats.json") with (a ++ "-" ++ "private-chats.json").
  rewrite <- append_assoc, drop_prefix_app. reflexivity.
Qed.

Lemma deleteAccount_spares_other_accounts_witness :
  ~ In ("account" ++ "12" ++ "-" ++ "private-chats.json")
      (cacheFilesOf "1" ["account1-private-chats.json";
                         "account12-private-chats.json"])
  /\ ~ In (chatsDataFile "12")
         (cacheFilesOf "1" ["account1-private-chats.json";
                            "account12-private-chats.json"])
  /\ (In (chatsDataFile "1") ["account1-private-chats.json";
                              "account12-private-chats.json"] ->
      In (chatsDataFile "1")
        (cacheFilesOf "1" ["account1-private-chats.json";
                           "account12-private-chats.json"])).
Proof.
  apply (deleteAccount_spares_other_accounts "1" "12" "private-chats.json"
           ["account1-private-chats.json"; "account12-private-chats.json"]);
    [reflexivity | reflexivity | discriminate].
Defined.

(** ** Links *)

Lemma strip_trailing_slash_app s : Js.strip_trailing_slash (s ++ "/") = s.
Proof.
  induction s as [|c s IH]; [reflexivity|].
  cbn [append Js.strip_trailing_slash]. rewrite IH.
  destruct (s ++ "/") eqn:E; [|reflexivity].
  destruct s; discriminate.
Qed.

Lemma strip_trailing_slash_keep s :
  Js.endsWith "/" s = false -> Js.strip_trailing_slash s = s.
Proof.
  induction s as [|c s IH]; [reflexivity|].
  cbn [Js.endsWith Js.strip_trailing_slash]. intros H.
  destruct (String.eqb (String c s) "/") eqn:E; [discriminate|].
  destruct s as [|d s].
  - destruct (Ascii.eqb_spec c "/") as [->|]; [discriminate E | reflexivity].
  - f_equal. apply IH. exact H.
Qed.

Lemma strip_prefix_app p s : Js.strip_prefix p (p ++ s) = s.
Proof. unfold Js.strip_prefix. rewrite drop_prefix_app. reflexivity. Qed.

Lemma strip_prefix_none p s :
  JsString.drop_prefix p s = None -> Js.strip_prefix p s = s.
Proof. unfold Js.strip_prefix. intros ->. reflexivity. Qed.

Ltac split_chars :=
  repeat match goal with
         | H : context [Ascii.eqb ?a ?b] |- _ =>
             destruct (Ascii.eqb_spec a b); subst;
             cbn [JsString.drop_prefix append] in *
         | |- context [Ascii.eqb ?a ?b] =>
             destruct (Ascii.eqb_spec a b); subst;
             cbn [JsString.drop_prefix append] in *
         end;
  try reflexivity; try discriminate; try congruence.

(** X10. The three ways of writing a link give the same name.  For a name
    that does not itself start with [https://] or [t.me/], is not [t.me] and
    does not end with a slash, the link parser of the tools answers the name
    for the bare name, for [t.me/name] and for [https://t.me/name], each with
    or without a slash at the end. *)
Theorem parsed_link_formats (name : string) :
  JsString.drop_prefix "https://" name = None ->
  JsString.drop_prefix "t.me/" name = None ->
  name <> "t.me" ->
  Js.endsWith "/" name = false ->
  parsed name = name
  /\ parsed ("t.me/" ++ name) = name
  /\ parsed ("https://t.me/" ++ name) = name
  /\ parsed (name ++ "/") = name
  /\ parsed ("t.me/" ++ name ++ "/") = name
  /\ parsed ("https://t.me/" ++ name ++ "/") = name.
Proof.
  intros Hh Ht Hne Hs.
  assert (Hh' : JsString.drop_prefix "https://" (name ++ "/") = None).
  { clear Ht Hne.
    destruct name as [|c1 [|c2 [|c3 [|c4 [|c5 [|c6 [|c7 [|c8 name]]]]]]]];
      cbn [JsString.drop_prefix append] in *; split_chars. }
  assert (Ht' : JsString.drop_prefix "t.me/" (name ++ "/") = None).
  { clear Hh Hh' Hs.
    destruct name as [|c1 [|c2 [|c3 [|c4 [|c5 name]]]]];
      cbn [JsString.drop_prefix append] in *; split_chars. }
  unfold parsed. repeat split.
  - rewrite (strip_prefix_none _ _ Hh), (strip_prefix_none _ _ Ht).
    apply strip_trailing_slash_keep. exact Hs.
  - rewrite (strip_prefix_none "https://" ("t.me/" ++ name)) by reflexivity.
    rewrite strip_prefix_app. apply strip_trailing_slash_keep. exact Hs.
  - change ("https://t.me/" ++ name) with ("https://" ++ "t.me/" ++ name).
    rewrite !strip_prefix_app. apply strip_trailing_slash_keep. exact Hs.
  - rewrite (strip_prefix_none _ _ Hh'), (strip_prefix_none _ _ Ht').
    apply strip_trailing_slash_app.
  - rewrite (strip_prefix_none "https://" ("t.me/" ++ name ++ "/")) by reflexivity.
    rewrite strip_prefix_app. apply strip_trailing_slash_app.
  - change ("https://t.me/" ++ name ++ "/")
      with ("https://" ++ "t.me/" ++ name ++ "/").
    rewrite !strip_prefix_app. apply strip_trailing_slash_app.
Qed.

Lemma parsed_link_formats_witness :
  parsed "groupname" = "groupname"
  /\ parsed ("t.me/" ++ "groupname") = "groupname"
  /\ parsed ("https://t.me/" ++ "groupname") = "groupname"
  /\ parsed ("groupname" ++ "/") = "groupname"
  /\ parsed ("t.me/" ++ "groupname" ++ "/") = "groupname"
  /\ parsed ("https://t.me/" ++ "groupname" ++ "/") = "groupname".
Proof.
  apply (parsed_link_formats "groupname");
    [reflexivity | reflexivity | discriminate | reflexivity].
Defined.

(** ** Message links *)

Lemma linkParts_step messageLink :
  linkParts messageLink =
  match
    match JsString.drop_prefix "t.me/" messageLink with
    | Some tail =>
        match Js.span_not_slash tail with
        | (String c name, String _ rest) =>
            match JsString.take_digits rest with
            | "" => None
            | digits => Some (String c name, digits)
            end
        | _ => None
        end
    | None => None
    end
  with
  | Some parts => Some parts
  | None =>
      match messageLink with
      | "" => None
      | String _ rest => linkParts rest
      end
  end.
Proof. destruct messageLink; reflexivity. Qed.

Lemma linkParts_fail c rest :
  match JsString.drop_prefix "t.me/" (String c rest) with
  | Some tail =>
      match Js.span_not_slash tail with
      | (String c name, String _ rest) =>
          match JsString.take_digits rest with
          | "" => None
          | digits => Some (String c name, digits)
          end
      | _ => None
      end
  | None => None
  end = None ->
  linkParts (String c rest) = linkParts rest.
Proof. intros H. rewrite linkParts_step, H. reflexivity. Qed.

Lemma linkParts_skip c rest :
  JsString.drop_prefix "t.me/" (String c rest) = None ->
  linkParts (String c rest) = linkParts rest.
Proof. intros H. rewrite linkParts_step, H. reflexivity. Qed.

Lemma span_not_slash_app channel rest :
  has_char "/" channel = false ->
  Js.span_not_slash (channel ++ "/" ++ rest) = (channel, "/" ++ rest).
Proof.
  intros H. induction channel as [|c channel IH]; [reflexivity|].
  cbn [has_char] in H. apply orb_false_iff in H. destruct H as [Hc H].
  cbn [append Js.span_not_slash]. rewrite Hc.
  change (channel ++ String "/" rest) with (channel ++ "/" ++ rest).
  rewrite (IH H). reflexivity.
Qed.

Lemma span_not_slash_all channel :
  has_char "/" channel = false -> Js.span_not_slash channel = (channel, "").
Proof.
  intros H. induction channel as [|c channel IH]; [reflexivity|].
  cbn [has_char] in H. apply orb_false_iff in H. destruct H as [Hc H].
  cbn [Js.span_not_slash]. rewrite Hc, (IH H). reflexivity.
Qed.

Lemma drop_prefix_has_char p c s t :
  has_char c p = true -> JsString.drop_prefix p s = Some t -> has_char c s = true.
Proof.
  intros Hp H. apply drop_prefix_spec in H. subst s.
  induction p as [|d p IH]; [discriminate|].
  cbn [has_char append] in *. apply orb_true_iff in Hp.
  destruct Hp as [->|Hp]; [reflexivity|]. rewrite (IH Hp). apply orb_true_r.
Qed.

Lemma linkParts_no_slash s : has_char "/" s = false -> linkParts s = None.
Proof.
  intros H. induction s as [|c s IH]; rewrite linkParts_step.
  - reflexivity.
  - destruct (JsString.drop_prefix "t.me/" (String c s)) as [tail|] eqn:E.
    + apply (drop_prefix_has_char "t.me/" "/") in E; [congruence | reflexivity].
    + apply IH. cbn [has_char] in H. apply orb_false_iff in H. tauto.
Qed.

Lemma linkParts_here channel n post :
  channel <> "" -> has_char "/" channel = false ->
  starts_with_digit post = false ->
  linkParts ("t.me/" ++ channel ++ "/" ++ Js.decimal n ++ post)
  = Some (channel, Js.decimal n).
Proof.
  intros Hne Hc Hp. rewrite linkParts_step, drop_prefix_app.
  rewrite span_not_slash_app by exact Hc.
  destruct channel as [|c channel]; [contradiction|].
  cbn [append].
  destruct (take_digits_app (Js.decimal n) post (decimal_digits n) Hp) as [-> _].
  pose proof (decimal_not_empty n).
  destruct (Js.decimal n); [contradiction | reflexivity].
Qed.

(** X13. The message links that [commentSectionDownload] accepts.  For a
    channel name without a slash and a message number [n], both
    [t.me/channel/n] and [https://t.me/channel/n] are read as that channel
    and that number (a number up to 2^53 is read exactly), whatever follows
    the number; a link without a message number is refused. *)
Theorem linkParts_accepts_both_formats (channel : string) (n : nat) (post : string) :
  channel <> "" ->
  has_char "/" channel = false ->
  starts_with_digit post = false ->
  linkParts ("t.me/" ++ channel ++ "/" ++ Js.decimal n ++ post)
  = Some (channel, Js.decimal n)
  /\ linkParts ("https://t.me/" ++ channel ++ "/" ++ Js.decimal n ++ post)
     = Some (channel, Js.decimal n)
  /\ ((Z.of_nat n <= 2 ^ 53)%Z ->
      JsString.parseInt (Js.decimal n) = Z.of_nat n)
  /\ linkParts ("t.me/" ++ channel) = None
  /\ linkParts ("https://t.me/" ++ channel) = None.
Proof.
  intros Hne Hc Hp.
  pose proof (linkParts_here channel n post Hne Hc Hp) as Hhere.
  assert (Hnone : linkParts ("t.me/" ++ channel) = None).
  { change ("t.me/" ++ channel) with (String "t" (".me/" ++ channel)).
    rewrite linkParts_fail.
    - change (".me/" ++ channel)
        with (String "." (String "m" (String "e" (String "/" channel)))).
      do 4 (rewrite linkParts_skip by reflexivity).
      apply linkParts_no_slash. exact Hc.
    - change (String "t" (".me/" ++ channel)) with ("t.me/" ++ channel).
      rewrite drop_prefix_app, span_not_slash_all by exact Hc.
      destruct channel; reflexivity. }
  split; [exact Hhere|]. split; [|split; [apply parseInt_decimal|split; [exact Hnone|]]].
  - change ("https://t.me/" ++ channel ++ "/" ++ Js.decimal n ++ post)
      with (String "h" (String "t" (String "t" (String "p" (String "s"
             (String ":" (String "/" (String "/"
               ("t.me/" ++ channel ++ "/" ++ Js.decimal n ++ post))))))))).
    do 8 (rewrite linkParts_skip by reflexivity). exact Hhere.
  - change ("https://t.me/" ++ channel)
      with (String "h" (String "t" (String "t" (String "p" (String "s"
             (String ":" (String "/" (String "/" ("t.me/" ++ channel))))))))).
    do 8 (rewrite linkParts_skip by reflexivity). exact Hnone.
Qed.

Lemma linkParts_accepts_both_formats_witness :
  linkParts ("t.me/" ++ "channel" ++ "/" ++ Js.decimal 123 ++ "?single")
  = Some ("channel", Js.decimal 123)
  /\ linkParts ("https://t.me/" ++ "channel" ++ "/" ++ Js.decimal 123 ++ "?single")
     = Some ("channel", Js.decimal 123)
  /\ ((Z.of_nat 123 <= 2 ^ 53)%Z ->
      JsString.parseInt (Js.decimal 123) = Z.of_nat 123)
  /\ linkParts ("t.me/" ++ "channel") = None
  /\ linkParts ("https://t.me/" ++ "channel") = None.
Proof.
  apply (linkParts_accepts_both_formats "channel" 123 "?single");
    [discriminate | reflexivity | reflexivity].
Defined.

(** ** Splitting and trimming *)

Lemma split_not_nil sep s : Js.split sep s <> [].
Proof.
  destruct s as [|c s]; cbn [Js.split]; [discriminate|].
  destruct (Ascii.eqb c sep); [discriminate|].
  destruct (Js.split sep s); discriminate.
Qed.

Lemma split_app sep s t :
  Js.split sep (s ++ String sep t) = (Js.split sep s ++ Js.split sep t)%list.
Proof.
  induction s as [|c s IH].
  - cbn [append Js.split]. rewrite Ascii.eqb_refl. reflexivity.
  - cbn [append Js.split]. rewrite IH.
    destruct (Ascii.eqb c sep); [reflexivity|].
    pose proof (split_not_nil sep s).
    destruct (Js.split sep s); [contradiction | reflexivity].
Qed.

Lemma split_whole sep s : has_char sep s = false -> Js.split sep s = [s].
Proof.
  induction s as [|c s IH]; [reflexivity|].
  cbn [has_char Js.split]. intros H. apply orb_false_iff in H.
  destruct H as [Hc H]. rewrite Hc, (IH H). reflexivity.
Qed.

Lemma split_pieces sep s :
  Forall (fun piece => has_char sep piece = false) (Js.split sep s).
Proof.
  induction s as [|c s IH]; [repeat constructor|].
  cbn [Js.split]. destruct (Ascii.eqb c sep) eqn:E.
  - constructor; [reflexivity | exact IH].
  - destruct (Js.split sep s) as [|piece pieces]; [repeat constructor; cbn; rewrite E; reflexivity|].
    inversion IH as [|? ? Hp Hps]; subst. constructor; [|exact Hps].
    cbn [has_char]. rewrite E, Hp. reflexivity.
Qed.

Lemma trimStart_unfold a s1 :
  Js.trimStart (String a s1) =
  if Js.is_space1 a then Js.trimStart s1
  else
    match s1 with
    | String b s2 =>
        if Js.is_space2 a b then Js.trimStart s2
        else
          match s2 with
          | String c s3 =>
              if Js.is_space3 a b c then Js.trimStart s3 else String a s1
          | EmptyString => String a s1
          end
    | EmptyString => String a s1
    end.
Proof. destruct s1 as [|b [|c s3]]; reflexivity. Qed.

Lemma trimStart_step s :
  Js.trimStart s =
  match Js.strip_space s with
  | Some rest => Js.trimStart rest
  | None => s
  end.
Proof.
  destruct s as [|a s1]; [reflexivity|].
  rewrite trimStart_unfold. cbn [Js.strip_space].
  destruct (Js.is_space1 a); [reflexivity|].
  destruct s1 as [|b s2]; [reflexivity|].
  destruct (Js.is_space2 a b); [reflexivity|].
  destruct s2 as [|c s3]; [reflexivity|].
  destruct (Js.is_space3 a b c); reflexivity.
Qed.

Lemma strip_space_shorter s rest :
  Js.strip_space s = Some rest ->
  exists w, s = w ++ rest /\ w <> "".
Proof.
  destruct s as [|a [|b [|c s3]]]; cbn [Js.strip_space];
    repeat match goal with
           | |- context [if ?b then _ else _] => destruct b
           end; intros [= <-];
    first [ exists (String a ""); split; [reflexivity | discriminate]
          | exists (String a (String b "")); split; [reflexivity | discriminate]
          | exists (String a (String b (String c ""))); split; [reflexivity | discriminate] ].
Qed.

Lemma strip_space_app s rest q :
  Js.strip_space s = Some rest -> Js.strip_space (s ++ q) = Some (rest ++ q).
Proof.
  destruct s as [|a [|b [|c s3]]]; cbn [Js.strip_space append];
    repeat match goal with
           | |- context [if ?b then _ else _] => destruct b
           end; intros [= <-]; reflexivity.
Qed.

Lemma length_append (a b : string) :
  String.length (a ++ b) = (String.length a + String.length b)%nat.
Proof. induction a as [|x a IH]; [reflexivity|]. cbn. rewrite IH. reflexivity. Qed.

Lemma strip_space_length s rest :
  Js.strip_space s = Some rest -> (String.length rest < String.length s)%nat.
Proof.
  intros H. destruct (strip_space_shorter s rest H) as (w & -> & Hw).
  rewrite length_append. destruct w; [contradiction|]. cbn. lia.
Qed.

(** [trimStart] removes a prefix and leaves no white space at the head. *)
Lemma trimStart_spec s :
  (exists pre, s = pre ++ Js.trimStart s)
  /\ Js.strip_space (Js.trimStart s) = None.
Proof.
  remember (String.length s) as n eqn:Hn. revert s Hn.
  induction n as [n IH] using lt_wf_ind. intros s Hn.
  rewrite trimStart_step. destruct (Js.strip_space s) as [rest|] eqn:E.
  - pose proof (strip_space_length s rest E) as Hlt.
    destruct (IH (String.length rest) ltac:(lia) rest eq_refl) as ((pre & Hpre) & Hs).
    split; [|exact Hs].
    destruct (strip_space_shorter s rest E) as (w & -> & _).
    exists (w ++ pre). rewrite append_assoc, <- Hpre. reflexivity.
  - split; [exists ""; reflexivity | exact E].
Qed.

Lemma trimStart_fix s : Js.strip_space s = None -> Js.trimStart s = s.
Proof. intros H. rewrite trimStart_step, H. reflexivity. Qed.

(** White space before [q] is removed with the white space of [q]. *)
Lemma trimStart_app_space p q :
  Js.trimStart p = "" -> Js.trimStart (p ++ q) = Js.trimStart q.
Proof.
  remember (String.length p) as n eqn:Hn. revert p Hn.
  induction n as [n IH] using lt_wf_ind. intros p Hn H.
  rewrite trimStart_step in H.
  destruct (Js.strip_space p) as [rest|] eqn:E.
  - rewrite (trimStart_step (p ++ q)), (strip_space_app p rest q E).
    apply (IH (String.length rest)); [|reflexivity | exact H].
    pose proof (strip_space_length p rest E). lia.
  - subst p. reflexivity.
Qed.

Lemma trimEnd_step a s :
  Js.trimEnd (String a s) =
  match Js.trimStart (String a s) with
  | "" => ""
  | _ => String a (Js.trimEnd s)
  end.
Proof. reflexivity. Qed.

(** [trimEnd] removes a suffix that is white space. *)
Lemma trimEnd_spec s :
  exists post, s = Js.trimEnd s ++ post /\ Js.trimStart post = "".
Proof.
  induction s as [|a s (post & IH & Hpost)]; [exists ""; split; reflexivity|].
  rewrite trimEnd_step. destruct (Js.trimStart (String a s)) as [|x u] eqn:E.
  - exists (String a s). split; [reflexivity | exact E].
  - exists post. split; [|exact Hpost]. cbn [append]. rewrite <- IH. reflexivity.
Qed.

Lemma trimEnd_idem s : Js.trimEnd (Js.trimEnd s) = Js.trimEnd s.
Proof.
  induction s as [|a s IH]; [reflexivity|].
  rewrite (trimEnd_step a s).
  destruct (Js.trimStart (String a s)) as [|x u] eqn:E; [reflexivity|].
  rewrite trimEnd_step, IH.
  destruct (Js.trimStart (String a (Js.trimEnd s))) as [|y v] eqn:E'; [|reflexivity].
  exfalso. destruct (trimEnd_spec s) as (post & Hs & Hpost).
  assert (H : Js.trimStart (String a s) = "").
  { rewrite Hs at 1.
    change (String a (Js.trimEnd s ++ post)) with (String a (Js.trimEnd s) ++ post).
    rewrite (trimStart_app_space _ _ E'). exact Hpost. }
  congruence.
Qed.

Lemma trim_idem s : Js.trim (Js.trim s) = Js.trim s.
Proof.
  unfold Js.trim. destruct (trimStart_spec s) as (_ & Hu).
  set (u := Js.trimStart s) in *.
  assert (Hp : Js.trimStart (Js.trimEnd u) = Js.trimEnd u).
  { apply trimStart_fix.
    destruct (Js.strip_space (Js.trimEnd u)) as [r|] eqn:E; [|reflexivity].
    exfalso. destruct (trimEnd_spec u) as (post & Hs & _).
    pose proof (strip_space_app _ _ post E) as H. rewrite <- Hs in H. congruence. }
  rewrite Hp. apply trimEnd_idem.
Qed.

Lemma has_char_app c a b : has_char c (a ++ b) = has_char c a || has_char c b.
Proof.
  induction a as [|x a IH]; [reflexivity|]. cbn. rewrite IH. apply orb_assoc.
Qed.

Lemma trim_has_char c s : has_char c s = false -> has_char c (Js.trim s) = false.
Proof.
  intros H. unfold Js.trim.
  destruct (trimStart_spec s) as ((pre & Hpre) & _).
  destruct (trimEnd_spec (Js.trimStart s)) as (post & Hpost & _).
  rewrite Hpre, Hpost, !has_char_app in H.
  apply orb_false_iff in H. destruct H as [_ H].
  apply orb_false_iff in H. tauto.
Qed.

Lemma is_space_In w : Js.is_space w = true <-> In w Js.white_space.
Proof.
  unfold Js.is_space. rewrite existsb_exists. split.
  - intros (x & Hx & E). apply String.eqb_eq in E. subst x. exact Hx.
  - intros H. exists w. split; [exact H | apply String.eqb_refl].
Qed.

Lemma strip_space_white_space s rest :
  Js.strip_space s = Some rest <-> exists w, In w Js.white_space /\ s = w ++ rest.
Proof.
  split.
  - destruct s as [|a s1]; [discriminate|]. cbn [Js.strip_space].
    destruct (Js.is_space1 a) eqn:E1.
    { intros [= <-]. exists (String a ""). split; [|reflexivity].
      apply is_space_In. exact E1. }
    destruct s1 as [|b s2]; [discriminate|].
    destruct (Js.is_space2 a b) eqn:E2.
    { intros [= <-]. exists (String a (String b "")). split; [|reflexivity].
      apply is_space_In. exact E2. }
    destruct s2 as [|c s3]; [discriminate|].
    destruct (Js.is_space3 a b c) eqn:E3; [|discriminate].
    intros [= <-]. exists (String a (String b (String c ""))).
    split; [|reflexivity]. apply is_space_In. exact E3.
  - intros (w & Hin & ->). unfold Js.white_space in Hin. cbn [map In] in Hin.
    repeat (destruct Hin as [<-|Hin]; [reflexivity|]). contradiction.
Qed.

Lemma strip_space_digit s : starts_with_digit s = true -> Js.strip_space s = None.
Proof.
  intros H. destruct (Js.strip_space s) as [rest|] eqn:E; [|reflexivity].
  apply strip_space_white_space in E. destruct E as (w & Hin & ->).
  unfold Js.white_space in Hin. cbn [map In] in Hin.
  repeat (destruct Hin as [<-|Hin]; [discriminate H|]). contradiction.
Qed.

Lemma WhiteOnly_app p q : WhiteOnly p -> WhiteOnly q -> WhiteOnly (p ++ q).
Proof.
  induction 1 as [|w s Hw _ IH]; intros Hq; [exact Hq|].
  rewrite append_assoc. constructor; [exact Hw | apply IH; exact Hq].
Qed.

Lemma trimStart_WhiteOnly q : Js.trimStart q = "" -> WhiteOnly q.
Proof.
  remember (String.length q) as n eqn:Hn. revert q Hn.
  induction n as [n IH] using lt_wf_ind. intros q Hn H.
  rewrite trimStart_step in H.
  destruct (Js.strip_space q) as [rest|] eqn:E; [|subst q; constructor].
  pose proof (strip_space_length q rest E) as Hlt.
  apply strip_space_white_space in E. destruct E as (w & Hw & ->).
  constructor; [exact Hw|]. apply (IH (String.length rest)); [lia | reflexivity | exact H].
Qed.

Lemma trimStart_split s :
  exists pre, s = pre ++ Js.trimStart s /\ WhiteOnly pre.
Proof.
  remember (String.length s) as n eqn:Hn. revert s Hn.
  induction n as [n IH] using lt_wf_ind. intros s Hn.
  rewrite trimStart_step. destruct (Js.strip_space s) as [rest|] eqn:E.
  - pose proof (strip_space_length s rest E) as Hlt.
    destruct (IH (String.length rest) ltac:(lia) rest eq_refl) as (pre & Hpre & Hw).
    apply strip_space_white_space in E. destruct E as (w & Hin & ->).
    exists (w ++ pre). split; [rewrite append_assoc, <- Hpre; reflexivity|].
    constructor; assumption.
  - exists "". split; [reflexivity | constructor].
Qed.

Lemma trimEnd_length p q :
  (String.length (Js.trimEnd (p ++ q))
   <= String.length p + String.length (Js.trimEnd q))%nat.
Proof.
  induction p as [|a p IH]; [cbn; lia|].
  change (String a p ++ q) with (String a (p ++ q)). rewrite trimEnd_step.
  destruct (Js.trimStart (String a (p ++ q))); cbn [String.length]; lia.
Qed.

Lemma white_space_trimEnd w : In w Js.white_space -> Js.trimEnd w = "" /\ w <> "".
Proof.
  intros H. unfold Js.white_space in H. cbn [map In] in H.
  repeat (destruct H as [<-|H]; [split; [reflexivity | discriminate]|]).
  contradiction.
Qed.

(** What [trim] does: it removes white space from both ends, and all of
    it. *)
Lemma trim_spec s :
  (exists pre post, s = pre ++ Js.trim s ++ post /\ WhiteOnly pre /\ WhiteOnly post)
  /\ ~ space_at_head (Js.trim s)
  /\ ~ space_at_end (Js.trim s).
Proof.
  split; [|split].
  - destruct (trimStart_split s) as (pre & Hpre & Hw).
    destruct (trimEnd_spec (Js.trimStart s)) as (post & Hpost & Hq).
    exists pre, post. unfold Js.trim. rewrite <- Hpost.
    split; [exact Hpre|]. split; [exact Hw | apply trimStart_WhiteOnly; exact Hq].
  - intros (w & rest & Hw & E).
    assert (H : Js.strip_space (Js.trim s) = Some rest)
      by (apply strip_space_white_space; exists w; split; assumption).
    unfold Js.trim in H. destruct (trimStart_spec s) as (_ & Hu).
    destruct (trimEnd_spec (Js.trimStart s)) as (post & Hs & _).
    pose proof (strip_space_app _ _ post H) as H'. rewrite <- Hs in H'. congruence.
  - intros (w & rest & Hw & E).
    pose proof (trim_idem s) as Hi. unfold Js.trim at 1 in Hi.
    assert (Ht : Js.trimEnd (Js.trim s) = Js.trim s).
    { unfold Js.trim. apply trimEnd_idem. }
    pose proof (trimEnd_length rest w) as Hlen. rewrite <- E, Ht in Hlen.
    destruct (white_space_trimEnd w Hw) as [Hw0 Hne]. rewrite Hw0 in Hlen.
    rewrite E, length_append in Hlen. destruct w; [contradiction|].
    cbn [String.length] in Hlen. lia.
Qed.

(** ** Reading lines *)

Lemma plain_name_spec name :
  plain_name name = true <->
  name <> "" /\ Js.trim name = name /\ has_char "010" name = false.
Proof.
  unfold plain_name. rewrite !andb_true_iff, negb_true_iff, String.eqb_eq.
  destruct name; cbn [String.length Nat.ltb Nat.leb]; intuition congruence.
Qed.

Lemma linesOf_clean content : Forall (fun line => plain_name line = true) (linesOf content).
Proof.
  unfold linesOf. apply Forall_forall. intros line Hin.
  apply filter_In in Hin. destruct Hin as [Hin Hlen].
  apply in_map_iff in Hin. destruct Hin as (piece & <- & Hpiece).
  apply plain_name_spec.
  split; [intros E; rewrite E in Hlen; discriminate|].
  split; [apply trim_idem|].
  apply trim_has_char.
  pose proof (split_pieces "010" content) as F. rewrite Forall_forall in F.
  apply F. exact Hpiece.
Qed.

Lemma linesOf_line name rest :
  plain_name name = true ->
  linesOf (name ++ Js.LF ++ rest) = name :: linesOf rest.
Proof.
  intros H. apply plain_name_spec in H. destruct H as (Hne & Ht & Hc).
  unfold linesOf.
  change (name ++ Js.LF ++ rest) with (name ++ String "010" rest).
  rewrite split_app, (split_whole _ _ Hc). cbn [app map filter]. rewrite Ht.
  destruct name; [contradiction | reflexivity].
Qed.

Lemma linesOf_join lines :
  Forall (fun line => plain_name line = true) lines ->
  linesOf (Js.join Js.LF lines) = lines.
Proof.
  induction lines as [|x lines IH]; intros F; [reflexivity|].
  inversion F as [|? ? Hx Hrest]; subst.
  destruct lines as [|y lines].
  - cbn [Js.join]. apply plain_name_spec in Hx. destruct Hx as (Hne & Ht & Hc).
    unfold linesOf. rewrite (split_whole _ _ Hc). cbn [map filter]. rewrite Ht.
    destruct x; [contradiction | reflexivity].
  - change (Js.join Js.LF (x :: y :: lines))
      with (x ++ Js.LF ++ Js.join Js.LF (y :: lines)).
    rewrite (linesOf_line _ _ Hx), (IH Hrest). reflexivity.
Qed.

(** X11. What [readLinesFromFile] hands to the tools.  When the file is
    there and readable the result is a list of lines none of which is empty,
    starts or ends with a white space character, or contains a line feed:
    blank lines and the white space around a name are dropped, and nothing
    else is, [trim] removing white space from both ends of a string, all of
    it and nothing but it.  White space is what JavaScript counts as such,
    the no-break space, the line separators and the byte order mark
    included.  Writing these lines out one per line and reading them again
    gives the same lines.  A file that is missing or cannot be read gives no
    lines but an error, never an exception.  So a file that starts with a
    byte order mark and holds the lines [ bob], followed by a no-break space
    and a carriage return, an empty line, and [alice] after a line
    separator U+2028, gives [bob] and [alice]. *)
Theorem readLinesFromFile_gives_clean_lines
    (fs : string -> FileAnswer) (filePath : string) :
  match readLinesFromFile fs filePath with
  | Lines lines =>
      (exists content, fs filePath = Content content /\ lines = linesOf content)
      /\ Forall (fun line => plain_name line = true) lines
      /\ Forall (fun line => ~ space_at_head line /\ ~ space_at_end line) lines
      /\ linesOf (Js.join Js.LF lines) = lines
  | NoLines error =>
      (fs filePath = NoFile /\ error = "File not found: " ++ filePath)
      \/ fs filePath = Unreadable error
  end
  /\ (forall s : string,
        (exists pre post,
           s = pre ++ Js.trim s ++ post /\ WhiteOnly pre /\ WhiteOnly post)
        /\ ~ space_at_head (Js.trim s)
        /\ ~ space_at_end (Js.trim s))
  /\ readLinesFromFile
       (one_file "names.txt"
          (Js.utf8 [239; 187; 191]%nat ++ " bob"
           ++ Js.utf8 [194; 160; 13; 10; 10]%nat
           ++ Js.utf8 [226; 128; 168]%nat ++ "alice"))
       "names.txt"
     = Lines ["bob"; "alice"].
Proof.
  split; [|split; [apply trim_spec | vm_compute; reflexivity]].
  unfold readLinesFromFile. destruct (fs filePath) as [|message|content].
  - left. split; reflexivity.
  - right. reflexivity.
  - split; [exists content; split; reflexivity|].
    split; [apply linesOf_clean|].
    split; [|apply linesOf_join, linesOf_clean].
    eapply Forall_impl; [|apply linesOf_clean]. cbv beta. intros line H.
    apply plain_name_spec in H. destruct H as (_ & Ht & _).
    destruct (trim_spec line) as (_ & Hh & He). rewrite Ht in Hh, He.
    split; assumption.
Qed.

(** ** The saved user names *)

Lemma unique_In xs u : In u (Js.unique xs) <-> In u xs.
Proof.
  induction xs as [|x xs IH]; [tauto|]. cbn [Js.unique]. split.
  - intros [->|H]; [left; reflexivity|].
    apply filter_In in H. right. apply IH. tauto.
  - intros [->|H]; [left; reflexivity|].
    destruct (String.eqb_spec x u) as [->|Hne]; [left; reflexivity|].
    right. apply filter_In. split; [apply IH; exact H|].
    apply negb_true_iff. apply String.eqb_neq. exact Hne.
Qed.

Lemma NoDup_filter {A} (f : A -> bool) xs : NoDup xs -> NoDup (filter f xs).
Proof.
  induction 1 as [|x xs Hx Hnd IH]; [constructor|]. cbn [filter].
  destruct (f x); [|exact IH]. constructor; [|exact IH].
  intros Hin. apply filter_In in Hin. tauto.
Qed.

Lemma unique_NoDup xs : NoDup (Js.unique xs).
Proof.
  induction xs as [|x xs IH]; [constructor|]. cbn [Js.unique].
  constructor; [|apply NoDup_filter; exact IH].
  intros Hin. apply filter_In in Hin. destruct Hin as [_ H].
  rewrite String.eqb_refl in H. discriminate.
Qed.

(** X12. The file that [commentSectionDownload] writes is read back by
    [readLinesFromFile] as the user names of the commenters, each once, in
    the order of their first comment, provided the names are plain: not
    empty, no white space character at either end (white space as
    JavaScript counts it), no line feed, as Telegram user names are. *)
Theorem saved_usernames_read_back (comments : list (option Sender)) :
  Forall (fun name => plain_name name = true) (usernamesOf comments) ->
  readLinesFromFile (one_file "usernames.txt" (usernamesText comments))
    "usernames.txt"
  = Lines (Js.unique (usernamesOf comments))
  /\ NoDup (Js.unique (usernamesOf comments))
  /\ forall name,
       In name (Js.unique (usernamesOf comments))
       <-> In name (usernamesOf comments).
Proof.
  intros F. split; [|split; [apply unique_NoDup | intros name; apply unique_In]].
  unfold readLinesFromFile, one_file, usernamesText.
  rewrite String.eqb_refl. f_equal. apply linesOf_join.
  apply Forall_forall. intros name Hin. rewrite Forall_forall in F.
  apply F. apply unique_In. exact Hin.
Qed.

Lemma saved_usernames_read_back_witness :
  let comments :=
    [Some {| sender_username := Some "bob"; sender_firstName := None |};
     None;
     Some {| sender_username := None; sender_firstName := Some "Al" |};
     Some {| sender_username := Some "alice"; sender_firstName := None |};
     Some {| sender_username := Some "bob"; sender_firstName := None |}] in
  readLinesFromFile (one_file "usernames.txt" (usernamesText comments))
    "usernames.txt"
  = Lines (Js.unique (usernamesOf comments))
  /\ NoDup (Js.unique (usernamesOf comments))
  /\ forall name,
       In name (Js.unique (usernamesOf comments))
       <-> In name (usernamesOf comments).
Proof.
  apply (saved_usernames_read_back
           [Some {| sender_username := Some "bob"; sender_firstName := None |};
            None;
            Some {| sender_username := None; sender_firstName := Some "Al" |};
            Some {| sender_username := Some "alice"; sender_firstName := None |};
            Some {| sender_username := Some "bob"; sender_firstName := None |}]).
  repeat constructor.
Defined.

(** ** Selecting accounts by number *)

Lemma digit_facts c :
  JsString.is_digit c = true ->
  Ascii.eqb c "," = false
  /\ Ascii.eqb c "-" = false
  /\ Ascii.eqb c "+" = false
  /\ Ascii.eqb c "x" = false
  /\ Ascii.eqb c "X" = false.
Proof.
  intros H.
  repeat split;
    match goal with
    | |- Ascii.eqb c ?d = false =>
        destruct (Ascii.eqb_spec c d) as [->|]; [discriminate H | reflexivity]
    end.
Qed.

Lemma trimStart_digits s : all_digits s = true -> Js.trimStart s = s.
Proof.
  intros H. destruct s as [|c s]; [reflexivity|].
  apply trimStart_fix, strip_space_digit.
  cbn [all_digits] in H. apply andb_true_iff in H. destruct H as [Hc _]. exact Hc.
Qed.

Lemma digits_no_comma s : all_digits s = true -> has_char "," s = false.
Proof.
  induction s as [|c s IH]; [reflexivity|]. cbn [all_digits has_char].
  intros H. apply andb_true_iff in H. destruct H as [Hc H].
  destruct (digit_facts c Hc) as (-> & _). exact (IH H).
Qed.

Lemma trimEnd_digits s : all_digits s = true -> Js.trimEnd s = s.
Proof.
  induction s as [|c s IH]; [reflexivity|]. intros H.
  rewrite trimEnd_step, (trimStart_digits _ H).
  cbn [all_digits] in H. apply andb_true_iff in H. destruct H as [_ H].
  rewrite (IH H). reflexivity.
Qed.

Lemma trim_digits s : all_digits s = true -> Js.trim s = s.
Proof.
  intros H. unfold Js.trim. rewrite (trimStart_digits s H).
  apply trimEnd_digits. exact H.
Qed.

Lemma take_digits_whole s : all_digits s = true -> JsString.take_digits s = s.
Proof.
  intros H. destruct (take_digits_app s "" H eq_refl) as [Ht _].
  rewrite append_nil_r in Ht. exact Ht.
Qed.

(** On a numeral, [Number.parseInt] is the number. *)
Lemma Number_parseInt_digits s :
  s <> "" -> all_digits s = true ->
  Js.Number_parseInt s = Some (JsString.parse_digits 0 s).
Proof.
  intros Hne H. unfold Js.Number_parseInt.
  rewrite (trimStart_digits s H). destruct s as [|c s]; [contradiction|].
  pose proof H as H'. cbn [all_digits] in H'. apply andb_true_iff in H'.
  destruct H' as [Hc Hrest].
  destruct (digit_facts c Hc) as (_ & -> & -> & _).
  assert (Hdec : Js.parse_decimal (String c s)
                 = Some (JsString.parse_digits 0 (String c s))).
  { unfold Js.parse_decimal. rewrite (take_digits_whole _ H). reflexivity. }
  unfold Js.parse_magnitude. destruct s as [|x s]; [exact Hdec|].
  cbn [all_digits] in Hrest. apply andb_true_iff in Hrest. destruct Hrest as [Hx _].
  destruct (digit_facts x Hx) as (_ & _ & _ & -> & ->).
  rewrite andb_false_r. exact Hdec.
Qed.

Lemma pick_In_inv {A C} (view : A -> option C) xs b :
  In b (pick view xs) -> exists x, In x xs /\ view x = Some b.
Proof.
  induction xs as [|y xs IH]; [contradiction|]. cbn [pick].
  destruct (view y) as [c|] eqn:E.
  - intros [<-|H]; [exists y; split; [left; reflexivity | exact E]|].
    destruct (IH H) as (x & Hx & Hv). exists x. split; [right; exact Hx | exact Hv].
  - intros H. destruct (IH H) as (x & Hx & Hv).
    exists x. split; [right; exact Hx | exact Hv].
Qed.

Lemma pick_length {A C} (view : A -> option C) xs :
  (List.length (pick view xs) <= List.length xs)%nat.
Proof.
  induction xs as [|x xs IH]; [constructor|]. cbn [pick].
  destruct (view x); cbn [List.length]; lia.
Qed.

Lemma filter_length_le {A} (f : A -> bool) xs :
  (List.length (filter f xs) <= List.length xs)%nat.
Proof.
  induction xs as [|x xs IH]; [constructor|]. cbn [filter].
  destruct (f x); cbn [List.length]; lia.
Qed.

Lemma js_index_In {A} (xs : list A) i a : js_index xs i = Some a -> In a xs.
Proof.
  unfold js_index. destruct (List.length xs =? 0)%nat; [discriminate|].
  destruct (i <? 0)%Z; [discriminate|]. apply nth_error_In.
Qed.

(** X16. How the tools pick accounts from the operator's answer.  Every
    account picked is one of the saved accounts, and there are at most as
    many picks as comma-separated entries: an entry that is no number, or a
    number that is out of range, is dropped without an error.  The picks
    follow the order of the entries, the answer [a,b] picking what [a] picks
    and then what [b] picks, so an account that is named twice is picked
    twice.  The number shown in the menu for an account, one more than its
    position, picks that account. *)
Theorem selectedAccounts_follow_the_entries
    (A : Type) (accounts : list A) (input1 input2 : string) (k : nat) :
  Forall (fun a => In a accounts) (selectedAccounts input1 accounts)
  /\ (List.length (selectedAccounts input1 accounts)
      <= List.length (Js.split "," input1))%nat
  /\ selectedAccounts (input1 ++ "," ++ input2) accounts
     = (selectedAccounts input1 accounts ++ selectedAccounts input2 accounts)%list
  /\ selectedAccounts (Js.decimal (S k)) accounts
     = match nth_error accounts k with
       | Some a => [a]
       | None => []
       end.
Proof.
  split; [|split; [|split]].
  - apply Forall_forall. intros a Ha. unfold selectedAccounts in Ha.
    apply pick_In_inv in Ha. destruct Ha as ([i|] & _ & Hv); [|discriminate].
    eapply js_index_In. exact Hv.
  - unfold selectedAccounts, selectedIndices.
    eapply Nat.le_trans; [apply pick_length|].
    eapply Nat.le_trans; [apply filter_length_le|].
    rewrite length_map. constructor.
  - unfold selectedAccounts, selectedIndices.
    change (input1 ++ "," ++ input2) with (input1 ++ String "," input2).
    rewrite split_app, map_app, filter_app, pick_app. reflexivity.
  - unfold selectedAccounts, selectedIndices.
    rewrite (split_whole _ _ (digits_no_comma _ (decimal_digits (S k)))).
    cbn [map]. rewrite (trim_digits _ (decimal_digits (S k))).
    rewrite (Number_parseInt_digits _ (decimal_not_empty (S k)) (decimal_digits (S k))).
    rewrite parse_digits_decimal. cbn [option_map filter index_in_range].
    replace (Z.of_nat (S k) - 1)%Z with (Z.of_nat k) by lia.
    destruct (nth_error accounts k) as [a|] eqn:E.
    + assert (Hlt : (k < List.length accounts)%nat)
        by (apply nth_error_Some; congruence).
      destruct (Z.leb_spec 0 (Z.of_nat k)); [|lia].
      destruct (Z.ltb_spec (Z.of_nat k) (Z.of_nat (List.length accounts))); [|lia].
      cbn [andb pick]. rewrite js_index_nat by (destruct accounts; [cbn in Hlt; lia | discriminate]).
      rewrite E. reflexivity.
    + apply nth_error_None in E.
      destruct (Z.ltb_spec (Z.of_nat k) (Z.of_nat (List.length accounts))); [lia|].
      rewrite andb_false_r. reflexivity.
Qed.

Local Close Scope string_scope.

(* ================================================================== *)
(** * The account tools *)

(* ================================================================== *)
(** * The account tools *)

Lemma tool_calls_app a b : tool_calls (a ++ b) = tool_calls a ++ tool_calls b.
Proof.
  induction a as [|e a IH]; [reflexivity|].
  destruct e; simpl; rewrite ?IH; reflexivity.
Qed.

Lemma tool_sleeps_app a b : tool_sleeps (a ++ b) = tool_sleeps a ++ tool_sleeps b.
Proof.
  induction a as [|e a IH]; [reflexivity|].
  destruct e; simpl; rewrite ?IH; reflexivity.
Qed.

Lemma tool_delays_app a b : tool_delays (a ++ b) = tool_delays a ++ tool_delays b.
Proof.
  induction a as [|e a IH]; [reflexivity|].
  destruct e; simpl; rewrite ?IH; reflexivity.
Qed.

Lemma saved_groups_app a b : saved_groups (a ++ b) = saved_groups a ++ saved_groups b.
Proof.
  induction a as [|e a IH]; [reflexivity|].
  destruct e; simpl; rewrite ?IH; reflexivity.
Qed.

Lemma saved_chats_app a b : saved_chats (a ++ b) = saved_chats a ++ saved_chats b.
Proof.
  induction a as [|e a IH]; [reflexivity|].
  destruct e; simpl; rewrite ?IH; reflexivity.
Qed.

(** ** The permission check *)

Lemma map_topic_id (ts : list Topic) :
  map (fun t => {| topic_id := topic_id t; topic_title := topic_title t;
                   closed := closed t |}) ts = ts.
Proof.
  induction ts as [|[] ts IH]; [reflexivity|]. cbn [map]. rewrite IH. reflexivity.
Qed.

(** One group of the check: two requests, one entry, and a pause unless it
    is the last group. *)
Lemma checkGroup_run checkDelay dialog last cl s mem :
  exists g,
    checkGroup checkDelay dialog last cl s mem
    = (tt,
       {| calls := S (S (calls s));
          log := log s ++ map TeInvoke (check_calls dialog)
                   ++ if last then [] else [TeSleep (checkDelay * 1000)] |},
       mem ++ [g])
    /\ checked_by cl (calls s) dialog g.
Proof.
  unfold checkGroup, canWriteInChat, getTopicsForChat, tbind, tinvoke, tret,
    tget, tput, tsleep, tlog.
  cbn [calls log].
  destruct last;
    (eexists; split;
     [cbn [check_calls map app calls log]; rewrite <- ?app_assoc, ?app_nil_r;
      cbn [app]; reflexivity|]);
    rewrite map_topic_id;
    (constructor; cbn [entity hasTopics topics canWrite];
     [ reflexivity
     | destruct (topics_answer cl (S (calls s))) as [m|[ts|]]; cbn;
       try (split; [discriminate | congruence]);
       destruct ts; cbn; split; try discriminate; try congruence; reflexivity
     | intros message ->; destruct (JsString.includes _ _); reflexivity
     | intros ->; reflexivity
     | intros b [-> | ->]; reflexivity
     | intros H; destruct (topics_answer cl (S (calls s))) as [m|[ts|]];
       try reflexivity; exfalso; apply (H ts); reflexivity
     | intros ts ->; reflexivity ]).
Qed.

(** The loop of the check over the supergroups. *)
Lemma checkLoop_run checkDelay groups cl s mem :
  let r := tforLast groups (checkGroup checkDelay) cl s mem in
  exists gs t,
    snd r = mem ++ gs
    /\ calls (snd (fst r)) = (calls s + 2 * List.length groups)%nat
    /\ log (snd (fst r)) = log s ++ t
    /\ tool_calls t = flat_map check_calls groups
    /\ tool_sleeps t
       = repeat (checkDelay * 1000)%Q (Nat.pred (List.length groups))
    /\ saved_groups t = []
    /\ Forall2 (fun dialog g => entity g = peer_entity dialog) groups gs
    /\ forall i dialog g,
         nth_error groups i = Some dialog -> nth_error gs i = Some g ->
         checked_by cl (calls s + 2 * i) dialog g.
Proof.
  cbv zeta. revert s mem. induction groups as [|dialog groups IH]; intros s mem.
  - exists [], []. cbn. rewrite !app_nil_r, Nat.add_0_r.
    do 6 (split; [reflexivity|]). split; [constructor|].
    intros i d g0 Hd. destruct i; discriminate Hd.
  - destruct groups as [|dialog' groups].
    + cbn [tforLast].
      destruct (checkGroup_run checkDelay dialog true cl s mem) as (g & E & Hg).
      rewrite E. cbn [fst snd calls log List.length].
      exists [g], (map TeInvoke (check_calls dialog) ++ []).
      split; [reflexivity|]. split; [lia|]. split; [reflexivity|].
      rewrite app_nil_r. cbn [check_calls map tool_calls tool_sleeps saved_groups
                              flat_map app Nat.pred repeat].
      split; [reflexivity|]. split; [reflexivity|]. split; [reflexivity|].
      split; [constructor; [apply (cb_entity Hg) | constructor]|].
      intros [|[|i]] d g' Hd Hg'; try discriminate; try (destruct i; discriminate).
      cbn in Hd, Hg'. injection Hd as <-. injection Hg' as <-.
      rewrite Nat.add_0_r. exact Hg.
    + change (tforLast (dialog :: dialog' :: groups) (checkGroup checkDelay))
        with (tbind (checkGroup checkDelay dialog false)
                (fun _ => tforLast (dialog' :: groups) (checkGroup checkDelay))).
      unfold tbind.
      destruct (checkGroup_run checkDelay dialog false cl s mem) as (g & E & Hg).
      rewrite E.
      set (s1 := {| calls := S (S (calls s));
                    log := log s ++ map TeInvoke (check_calls dialog)
                             ++ [TeSleep (checkDelay * 1000)] |}).
      destruct (IH s1 (mem ++ [g]))
        as (gs & t & Hm & Hc & Hl & Hcalls & Hsl & Hsv & HF & Hidx).
      exists (g :: gs),
        ((map TeInvoke (check_calls dialog) ++ [TeSleep (checkDelay * 1000)]) ++ t).
      split; [rewrite Hm, <- app_assoc; reflexivity|].
      split; [rewrite Hc; subst s1; cbn [calls List.length]; lia|].
      split; [rewrite Hl; subst s1; cbn [log]; rewrite <- !app_assoc; reflexivity|].
      rewrite tool_calls_app, tool_sleeps_app, saved_groups_app, Hcalls, Hsl, Hsv.
      split; [reflexivity|]. split; [reflexivity|]. split; [reflexivity|].
      split; [constructor; [apply (cb_entity Hg) | exact HF]|].
      intros [|i] d g' Hd Hg'.
      * cbn in Hd, Hg'. injection Hd as <-. injection Hg' as <-.
        rewrite Nat.add_0_r. exact Hg.
      * cbn [nth_error] in Hd, Hg'. specialize (Hidx i d g' Hd Hg').
        subst s1. cbn [calls] in Hidx.
        replace (calls s + 2 * S i)%nat with (S (S (calls s)) + 2 * i)%nat by lia.
        exact Hidx.
Qed.

(** [checkGroups], case by case. *)
Lemma checkGroups_run cl filename dialogs checkDelay :
  checkGroups cl filename dialogs checkDelay =
  match dialogs with
  | inl _ => (None, noted TeDisconnect tool0)
  | inr ds =>
      let publicGroups := filter is_supergroup ds in
      if (List.length publicGroups =? 0)%nat then (None, noted TeDisconnect tool0)
      else
        let r := tforLast publicGroups (checkGroup checkDelay) cl tool0 [] in
        if (List.length (snd r) =? 0)%nat
        then (None, noted TeDisconnect (snd (fst r)))
        else
          match accountNumberMatch filename with
          | None => (None, noted TeDisconnect (snd (fst r)))
          | Some accountNumber =>
              (Some (snd r),
               noted TeDisconnect
                 (noted (TeSaveGroups accountNumber (snd r)) (snd (fst r))))
          end
  end.
Proof.
  unfold checkGroups, checkGroupPermissionsForAccount.
  destruct dialogs as [m|ds]; [reflexivity|]. cbv zeta.
  destruct (List.length (filter is_supergroup ds) =? 0)%nat; [reflexivity|].
  unfold tbind at 1.
  destruct (tforLast (filter is_supergroup ds) (checkGroup checkDelay) cl tool0 [])
    as [[[] s] mem].
  unfold tbind at 1, tget at 1. cbn [fst snd].
  destruct (List.length mem =? 0)%nat; [reflexivity|].
  destruct (accountNumberMatch filename); reflexivity.
Qed.

(** X17. What the permission check returns.  It always ends by
    disconnecting the client.  When it returns group data, the account's file
    name carries a number, the data holds one entry for every supergroup
    among the dialogs and for nothing else, in the order of the dialogs; an
    entry is marked as having topics exactly when it lists some; the check
    made two requests per supergroup and slept for the check delay between
    supergroups only, not after the last; and the data returned is what was
    saved, once, under the number of the account.  When it returns nothing,
    nothing was saved. *)
Theorem checkGroups_lists_the_supergroups
    (cl : Client) (filename : string) (dialogs : string + list Peer)
    (checkDelay : Q) :
  let r := checkGroups cl filename dialogs checkDelay in
  (exists t, log (snd r) = t ++ [TeDisconnect])
  /\ match fst r with
     | Some groups =>
         exists ds accountNumber,
           dialogs = inr ds
           /\ accountNumberMatch filename = Some accountNumber
           /\ groups <> []
           /\ Forall2 (fun dialog g => entity g = peer_entity dialog)
                (filter is_supergroup ds) groups
           /\ Forall (fun g => hasTopics g = true <-> topics g <> []) groups
           /\ tool_calls (log (snd r))
              = flat_map check_calls (filter is_supergroup ds)
           /\ tool_sleeps (log (snd r))
              = repeat (checkDelay * 1000)%Q (Nat.pred (List.length groups))
           /\ saved_groups (log (snd r)) = [(accountNumber, groups)]
     | None => saved_groups (log (snd r)) = []
     end.
Proof.
  cbv zeta. rewrite checkGroups_run.
  destruct dialogs as [m|ds].
  { cbn. split; [exists []; reflexivity | reflexivity]. }
  cbv zeta.
  destruct (List.length (filter is_supergroup ds) =? 0)%nat eqn:En.
  { cbn. split; [exists []; reflexivity | reflexivity]. }
  destruct (checkLoop_run checkDelay (filter is_supergroup ds) cl tool0 [])
    as (gs & t & Hm & Hc & Hl & Hcalls & Hsl & Hsv & HF & Hidx).
  cbn [app log tool0] in Hm, Hl.
  set (r := tforLast (filter is_supergroup ds) (checkGroup checkDelay) cl tool0 [])
    in *.
  rewrite Hm.
  destruct (List.length gs =? 0)%nat eqn:Eg.
  { cbn [fst snd noted log]. rewrite Hl.
    split; [exists t; reflexivity|].
    rewrite saved_groups_app, Hsv. reflexivity. }
  destruct (accountNumberMatch filename) as [accountNumber|] eqn:Ea.
  - cbn [fst snd noted log]. rewrite Hl. split; [eexists; reflexivity|].
    exists ds, accountNumber.
    split; [reflexivity|]. split; [reflexivity|].
    split; [intros ->; discriminate Eg|].
    split; [exact HF|].
    split.
    { apply Forall_forall. intros g Hg. apply In_nth_error in Hg.
      destruct Hg as (i & Hi).
      destruct (nth_error (filter is_supergroup ds) i) as [d|] eqn:Ed.
      - apply (cb_hasTopics (Hidx i d g Ed Hi)).
      - apply nth_error_None in Ed. apply Forall2_length in HF.
        assert (i < List.length gs)%nat by (apply nth_error_Some; congruence).
        lia. }
    rewrite !tool_calls_app, !tool_sleeps_app, !saved_groups_app, Hcalls, Hsl, Hsv.
    cbn [tool_calls tool_sleeps saved_groups app]. rewrite !app_nil_r.
    apply Forall2_length in HF. rewrite HF.
    split; [reflexivity|]. split; reflexivity.
  - cbn [fst snd noted log]. rewrite Hl.
    split; [exists t; reflexivity|].
    rewrite saved_groups_app, Hsv. reflexivity.
Qed.

Lemma configure_writable accounts l c g :
  nth_error (configure accounts) l = Some c ->
  In g (writableGroups c) -> canWrite g = true.
Proof.
  intros Hc Hin. destruct (configure_lookup accounts l c Hc) as (a & _ & _ & _ & Hg).
  rewrite Hg in Hin. apply filter_In in Hin. tauto.
Qed.

(** X18. A query that fails during the permission check errs on the safe
    side.  If the request for the account's own participant entry fails for
    a supergroup, for whatever reason, the group is recorded as not writable,
    and no lane that the configuration step builds has it among its
    destinations.  If the request for the topics fails or answers without
    topics, the group is recorded as having none. *)
Theorem checkGroups_failed_query_is_not_writable
    (cl : Client) (filename : string) (ds : list Peer) (checkDelay : Q)
    (groups : list GroupInfo) (s : ToolSys) (i : nat) (g : GroupInfo) :
  checkGroups cl filename (inr ds) checkDelay = (Some groups, s) ->
  nth_error groups i = Some g ->
  (forall message,
      participant_answer cl (2 * i) = inl message ->
      canWrite g = false
      /\ forall accounts l c,
           nth_error (configure accounts) l = Some c ->
           ~ In g (writableGroups c))
  /\ ((forall ts, topics_answer cl (S (2 * i)) <> inr (Some ts)) ->
      hasTopics g = false /\ topics g = []).
Proof.
  intros E Hg. rewrite checkGroups_run in E. cbv zeta in E.
  destruct (List.length (filter is_supergroup ds) =? 0)%nat; [discriminate|].
  destruct (checkLoop_run checkDelay (filter is_supergroup ds) cl tool0 [])
    as (gs & t & Hm & _ & _ & _ & _ & _ & HF & Hidx).
  cbn [app] in Hm.
  set (r := tforLast (filter is_supergroup ds) (checkGroup checkDelay) cl tool0 [])
    in *.
  rewrite Hm in E.
  destruct (List.length gs =? 0)%nat; [discriminate|].
  destruct (accountNumberMatch filename); [|discriminate].
  injection E as <- _.
  destruct (nth_error (filter is_supergroup ds) i) as [d|] eqn:Ed.
  - pose proof (Hidx i d g Ed Hg) as Hc. cbn [calls tool0 Nat.add] in Hc.
    split.
    + intros message Hm'. pose proof (cb_failed Hc Hm') as Hw.
      split; [exact Hw|]. intros accounts l c Hcfg Hin.
      pose proof (configure_writable accounts l c g Hcfg Hin). congruence.
    + intros Hno. pose proof (cb_no_topics Hc Hno) as Ht. split; [|exact Ht].
      destruct (hasTopics g) eqn:Eh; [|reflexivity].
      exfalso. apply (proj1 (cb_hasTopics Hc)); assumption.
  - exfalso. apply nth_error_None in Ed. apply Forall2_length in HF.
    assert (i < List.length gs)%nat by (apply nth_error_Some; congruence). lia.
Qed.

Lemma checkGroups_failed_query_is_not_writable_witness :
  let r := checkGroups DemoTools.client "account1.json"
             (inr DemoTools.dialogs) (1 # 2) in
  let groups := match fst r with Some groups => groups | None => [] end in
  let g := nth 0 groups (Demo.plain 0) in
  (forall message,
      participant_answer DemoTools.client (2 * 0) = inl message ->
      canWrite g = false
      /\ forall accounts l c,
           nth_error (configure accounts) l = Some c ->
           ~ In g (writableGroups c))
  /\ ((forall ts, topics_answer DemoTools.client (S (2 * 0)) <> inr (Some ts)) ->
      hasTopics g = false /\ topics g = []).
Proof.
  cbv zeta.
  apply (checkGroups_failed_query_is_not_writable DemoTools.client
           "account1.json" DemoTools.dialogs (1 # 2)
           (match fst (checkGroups DemoTools.client "account1.json"
                         (inr DemoTools.dialogs) (1 # 2)) with
            | Some groups => groups
            | None => []
            end)
           (snd (checkGroups DemoTools.client "account1.json"
                   (inr DemoTools.dialogs) (1 # 2)))
           0).
  - vm_compute. reflexivity.
  - vm_compute. reflexivity.
Defined.

(** ** Leaving all groups *)

(** The block that leaves a group, case by case. *)
Lemma leave_run group cl s m :
  is_group group = true ->
  leave group cl s m =
  match plain_answer cl (calls s) with
  | None => (None, called (leave_call group) s, scored true m)
  | Some message => (Some message, called (leave_call group) s, m)
  end.
Proof.
  unfold is_group, leave, leave_call. intros H.
  destruct (className group); try discriminate;
    unfold tbind, tinvoke; destruct (plain_answer cl (calls s)); reflexivity.
Qed.

(** [leaveGroup], case by case on what the client answers. *)
Lemma leaveGroup_run group last cl s m :
  is_group group = true ->
  leaveGroup group last cl s m =
  let d := pc_currentDelay m in
  let s1 := called (leave_call group) s in
  match plain_answer cl (calls s) with
  | None => (tt, rested last d s1, scored true m)
  | Some message =>
      match floodWaitMatch message with
      | Some digits =>
          let wait := (inject_Z (JsString.parseInt digits) * 1000)%Q in
          let s2 := noted (TeSetDelay (d * 2)) (noted (TeSleep wait) s1) in
          let s3 := called (leave_call group) s2 in
          (tt, rested last (d * 2) s3,
           scored (accepted (plain_answer cl (calls s2))) (slowed m))
      | None => (tt, rested last d s1, scored false m)
      end
  end.
Proof.
  intros H. unfold leaveGroup. unfold tbind at 1. rewrite (leave_run _ _ _ _ H).
  destruct (plain_answer cl (calls s)) as [message|] eqn:E1.
  - destruct (floodWaitMatch message) as [digits|].
    + unfold tbind at 1. unfold tbind at 1. unfold tsleep at 1, tlog at 1.
      unfold tbind at 1. unfold currentDelay_double at 1.
      unfold tbind at 1, tget at 1. unfold tbind at 1, tput at 1, tlog at 1.
      unfold tbind at 1. rewrite (leave_run _ _ _ _ H).
      cbv zeta. cbn [calls called noted log pc_currentDelay].
      destruct (plain_answer cl (S (calls s))) as [retryMessage|];
        destruct last; reflexivity.
    + destruct last; reflexivity.
  - destruct last; reflexivity.
Qed.

Lemma paced_pass_nil m : paced_pass 0 0 [] m [] m.
Proof.
  constructor; cbn; try lia; try reflexivity; try exact I. 2: (split; reflexivity).
  exists []. repeat split. constructor.
Qed.

Lemma paced_pass_app k1 k2 p1 p2 c1 c2 m m1 m2 t1 t2 :
  paced_pass k1 p1 c1 m t1 m1 -> paced_pass k2 p2 c2 m1 t2 m2 ->
  paced_pass (k1 + k2) (p1 + p2) (c1 ++ c2) m (t1 ++ t2) m2.
Proof.
  intros H1 H2. constructor.
  - pose proof (pp_counted H1). pose proof (pp_counted H2). lia.
  - pose proof (pp_success H1). pose proof (pp_success H2). lia.
  - pose proof (pp_fail H1). pose proof (pp_fail H2). lia.
  - destruct (pp_calls H1) as (ks1 & L1 & F1 & E1 & N1).
    destruct (pp_calls H2) as (ks2 & L2 & F2 & E2 & N2).
    exists (ks1 ++ ks2). rewrite !length_app.
    split; [lia|]. split; [apply Forall_app; split; assumption|].
    rewrite tool_calls_app, tool_delays_app, !length_app.
    split; [|lia].
    rewrite E1, E2. clear - L1.
    revert ks1 L1. induction c1 as [|c c1 IH]; intros [|k ks1] L1;
      try discriminate; [reflexivity|].
    cbn [combine map List.concat app]. rewrite <- app_assoc. f_equal.
    apply IH. cbn in L1. lia.
  - rewrite tool_sleeps_app, tool_delays_app, !length_app.
    pose proof (pp_sleeps H1). pose proof (pp_sleeps H2). lia.
  - rewrite tool_delays_app. apply doubling_from_app; [apply (pp_chain H1)|].
    rewrite <- (pp_delay H1). apply (pp_chain H2).
  - rewrite tool_delays_app, last_app_last, <- (pp_delay H1). apply (pp_delay H2).
  - rewrite saved_groups_app, saved_chats_app.
    destruct (pp_quiet H1) as [-> ->]. destruct (pp_quiet H2) as [-> ->].
    split; reflexivity.
Qed.

(** One group: counted once, left with one request or two, and a pause
    after it unless it is the last. *)
Lemma leaveGroup_pass group last cl s m :
  is_group group = true ->
  exists t,
    log (snd (fst (leaveGroup group last cl s m))) = log s ++ t
    /\ paced_pass 1 (pauses last) [leave_call group] m t
         (snd (leaveGroup group last cl s m)).
Proof.
  intros H. rewrite (leaveGroup_run _ _ _ _ _ H). cbv zeta.
  destruct (plain_answer cl (calls s)) as [message|];
    [destruct (floodWaitMatch message) as [digits|]|].
  - destruct (accepted _); destruct last;
      cbn [fst snd log called noted rested];
      (eexists; split; [rewrite <- ?app_assoc; reflexivity|]);
      constructor; cbn; try lia; try reflexivity; try tauto;
      try (split; reflexivity);
      exists [2%nat]; repeat split; constructor; auto.
  - destruct last;
      cbn [fst snd log called noted rested];
      (eexists; split; [rewrite <- ?app_assoc; reflexivity|]);
      constructor; cbn; try lia; try reflexivity; try tauto;
      try (split; reflexivity);
      exists [1%nat]; repeat split; constructor; auto.
  - destruct last;
      cbn [fst snd log called noted rested];
      (eexists; split; [rewrite <- ?app_assoc; reflexivity|]);
      constructor; cbn; try lia; try reflexivity; try tauto;
      try (split; reflexivity);
      exists [1%nat]; repeat split; constructor; auto.
Qed.

Lemma leaveLoop_pass groups cl s m :
  Forall (fun group => is_group group = true) groups ->
  exists t,
    log (snd (fst (tforLast groups leaveGroup cl s m))) = log s ++ t
    /\ paced_pass (List.length groups) (Nat.pred (List.length groups))
         (map leave_call groups) m t (snd (tforLast groups leaveGroup cl s m)).
Proof.
  revert s m. induction groups as [|group groups IH]; intros s m F.
  - exists []. cbn. rewrite app_nil_r. split; [reflexivity | apply paced_pass_nil].
  - inversion F as [|? ? Hg Hrest]; subst.
    destruct groups as [|group' groups].
    + apply (leaveGroup_pass group true cl s m Hg).
    + change (tforLast (group :: group' :: groups) leaveGroup)
        with (tbind (leaveGroup group false)
                (fun _ => tforLast (group' :: groups) leaveGroup)).
      unfold tbind.
      destruct (leaveGroup_pass group false cl s m Hg) as (t1 & E1 & P1).
      destruct (leaveGroup group false cl s m) as [[[] s1] m1].
      cbn [fst snd] in E1, P1.
      destruct (IH s1 m1 Hrest) as (t2 & E2 & P2).
      exists (t1 ++ t2). rewrite E2, E1, app_assoc. split; [reflexivity|].
      exact (paced_pass_app _ _ _ _ _ _ _ _ _ _ _ P1 P2).
Qed.

(** [leaveAllGroups] is the loop over the groups, then the disconnect. *)
Lemma leaveAllGroups_run cl dialogs leaveDelay :
  leaveAllGroups cl dialogs leaveDelay =
  let m0 := {| pc_currentDelay := leaveDelay; pc_successCount := 0;
               pc_failCount := 0 |} in
  let r := tforLast (filter is_group dialogs) leaveGroup cl tool0 m0 in
  (noted TeDisconnect (snd (fst r)), snd r).
Proof.
  unfold leaveAllGroups, leaveGroups. cbv zeta.
  destruct (filter is_group dialogs) as [|g gs]; [reflexivity|].
  cbn [List.length Nat.eqb]. unfold tbind.
  destruct (tforLast (g :: gs) leaveGroup cl tool0 _) as [[[] s1] m1].
  reflexivity.
Qed.

(** X19. [leaveAllGroups] accounts for every group and pauses between
    groups only.  With [n] the number of supergroups and chats among the
    dialogs: the successes and the failures it reports add up to [n]; it
    makes one request per group, of the kind that fits the group, and one
    more for every rate-limit hit, in the order of the dialogs; it sleeps
    [n - 1] times between groups, not after the last, and once per hit; the
    values assigned to the delay are each the double of the one before,
    starting from the delay entered, and it ends with the last one. *)
Theorem leaveAllGroups_accounts_and_paces
    (cl : Client) (dialogs : list Peer) (leaveDelay : Q) :
  let r := leaveAllGroups cl dialogs leaveDelay in
  let groups := filter is_group dialogs in
  let n := List.length groups in
  let hits := List.length (tool_delays (log (fst r))) in
  (pc_successCount (snd r) + pc_failCount (snd r) = Z.of_nat n)%Z
  /\ (0 <= pc_successCount (snd r))%Z /\ (0 <= pc_failCount (snd r))%Z
  /\ (exists ks,
         List.length ks = n
         /\ Forall (fun k => k = 1 \/ k = 2)%nat ks
         /\ tool_calls (log (fst r))
            = List.concat (map (fun ck => repeat (fst ck) (snd ck))
                             (combine (map leave_call groups) ks)))
  /\ List.length (tool_calls (log (fst r))) = (n + hits)%nat
  /\ List.length (tool_sleeps (log (fst r))) = (Nat.pred n + hits)%nat
  /\ doubling_from leaveDelay (tool_delays (log (fst r)))
  /\ pc_currentDelay (snd r) = last (tool_delays (log (fst r))) leaveDelay
  /\ exists t, log (fst r) = t ++ [TeDisconnect].
Proof.
  cbv zeta. rewrite leaveAllGroups_run.
  set (m0 := {| pc_currentDelay := leaveDelay; pc_successCount := 0;
                pc_failCount := 0 |}).
  assert (F : Forall (fun group => is_group group = true) (filter is_group dialogs)).
  { apply Forall_forall. intros g Hg. apply filter_In in Hg. tauto. }
  destruct (leaveLoop_pass (filter is_group dialogs) cl tool0 m0 F) as (t & E & Hp).
  cbn [log tool0 app] in E.
  cbn [fst snd noted log]. rewrite E.
  rewrite !tool_calls_app, !tool_sleeps_app, !tool_delays_app.
  cbn [tool_calls tool_sleeps tool_delays]. rewrite !app_nil_r.
  pose proof (pp_counted Hp) as Hc. pose proof (pp_success Hp) as Hs.
  pose proof (pp_fail Hp) as Hf. cbn [m0 pc_successCount pc_failCount] in Hc, Hs, Hf.
  destruct (pp_calls Hp) as (ks & Hlen & Hks & Hcalls & Hn).
  rewrite length_map in Hlen, Hn.
  split; [lia|]. split; [lia|]. split; [lia|].
  split; [exists ks; tauto|]. split; [exact Hn|].
  split; [apply (pp_sleeps Hp)|]. split; [apply (pp_chain Hp)|].
  split; [apply (pp_delay Hp)|]. exists t. reflexivity.
Qed.

(** ** Scraping the members of a group *)

(** One turn of the paging loop, case by case. *)
Lemma scrapePage_run channel limit cl s m :
  scrapePage channel limit cl s m =
  if ((limit =? 0)%Z || (totalFetched m <? limit)%Z)%bool then
    let call := GetParticipants channel (offset m)
                  (currentLimit limit (totalFetched m)) in
    match users_answer cl (calls s) with
    | inl message => (Failed message, called call s, m)
    | inr None => (LastPage, called call s, m)
    | inr (Some []) => (LastPage, called call s, m)
    | inr (Some users) =>
        (NextPage, noted (TeSleep 2000) (called call s),
         {| members := members m ++ filter is_member users;
            offset := offset m + Z.of_nat (List.length users);
            totalFetched := totalFetched m + Z.of_nat (List.length users) |})
    end
  else (Enough, s, m).
Proof.
  unfold scrapePage, tbind, tget, tinvoke, tput, tsleep, tlog, tret, called, noted.
  destruct ((limit =? 0)%Z || (totalFetched m <? limit)%Z)%bool; [|reflexivity].
  destruct (users_answer cl (calls s)) as [message|[[|user users]|]]; reflexivity.
Qed.

(** The request of a turn is a [page_request]. *)
Lemma currentLimit_page channel limit s m :
  scrape_inv channel limit s m ->
  (0 <= limit)%Z ->
  ((limit =? 0)%Z || (totalFetched m <? limit)%Z)%bool = true ->
  page_request channel limit
    (GetParticipants channel (offset m) (currentLimit limit (totalFetched m))).
Proof.
  intros I L C. exists (offset m), (currentLimit limit (totalFetched m)).
  pose proof (si_offset I) as Ho. pose proof (si_fetched I) as Hf.
  unfold currentLimit. split; [reflexivity|].
  destruct (Z.eqb_spec limit 0) as [E|E]; [lia|].
  cbn [orb] in C. apply Z.ltb_lt in C. lia.
Qed.

Lemma scrape_inv_start channel limit :
  (0 <= limit)%Z ->
  scrape_inv channel limit tool0 {| members := []; offset := 0; totalFetched := 0 |}.
Proof. intros L. constructor; cbn; try constructor; try reflexivity; try lia. Qed.

(** A request keeps what is known of the requests. *)
Lemma scrape_inv_called channel limit s m :
  scrape_inv channel limit s m ->
  (0 <= limit)%Z ->
  ((limit =? 0)%Z || (totalFetched m <? limit)%Z)%bool = true ->
  let s' := called (GetParticipants channel (offset m)
                      (currentLimit limit (totalFetched m))) s in
  Forall (page_request channel limit) (tool_calls (log s'))
  /\ tool_sleeps (log s') = repeat 2000 (List.length (tool_calls (log s)))
  /\ List.length (tool_calls (log s')) = S (List.length (tool_calls (log s)))
  /\ (limit <> 0 -> Z.of_nat (List.length (tool_calls (log s'))) <= limit)%Z.
Proof.
  intros I L C. cbv zeta. cbn [called log].
  rewrite tool_calls_app, tool_sleeps_app, length_app. cbn [tool_calls tool_sleeps List.length].
  rewrite app_nil_r.
  split; [apply Forall_app; split; [apply (si_requests I)|]|].
  { constructor; [|constructor]. exact (currentLimit_page _ _ _ _ I L C). }
  split; [apply (si_sleeps I)|]. split; [lia|].
  intros E. pose proof (si_fetched I). 
  destruct (Z.eqb_spec limit 0) as [E0|E0]; [contradiction|].
  cbn [orb] in C. apply Z.ltb_lt in C. lia.
Qed.

(** A turn of the loop that goes on keeps the invariant. *)
Lemma scrapePage_inv channel limit cl s m :
  (0 <= limit)%Z ->
  scrape_inv channel limit s m ->
  fst (fst (scrapePage channel limit cl s m)) = NextPage ->
  scrape_inv channel limit (snd (fst (scrapePage channel limit cl s m)))
    (snd (scrapePage channel limit cl s m))
  /\ (totalFetched m < totalFetched (snd (scrapePage channel limit cl s m)))%Z
  /\ (limit <> 0 -> totalFetched m < limit)%Z.
Proof.
  intros L I. rewrite scrapePage_run.
  destruct ((limit =? 0)%Z || (totalFetched m <? limit)%Z)%bool eqn:C; [|discriminate].
  destruct (scrape_inv_called _ _ _ _ I L C) as (Hr & Hs & Hl & Hb).
  cbv zeta in *.
  destruct (users_answer cl (calls s)) as [message|[[|user users]|]];
    try discriminate.
  intros _. cbn [fst snd]. split; [|split].
  - constructor; cbn [members offset totalFetched noted log].
    + rewrite (si_offset I). reflexivity.
    + apply Forall_app. split; [apply (si_members I)|].
      apply Forall_forall. intros u Hu. apply filter_In in Hu. tauto.
    + rewrite length_app. pose proof (si_kept I).
      pose proof (filter_length_le is_member (user :: users)). lia.
    + rewrite tool_calls_app. cbn [tool_calls]. rewrite app_nil_r. exact Hr.
    + rewrite tool_calls_app, tool_sleeps_app. cbn [tool_calls tool_sleeps].
      rewrite app_nil_r, Hs, Hl. 
      change (repeat 2000 (S (List.length (tool_calls (log s)))))
        with (2000 :: repeat 2000 (List.length (tool_calls (log s)))).
      symmetry. apply repeat_cons.
    + rewrite tool_calls_app. cbn [tool_calls]. rewrite app_nil_r, Hl.
      pose proof (si_fetched I). cbn [List.length]. lia.
    + rewrite tool_calls_app. cbn [tool_calls]. rewrite app_nil_r. exact Hb.
  - cbn [totalFetched List.length]. lia.
  - intros E. destruct (Z.eqb_spec limit 0) as [E0|E0]; [contradiction|].
    cbn [orb] in C. apply Z.ltb_lt in C. exact C.
Qed.

Lemma is_member_spec user :
  is_member user = true -> className user = User /\ bot user = false.
Proof.
  unfold is_member. destruct (className user); try discriminate.
  destruct (bot user); [discriminate | tauto].
Qed.

(** The invariant is what the loop has done while it is still going. *)
Lemma scrape_inv_done channel limit s m :
  scrape_inv channel limit s m -> scrape_done channel limit None s m.
Proof.
  intros I. constructor; try apply I; [|discriminate].
  eapply Forall_impl; [|apply (si_members I)]. intros u. apply is_member_spec.
Qed.

(** A turn that ends the loop. *)
Lemma scrapePage_end channel limit cl s m :
  (0 <= limit)%Z ->
  scrape_inv channel limit s m ->
  fst (fst (scrapePage channel limit cl s m)) <> NextPage ->
  scrape_done channel limit (Some (fst (fst (scrapePage channel limit cl s m))))
    (snd (fst (scrapePage channel limit cl s m)))
    (snd (scrapePage channel limit cl s m)).
Proof.
  intros L I. pose proof (scrape_inv_done _ _ _ _ I) as D. rewrite scrapePage_run.
  destruct ((limit =? 0)%Z || (totalFetched m <? limit)%Z)%bool eqn:C.
  - destruct (scrape_inv_called _ _ _ _ I L C) as (Hr & Hs & Hl & Hb).
    cbv zeta in *.
    destruct (users_answer cl (calls s)) as [message|[[|user users]|]];
      cbn [fst snd]; intros N; try congruence;
      (constructor; try apply D; try assumption; try discriminate;
       rewrite Hs, Hl; reflexivity).
  - cbn [fst snd]. intros _. constructor; try apply D.
    intros _. apply orb_false_iff in C. destruct C as [C1 C2].
    apply Z.eqb_neq in C1. apply Z.ltb_ge in C2. tauto.
Qed.

(** The loop, a turn at a time. *)
Lemma scrapeLoop_step channel limit cl fuel s m :
  scrapeLoop (S fuel) channel limit cl s m =
  let r := scrapePage channel limit cl s m in
  match fst (fst r) with
  | NextPage => scrapeLoop fuel channel limit cl (snd (fst r)) (snd r)
  | how => (Some how, snd (fst r), snd r)
  end.
Proof.
  cbn [scrapeLoop]. unfold tbind at 1. cbv zeta.
  destruct (scrapePage channel limit cl s m) as [[how s1] m1].
  destruct how; reflexivity.
Qed.

(** The loop, after any number of turns. *)
Lemma scrapeLoop_done channel limit cl fuel : forall s m,
  (0 <= limit)%Z ->
  scrape_inv channel limit s m ->
  scrape_done channel limit
    (fst (fst (scrapeLoop fuel channel limit cl s m)))
    (snd (fst (scrapeLoop fuel channel limit cl s m)))
    (snd (scrapeLoop fuel channel limit cl s m)).
Proof.
  induction fuel as [|fuel IH]; intros s m L I.
  - apply scrape_inv_done, I.
  - rewrite scrapeLoop_step. cbv zeta.
    pose proof (scrapePage_inv channel limit cl s m L I) as Hn.
    pose proof (scrapePage_end channel limit cl s m L I) as He.
    destruct (scrapePage channel limit cl s m) as [[how s1] m1].
    cbn [fst snd] in *.
    destruct how; try (apply He; discriminate).
    apply IH; [exact L | apply Hn; reflexivity].
Qed.

Lemma scrapeLimit_nonneg limit : (0 <= scrapeLimit limit)%Z.
Proof.
  destruct limit as [n|]; cbn; [|lia].
  destruct (Z.ltb_spec n 0); lia.
Qed.

(** The loop ends within as many turns as are left of the limit, and one. *)
Lemma scrapeLoop_ends channel limit cl fuel : forall s m,
  (0 < limit)%Z ->
  (Z.to_nat (limit - totalFetched m) < fuel)%nat ->
  fst (fst (scrapeLoop fuel channel limit cl s m)) <> None.
Proof.
  induction fuel as [|fuel IH]; intros s m L F; [lia|].
  rewrite scrapeLoop_step. cbv zeta.
  pose proof (scrapePage_run channel limit cl s m) as R.
  destruct (scrapePage channel limit cl s m) as [[how s1] m1].
  cbn [fst snd].
  destruct how; try discriminate.
  apply IH; [exact L|].
  destruct ((limit =? 0)%Z || (totalFetched m <? limit)%Z)%bool eqn:C;
    [|discriminate].
  assert (totalFetched m < limit)%Z as Hlt.
  { destruct (Z.eqb_spec limit 0); [lia|]. cbn [orb] in C.
    apply Z.ltb_lt in C. exact C. }
  cbv zeta in R.
  destruct (users_answer cl (calls s)) as [message|[[|user users]|]];
    try discriminate.
  apply (f_equal snd) in R. cbn [snd] in R. subst m1.
  cbn [totalFetched List.length]. lia.
Qed.

(** X20. The paging of [scrapeGroupMembers] stays within the limit it was
    given and keeps users only.  Whatever the client answers and however
    long the loop has run: every request asks for members of the chosen
    group, for at least one and at most 200 of them from an offset that is
    not negative, and with a limit never for members beyond it; with a limit there are no
    more requests than the limit; the offset equals the number of users
    fetched; the members kept are users that are no bots, and no more than
    were fetched; every page that was kept is followed by a sleep of two
    seconds and there is no other sleep; and the loop is left by its test
    only when there is a limit and it has been reached. *)
Theorem scrapeMembers_stays_within_the_limit
    (cl : Client) (channel : Z) (limit : option Z) (fuel : nat) :
  let r := scrapeMembers cl channel limit fuel in
  let how := fst (fst r) in
  let t := log (snd (fst r)) in
  let m := snd r in
  Forall (page_request channel (scrapeLimit limit)) (tool_calls t)
  /\ (scrapeLimit limit <> 0 ->
      Z.of_nat (List.length (tool_calls t)) <= scrapeLimit limit)%Z
  /\ offset m = totalFetched m
  /\ Forall (fun user => className user = User /\ bot user = false) (members m)
  /\ (Z.of_nat (List.length (members m)) <= totalFetched m)%Z
  /\ tool_sleeps t = repeat 2000 (pages_kept how (List.length (tool_calls t)))
  /\ (how = Some Enough ->
      scrapeLimit limit <> 0 /\ scrapeLimit limit <= totalFetched m)%Z.
Proof.
  cbv zeta. unfold scrapeMembers.
  pose proof (scrapeLoop_done channel (scrapeLimit limit) cl fuel tool0
                {| members := []; offset := 0; totalFetched := 0 |}
                (scrapeLimit_nonneg limit)
                (scrape_inv_start channel _ (scrapeLimit_nonneg limit))) as D.
  split; [apply (sd_requests D)|]. split; [apply (sd_bound D)|].
  split; [apply (sd_offset D)|]. split; [apply (sd_members D)|].
  split; [apply (sd_kept D)|]. split; [apply (sd_sleeps D)|].
  apply (sd_enough D).
Qed.

(** X21. With a positive limit the paging of [scrapeGroupMembers] ends:
    whatever the client answers, the loop is over after at most as many
    turns as the limit, and one for the test that ends it. *)
Theorem scrapeMembers_with_a_limit_ends
    (cl : Client) (channel limit : Z) (fuel : nat)
    (Hlimit : (0 < limit)%Z) (Hfuel : (Z.to_nat limit < fuel)%nat) :
  fst (fst (scrapeMembers cl channel (Some limit) fuel)) <> None.
Proof.
  unfold scrapeMembers. apply scrapeLoop_ends.
  - cbn. destruct (Z.ltb_spec limit 0); lia.
  - cbn [scrapeLimit]. destruct (Z.ltb_spec limit 0); [lia|].
    cbn [totalFetched]. rewrite Z.sub_0_r. exact Hfuel.
Qed.

Lemma scrapeMembers_with_a_limit_ends_witness :
  fst (fst (scrapeMembers DemoTools.client 9 (Some 3%Z) 4)) <> None.
Proof.
  apply (scrapeMembers_with_a_limit_ends DemoTools.client 9 3 4).
  - reflexivity.
  - cbn. lia.
Defined.

(* ================================================================== *)
(** * The tools that look their targets up *)

Lemma tool_lookups_app a b :
  tool_lookups (a ++ b) = tool_lookups a ++ tool_lookups b.
Proof.
  induction a as [|e a IH]; [reflexivity|].
  destruct e; simpl; rewrite ?IH; reflexivity.
Qed.

(** The block that joins a group, case by case; [b] tells whether an entity
    of another class is counted as a failure. *)
Lemma join_run (b : bool) groupLink cl s m :
  join (if b then failCount_incr else tret tt) groupLink cl s m =
  let s1 := looked_up groupLink s in
  match entity_answer cl (calls s) with
  | inl message => (Some message, s1, m)
  | inr entity =>
      match join_call entity with
      | Some call =>
          match plain_answer cl (S (calls s)) with
          | None => (None, called call s1, scored true m)
          | Some message => (Some message, called call s1, m)
          end
      | None => (None, s1, if b then scored false m else m)
      end
  end.
Proof.
  unfold join, join_call, tbind at 1, tgetEntity at 1. cbv zeta.
  destruct (entity_answer cl (calls s)) as [message|entity]; [reflexivity|].
  destruct (className entity);
    try (unfold tbind, tinvoke; cbn [calls looked_up];
         destruct (plain_answer cl (S (calls s))); reflexivity);
    destruct b; reflexivity.
Qed.

Lemma lookup_pass_nil counts paces request per m :
  lookup_pass counts paces request per 0 0 [] m [] m.
Proof.
  constructor; cbn; try lia; try reflexivity; try exact I; try constructor.
  - exists 0%nat. repeat split; lia.
  - exists []. repeat split. constructor.
  - exists 0%nat. repeat split; lia.
Qed.

Lemma lookup_pass_app counts paces request per k1 k2 p1 p2 c1 c2 m m1 m2
    t1 t2 :
  lookup_pass counts paces request per k1 p1 c1 m t1 m1 ->
  lookup_pass counts paces request per k2 p2 c2 m1 t2 m2 ->
  lookup_pass counts paces request per (k1 + k2) (p1 + p2) (c1 ++ c2) m
    (t1 ++ t2) m2.
Proof.
  intros H1 H2.
  pose proof (lp_success H1). pose proof (lp_success H2).
  pose proof (lp_fail H1). pose proof (lp_fail H2).
  constructor.
  - destruct (lp_counted H1) as (a1 & C1 & B1 & X1).
    destruct (lp_counted H2) as (a2 & C2 & B2 & X2).
    exists (a1 + a2)%nat. rewrite tool_delays_app, length_app.
    split; [lia|]. split; [lia|]. intros E. rewrite (X1 E), (X2 E). reflexivity.
  - lia.
  - lia.
  - rewrite tool_calls_app, length_app.
    pose proof (lp_made H1). pose proof (lp_made H2). lia.
  - destruct (lp_lookups H1) as (ks1 & L1 & F1 & E1 & N1).
    destruct (lp_lookups H2) as (ks2 & L2 & F2 & E2 & N2).
    exists (ks1 ++ ks2). rewrite !length_app.
    split; [lia|]. split; [apply Forall_app; split; assumption|].
    rewrite tool_lookups_app, tool_delays_app, !length_app.
    split; [|lia].
    rewrite E1, E2. clear - L1.
    revert ks1 L1. induction c1 as [|c c1 IH]; intros [|k ks1] L1;
      try discriminate; [reflexivity|].
    cbn [combine map List.concat app]. rewrite <- app_assoc. f_equal.
    apply IH. cbn in L1. lia.
  - rewrite tool_calls_app, tool_lookups_app, !length_app.
    pose proof (lp_calls H1). pose proof (lp_calls H2).
    rewrite Nat.mul_add_distr_l. lia.
  - rewrite tool_calls_app. apply Forall_app.
    split; [apply (lp_requests H1) | apply (lp_requests H2)].
  - destruct (lp_sleeps H1) as (a1 & C1 & B1 & X1).
    destruct (lp_sleeps H2) as (a2 & C2 & B2 & X2).
    exists (a1 + a2)%nat. rewrite tool_sleeps_app, tool_delays_app, !length_app.
    split; [lia|]. split; [lia|]. intros E. rewrite (X1 E), (X2 E). reflexivity.
  - rewrite tool_delays_app. apply doubling_from_app; [apply (lp_chain H1)|].
    rewrite <- (lp_delay H1). apply (lp_chain H2).
  - rewrite tool_delays_app, last_app_last, <- (lp_delay H1). apply (lp_delay H2).
Qed.

(** A loop over names whose body is a pass over one name is a pass over
    all of them, with a pause between any two. *)
Lemma lookupLoop_pass counts paces request per
    (body : string -> bool -> Paced unit) cl :
  (forall name last s m,
      exists t,
        log (snd (fst (body name last cl s m))) = log s ++ t
        /\ lookup_pass counts paces request per 1 (pauses last) [name] m t
             (snd (body name last cl s m))) ->
  forall names s m,
    exists t,
      log (snd (fst (tforLast names body cl s m))) = log s ++ t
      /\ lookup_pass counts paces request per (List.length names)
           (Nat.pred (List.length names)) names m t
           (snd (tforLast names body cl s m)).
Proof.
  intros Hbody names. induction names as [|name names IH]; intros s m.
  - exists []. cbn. rewrite app_nil_r. split; [reflexivity | apply lookup_pass_nil].
  - destruct names as [|name' names].
    + apply (Hbody name true s m).
    + change (tforLast (name :: name' :: names) body)
        with (tbind (body name false)
                (fun _ => tforLast (name' :: names) body)).
      unfold tbind.
      destruct (Hbody name false s m) as (t1 & E1 & P1).
      destruct (body name false cl s m) as [[[] s1] m1].
      cbn [fst snd] in E1, P1.
      destruct (IH s1 m1) as (t2 & E2 & P2).
      exists (t1 ++ t2). rewrite E2, E1, app_assoc. split; [reflexivity|].
      exact (lookup_pass_app _ _ _ _ _ _ _ _ _ _ _ _ _ _ _ P1 P2).
Qed.

(** Runs the straight-line rest of a loop body in [R] and splits off what
    it added to the log. *)
Ltac run_leaf R r :=
  cbv beta iota zeta delta
    [tret successCount_incr failCount_incr tbind tget tput tsleep tlog
     currentDelay_double] in R;
  subst r;
  cbn [fst snd log calls looked_up called noted scored accepted
       pc_currentDelay pc_successCount pc_failCount];
  (eexists; split; [rewrite <- ?app_assoc; cbn [app]; reflexivity|]).

(** Closes the fields of a [lookup_pass] over one name that hold by
    computation, [n] being the number of lookups. *)
Ltac pass_leaf n :=
  constructor;
  cbn [tool_calls tool_lookups tool_sleeps tool_delays List.length pauses
       pc_currentDelay pc_successCount pc_failCount last];
  [ try (exists 0%nat; split; [lia|]; split; [lia | reflexivity])
  | lia | lia | lia
  | exists [n]; split; [reflexivity|]; split; [repeat constructor; auto|];
    split; reflexivity
  | lia
  | repeat constructor
  | try (exists 0%nat; split; [lia|]; split; [lia | reflexivity])
  | cbn; try tauto; try (split; [reflexivity | exact I])
  | reflexivity ].

(** A request made for an entity the client has answered with. *)
Ltac join_requests :=
  try match goal with
      | E : entity_answer ?cl ?k = inr ?e, J : join_call ?e = Some ?c
        |- join_request ?cl ?c => exists k, e; split; [exact E | exact J]
      end.

Lemma joinGroup_pass cl groupLink last s m :
  exists t,
    log (snd (fst (joinGroup groupLink last cl s m))) = log s ++ t
    /\ lookup_pass (resolves_to_groups cl) True (join_request cl) 1 1
         (pauses last)
         [groupLink] m t (snd (joinGroup groupLink last cl s m)).
Proof.
  remember (joinGroup groupLink last cl s m) as r eqn:R.
  unfold joinGroup in R. unfold tbind at 1 2 in R.
  change (join failCount_incr groupLink)
    with (join (if true then failCount_incr else tret tt) groupLink) in R.
  rewrite join_run in R. cbv zeta in R.
  destruct (entity_answer cl (calls s)) as [message|entity] eqn:E1.
  - destruct (waitSeconds message) as [seconds|].
    + unfold tbind at 1 2 3 in R. 
      cbv beta iota zeta delta [tsleep tlog currentDelay_double tbind tget tput] in R.
      change (join (tret tt) groupLink)
        with (join (if false then failCount_incr else tret tt) groupLink) in R.
      rewrite join_run in R. cbv zeta in R. cbn [calls looked_up] in R.
      destruct (entity_answer cl (S (calls s))) as [retryMessage|retryEntity] eqn:E2.
      * destruct last; run_leaf R r; pass_leaf 2%nat.
      * destruct (join_call retryEntity) as [call|] eqn:J2.
        -- destruct (plain_answer cl (S (S (calls s)))); destruct last;
             run_leaf R r; pass_leaf 2%nat.
           all: join_requests.
        -- destruct last; run_leaf R r; pass_leaf 2%nat.
           all: try (exists 1%nat; split; [lia|]; split; [cbn; lia|];
                     intros X; exfalso; destruct (X _ _ E2) as [C|C];
                     unfold join_call in J2; rewrite C in J2; discriminate).
    + destruct last; run_leaf R r; pass_leaf 1%nat.
  - destruct (join_call entity) as [call|] eqn:J1.
    + destruct (plain_answer cl (S (calls s))) as [message|] eqn:A1.
      * destruct (waitSeconds message) as [seconds|].
        -- unfold tbind at 1 2 3 in R.
           cbv beta iota zeta delta
             [tsleep tlog currentDelay_double tbind tget tput] in R.
           change (join (tret tt) groupLink)
             with (join (if false then failCount_incr else tret tt) groupLink)
             in R.
           rewrite join_run in R. cbv zeta in R. cbn [calls looked_up called] in R.
           destruct (entity_answer cl (S (S (calls s))))
             as [retryMessage|retryEntity] eqn:E2.
           ++ destruct last; run_leaf R r; pass_leaf 2%nat.
              all: join_requests.
           ++ destruct (join_call retryEntity) as [retryCall|] eqn:J2.
              ** destruct (plain_answer cl (S (S (S (calls s))))); destruct last;
                   run_leaf R r; pass_leaf 2%nat.
                 all: join_requests.
              ** destruct last; run_leaf R r; pass_leaf 2%nat.
                 all: join_requests.
                 all: try (exists 1%nat; split; [lia|]; split; [cbn; lia|];
                     intros X; exfalso; destruct (X _ _ E2) as [C|C];
                     unfold join_call in J2; rewrite C in J2; discriminate).
        -- destruct last; run_leaf R r; pass_leaf 1%nat.
           all: join_requests.
      * destruct last; run_leaf R r; pass_leaf 1%nat.
        all: join_requests.
    + destruct last; run_leaf R r; pass_leaf 1%nat.
Qed.

(** [joinGroups] is the loop over the parsed links, then the disconnect. *)
Lemma joinGroups_run cl lines joinDelay :
  joinGroups cl lines joinDelay =
  let m0 := {| pc_currentDelay := joinDelay; pc_successCount := 0;
               pc_failCount := 0 |} in
  let r := tforLast (map parsed lines) joinGroup cl tool0 m0 in
  (noted TeDisconnect (snd (fst r)), snd r).
Proof.
  unfold joinGroups. cbv zeta. unfold tbind.
  destruct (tforLast (map parsed lines) joinGroup cl tool0 _) as [[[] s1] m1].
  reflexivity.
Qed.

(** X22. [joinGroups] counts a link at most once, and can miss one after a
    rate-limit hit.  For one account and [n] links: the links are looked up
    in the order entered, in their parsed form, each once and once more
    after a rate-limit hit; no request to join is made without a lookup of
    its own, and each is for a channel or a chat that the client resolved a
    link to; no more groups are counted as joined than requests were made;
    the successes, the failures and the links counted as neither add up to
    [n], there being at most one uncounted link per hit and none when every
    link resolves to a channel or a chat; there are [n - 1] sleeps between
    the links and one per hit; and the delay is doubled at every hit. *)
Theorem joinGroups_counts_a_link_at_most_once
    (cl : Client) (lines : list string) (joinDelay : Q) :
  let r := joinGroups cl lines joinDelay in
  let t := log (fst r) in
  let n := List.length lines in
  let hits := List.length (tool_delays t) in
  (0 <= pc_successCount (snd r))%Z /\ (0 <= pc_failCount (snd r))%Z
  /\ (exists missed,
         (pc_successCount (snd r) + pc_failCount (snd r) + Z.of_nat missed
          = Z.of_nat n)%Z
         /\ (missed <= hits)%nat
         /\ (resolves_to_groups cl -> missed = 0%nat))
  /\ (pc_successCount (snd r) <= Z.of_nat (List.length (tool_calls t)))%Z
  /\ (exists ks,
         List.length ks = n
         /\ Forall (fun k => k = 1 \/ k = 2)%nat ks
         /\ tool_lookups t
            = List.concat (map (fun nk => repeat (fst nk) (snd nk))
                             (combine (map parsed lines) ks)))
  /\ List.length (tool_lookups t) = (n + hits)%nat
  /\ (List.length (tool_calls t) <= List.length (tool_lookups t))%nat
  /\ Forall (join_request cl) (tool_calls t)
  /\ List.length (tool_sleeps t) = (Nat.pred n + hits)%nat
  /\ doubling_from joinDelay (tool_delays t)
  /\ pc_currentDelay (snd r) = last (tool_delays t) joinDelay.
Proof.
  cbv zeta. rewrite joinGroups_run.
  set (m0 := {| pc_currentDelay := joinDelay; pc_successCount := 0;
                pc_failCount := 0 |}).
  destruct (lookupLoop_pass _ _ _ _ joinGroup cl (joinGroup_pass cl)
              (map parsed lines) tool0 m0) as (t & E & Hp).
  cbn [log tool0 app] in E. cbv zeta. cbn [fst snd noted log]. rewrite E.
  rewrite !tool_calls_app, !tool_sleeps_app, !tool_delays_app, !tool_lookups_app.
  cbn [tool_calls tool_sleeps tool_delays tool_lookups]. rewrite !app_nil_r.
  rewrite length_map in Hp.
  pose proof (lp_success Hp) as Hs. pose proof (lp_fail Hp) as Hf.
  pose proof (lp_made Hp) as Hm.
  cbn [m0 pc_successCount pc_failCount] in Hs, Hf, Hm.
  destruct (lp_counted Hp) as (missed & Hc & Hb & Hx).
  cbn [m0 pc_successCount pc_failCount] in Hc.
  destruct (lp_lookups Hp) as (ks & Hlen & Hks & Hl & Hn).
  rewrite length_map in Hlen, Hn.
  destruct (lp_sleeps Hp) as (skipped & Hsl & _ & Hz).
  rewrite (Hz I) in Hsl.
  split; [lia|]. split; [lia|].
  split; [exists missed; split; [lia | tauto]|].
  split; [lia|]. split; [exists ks; tauto|]. split; [exact Hn|].
  split; [pose proof (lp_calls Hp); lia|]. split; [apply (lp_requests Hp)|].
  split; [lia|]. split; [apply (lp_chain Hp) | apply (lp_delay Hp)].
Qed.

(** ** Messaging new users *)

(** The block that messages a user, case by case. *)
Lemma sendTo_run kind username cl s m :
  sendTo kind username cl s m =
  let s1 := looked_up username s in
  match entity_answer cl (calls s) with
  | inl message => (inr message, s1, m)
  | inr user =>
      match className user with
      | User =>
          match plain_answer cl (S (calls s)) with
          | None =>
              (inl Next, called (deliverTo kind (peer_entity user)) s1,
               scored true m)
          | Some message =>
              (inr message, called (deliverTo kind (peer_entity user)) s1, m)
          end
      | _ => (inl Continue, s1, scored false m)
      end
  end.
Proof.
  unfold sendTo, tbind at 1, tgetEntity at 1. cbv zeta.
  destruct (entity_answer cl (calls s)) as [message|user]; [reflexivity|].
  destruct (className user); try reflexivity.
  unfold tbind, tinvoke; cbn [calls looked_up].
  destruct (plain_answer cl (S (calls s))); reflexivity.
Qed.

(** A message delivered to a user the client has answered with. *)
Ltac user_requests :=
  try match goal with
      | E : entity_answer ?cl ?k = inr ?e, C : className ?e = User
        |- user_request ?cl ?kind (deliverTo ?kind (peer_entity ?e)) =>
          exists k, e; split; [exact E | split; [exact C | reflexivity]]
      end.

(** A pause left out after a name that resolved to something else than a
    user. *)
Ltac skipped_pause :=
  try match goal with
      | E : entity_answer ?cl ?k = inr ?e, C : className ?e = _
        |- exists skipped : nat, _ =>
          exists 1%nat; split; [lia|]; split; [lia|];
          intros X; exfalso; rewrite (X _ _ E) in C; discriminate
      end.

Lemma sendNewPrivateMessage_pass kind cl username last s m :
  exists t,
    log (snd (fst (sendNewPrivateMessage kind username last cl s m)))
    = log s ++ t
    /\ lookup_pass True (resolves_to_users cl) (user_request cl kind) 1 1
         (pauses last) [username] m t
         (snd (sendNewPrivateMessage kind username last cl s m)).
Proof.
  remember (sendNewPrivateMessage kind username last cl s m) as r eqn:R.
  unfold sendNewPrivateMessage, sendOrRetry in R. unfold tbind at 1 2 in R.
  rewrite sendTo_run in R. cbv zeta in R.
  destruct (entity_answer cl (calls s)) as [message|user] eqn:E1.
  - destruct (floodWaitMatch message) as [digits|].
    + unfold tbind at 1 2 3 in R.
      cbv beta iota zeta delta
        [tsleep tlog currentDelay_double tbind tget tput] in R.
      rewrite sendTo_run in R. cbv zeta in R. cbn [calls looked_up] in R.
      destruct (entity_answer cl (S (calls s))) as [retryMessage|retryUser] eqn:E2.
      * destruct last; run_leaf R r; pass_leaf 2%nat.
      * destruct (className retryUser) eqn:C2;
          try (destruct (plain_answer cl (S (S (calls s)))));
          destruct last; run_leaf R r; pass_leaf 2%nat;
          user_requests; skipped_pause.
    + destruct last; run_leaf R r; pass_leaf 1%nat.
  - destruct (className user) eqn:C1;
      try (destruct last; run_leaf R r; pass_leaf 1%nat; skipped_pause; fail).
    destruct (plain_answer cl (S (calls s))) as [message|] eqn:A1;
      [|destruct last; run_leaf R r; pass_leaf 1%nat; user_requests].
    destruct (floodWaitMatch message) as [digits|];
      [|destruct last; run_leaf R r; pass_leaf 1%nat; user_requests].
    unfold tbind at 1 2 3 in R.
    cbv beta iota zeta delta
      [tsleep tlog currentDelay_double tbind tget tput] in R.
    rewrite sendTo_run in R. cbv zeta in R. cbn [calls looked_up called] in R.
    destruct (entity_answer cl (S (S (calls s))))
      as [retryMessage|retryUser] eqn:E2.
    + destruct last; run_leaf R r; pass_leaf 2%nat; user_requests.
    + destruct (className retryUser) eqn:C2;
        try (destruct (plain_answer cl (S (S (S (calls s))))));
        destruct last; run_leaf R r; pass_leaf 2%nat;
        user_requests; skipped_pause.
Qed.

(** [sendNewPrivateMessages] is the loop over the parsed names, then the
    disconnect. *)
Lemma sendNewPrivateMessages_run cl kind lines messageDelay :
  sendNewPrivateMessages cl kind lines messageDelay =
  let m0 := {| pc_currentDelay := messageDelay; pc_successCount := 0;
               pc_failCount := 0 |} in
  let r := tforLast (map parsed lines) (sendNewPrivateMessage kind) cl tool0 m0 in
  (noted TeDisconnect (snd (fst r)), snd r).
Proof.
  unfold sendNewPrivateMessages. cbv zeta. unfold tbind.
  destruct (tforLast (map parsed lines) (sendNewPrivateMessage kind) cl tool0 _)
    as [[[] s1] m1].
  reflexivity.
Qed.

(** X23. [sendNewPrivateMessages] counts every name once, writes to users
    only, and leaves out the pause after a name that is no user.  For one
    account and [n] names: the successes and the failures add up to [n];
    the names are looked up in the order entered, in their parsed form, each
    once and once more after a rate-limit hit; no message is sent without a
    lookup of its own, and each goes to an entity of class [User] that the
    client resolved a name to; no more successes are counted than messages
    were sent; of the [n - 1] sleeps between the names and the one per hit,
    some are left out, at most one per failure and none when every name
    resolves to a user; and the delay is doubled at every hit. *)
Theorem sendNewPrivateMessages_counts_every_name
    (cl : Client) (kind : MessageType) (lines : list string)
    (messageDelay : Q) :
  let r := sendNewPrivateMessages cl kind lines messageDelay in
  let t := log (fst r) in
  let n := List.length lines in
  let hits := List.length (tool_delays t) in
  (0 <= pc_successCount (snd r))%Z /\ (0 <= pc_failCount (snd r))%Z
  /\ (pc_successCount (snd r) + pc_failCount (snd r) = Z.of_nat n)%Z
  /\ (pc_successCount (snd r) <= Z.of_nat (List.length (tool_calls t)))%Z
  /\ (exists ks,
         List.length ks = n
         /\ Forall (fun k => k = 1 \/ k = 2)%nat ks
         /\ tool_lookups t
            = List.concat (map (fun nk => repeat (fst nk) (snd nk))
                             (combine (map parsed lines) ks)))
  /\ List.length (tool_lookups t) = (n + hits)%nat
  /\ (List.length (tool_calls t) <= List.length (tool_lookups t))%nat
  /\ Forall (user_request cl kind) (tool_calls t)
  /\ (exists skipped,
         (List.length (tool_sleeps t) + skipped = Nat.pred n + hits)%nat
         /\ (Z.of_nat skipped <= pc_failCount (snd r))%Z
         /\ (resolves_to_users cl -> skipped = 0%nat))
  /\ doubling_from messageDelay (tool_delays t)
  /\ pc_currentDelay (snd r) = last (tool_delays t) messageDelay.
Proof.
  cbv zeta. rewrite sendNewPrivateMessages_run.
  set (m0 := {| pc_currentDelay := messageDelay; pc_successCount := 0;
                pc_failCount := 0 |}).
  destruct (lookupLoop_pass _ _ _ _ (sendNewPrivateMessage kind) cl
              (sendNewPrivateMessage_pass kind cl)
              (map parsed lines) tool0 m0) as (t & E & Hp).
  cbn [log tool0 app] in E. cbv zeta. cbn [fst snd noted log]. rewrite E.
  rewrite !tool_calls_app, !tool_sleeps_app, !tool_delays_app, !tool_lookups_app.
  cbn [tool_calls tool_sleeps tool_delays tool_lookups]. rewrite !app_nil_r.
  rewrite length_map in Hp.
  pose proof (lp_success Hp) as Hs. pose proof (lp_fail Hp) as Hf.
  pose proof (lp_made Hp) as Hm.
  cbn [m0 pc_successCount pc_failCount] in Hs, Hf, Hm.
  destruct (lp_counted Hp) as (missed & Hc & _ & Hx).
  cbn [m0 pc_successCount pc_failCount] in Hc. rewrite (Hx I) in Hc.
  destruct (lp_lookups Hp) as (ks & Hlen & Hks & Hl & Hn).
  rewrite length_map in Hlen, Hn.
  destruct (lp_sleeps Hp) as (skipped & Hsl & Hb & Hz).
  cbn [m0 pc_failCount] in Hb.
  split; [lia|]. split; [lia|]. split; [lia|].
  split; [lia|]. split; [exists ks; tauto|]. split; [exact Hn|].
  split; [pose proof (lp_calls Hp); lia|]. split; [apply (lp_requests Hp)|].
  split; [exists skipped; split; [exact Hsl|]; split; [lia | exact Hz]|].
  split; [apply (lp_chain Hp) | apply (lp_delay Hp)].
Qed.

(** A link that resolves, after a wait, to something that is no group is
    counted neither as joined nor as failed. *)
Example joinGroups_can_miss_a_link :
  let r := joinGroups DemoLookup.slow_client DemoLookup.links 5 in
  pc_successCount (snd r) = 2%Z /\ pc_failCount (snd r) = 0%Z
  /\ List.length DemoLookup.links = 3%nat.
Proof. vm_compute. auto. Qed.

(** No pause follows a name that is no user. *)
Example sendNewPrivateMessages_can_skip_a_pause :
  let r := sendNewPrivateMessages DemoLookup.slow_client (TextMessage "hi")
             DemoLookup.links 5 in
  List.length (tool_sleeps (log (fst r))) = 2%nat
  /\ List.length (tool_delays (log (fst r))) = 1%nat
  /\ List.length DemoLookup.links = 3%nat.
Proof. vm_compute. auto. Qed.

(* ================================================================== *)
(** * Messaging all private chats *)

(** A paced loop whose body is a pass over one item is a pass over all of
    them, with a pause between any two. *)
Lemma pacedLoop_pass {A} (callOf : A -> ApiCall)
    (body : A -> bool -> Paced unit) cl :
  (forall x last s m,
      exists t,
        log (snd (fst (body x last cl s m))) = log s ++ t
        /\ paced_pass 1 (pauses last) [callOf x] m t
             (snd (body x last cl s m))) ->
  forall xs s m,
    exists t,
      log (snd (fst (tforLast xs body cl s m))) = log s ++ t
      /\ paced_pass (List.length xs) (Nat.pred (List.length xs))
           (map callOf xs) m t (snd (tforLast xs body cl s m)).
Proof.
  intros Hbody xs. induction xs as [|x xs IH]; intros s m.
  - exists []. cbn. rewrite app_nil_r. split; [reflexivity | apply paced_pass_nil].
  - destruct xs as [|x' xs].
    + apply (Hbody x true s m).
    + change (tforLast (x :: x' :: xs) body)
        with (tbind (body x false) (fun _ => tforLast (x' :: xs) body)).
      unfold tbind.
      destruct (Hbody x false s m) as (t1 & E1 & P1).
      destruct (body x false cl s m) as [[[] s1] m1].
      cbn [fst snd] in E1, P1.
      destruct (IH s1 m1) as (t2 & E2 & P2).
      exists (t1 ++ t2). rewrite E2, E1, app_assoc. split; [reflexivity|].
      exact (paced_pass_app _ _ _ _ _ _ _ _ _ _ _ P1 P2).
Qed.

(** Closes the fields of a [paced_pass] over one item that hold by
    computation, [n] being the number of requests. *)
Ltac paced_leaf n :=
  constructor;
  cbn [tool_calls tool_sleeps tool_delays saved_groups saved_chats
       List.length pauses pc_currentDelay pc_successCount pc_failCount last];
  [ lia | lia | lia
  | exists [n]; split; [reflexivity|]; split; [repeat constructor; auto|];
    split; reflexivity
  | lia
  | cbn; try tauto; try (split; [reflexivity | exact I])
  | reflexivity
  | split; reflexivity ].

(** One chat: counted once, messaged with one request or two, and a pause
    after it unless it is the last. *)
Lemma messageChat_pass kind cl user last s m :
  exists t,
    log (snd (fst (messageChat kind user last cl s m))) = log s ++ t
    /\ paced_pass 1 (pauses last) [deliverTo kind user] m t
         (snd (messageChat kind user last cl s m)).
Proof.
  remember (messageChat kind user last cl s m) as r eqn:R.
  unfold messageChat in R. unfold tbind at 1 2 in R. unfold tinvoke at 1 in R.
  destruct (plain_answer cl (calls s)) as [message|].
  - destruct (floodWaitMatch message) as [digits|].
    + unfold tbind at 1 2 3 in R.
      cbv beta iota zeta delta
        [tsleep tlog currentDelay_double tbind tget tput tinvoke] in R.
      cbn [calls] in R.
      destruct (plain_answer cl (S (calls s)));
        destruct last; run_leaf R r; paced_leaf 2%nat.
    + destruct last; run_leaf R r; paced_leaf 1%nat.
  - destruct last; run_leaf R r; paced_leaf 1%nat.
Qed.

(** The log when the chats have been chosen: the fresh ones are saved. *)
Lemma choosePrivateChats_run accountNumber cachedChats useCache dialogs cl s m :
  choosePrivateChats accountNumber cachedChats useCache dialogs cl s m =
  (match chosen_chats cachedChats useCache dialogs with
   | Some chats => inr chats
   | None => match dialogs with
             | inl message => inl message
             | inr ds => inr (privateChatsOf ds)
             end
   end,
   if cache_used cachedChats useCache then s
   else match dialogs with
        | inl _ => s
        | inr ds => noted (TeSaveChats accountNumber (privateChatsOf ds)) s
        end,
   m).
Proof.
  unfold choosePrivateChats, chosen_chats, cache_used, fetchPrivateChats.
  destruct cachedChats as [[|chat chats]|]; try destruct useCache;
    destruct dialogs as [message|ds]; reflexivity.
Qed.

(** Without chosen chats the dialogs could not be fetched. *)
Lemma chosen_chats_none cachedChats useCache dialogs :
  chosen_chats cachedChats useCache dialogs = None ->
  exists message, dialogs = inl message.
Proof.
  unfold chosen_chats.
  destruct cachedChats as [[|chat chats]|]; try destruct useCache;
    destruct dialogs as [message|ds]; try discriminate; eauto.
Qed.

(** The loop over the chats, then the disconnect, from a state in which
    nothing was requested yet. *)
Lemma messageChats_facts kind chats cl s0 m0 :
  tool_calls (log s0) = [] -> tool_sleeps (log s0) = [] ->
  tool_delays (log s0) = [] ->
  let r := tforLast chats (messageChat kind) cl s0 m0 in
  let t := log (snd (fst r)) ++ [TeDisconnect] in
  saved_chats t = saved_chats (log s0)
  /\ (exists ks,
         List.length ks = List.length chats
         /\ Forall (fun k => k = 1 \/ k = 2)%nat ks
         /\ tool_calls t
            = List.concat (map (fun ck => repeat (fst ck) (snd ck))
                             (combine (map (deliverTo kind) chats) ks)))
  /\ (pc_successCount (snd r) + pc_failCount (snd r)
      = pc_successCount m0 + pc_failCount m0 + Z.of_nat (List.length chats))%Z
  /\ (pc_successCount m0 <= pc_successCount (snd r))%Z
  /\ (pc_failCount m0 <= pc_failCount (snd r))%Z
  /\ List.length (tool_sleeps t)
     = (Nat.pred (List.length chats) + List.length (tool_delays t))%nat
  /\ doubling_from (pc_currentDelay m0) (tool_delays t)
  /\ pc_currentDelay (snd r) = last (tool_delays t) (pc_currentDelay m0).
Proof.
  intros Hc Hs Hd. cbv zeta.
  destruct (pacedLoop_pass (deliverTo kind) (messageChat kind) cl
              (messageChat_pass kind cl) chats s0 m0) as (t & E & Hp).
  rewrite E.
  rewrite !saved_chats_app, !tool_calls_app, !tool_sleeps_app, !tool_delays_app.
  rewrite Hc, Hs, Hd.
  cbn [saved_chats tool_calls tool_sleeps tool_delays app]. rewrite !app_nil_r.
  destruct (pp_quiet Hp) as [_ Hq]. rewrite Hq, app_nil_r.
  destruct (pp_calls Hp) as (ks & Hlen & Hks & Hcalls & Hn).
  rewrite length_map in Hlen.
  split; [reflexivity|]. split; [exists ks; tauto|].
  split; [apply (pp_counted Hp)|]. split; [apply (pp_success Hp)|].
  split; [apply (pp_fail Hp)|]. split; [apply (pp_sleeps Hp)|].
  split; [apply (pp_chain Hp) | apply (pp_delay Hp)].
Qed.

(** [messageAllPrivateChats], case by case. *)
Lemma messageAllPrivateChats_run cl accountNumber cachedChats useCache dialogs
    choice messageDelay :
  messageAllPrivateChats cl accountNumber cachedChats useCache dialogs choice
    messageDelay =
  let m0 := {| pc_currentDelay := messageDelay; pc_successCount := 0;
               pc_failCount := 0 |} in
  let s0 := if cache_used cachedChats useCache then tool0
            else match dialogs with
                 | inl _ => tool0
                 | inr ds =>
                     noted (TeSaveChats accountNumber (privateChatsOf ds)) tool0
                 end in
  match chosen_chats cachedChats useCache dialogs with
  | None | Some [] => (noted TeDisconnect s0, m0)
  | Some chats =>
      match choice with
      | inl messageText =>
          let r := tforLast chats (messageChat (TextMessage messageText))
                     cl s0 m0 in
          (noted TeDisconnect (snd (fst r)), snd r)
      | inr (sourceChannelId, messageId) =>
          let s1 := looked_up sourceChannelId s0 in
          match entity_answer cl (calls s0) with
          | inl _ => (noted TeDisconnect s1, m0)
          | inr sourceChannel =>
              let r := tforLast chats
                         (messageChat (Forwarded sourceChannel messageId))
                         cl s1 m0 in
              (noted TeDisconnect (snd (fst r)), snd r)
          end
      end
  end.
Proof.
  unfold messageAllPrivateChats, messagePrivateChats. cbv zeta.
  unfold tbind at 1. rewrite choosePrivateChats_run.
  destruct (chosen_chats cachedChats useCache dialogs) as [[|chat chats]|] eqn:C.
  - reflexivity.
  - destruct choice as [messageText|[sourceChannelId messageId]].
    + unfold tbind.
      destruct (tforLast (chat :: chats) _ cl _ _) as [[[] s1] m1]. reflexivity.
    + unfold tbind at 1. unfold tgetEntity at 1.
      destruct (entity_answer cl _) as [message|sourceChannel]; [reflexivity|].
      unfold tbind. unfold looked_up.
      destruct (tforLast (chat :: chats) _ cl _ _) as [[[] s1] m1]. reflexivity.
  - destruct (chosen_chats_none _ _ _ C) as [message ->]. reflexivity.
Qed.

(** X24. [messageAllPrivateChats] messages the chats it chose, each once.
    For one account, once connected: it always ends by disconnecting; fresh
    chats are saved, once and under the account's number, exactly when the
    cache is not used and the dialogs can be fetched, and they are the users
    among the dialogs; the messages go to the chosen chats in order, one
    request each and one more per rate-limit hit, carrying what the operator
    chose; every chat messaged is counted once, as a success or a failure;
    there is a sleep between two chats, none after the last, and one per
    hit; and the delay is doubled at every hit.  With a text to send, all
    the chosen chats are messaged. *)
Theorem messageAllPrivateChats_messages_the_chosen_chats
    (cl : Client) (accountNumber : string) (cachedChats : option (list Entity))
    (useCache : bool) (dialogs : string + list Peer) (choice : MessageChoice)
    (messageDelay : Q) :
  let r := messageAllPrivateChats cl accountNumber cachedChats useCache
             dialogs choice messageDelay in
  let t := log (fst r) in
  let hits := List.length (tool_delays t) in
  (exists t', t = t' ++ [TeDisconnect])
  /\ saved_chats t
     = (if cache_used cachedChats useCache then []
        else match dialogs with
             | inl _ => []
             | inr ds => [(accountNumber, privateChatsOf ds)]
             end)
  /\ (exists kind chats ks,
         (chats = [] \/ chosen_chats cachedChats useCache dialogs = Some chats)
         /\ (forall messageText chosen,
                choice = inl messageText ->
                chosen_chats cachedChats useCache dialogs = Some chosen ->
                chats = chosen)
         /\ chosen_message choice kind
         /\ List.length ks = List.length chats
         /\ Forall (fun k => k = 1 \/ k = 2)%nat ks
         /\ tool_calls t
            = List.concat (map (fun ck => repeat (fst ck) (snd ck))
                             (combine (map (deliverTo kind) chats) ks))
         /\ (pc_successCount (snd r) + pc_failCount (snd r)
             = Z.of_nat (List.length chats))%Z
         /\ (0 <= pc_successCount (snd r))%Z /\ (0 <= pc_failCount (snd r))%Z
         /\ List.length (tool_sleeps t)
            = (Nat.pred (List.length chats) + hits)%nat)
  /\ doubling_from messageDelay (tool_delays t)
  /\ pc_currentDelay (snd r) = last (tool_delays t) messageDelay.
Proof.
  cbv zeta. rewrite messageAllPrivateChats_run.
  set (m0 := {| pc_currentDelay := messageDelay; pc_successCount := 0;
                pc_failCount := 0 |}).
  set (s0 := if cache_used cachedChats useCache then tool0
             else match dialogs with
                  | inl _ => tool0
                  | inr ds =>
                      noted (TeSaveChats accountNumber (privateChatsOf ds)) tool0
                  end).
  assert (Hs0 : tool_calls (log s0) = [] /\ tool_sleeps (log s0) = []
                /\ tool_delays (log s0) = []
                /\ saved_chats (log s0)
                   = (if cache_used cachedChats useCache then []
                      else match dialogs with
                           | inl _ => []
                           | inr ds => [(accountNumber, privateChatsOf ds)]
                           end)).
  { subst s0. destruct (cache_used cachedChats useCache);
      [|destruct dialogs]; repeat split; reflexivity. }
  destruct Hs0 as (Hc0 & Hsl0 & Hd0 & Hsv0).
  assert (Hskip : forall s1 : ToolSys,
    tool_calls (log s1) = [] -> tool_sleeps (log s1) = [] ->
    tool_delays (log s1) = [] -> saved_chats (log s1) = saved_chats (log s0) ->
    forall kind, chosen_message choice kind ->
    (forall messageText chosen,
        choice = inl messageText ->
        chosen_chats cachedChats useCache dialogs = Some chosen -> [] = chosen) ->
    let r := (noted TeDisconnect s1, m0) in
    let t := log (fst r) in
    (exists t', t = t' ++ [TeDisconnect])
    /\ saved_chats t
       = (if cache_used cachedChats useCache then []
          else match dialogs with
               | inl _ => []
               | inr ds => [(accountNumber, privateChatsOf ds)]
               end)
    /\ (exists kind chats ks,
           (chats = [] \/ chosen_chats cachedChats useCache dialogs = Some chats)
           /\ (forall messageText chosen,
                  choice = inl messageText ->
                  chosen_chats cachedChats useCache dialogs = Some chosen ->
                  chats = chosen)
           /\ chosen_message choice kind
           /\ List.length ks = List.length chats
           /\ Forall (fun k => k = 1 \/ k = 2)%nat ks
           /\ tool_calls t
              = List.concat (map (fun ck => repeat (fst ck) (snd ck))
                               (combine (map (deliverTo kind) chats) ks))
           /\ (pc_successCount (snd r) + pc_failCount (snd r)
               = Z.of_nat (List.length chats))%Z
           /\ (0 <= pc_successCount (snd r))%Z /\ (0 <= pc_failCount (snd r))%Z
           /\ List.length (tool_sleeps t)
              = (Nat.pred (List.length chats) + List.length (tool_delays t))%nat)
    /\ doubling_from messageDelay (tool_delays t)
    /\ pc_currentDelay (snd r) = last (tool_delays t) messageDelay).
  { intros s1 H1 H2 H3 H4 kind Hk Hall. cbv zeta. cbn [fst snd noted log].
    rewrite saved_chats_app, tool_calls_app, tool_sleeps_app, tool_delays_app.
    rewrite H1, H2, H3, H4, Hsv0. cbn. rewrite app_nil_r.
    split; [eexists; reflexivity|]. split; [reflexivity|].
    split; [|split; [exact I | reflexivity]].
    exists kind, [], []. cbn. repeat split; auto; lia. }
  assert (Hloop : forall (s1 : ToolSys) kind chats,
    tool_calls (log s1) = [] -> tool_sleeps (log s1) = [] ->
    tool_delays (log s1) = [] -> saved_chats (log s1) = saved_chats (log s0) ->
    chosen_message choice kind ->
    chosen_chats cachedChats useCache dialogs = Some chats ->
    let r0 := tforLast chats (messageChat kind) cl s1 m0 in
    let r := (noted TeDisconnect (snd (fst r0)), snd r0) in
    let t := log (fst r) in
    (exists t', t = t' ++ [TeDisconnect])
    /\ saved_chats t
       = (if cache_used cachedChats useCache then []
          else match dialogs with
               | inl _ => []
               | inr ds => [(accountNumber, privateChatsOf ds)]
               end)
    /\ (exists kind chats ks,
           (chats = [] \/ chosen_chats cachedChats useCache dialogs = Some chats)
           /\ (forall messageText chosen,
                  choice = inl messageText ->
                  chosen_chats cachedChats useCache dialogs = Some chosen ->
                  chats = chosen)
           /\ chosen_message choice kind
           /\ List.length ks = List.length chats
           /\ Forall (fun k => k = 1 \/ k = 2)%nat ks
           /\ tool_calls t
              = List.concat (map (fun ck => repeat (fst ck) (snd ck))
                               (combine (map (deliverTo kind) chats) ks))
           /\ (pc_successCount (snd r) + pc_failCount (snd r)
               = Z.of_nat (List.length chats))%Z
           /\ (0 <= pc_successCount (snd r))%Z /\ (0 <= pc_failCount (snd r))%Z
           /\ List.length (tool_sleeps t)
              = (Nat.pred (List.length chats) + List.length (tool_delays t))%nat)
    /\ doubling_from messageDelay (tool_delays t)
    /\ pc_currentDelay (snd r) = last (tool_delays t) messageDelay).
  { intros s1 kind chats H1 H2 H3 H4 Hk Hch. cbv zeta. cbn [fst snd noted log].
    destruct (messageChats_facts kind chats cl s1 m0 H1 H2 H3)
      as (Fsv & (ks & Fl & Fk & Fc) & Fn & Fs & Ff & Fsl & Fch & Fd).
    cbn [m0 pc_successCount pc_failCount pc_currentDelay] in Fn, Fs, Ff, Fch, Fd.
    split; [eexists; reflexivity|].
    split; [rewrite Fsv, H4; exact Hsv0|].
    split; [|split; assumption].
    exists kind, chats, ks.
    split; [right; exact Hch|].
    split; [intros ? ? _ Hc'; congruence|].
    repeat split; auto; lia. }
  cbv zeta. fold m0. fold s0.
  destruct (chosen_chats cachedChats useCache dialogs) as [[|chat chats]|] eqn:C.
  - apply (Hskip s0 Hc0 Hsl0 Hd0 eq_refl
             (match choice with
              | inl messageText => TextMessage messageText
              | inr (_, messageId) =>
                  Forwarded (DemoTools.user 0 false) messageId
              end)).
    + destruct choice as [messageText|[sourceChannelId messageId]]; cbn; eauto.
    + intros ? ? _ Hc'. congruence.
  - destruct choice as [messageText|[sourceChannelId messageId]].
    + apply (Hloop s0 (TextMessage messageText) (chat :: chats)
               Hc0 Hsl0 Hd0 eq_refl eq_refl eq_refl).
    + destruct (entity_answer cl (calls s0)) as [message|sourceChannel].
      * refine (Hskip (looked_up sourceChannelId s0) _ _ _ _
                  (Forwarded (DemoTools.user 0 false) messageId) _ _).
        -- cbn [looked_up log]. rewrite tool_calls_app, Hc0. reflexivity.
        -- cbn [looked_up log]. rewrite tool_sleeps_app, Hsl0. reflexivity.
        -- cbn [looked_up log]. rewrite tool_delays_app, Hd0. reflexivity.
        -- cbn [looked_up log]. rewrite saved_chats_app. cbn. apply app_nil_r.
        -- exists (DemoTools.user 0 false). reflexivity.
        -- intros ? ? Hc'. discriminate.
      * refine (Hloop (looked_up sourceChannelId s0)
                  (Forwarded sourceChannel messageId) (chat :: chats)
                  _ _ _ _ _ _).
        -- cbn [looked_up log]. rewrite tool_calls_app, Hc0. reflexivity.
        -- cbn [looked_up log]. rewrite tool_sleeps_app, Hsl0. reflexivity.
        -- cbn [looked_up log]. rewrite tool_delays_app, Hd0. reflexivity.
        -- cbn [looked_up log]. rewrite saved_chats_app. cbn. apply app_nil_r.
        -- exists sourceChannel. reflexivity.
        -- reflexivity.
  - apply (Hskip s0 Hc0 Hsl0 Hd0 eq_refl
             (match choice with
              | inl messageText => TextMessage messageText
              | inr (_, messageId) =>
                  Forwarded (DemoTools.user 0 false) messageId
              end)).
    + destruct choice as [messageText|[sourceChannelId messageId]]; cbn; eauto.
    + intros ? ? _ Hc'. discriminate.
Qed.

(* ================================================================== *)
(** * Adding users to a group *)

Lemma tool_clients_app a b :
  tool_clients (a ++ b) = tool_clients a ++ tool_clients b.
Proof.
  induction a as [|e a IH]; [reflexivity|].
  destruct e; simpl; rewrite ?IH; reflexivity.
Qed.

Lemma tool_disconnects_app a b :
  tool_disconnects (a ++ b) = (tool_disconnects a + tool_disconnects b)%nat.
Proof.
  induction a as [|e a IH]; [reflexivity|].
  destruct e; simpl; rewrite ?IH; reflexivity.
Qed.

(** The request that invites a user, case by case. *)
Lemma inviteTo_run targetGroup user cl s m :
  inviteTo targetGroup user cl s m =
  match invite_call targetGroup user with
  | Some call => (plain_answer cl (calls s), called call s, m)
  | None => (None, s, m)
  end.
Proof.
  unfold inviteTo, invite_call. destruct (className targetGroup); reflexivity.
Qed.

(** The block that adds a user, case by case. *)
Lemma addTo_run targetGroup username cl s m :
  addTo targetGroup username cl s m =
  let s1 := looked_up username s in
  match entity_answer cl (calls s) with
  | inl message => (inr message, s1, m)
  | inr user =>
      match className user with
      | User =>
          let s2 := called (AddContact (entity_id (peer_entity user))) s1 in
          match plain_answer cl (S (calls s)) with
          | Some message => (inr message, s2, m)
          | None =>
              match invite_call targetGroup user with
              | None => (inl Next, s2, scored true m)
              | Some call =>
                  match plain_answer cl (S (S (calls s))) with
                  | Some message => (inr message, called call s2, m)
                  | None => (inl Next, called call s2, scored true m)
                  end
              end
          end
      | _ => (inl Continue, s1, scored false m)
      end
  end.
Proof.
  unfold addTo, tbind at 1, tgetEntity at 1. cbv zeta.
  destruct (entity_answer cl (calls s)) as [message|user]; [reflexivity|].
  destruct (className user); try reflexivity.
  unfold tbind at 1, tinvoke at 1. cbn [calls looked_up].
  destruct (plain_answer cl (S (calls s))); [reflexivity|].
  unfold tbind at 1. rewrite inviteTo_run.
  destruct (invite_call targetGroup user); [|reflexivity].
  cbn [calls]. destruct (plain_answer cl (S (S (calls s)))); reflexivity.
Qed.

Lemma adder_pass_nil cl connected targetGroup i m :
  adder_pass cl connected targetGroup i 0 0 [] m [] m.
Proof.
  constructor; cbn; try reflexivity; try lia. apply lookup_pass_nil.
Qed.

Lemma adder_pass_app cl connected targetGroup i k1 k2 p1 p2 c1 c2 m m1 m2
    t1 t2 :
  adder_pass cl connected targetGroup i k1 p1 c1 m t1 m1 ->
  adder_pass cl connected targetGroup (i + k1) k2 p2 c2 m1 t2 m2 ->
  adder_pass cl connected targetGroup i (k1 + k2) (p1 + p2) (c1 ++ c2) m
    (t1 ++ t2) m2.
Proof.
  intros H1 H2. constructor.
  - exact (lookup_pass_app _ _ _ _ _ _ _ _ _ _ _ _ _ _ _
             (ap_pass H1) (ap_pass H2)).
  - rewrite tool_clients_app, (ap_clients H1), (ap_clients H2).
    rewrite seq_app, map_app. reflexivity.
  - rewrite tool_calls_app, filter_app, length_app.
    pose proof (ap_contacts H1). pose proof (ap_contacts H2). lia.
  - rewrite tool_disconnects_app, (ap_connected H1), (ap_connected H2).
    reflexivity.
Qed.

(** A request made for a user the client has answered with. *)
Ltac add_requests :=
  try match goal with
      | E : entity_answer ?cl ?k = inr ?e, C : className ?e = User
        |- add_request ?cl _ (AddContact (entity_id (peer_entity ?e))) =>
          exists k, e; split; [exact E | split; [exact C | left; reflexivity]]
      | E : entity_answer ?cl ?k = inr ?e, C : className ?e = User,
        J : invite_call ?tg ?e = Some ?c
        |- add_request ?cl ?tg ?c =>
          exists k, e; split; [exact E | split; [exact C | right; exact J]]
      end.

(** A pause left out after a username that resolved to something else than
    a user. *)
Ltac skipped_add :=
  try match goal with
      | E : entity_answer ?cl ?k = inr ?e, C : className ?e = _
        |- exists skipped : nat, _ =>
          exists 1%nat; split; [lia|]; split; [lia|];
          intros X; exfalso;
          rewrite (X k e ltac:(lia) E) in C; discriminate
      end.

(** Closes the fields of an [adder_pass] over one username that hold by
    computation, [n] being the number of lookups. *)
Ltac adder_leaf n :=
  split;
  [ constructor;
    [ pass_leaf n
    | reflexivity
    | cbn [tool_calls filter is_add_contact List.length pc_successCount];
      repeat match goal with
             | |- context [is_add_contact ?c] => destruct (is_add_contact c)
             end;
      cbn [List.length]; lia
    | reflexivity ]
  | cbn [calls]; lia ].

(** The retry of [addOrRetry], set up for [addTo_run]. *)
Ltac retry_add R :=
  unfold tbind at 1 2 3 in R;
  cbv beta iota zeta delta
    [tsleep tlog currentDelay_double tbind tget tput] in R;
  rewrite addTo_run in R; cbv zeta in R; cbn [calls looked_up called log] in R.

(** The cases of the retry, [k] being the number of its lookup. *)
Ltac retry_cases R r cl targetGroup last k :=
  let retryMessage := fresh "retryMessage" in
  let retryUser := fresh "retryUser" in
  let E2 := fresh "E2" in
  let C2 := fresh "C2" in
  let J2 := fresh "J2" in
  retry_add R;
  destruct (entity_answer cl k) as [retryMessage|retryUser] eqn:E2;
  [ destruct last; run_leaf R r; adder_leaf 2%nat; add_requests
  | destruct (className retryUser) eqn:C2;
    try (destruct last; run_leaf R r; adder_leaf 2%nat;
         add_requests; skipped_add; fail);
    destruct (plain_answer cl (S k));
    [ destruct last; run_leaf R r; adder_leaf 2%nat; add_requests |];
    destruct (invite_call targetGroup retryUser) eqn:J2;
    [ destruct (plain_answer cl (S (S k))) |];
    destruct last; run_leaf R r; adder_leaf 2%nat; add_requests ].

Lemma addUser_pass cl connected targetGroup i username last s m :
  (1 <= calls s)%nat ->
  exists t,
    log (snd (fst (addUser connected targetGroup i username last cl s m)))
    = log s ++ t
    /\ adder_pass cl connected targetGroup i 1 (pauses last) [username] m t
         (snd (addUser connected targetGroup i username last cl s m))
    /\ (1 <= calls (snd (fst (addUser connected targetGroup i username last
                                cl s m))))%nat.
Proof.
  intros Hk.
  remember (addUser connected targetGroup i username last cl s m) as r eqn:R.
  unfold addUser, addOrRetry in R. unfold tbind at 1 2 3 in R.
  unfold tlog at 1 in R. rewrite addTo_run in R. cbv zeta in R.
  cbn [calls looked_up log] in R.
  destruct (entity_answer cl (calls s)) as [message|user] eqn:E1.
  - destruct (floodWaitMatch message) as [digits|].
    + retry_cases R r cl targetGroup last (S (calls s)).
    + destruct last; run_leaf R r; adder_leaf 1%nat.
  - destruct (className user) eqn:C1;
      try (destruct last; run_leaf R r; adder_leaf 1%nat;
           add_requests; skipped_add; fail).
    destruct (plain_answer cl (S (calls s))) as [message|].
    + destruct (floodWaitMatch message) as [digits|].
      * retry_cases R r cl targetGroup last (S (S (calls s))).
      * destruct last; run_leaf R r; adder_leaf 1%nat; add_requests.
    + destruct (invite_call targetGroup user) as [call|] eqn:J1.
      * destruct (plain_answer cl (S (S (calls s)))) as [message|].
        -- destruct (floodWaitMatch message) as [digits|].
           ++ retry_cases R r cl targetGroup last (S (S (S (calls s)))).
           ++ destruct last; run_leaf R r; adder_leaf 1%nat; add_requests.
        -- destruct last; run_leaf R r; adder_leaf 1%nat; add_requests.
      * destruct last; run_leaf R r; adder_leaf 1%nat; add_requests.
Qed.

(** The loop over the usernames, from the username number [i] on. *)
Lemma addLoop_pass cl connected targetGroup names : forall i s m,
  (1 <= calls s)%nat ->
  exists t,
    log (snd (fst (tforIndexed i names (addUser connected targetGroup) cl s m)))
    = log s ++ t
    /\ adder_pass cl connected targetGroup i (List.length names)
         (Nat.pred (List.length names)) names m t
         (snd (tforIndexed i names (addUser connected targetGroup) cl s m)).
Proof.
  induction names as [|name names IH]; intros i s m Hk.
  - exists []. cbn. rewrite app_nil_r. split; [reflexivity | apply adder_pass_nil].
  - destruct names as [|name' names].
    + destruct (addUser_pass cl connected targetGroup i name true s m Hk)
        as (t & E & P & _).
      exists t. split; assumption.
    + change (tforIndexed i (name :: name' :: names)
                (addUser connected targetGroup))
        with (tbind (addUser connected targetGroup i name false)
                (fun _ => tforIndexed (S i) (name' :: names)
                            (addUser connected targetGroup))).
      unfold tbind.
      destruct (addUser_pass cl connected targetGroup i name false s m Hk)
        as (t1 & E1 & P1 & K1).
      destruct (addUser connected targetGroup i name false cl s m)
        as [[[] s1] m1].
      cbn [fst snd] in E1, P1, K1.
      destruct (IH (S i) s1 m1 K1) as (t2 & E2 & P2).
      exists (t1 ++ t2). rewrite E2, E1, app_assoc. split; [reflexivity|].
      refine (adder_pass_app _ _ _ _ _ _ _ _ _ _ _ _ _ _ _ P1 _).
      replace (i + 1)%nat with (S i) by lia. exact P2.
Qed.

(** The final disconnects. *)
Lemma disconnectAll_run connected cl s (m : Pacer) :
  disconnectAll connected cl s m
  = (tt, {| calls := calls s; log := log s ++ repeat TeDisconnect connected |},
     m).
Proof.
  revert s. induction connected as [|k IH]; intros s.
  - cbn. rewrite app_nil_r. destruct s; reflexivity.
  - cbn [disconnectAll]. unfold tbind, tlog. rewrite IH. cbn [calls log].
    rewrite <- app_assoc. reflexivity.
Qed.

(** [groupAdder], case by case. *)
Lemma groupAdder_run cl connected groupLink lines addDelay :
  groupAdder cl connected groupLink lines addDelay =
  let m0 := {| pc_currentDelay := addDelay; pc_successCount := 0;
               pc_failCount := 0 |} in
  let s1 := looked_up (parsed groupLink) (noted (TeUseClient 0) tool0) in
  let bye s := {| calls := calls s;
                  log := log s ++ repeat TeDisconnect connected |} in
  if (connected =? 0)%nat then (tool0, m0)
  else
    match entity_answer cl 0 with
    | inl _ => (bye s1, m0)
    | inr targetGroup =>
        let r := tforIndexed 0 (map parsed lines)
                   (addUser connected targetGroup) cl s1 m0 in
        (bye (snd (fst r)), snd r)
    end.
Proof.
  unfold groupAdder, addUsers. cbv zeta.
  destruct (connected =? 0)%nat; [reflexivity|].
  unfold tbind at 1 2. unfold tlog at 1, tgetEntity at 1. cbn [calls tool0].
  destruct (entity_answer cl 0) as [message|targetGroup].
  - rewrite disconnectAll_run. reflexivity.
  - unfold tbind.
    change {| calls := 1; log := log {| calls := 0; log := [] ++ [TeUseClient 0] |}
                                 ++ [TeGetEntity (parsed groupLink)] |}
      with (looked_up (parsed groupLink) (noted (TeUseClient 0) tool0)).
    destruct (tforIndexed 0 (map parsed lines) _ cl _ _) as [[[] s1] m1].
    rewrite disconnectAll_run. reflexivity.
Qed.

(** X25. [groupAdder] shares the usernames among the connected accounts in
    turn and counts each once.  When [connected] accounts have connected and
    the first of them resolves the target group: the username number [i]
    (from 0) is handled through the account number [i mod connected]; the
    successes and the failures add up to the number of usernames; the names
    are looked up in the order entered, in their parsed form, each once and
    once more after a rate-limit hit; every request adds a user that the
    client resolved a name to, to the contacts or to the target group; no
    more successes are counted than users were added to the contacts, and
    when the target is neither a channel nor a chat no user is ever invited
    to it; of the sleeps between the names and the one per hit, some are
    left out, at most one per failure and none when every name resolves to a
    user; the delay is doubled at every hit; and in the end every connected
    account is disconnected. *)
Theorem groupAdder_shares_the_names_in_turn
    (cl : Client) (connected : nat) (groupLink : string)
    (lines : list string) (addDelay : Q) (targetGroup : Peer)
    (Hconnected : (0 < connected)%nat)
    (Hgroup : entity_answer cl 0 = inr targetGroup) :
  let r := groupAdder cl connected groupLink lines addDelay in
  let t := log (fst r) in
  let n := List.length lines in
  let hits := List.length (tool_delays t) in
  tool_clients t = (0 :: map (fun i => i mod connected) (seq 0 n))%nat
  /\ (pc_successCount (snd r) + pc_failCount (snd r) = Z.of_nat n)%Z
  /\ (0 <= pc_successCount (snd r))%Z /\ (0 <= pc_failCount (snd r))%Z
  /\ (pc_successCount (snd r)
      <= Z.of_nat (List.length (filter is_add_contact (tool_calls t))))%Z
  /\ (exists ks,
         List.length ks = n
         /\ Forall (fun k => k = 1 \/ k = 2)%nat ks
         /\ tool_lookups t
            = parsed groupLink
              :: List.concat (map (fun nk => repeat (fst nk) (snd nk))
                                (combine (map parsed lines) ks)))
  /\ Forall (add_request cl targetGroup) (tool_calls t)
  /\ (invite_call targetGroup targetGroup = None ->
      Forall (fun call => is_add_contact call = true) (tool_calls t))
  /\ (exists skipped,
         (List.length (tool_sleeps t) + skipped = Nat.pred n + hits)%nat
         /\ (Z.of_nat skipped <= pc_failCount (snd r))%Z
         /\ (names_resolve_to_users cl -> skipped = 0%nat))
  /\ doubling_from addDelay (tool_delays t)
  /\ pc_currentDelay (snd r) = last (tool_delays t) addDelay
  /\ tool_disconnects t = connected.
Proof.
  cbv zeta. rewrite groupAdder_run. cbv zeta.
  destruct (Nat.eqb_spec connected 0) as [E0|_]; [lia|].
  rewrite Hgroup.
  set (m0 := {| pc_currentDelay := addDelay; pc_successCount := 0;
                pc_failCount := 0 |}).
  set (s1 := looked_up (parsed groupLink) (noted (TeUseClient 0) tool0)).
  destruct (addLoop_pass cl connected targetGroup (map parsed lines) 0 s1 m0)
    as (t & E & Ha); [cbn; lia|].
  pose proof (ap_pass Ha) as Hp. rewrite length_map in Ha, Hp.
  cbn [fst snd log]. rewrite E.
  change (log s1) with [TeUseClient 0; TeGetEntity (parsed groupLink)].
  rewrite <- ?app_assoc. cbn [app].
  cbn [tool_clients tool_calls tool_lookups tool_sleeps tool_delays
       tool_disconnects].
  rewrite !tool_clients_app, !tool_calls_app, !tool_lookups_app,
    !tool_sleeps_app, !tool_delays_app, !tool_disconnects_app.
  assert (Hbye : tool_clients (repeat TeDisconnect connected) = []
                 /\ tool_calls (repeat TeDisconnect connected) = []
                 /\ tool_lookups (repeat TeDisconnect connected) = []
                 /\ tool_sleeps (repeat TeDisconnect connected) = []
                 /\ tool_delays (repeat TeDisconnect connected) = []
                 /\ tool_disconnects (repeat TeDisconnect connected)
                    = connected).
  { clear. induction connected as [|k IH]; cbn; [tauto|].
    destruct IH as (? & ? & ? & ? & ? & ->). tauto. }
  destruct Hbye as (-> & -> & -> & -> & -> & ->). rewrite !app_nil_r.
  pose proof (lp_success Hp) as Hs. pose proof (lp_fail Hp) as Hf.
  pose proof (ap_contacts Ha) as Hm.
  cbn [m0 pc_successCount pc_failCount] in Hs, Hf, Hm.
  destruct (lp_counted Hp) as (missed & Hc & _ & Hx).
  cbn [m0 pc_successCount pc_failCount] in Hc. rewrite (Hx I) in Hc.
  destruct (lp_lookups Hp) as (ks & Hlen & Hks & Hl & Hn).
  rewrite length_map in Hlen.
  destruct (lp_sleeps Hp) as (skipped & Hsl & Hb & Hz).
  cbn [m0 pc_failCount] in Hb.
  split; [rewrite (ap_clients Ha); reflexivity|].
  split; [lia|]. split; [lia|]. split; [lia|]. split; [lia|].
  split; [exists ks; rewrite Hl; tauto|].
  split; [apply (lp_requests Hp)|].
  split.
  { intros Hnone. eapply Forall_impl; [|apply (lp_requests Hp)].
    intros call (k & user & _ & _ & [->|Hi]); [reflexivity|].
    exfalso. unfold invite_call in *.
    destruct (className targetGroup); discriminate. }
  split; [exists skipped; split; [exact Hsl|]; split; [lia | exact Hz]|].
  split; [apply (lp_chain Hp)|]. split; [apply (lp_delay Hp)|].
  rewrite (ap_connected Ha). reflexivity.
Qed.

Lemma groupAdder_shares_the_names_in_turn_witness :
  let r := groupAdder DemoAdder.client 2 "t.me/target" DemoLookup.links 5 in
  tool_clients (log (fst r)) = [0; 0; 1; 0]%nat
  /\ (pc_successCount (snd r) + pc_failCount (snd r) = 3)%Z
  /\ tool_disconnects (log (fst r)) = 2%nat.
Proof.
  pose proof (groupAdder_shares_the_names_in_turn DemoAdder.client 2
                "t.me/target" DemoLookup.links 5 (DemoTools.supergroup 1)
                ltac:(lia) eq_refl) as H.
  cbv zeta in H. destruct H as (Hc & Hn & _ & _ & _ & _ & _ & _ & _ & _ & _ & Hd).
  split; [exact Hc|]. split; [exact Hn | exact Hd].
Defined.

